(** * Partition bounds, bound search, overlap checking and tuple routing

    A shallow embedding of [src/backend/catalog/partition.c]: the range and
    list bound comparators, the construction of the canonical bound
    collection in [RelationBuildPartitionDesc], [partition_bounds_equal],
    [partition_bound_bsearch], [check_new_partition_bound],
    [RelationGetPartitionDispatchInfo] and [get_partition_for_tuple].

    C arrays are lists read with [!!!] (a cell that [palloc0] zeroed reads as
    the inhabitant of its type: [0], [RANGE_DATUM_FINITE]); [int] values that
    take part in arithmetic are in [Z]; loop counters that only index arrays
    are in [nat]. *)

From Stdlib Require Import ZArith Lia Bool.
From stdpp Require Import base tactics option list sorting.

Local Open Scope Z_scope.

(** ** Data model *)

Abbreviation Datum := Z (only parsing).
Abbreviation Oid := Z (only parsing).

(** [RangeDatumContent]: the ternary tag of one column of a range bound. *)
Inductive RangeDatumContent :=
  | RANGE_DATUM_FINITE
  | RANGE_DATUM_NEG_INF
  | RANGE_DATUM_POS_INF.

#[global] Instance RangeDatumContent_eq_dec : EqDecision RangeDatumContent.
Proof. solve_decision. Defined.

(** [palloc0] yields [RANGE_DATUM_FINITE = 0]. *)
#[global] Instance RangeDatumContent_inhabited : Inhabited RangeDatumContent :=
  populate RANGE_DATUM_FINITE.

(** The enumerators' integer values, which [<] on the enum compares. *)
Definition content_value (c : RangeDatumContent) : Z :=
  match c with
  | RANGE_DATUM_FINITE => 0
  | RANGE_DATUM_NEG_INF => 1
  | RANGE_DATUM_POS_INF => 2
  end.

(** [key->strategy] is a [char]; every value other than the two strategy
    letters takes the [default:] arm of the switches. *)
Inductive PartitionStrategy :=
  | PARTITION_STRATEGY_LIST
  | PARTITION_STRATEGY_RANGE
  | PARTITION_STRATEGY_UNKNOWN.

#[global] Instance PartitionStrategy_eq_dec : EqDecision PartitionStrategy.
Proof. solve_decision. Defined.

(** A heap row: one cell per attribute, [None] is SQL NULL. *)
Definition HeapRow := list (option Datum).

(** [PartitionKey].  [partsupfunc key j a b] is
    [DatumGetInt32 (FunctionCall2Coll (&key->partsupfunc[j],
    key->partcollation[j], a, b))].  [partattrs] holds the attribute numbers
    (0 marks an expression column), [partexprs] the key expressions as
    evaluators of a row. *)
Record PartitionKey := {
  strategy : PartitionStrategy;
  partnatts : nat;
  partsupfunc : nat -> Datum -> Datum -> Z;
  partattrs : list Z;
  partexprs : list (HeapRow -> option Datum)
}.

(** [PartitionRangeBound]: one bound of a range partition. *)
Record PartitionRangeBound := {
  rb_index : Z;
  rb_datums : list Datum;
  rb_content : list RangeDatumContent;
  rb_lower : bool
}.

(** [PartitionListValue]: one value coming from the [index]'th list
    partition. *)
Record PartitionListValue := {
  lv_index : Z;
  lv_value : Datum
}.

(** [PartitionBoundInfoData].  [bi_content] is [None] for the [NULL] pointer
    of list partitioned tables. *)
Record PartitionBoundInfoData := {
  bi_strategy : PartitionStrategy;
  ndatums : Z;
  bi_datums : list (list Datum);
  bi_content : option (list (list RangeDatumContent));
  indexes : list Z;
  null_index : Z
}.

Definition partition_bound_accepts_nulls (bi : PartitionBoundInfoData) : bool :=
  negb (null_index bi =? -1).

(** ** Comparators *)

(** [==] on the enumeration compares the enumerators' values. *)
Definition content_eqb (c1 c2 : RangeDatumContent) : bool :=
  content_value c1 =? content_value c2.

Definition is_finite (c : RangeDatumContent) : bool :=
  content_eqb c RANGE_DATUM_FINITE.

(** How a [for] loop with [return] and [break] in its body ends: through a
    [return] of the enclosing function, or by leaving the loop with the
    current [cmpval]. *)
Inductive loop_exit :=
  | LoopReturn (v : Z)
  | LoopDone (cmpval : Z).

(** The loop of [partition_rbound_cmp], entered at column [i] with [n]
    columns left. *)
Fixpoint partition_rbound_cmp_loop (key : PartitionKey)
    (datums1 : list Datum) (content1 : list RangeDatumContent)
    (datums2 : list Datum) (content2 : list RangeDatumContent)
    (n i : nat) (cmpval : Z) : loop_exit :=
  match n with
  | O => LoopDone cmpval
  | S n' =>
      let c1 := content1 !!! i in
      let c2 := content2 !!! i in
      if negb (is_finite c1) && negb (is_finite c2) then
        LoopReturn (if content_eqb c1 c2 then 0
                    else if content_value c1 <? content_value c2 then -1 else 1)
      else if negb (is_finite c1) then
        LoopReturn (if content_eqb c1 RANGE_DATUM_NEG_INF then -1 else 1)
      else if negb (is_finite c2) then
        LoopReturn (if content_eqb c2 RANGE_DATUM_NEG_INF then 1 else -1)
      else
        let cmpval := partsupfunc key i (datums1 !!! i) (datums2 !!! i) in
        if negb (cmpval =? 0) then LoopDone cmpval
        else partition_rbound_cmp_loop key datums1 content1 datums2 content2
               n' (S i) cmpval
  end.

Definition partition_rbound_cmp (key : PartitionKey)
    (datums1 : list Datum) (content1 : list RangeDatumContent) (lower1 : bool)
    (b2 : PartitionRangeBound) : Z :=
  let datums2 := rb_datums b2 in
  let content2 := rb_content b2 in
  let lower2 := rb_lower b2 in
  match partition_rbound_cmp_loop key datums1 content1 datums2 content2
          (partnatts key) 0 0 with
  | LoopReturn v => v
  | LoopDone cmpval =>
      if (cmpval =? 0) && negb (eqb lower1 lower2)
      then (if lower1 then 1 else -1)
      else cmpval
  end.

Definition qsort_partition_rbound_cmp (key : PartitionKey)
    (b1 b2 : PartitionRangeBound) : Z :=
  partition_rbound_cmp key (rb_datums b1) (rb_content b1) (rb_lower b1) b2.

Definition qsort_partition_list_value_cmp (key : PartitionKey)
    (a b : PartitionListValue) : Z :=
  partsupfunc key 0 (lv_value a) (lv_value b).

(** The loop of [partition_rbound_datum_cmp]. *)
Fixpoint partition_rbound_datum_cmp_loop (key : PartitionKey)
    (rb_datums : list Datum) (rb_content : list RangeDatumContent)
    (tuple_datums : list Datum) (n i : nat) (cmpval : Z) : loop_exit :=
  match n with
  | O => LoopDone cmpval
  | S n' =>
      if negb (is_finite (rb_content !!! i)) then
        LoopReturn (if content_eqb (rb_content !!! i) RANGE_DATUM_NEG_INF
                    then -1 else 1)
      else
        let cmpval :=
          partsupfunc key i (rb_datums !!! i) (tuple_datums !!! i) in
        if negb (cmpval =? 0) then LoopDone cmpval
        else partition_rbound_datum_cmp_loop key rb_datums rb_content
               tuple_datums n' (S i) cmpval
  end.

Definition partition_rbound_datum_cmp (key : PartitionKey)
    (rb_datums : list Datum) (rb_content : list RangeDatumContent)
    (tuple_datums : list Datum) : Z :=
  match partition_rbound_datum_cmp_loop key rb_datums rb_content tuple_datums
          (partnatts key) 0 (-1) with
  | LoopReturn v => v
  | LoopDone cmpval => cmpval
  end.

(** ** Outcomes

    [elog (ERROR, ...)] and [ereport (ERROR, ...)] leave the function; the
    outcome records which report it was.  [UNDEFINED] stands for what C leaves
    undefined (a write outside an array, a dereferenced [NULL]), and
    [OUT_OF_FUEL] for a loop of the model that was cut off before the C loop
    ended. *)
Inductive elog :=
  | ERR_invalid_strategy_in_bound_spec
  | ERR_found_null_more_than_once
  | ERR_unexpected_partition_strategy
  | ERR_invalid_range_bound_datum
  | ERR_empty_range
  | ERR_would_overlap (with_oid : Oid)
  | ERR_wrong_number_of_key_expressions.

Inductive res (A : Type) :=
  | OK (a : A)
  | ERROR (e : elog)
  | UNDEFINED
  | OUT_OF_FUEL.
Arguments OK {A} a.
Arguments ERROR {A} e.
Arguments UNDEFINED {A}.
Arguments OUT_OF_FUEL {A}.

#[global] Instance res_ret : MRet res := fun A a => OK a.
#[global] Instance res_bind : MBind res := fun A B f m =>
  match m with
  | OK a => f a
  | ERROR e => ERROR e
  | UNDEFINED => UNDEFINED
  | OUT_OF_FUEL => OUT_OF_FUEL
  end.

(** ** Bound search *)

(** What [void *probe] points to: a [PartitionRangeBound], or an array of
    [Datum] (the key of a tuple, or the address of one list value). *)
Inductive Probe :=
  | ProbeBound (b : PartitionRangeBound)
  | ProbeDatums (values : list Datum).

(** The two casts of [probe].  A probe read through the other pointer type
    has no meaning in C; the casts below give it one so that the comparison
    stays a total function. *)
Definition probe_datums (probe : Probe) : list Datum :=
  match probe with
  | ProbeDatums values => values
  | ProbeBound b => rb_datums b
  end.

Definition probe_bound (probe : Probe) : PartitionRangeBound :=
  match probe with
  | ProbeBound b => b
  | ProbeDatums values =>
      {| rb_index := -1; rb_datums := values; rb_content := [];
         rb_lower := false |}
  end.

Definition partition_bound_cmp (key : PartitionKey)
    (boundinfo : PartitionBoundInfoData) (offset : Z) (probe : Probe)
    (probe_is_bound : bool) : res Z :=
  let bound_datums := bi_datums boundinfo !!! Z.to_nat offset in
  match strategy key with
  | PARTITION_STRATEGY_LIST =>
      OK (partsupfunc key 0 (bound_datums !!! 0%nat)
            (probe_datums probe !!! 0%nat))
  | PARTITION_STRATEGY_RANGE =>
      let content :=
        default [] (bi_content boundinfo) !!! Z.to_nat offset in
      if probe_is_bound then
        let lower := indexes boundinfo !!! Z.to_nat offset <? 0 in
        OK (partition_rbound_cmp key bound_datums content lower
              (probe_bound probe))
      else
        OK (partition_rbound_datum_cmp key bound_datums content
              (probe_datums probe))
  | PARTITION_STRATEGY_UNKNOWN => ERROR ERR_unexpected_partition_strategy
  end.

(** [int] arithmetic: the value of a sum is reduced into the 32-bit signed
    range, and [/] truncates towards zero. *)
Definition int_wrap (z : Z) : Z := (z + 2 ^ 31) mod 2 ^ 32 - 2 ^ 31.
Definition int_add (a b : Z) : Z := int_wrap (a + b).
Definition int_div (a b : Z) : Z := Z.quot a b.

(** The [while (lo < hi)] loop of [partition_bound_bsearch]; [is_equal] is
    the current content of [*is_equal]. *)
Fixpoint partition_bound_bsearch_loop (fuel : nat) (key : PartitionKey)
    (boundinfo : PartitionBoundInfoData) (probe : Probe)
    (probe_is_bound : bool) (lo hi : Z) (is_equal : bool) : res (Z * bool) :=
  if lo <? hi then
    match fuel with
    | O => OUT_OF_FUEL
    | S fuel' =>
        let mid := int_div (int_add (int_add lo hi) 1) 2 in
        cmpval ← partition_bound_cmp key boundinfo mid probe probe_is_bound;
        if cmpval <=? 0 then
          let lo := mid in
          let is_equal := cmpval =? 0 in
          if is_equal then OK (lo, is_equal)
          else partition_bound_bsearch_loop fuel' key boundinfo probe
                 probe_is_bound lo hi is_equal
        else
          partition_bound_bsearch_loop fuel' key boundinfo probe
            probe_is_bound lo (mid - 1) is_equal
    end
  else OK (lo, is_equal).

(** [partition_bound_bsearch]: the returned pair is the offset and the final
    content of [*is_equal], whose content at the call is [is_equal].  Every
    turn of the loop shrinks [hi - lo], so [ndatums] turns are enough. *)
Definition partition_bound_bsearch (key : PartitionKey)
    (boundinfo : PartitionBoundInfoData) (probe : Probe)
    (probe_is_bound : bool) (is_equal : bool) : res (Z * bool) :=
  let lo := -1 in
  let hi := ndatums boundinfo - 1 in
  partition_bound_bsearch_loop (Z.to_nat (ndatums boundinfo)) key boundinfo
    probe probe_is_bound lo hi is_equal.

(** ** Raw bound declarations *)

(** [Const]: a value of the parse tree. *)
Record Const := {
  constisnull : bool;
  constvalue : Datum
}.

(** [PartitionRangeDatum]: one column of a declared range bound. *)
Record PartitionRangeDatum := {
  infinite : bool;
  value : Const
}.

(** [PartitionBoundSpec]. *)
Record PartitionBoundSpec := {
  spec_strategy : PartitionStrategy;
  listdatums : list Const;
  lowerdatums : list PartitionRangeDatum;
  upperdatums : list PartitionRangeDatum
}.

(** The [foreach] of [make_one_range_bound]; [bd] and [bc] are the two
    [palloc0]ed arrays.  A write beyond their [partnatts] cells is not
    modelled ([<[i:=_]>] drops it). *)
Fixpoint make_one_range_bound_loop (lower : bool)
    (datums : list PartitionRangeDatum) (i : nat)
    (bd : list Datum) (bc : list RangeDatumContent)
    : res (list Datum * list RangeDatumContent) :=
  match datums with
  | [] => OK (bd, bc)
  | datum :: rest =>
      let c := if negb (infinite datum) then RANGE_DATUM_FINITE
               else if lower then RANGE_DATUM_NEG_INF
               else RANGE_DATUM_POS_INF in
      let bc := <[i:=c]> bc in
      if is_finite c then
        let val := value datum in
        if constisnull val then ERROR ERR_invalid_range_bound_datum
        else make_one_range_bound_loop lower rest (S i)
               (<[i:=constvalue val]> bd) bc
      else make_one_range_bound_loop lower rest (S i) bd bc
  end.

Definition make_one_range_bound (key : PartitionKey) (index : Z)
    (datums : list PartitionRangeDatum) (lower : bool)
    : res PartitionRangeBound :=
  '(bd, bc) ← make_one_range_bound_loop lower datums 0
                (replicate (partnatts key) 0)
                (replicate (partnatts key) RANGE_DATUM_FINITE);
  OK {| rb_index := index; rb_datums := bd; rb_content := bc;
        rb_lower := lower |}.

(** ** The partition descriptor *)

(** [PartitionDescData]; [boundinfo] is [None] for the [NULL] pointer that
    [palloc0] leaves when there is no partition. *)
Record PartitionDescData := {
  nparts : Z;
  oids : list Oid;
  boundinfo : option PartitionBoundInfoData
}.

(** Dereferencing a pointer. *)
Definition deref {A} (p : option A) : res A :=
  match p with
  | Some a => OK a
  | None => UNDEFINED
  end.

(** One child found by [find_inheritance_children], with the two columns of
    its [pg_class] row that [RelationBuildPartitionDesc] reads. *)
Record pg_class_row := {
  inhrelid : Oid;
  relispartition : bool;
  relpartbound : PartitionBoundSpec
}.

(** What the first half of [RelationBuildPartitionDesc] hands to the second:
    the sorted list values with the position of the null-accepting partition,
    or the sorted range bounds that were found distinct. *)
Inductive raw_bounds :=
  | RawNone
  | RawList (null_index : Z) (all_values : list PartitionListValue)
  | RawRange (rbounds : list PartitionRangeBound).

(** The inner [foreach (c, spec->listdatums)] of the list branch, for the
    [i]'th partition. *)
Fixpoint collect_list_datums (i : Z) (listdatums : list Const)
    (null_index : Z) (non_null_values : list PartitionListValue)
    : res (Z * list PartitionListValue) :=
  match listdatums with
  | [] => OK (null_index, non_null_values)
  | val :: rest =>
      if negb (constisnull val) then
        let list_value := {| lv_index := i; lv_value := constvalue val |} in
        collect_list_datums i rest null_index
          (non_null_values ++ [list_value])
      else if negb (null_index =? -1) then
        ERROR ERR_found_null_more_than_once
      else collect_list_datums i rest i non_null_values
  end.

(** The outer [foreach (cell, boundspecs)] of the list branch. *)
Fixpoint collect_list_values (boundspecs : list PartitionBoundSpec) (i : Z)
    (null_index : Z) (non_null_values : list PartitionListValue)
    : res (Z * list PartitionListValue) :=
  match boundspecs with
  | [] => OK (null_index, non_null_values)
  | spec :: rest =>
      if negb (bool_decide (spec_strategy spec = PARTITION_STRATEGY_LIST))
      then ERROR ERR_invalid_strategy_in_bound_spec
      else
        '(null_index, non_null_values) ←
          collect_list_datums i (listdatums spec) null_index non_null_values;
        collect_list_values rest (i + 1) null_index non_null_values
  end.

(** The [foreach (cell, boundspecs)] of the range branch: [all_bounds] gets
    the lower and the upper bound of every partition, in that order. *)
Fixpoint collect_range_bounds (key : PartitionKey)
    (boundspecs : list PartitionBoundSpec) (i : Z)
    (all_bounds : list PartitionRangeBound)
    : res (list PartitionRangeBound) :=
  match boundspecs with
  | [] => OK all_bounds
  | spec :: rest =>
      if negb (bool_decide (spec_strategy spec = PARTITION_STRATEGY_RANGE))
      then ERROR ERR_invalid_strategy_in_bound_spec
      else
        lower ← make_one_range_bound key i (lowerdatums spec) true;
        upper ← make_one_range_bound key i (upperdatums spec) false;
        collect_range_bounds key rest (i + 1) (all_bounds ++ [lower; upper])
  end.

(** The [for (j ...)] loop that decides [is_distinct] for [cur] against
    [prev]. *)
Fixpoint is_distinct_loop (key : PartitionKey)
    (prev : option PartitionRangeBound) (cur : PartitionRangeBound)
    (n j : nat) : bool :=
  match n with
  | O => false
  | S n' =>
      match prev with
      | None => true
      | Some prev =>
          if negb (is_finite (rb_content cur !!! j))
             || negb (is_finite (rb_content prev !!! j))
          then true
          else if negb (partsupfunc key j (rb_datums cur !!! j)
                          (rb_datums prev !!! j) =? 0)
          then true
          else is_distinct_loop key (Some prev) cur n' (S j)
      end
  end.

(** The first [for (i ...)] loop over the sorted bounds: [distinct_indexes]. *)
Fixpoint distinct_indexes_loop (key : PartitionKey)
    (prev : option PartitionRangeBound)
    (all_bounds : list PartitionRangeBound) : list bool :=
  match all_bounds with
  | [] => []
  | cur :: rest =>
      is_distinct_loop key prev cur (partnatts key) 0
      :: distinct_indexes_loop key (Some cur) rest
  end.

(** The second [for (i ...)] loop: [rbounds] keeps the bounds whose flag is
    set. *)
Fixpoint save_distinct_bounds (distinct_indexes : list bool)
    (all_bounds : list PartitionRangeBound) : list PartitionRangeBound :=
  match distinct_indexes, all_bounds with
  | d :: ds, b :: bs =>
      if d then b :: save_distinct_bounds ds bs
      else save_distinct_bounds ds bs
  | _, _ => []
  end.

(** "If the old index has no mapping, assign one":
    [if (mapping[i] == -1) mapping[i] = next_index++;], the statement that the
    list branch, its null case and the range branch share. *)
Definition assign_mapping (i : Z) (mapping : list Z) (next_index : Z)
    : list Z * Z :=
  if mapping !!! Z.to_nat i =? -1
  then (<[Z.to_nat i:=next_index]> mapping, next_index + 1)
  else (mapping, next_index).

(** The copy loop of [case PARTITION_STRATEGY_LIST]: the datums, the
    [indexes], and the final [mapping] and [next_index]. *)
Fixpoint list_boundinfo_loop (all_values : list PartitionListValue)
    (mapping : list Z) (next_index : Z)
    : list (list Datum) * list Z * (list Z * Z) :=
  match all_values with
  | [] => ([], [], (mapping, next_index))
  | v :: rest =>
      let '(mapping, next_index) :=
        assign_mapping (lv_index v) mapping next_index in
      let '(datums, indexes, st) :=
        list_boundinfo_loop rest mapping next_index in
      ([lv_value v] :: datums,
       (mapping !!! Z.to_nat (lv_index v)) :: indexes, st)
  end.

(** Row [i] of [boundinfo->datums] for a range bound: [palloc] does not clear
    it, and only the finite columns are written; [junk i j] is what the cell
    of an infinite column holds. *)
Definition copy_range_datums (key : PartitionKey) (junk : nat -> nat -> Datum)
    (i : nat) (b : PartitionRangeBound) : list Datum :=
  (fun j => if is_finite (rb_content b !!! j) then rb_datums b !!! j
            else junk i j) <$> seq 0 (partnatts key).

Definition copy_range_content (key : PartitionKey) (b : PartitionRangeBound)
    : list RangeDatumContent :=
  (fun j => rb_content b !!! j) <$> seq 0 (partnatts key).

(** The copy loop of [case PARTITION_STRATEGY_RANGE]. *)
Fixpoint range_boundinfo_loop (key : PartitionKey)
    (junk : nat -> nat -> Datum) (rbounds : list PartitionRangeBound)
    (i : nat) (mapping : list Z) (next_index : Z)
    : list (list Datum) * list (list RangeDatumContent) * list Z
      * (list Z * Z) :=
  match rbounds with
  | [] => ([], [], [], (mapping, next_index))
  | b :: rest =>
      let '(index, (mapping, next_index)) :=
        if rb_lower b then (-1, (mapping, next_index))
        else
          let orig_index := rb_index b in
          let '(mapping, next_index) :=
            assign_mapping orig_index mapping next_index in
          (mapping !!! Z.to_nat orig_index, (mapping, next_index)) in
      let '(datums, content, indexes, st) :=
        range_boundinfo_loop key junk rest (S i) mapping next_index in
      (copy_range_datums key junk i b :: datums,
       copy_range_content key b :: content,
       index :: indexes, st)
  end.

(** The last loop, [result->oids[mapping[i]] = oids[i]]; [result_oids] has
    [nparts] cells. *)
Fixpoint assign_oids (oids : list Oid) (i : nat) (mapping : list Z)
    (result_oids : list Oid) : res (list Oid) :=
  match oids with
  | [] => OK result_oids
  | oid :: rest =>
      let m := mapping !!! i in
      if (0 <=? m) && (m <? Z.of_nat (length result_oids))
      then assign_oids rest (S i) mapping (<[Z.to_nat m:=oid]> result_oids)
      else UNDEFINED
  end.

Section RelationBuildPartitionDesc.

(** [qsort_arg] (src/port) is not part of this file: it is taken as a
    parameter, [qsort_arg cmp a] being the array [a] after the call. *)
Variable qsort_arg : forall A : Type, (A -> A -> Z) -> list A -> list A.

(** The content of the cells that [palloc] hands out and the function
    never writes. *)
Variable junk : nat -> nat -> Datum.

(** Lines 231-435: from the bound specs to the sorted values or bounds. *)
Definition sorted_raw_bounds (key : PartitionKey)
    (boundspecs : list PartitionBoundSpec) : res raw_bounds :=
  if 0 <? Z.of_nat (length boundspecs) then
    match strategy key with
    | PARTITION_STRATEGY_LIST =>
        '(null_index, non_null_values) ←
          collect_list_values boundspecs 0 (-1) [];
        OK (RawList null_index
              (qsort_arg _ (qsort_partition_list_value_cmp key)
                 non_null_values))
    | PARTITION_STRATEGY_RANGE =>
        all_bounds ← collect_range_bounds key boundspecs 0 [];
        let all_bounds :=
          qsort_arg _ (qsort_partition_rbound_cmp key) all_bounds in
        let distinct_indexes := distinct_indexes_loop key None all_bounds in
        OK (RawRange (save_distinct_bounds distinct_indexes all_bounds))
    | PARTITION_STRATEGY_UNKNOWN => ERROR ERR_unexpected_partition_strategy
    end
  else OK RawNone.

(** Lines 445-569: the bound collection and the [mapping] array, for
    [nparts > 0]. *)
Definition build_boundinfo (key : PartitionKey) (nparts : nat)
    (raw : raw_bounds) : res (PartitionBoundInfoData * list Z) :=
  let mapping := replicate nparts (-1) in
  let next_index := 0 in
  match strategy key, raw with
  | PARTITION_STRATEGY_LIST, RawList null_index all_values =>
      let '(datums, indexes, (mapping, next_index)) :=
        list_boundinfo_loop all_values mapping next_index in
      let '(mapping, bi_null_index) :=
        if negb (null_index =? -1) then
          let '(mapping, next_index) :=
            assign_mapping null_index mapping next_index in
          (mapping, mapping !!! Z.to_nat null_index)
        else (mapping, -1) in
      OK ({| bi_strategy := strategy key;
             ndatums := Z.of_nat (length all_values);
             bi_datums := datums;
             bi_content := None;
             indexes := indexes;
             null_index := bi_null_index |}, mapping)
  | PARTITION_STRATEGY_RANGE, RawRange rbounds =>
      let '(datums, content, indexes, (mapping, next_index)) :=
        range_boundinfo_loop key junk rbounds 0 mapping next_index in
      OK ({| bi_strategy := strategy key;
             ndatums := Z.of_nat (length rbounds);
             bi_datums := datums;
             bi_content := Some content;
             indexes := indexes ++ [-1];
             null_index := -1 |}, mapping)
  | PARTITION_STRATEGY_UNKNOWN, _ =>
      ERROR ERR_unexpected_partition_strategy
  | _, _ => UNDEFINED
  end.

(** [RelationBuildPartitionDesc]: [None] when the relation has no
    partition key yet ([rd_partdesc] is left alone), else the descriptor
    stored in [rel->rd_partdesc]. *)
Definition RelationBuildPartitionDesc (key : option PartitionKey)
    (inhoids : list pg_class_row) : res (option PartitionDescData) :=
  match key with
  | None => OK None
  | Some key =>
      let parts := filter (fun t => relispartition t = true) inhoids in
      let boundspecs := relpartbound <$> parts in
      let partoids := inhrelid <$> parts in
      let nparts := length partoids in
      raw ← sorted_raw_bounds key boundspecs;
      if 0 <? Z.of_nat nparts then
        '(boundinfo, mapping) ← build_boundinfo key nparts raw;
        result_oids ← assign_oids partoids 0 mapping (replicate nparts 0);
        OK (Some {| nparts := Z.of_nat nparts; oids := result_oids;
                    boundinfo := Some boundinfo |})
      else
        OK (Some {| nparts := Z.of_nat nparts; oids := [];
                    boundinfo := None |})
  end.

End RelationBuildPartitionDesc.

(** ** Equality of bound collections *)

(** The [for (j ...)] loop of [partition_bounds_equal] for bound [i]:
    [false] stands for the [return false] inside it. *)
Fixpoint bounds_equal_columns (b1 b2 : PartitionBoundInfoData) (i : nat)
    (n j : nat) : bool :=
  match n with
  | O => true
  | S n' =>
      let values_equal :=
        if negb ((bi_datums b1 !!! i) !!! j =? (bi_datums b2 !!! i) !!! j)
        then false
        else bounds_equal_columns b1 b2 i n' (S j) in
      match bi_content b1 with
      | Some content1 =>
          let c1 := (content1 !!! i) !!! j in
          let c2 := (default [] (bi_content b2) !!! i) !!! j in
          if negb (content_eqb c1 c2) then false
          else if negb (is_finite c1)
          then bounds_equal_columns b1 b2 i n' (S j)
          else values_equal
      | None => values_equal
      end
  end.

(** The [for (i ...)] loop; it returns the final [i] when no bound
    differs. *)
Fixpoint bounds_equal_bounds (key : PartitionKey)
    (b1 b2 : PartitionBoundInfoData) (n i : nat) : option nat :=
  match n with
  | O => Some i
  | S n' =>
      if negb (bounds_equal_columns b1 b2 i (partnatts key) 0) then None
      else if negb (indexes b1 !!! i =? indexes b2 !!! i) then None
      else bounds_equal_bounds key b1 b2 n' (S i)
  end.

Definition partition_bounds_equal (key : PartitionKey)
    (b1 b2 : PartitionBoundInfoData) : bool :=
  if negb (bool_decide (bi_strategy b1 = bi_strategy b2)) then false
  else if negb (ndatums b1 =? ndatums b2) then false
  else if negb (null_index b1 =? null_index b2) then false
  else
    match bounds_equal_bounds key b1 b2 (Z.to_nat (ndatums b1)) 0 with
    | None => false
    | Some i =>
        if bool_decide (strategy key = PARTITION_STRATEGY_RANGE)
           && negb (indexes b1 !!! i =? indexes b2 !!! i)
        then false
        else true
    end.

(** ** Checking the bound of a new partition *)

(** The [foreach (cell, spec->listdatums)] of the list branch: the pair
    [(overlap, with)] it leaves.  [equal] is declared without a value; it is
    read only after a search that returned an offset and so assigned it. *)
Fixpoint check_list_datums (key : PartitionKey)
    (boundinfo : PartitionBoundInfoData) (listdatums : list Const)
    : res (bool * Z) :=
  match listdatums with
  | [] => OK (false, -1)
  | val :: rest =>
      if negb (constisnull val) then
        '(offset, equal) ←
          partition_bound_bsearch key boundinfo
            (ProbeDatums [constvalue val]) true false;
        if (0 <=? offset) && equal
        then OK (true, indexes boundinfo !!! Z.to_nat offset)
        else check_list_datums key boundinfo rest
      else if partition_bound_accepts_nulls boundinfo
      then OK (true, null_index boundinfo)
      else check_list_datums key boundinfo rest
  end.

(** The search of the range branch, for [partdesc->nparts > 0]. *)
Definition check_range_overlap (key : PartitionKey)
    (boundinfo : PartitionBoundInfoData) (lower upper : PartitionRangeBound)
    : res (bool * Z) :=
  '(off1, equal) ←
    partition_bound_bsearch key boundinfo (ProbeBound lower) true false;
  if negb equal && (indexes boundinfo !!! Z.to_nat (off1 + 1) <? 0) then
    '(off2, equal) ←
      partition_bound_bsearch key boundinfo (ProbeBound upper) true equal;
    if equal || negb (off1 =? off2) then
      if indexes boundinfo !!! Z.to_nat off2 <? 0
      then OK (true, indexes boundinfo !!! Z.to_nat (off2 + 1))
      else OK (true, indexes boundinfo !!! Z.to_nat off2)
    else OK (false, -1)
  else OK (true, indexes boundinfo !!! Z.to_nat (off1 + 1)).

(** [check_new_partition_bound]: [OK tt] when the function returns, the
    [ERROR] it reports otherwise.  The name in the overlap report is that of
    [partdesc->oids[with]]; the outcome carries that cell. *)
Definition check_new_partition_bound (key : PartitionKey)
    (partdesc : PartitionDescData) (spec : PartitionBoundSpec) : res unit :=
  '(overlap, with_) ←
    match strategy key with
    | PARTITION_STRATEGY_LIST =>
        if 0 <? nparts partdesc then
          boundinfo ← deref (boundinfo partdesc);
          check_list_datums key boundinfo (listdatums spec)
        else OK (false, -1)
    | PARTITION_STRATEGY_RANGE =>
        lower ← make_one_range_bound key (-1) (lowerdatums spec) true;
        upper ← make_one_range_bound key (-1) (upperdatums spec) false;
        if partition_rbound_cmp key (rb_datums lower) (rb_content lower) true
             upper >=? 0
        then ERROR ERR_empty_range
        else if 0 <? nparts partdesc then
          boundinfo ← deref (boundinfo partdesc);
          check_range_overlap key boundinfo lower upper
        else OK (false, -1)
    | PARTITION_STRATEGY_UNKNOWN => ERROR ERR_unexpected_partition_strategy
    end;
  if (overlap : bool) then
    if 0 <=? with_
    then ERROR (ERR_would_overlap (oids partdesc !!! Z.to_nat with_))
    else UNDEFINED
  else OK tt.

(** ** The dispatch array *)

Inductive relkind :=
  | RELKIND_RELATION
  | RELKIND_PARTITIONED_TABLE
  | RELKIND_FOREIGN_TABLE.

#[global] Instance relkind_eq_dec : EqDecision relkind.
Proof. solve_decision. Defined.

(** A tuple descriptor, by its identity. *)
Abbreviation TupleDesc := Z (only parsing).

(** [TupleConversionMap], by what [do_convert_tuple] does with it. *)
Definition TupleConversionMap := HeapRow -> HeapRow.

(** [TupleTableSlot]: the descriptor the slot was made for and the tuple
    stored in it. *)
Record TupleTableSlot := {
  tts_tupleDescriptor : TupleDesc;
  tts_tuple : HeapRow
}.

(** [RelationData], with the fields read here. *)
Record RelationData := {
  rd_id : Oid;
  rd_att : TupleDesc;
  rd_partkey : option PartitionKey;
  rd_partdesc : option PartitionDescData
}.

(** [PartitionDispatchData]; [tupslot] is the descriptor of the slot made by
    [MakeSingleTupleTableSlot]. *)
Record PartitionDispatchData := {
  reldesc : RelationData;
  key : option PartitionKey;
  keystate : list (HeapRow -> option Datum);
  partdesc : option PartitionDescData;
  tupslot : option TupleDesc;
  tupmap : option TupleConversionMap;
  pd_indexes : list Z
}.

(** [APPEND_REL_PARTITION_OIDS]: the OIDs [oids[0 .. nparts - 1]], each with
    [rel] as its parent. *)
Definition APPEND_REL_PARTITION_OIDS (rel : RelationData)
    (partdesc : PartitionDescData)
    (all_parts : list (Oid * RelationData)) : list (Oid * RelationData) :=
  all_parts
  ++ ((fun i => (oids partdesc !!! i, rel))
        <$> seq 0 (Z.to_nat (nparts partdesc))).

(** The [for (j ...)] loop that fills [pd[i]->indexes]: the array, and the
    final [k], [m] and [*leaf_part_oids]. *)
Fixpoint dispatch_indexes_loop (get_rel_relkind : Oid -> relkind)
    (partoids : list Oid) (offset : Z) (k m : Z) (leaf_part_oids : list Oid)
    : list Z * (Z * Z * list Oid) :=
  match partoids with
  | [] => ([], (k, m, leaf_part_oids))
  | partrelid :: rest =>
      if negb (bool_decide
                 (get_rel_relkind partrelid = RELKIND_PARTITIONED_TABLE))
      then
        let '(indexes, st) :=
          dispatch_indexes_loop get_rel_relkind rest offset (k + 1) m
            (leaf_part_oids ++ [partrelid]) in
        (k :: indexes, st)
      else
        let '(indexes, st) :=
          dispatch_indexes_loop get_rel_relkind rest offset k (m + 1)
            leaf_part_oids in
        (- (1 + offset + m) :: indexes, st)
  end.

Section RelationGetPartitionDispatchInfo.

(** The catalog and the executor, as far as the function calls them:
    [heap_open] (the lock mode plays no part here), [get_rel_relkind] and
    [convert_tuples_by_name]. *)
Variable heap_open : Oid -> RelationData.
Variable get_rel_relkind : Oid -> relkind.
Variable convert_tuples_by_name :
  TupleDesc -> TupleDesc -> option TupleConversionMap.

(** The first [forboth]: it walks [all_parts] while the body appends to
    it.  [all_parts] is the part of the list not visited yet, each OID
    paired with the entry of [all_parents]; [parted_rels] pairs each
    relation with its entry of [parted_rel_parents]. *)
Fixpoint collect_parted_rels (fuel : nat)
    (all_parts : list (Oid * RelationData))
    (parted_rels : list (RelationData * option RelationData))
    : res (list (RelationData * option RelationData)) :=
  match all_parts with
  | [] => OK parted_rels
  | (partoid, parent) :: rest =>
      match fuel with
      | O => OUT_OF_FUEL
      | S fuel' =>
          let partrel := heap_open partoid in
          match rd_partdesc partrel with
          | Some partdesc =>
              collect_parted_rels fuel'
                (APPEND_REL_PARTITION_OIDS partrel partdesc rest)
                (parted_rels ++ [(partrel, Some parent)])
          | None => collect_parted_rels fuel' rest parted_rels
          end
      end
  end.

(** The second [forboth], over [parted_rels] and [parted_rel_parents]. *)
Fixpoint build_dispatch_loop
    (parted_rels : list (RelationData * option RelationData))
    (k offset : Z) (leaf_part_oids : list Oid)
    : res (list PartitionDispatchData * list Oid) :=
  match parted_rels with
  | [] => OK ([], leaf_part_oids)
  | (partrel, parent) :: rest =>
      let tupdesc := rd_att partrel in
      partdesc ← deref (rd_partdesc partrel);
      let '(tupslot, tupmap) :=
        match parent with
        | Some parent =>
            (Some tupdesc,
             convert_tuples_by_name (rd_att parent) tupdesc)
        | None => (None, None)
        end in
      let partoids :=
        (fun j => oids partdesc !!! j)
          <$> seq 0 (Z.to_nat (nparts partdesc)) in
      let '(indexes, (k, m, leaf_part_oids)) :=
        dispatch_indexes_loop get_rel_relkind partoids offset k 0
          leaf_part_oids in
      let pd_i :=
        {| reldesc := partrel; key := rd_partkey partrel; keystate := [];
           partdesc := Some partdesc; tupslot := tupslot;
           tupmap := tupmap; pd_indexes := indexes |} in
      '(pd, leaf_part_oids) ←
        build_dispatch_loop rest k (offset + m) leaf_part_oids;
      OK (pd_i :: pd, leaf_part_oids)
  end.

(** [RelationGetPartitionDispatchInfo]: the array [pd] (its length is
    [*num_parted]) and [*leaf_part_oids]. *)
Definition RelationGetPartitionDispatchInfo (fuel : nat)
    (rel : RelationData) : res (list PartitionDispatchData * list Oid) :=
  partdesc ← deref (rd_partdesc rel);
  parted_rels ←
    collect_parted_rels fuel (APPEND_REL_PARTITION_OIDS rel partdesc [])
      [(rel, None)];
  build_dispatch_loop parted_rels 0 0 [].

End RelationGetPartitionDispatchInfo.

(** ** Routing a tuple *)

(** [slot_getattr] for a user attribute: the cell, NULL beyond the row. *)
Definition slot_getattr (slot : TupleTableSlot) (attnum : Z) : option Datum :=
  mjoin (tts_tuple slot !! Z.to_nat (attnum - 1)).

(** The loop of [FormPartitionKeyDatum]; [partexpr_item] is the rest of
    [pd->keystate].  A NULL cell is given the datum 0. *)
Fixpoint FormPartitionKeyDatum_loop (partattrs : list Z)
    (slot : TupleTableSlot) (partexpr_item : list (HeapRow -> option Datum))
    (n i : nat) : res (list Datum * list bool) :=
  match n with
  | O =>
      match partexpr_item with
      | [] => OK ([], [])
      | _ :: _ => ERROR ERR_wrong_number_of_key_expressions
      end
  | S n' =>
      let keycol := partattrs !!! i in
      '(cell, partexpr_item) ←
        (if negb (keycol =? 0) then OK (slot_getattr slot keycol, partexpr_item)
         else
           match partexpr_item with
           | [] => ERROR ERR_wrong_number_of_key_expressions
           | e :: rest => OK (e (tts_tuple slot), rest)
           end);
      '(values, isnull) ←
        FormPartitionKeyDatum_loop partattrs slot partexpr_item n' (S i);
      OK (default 0 cell :: values, bool_decide (cell = None) :: isnull)
  end.

(** [FormPartitionKeyDatum]: [values] and [isnull]; [pd->keystate] is set up
    from [key->partexprs] on the first call. *)
Definition FormPartitionKeyDatum (pd : PartitionDispatchData)
    (key : PartitionKey) (slot : TupleTableSlot)
    : res (list Datum * list bool) :=
  let keystate :=
    match partexprs key, keystate pd with
    | _ :: _, [] => partexprs key
    | _, _ => keystate pd
    end in
  FormPartitionKeyDatum_loop (partattrs key) slot keystate (partnatts key) 0.

(** How [get_partition_for_tuple] ends: with the sequence number of a leaf,
    or with -1 and the two output arguments set. *)
Inductive routing :=
  | Routed (result : Z)
  | NotRouted (failed_at : PartitionDispatchData)
              (failed_slot : TupleTableSlot).

Definition routing_result (r : routing) : Z :=
  match r with
  | Routed result => result
  | NotRouted _ _ => -1
  end.

(** The [for] loop over [isnull] of the range branch. *)
Fixpoint any_key_isnull (isnull : list bool) (n i : nat) : bool :=
  match n with
  | O => false
  | S n' =>
      if (isnull !!! i : bool) then true else any_key_isnull isnull n' (S i)
  end.

(** The conversion at the head of the loop body: when the node has a slot
    and a map, the tuple is converted and stored in the node's slot, which
    becomes [slot]. *)
Definition convert_slot (parent : PartitionDispatchData)
    (slot : TupleTableSlot) : TupleTableSlot :=
  match tupslot parent, tupmap parent with
  | Some myslot, Some map =>
      {| tts_tupleDescriptor := myslot; tts_tuple := map (tts_tuple slot) |}
  | _, _ => slot
  end.

(** The [while (true)] loop of [get_partition_for_tuple], entered with
    [parent] and [slot]. *)
Fixpoint get_partition_for_tuple_loop (fuel : nat)
    (pd : list PartitionDispatchData) (parent : PartitionDispatchData)
    (slot : TupleTableSlot) : res routing :=
  match fuel with
  | O => OUT_OF_FUEL
  | S fuel' =>
      let slot := convert_slot parent slot in
      partdesc ← deref (partdesc parent);
      if nparts partdesc =? 0 then OK (NotRouted parent slot)
      else
        key ← deref (key parent);
        '(values, isnull) ← FormPartitionKeyDatum parent key slot;
        if bool_decide (strategy key = PARTITION_STRATEGY_RANGE)
           && any_key_isnull isnull (partnatts key) 0
        then OK (NotRouted parent slot)
        else
          boundinfo ← deref (boundinfo partdesc);
          cur_index ←
            (if (isnull !!! 0%nat) && partition_bound_accepts_nulls boundinfo
             then OK (null_index boundinfo)
             else if negb (isnull !!! 0%nat) then
               '(cur_offset, equal) ←
                 partition_bound_bsearch key boundinfo (ProbeDatums values)
                   false false;
               match strategy key with
               | PARTITION_STRATEGY_LIST =>
                   if (0 <=? cur_offset) && equal
                   then OK (indexes boundinfo !!! Z.to_nat cur_offset)
                   else OK (-1)
               | PARTITION_STRATEGY_RANGE =>
                   OK (indexes boundinfo !!! Z.to_nat (cur_offset + 1))
               | PARTITION_STRATEGY_UNKNOWN =>
                   ERROR ERR_unexpected_partition_strategy
               end
             else OK (-1));
          if cur_index <? 0 then OK (NotRouted parent slot)
          else
            let next := pd_indexes parent !!! Z.to_nat cur_index in
            if 0 <=? next then OK (Routed next)
            else
              parent ← deref (pd !! Z.to_nat (- next));
              get_partition_for_tuple_loop fuel' pd parent slot
  end.

(** [get_partition_for_tuple]: the walk starts at [pd[0]].  A walk over the
    array made by [RelationGetPartitionDispatchInfo] visits every node at
    most once, so [length pd] turns are enough. *)
Definition get_partition_for_tuple (pd : list PartitionDispatchData)
    (slot : TupleTableSlot) : res routing :=
  parent ← deref (pd !! 0%nat);
  get_partition_for_tuple_loop (length pd) pd parent slot.

(** ** Instances used by the examples *)

(** Modelled from the spec: [qsort_arg] is not in this file and the spec only
    says that the markers are sorted with the comparator.  This is the
    insertion sort that [qsort_arg] runs on arrays of fewer than seven
    elements: each element moves left past every element that compares
    greater.  [sorted_rev] is the sorted prefix, last element first. *)
Fixpoint insertion_sort_insert {A} (cmp : A -> A -> Z) (x : A)
    (sorted_rev : list A) : list A :=
  match sorted_rev with
  | [] => [x]
  | y :: rest =>
      if cmp y x >? 0 then y :: insertion_sort_insert cmp x rest
      else x :: y :: rest
  end.

Definition insertion_sort (A : Type) (cmp : A -> A -> Z) (a : list A)
    : list A :=
  reverse (fold_left (fun sorted_rev x => insertion_sort_insert cmp x sorted_rev)
         a []).

(** The comparison support function of [int4]: -1, 0 or 1. *)
Definition btint4cmp (a b : Datum) : Z :=
  if a >? b then 1 else if a =? b then 0 else -1.

(** A range key and a list key over one [int4] column, attribute 1. *)
Definition int4_range_key : PartitionKey :=
  {| strategy := PARTITION_STRATEGY_RANGE; partnatts := 1;
     partsupfunc := fun _ => btint4cmp; partattrs := [1]; partexprs := [] |}.

Definition int4_list_key : PartitionKey :=
  {| strategy := PARTITION_STRATEGY_LIST; partnatts := 1;
     partsupfunc := fun _ => btint4cmp; partattrs := [1]; partexprs := [] |}.

Definition finite_datum (v : Datum) : PartitionRangeDatum :=
  {| infinite := false; value := {| constisnull := false; constvalue := v |} |}.

(** [FOR VALUES FROM (lo) TO (hi)] over one column. *)
Definition range_spec (lo hi : Datum) : PartitionBoundSpec :=
  {| spec_strategy := PARTITION_STRATEGY_RANGE; listdatums := [];
     lowerdatums := [finite_datum lo]; upperdatums := [finite_datum hi] |}.

(** [FOR VALUES IN (...)]; [None] is NULL. *)
Definition list_spec (vs : list (option Datum)) : PartitionBoundSpec :=
  {| spec_strategy := PARTITION_STRATEGY_LIST;
     listdatums :=
       (fun v => {| constisnull := bool_decide (v = None);
                    constvalue := default 0 v |}) <$> vs;
     lowerdatums := []; upperdatums := [] |}.

Definition partition_row (oid : Oid) (spec : PartitionBoundSpec)
    : pg_class_row :=
  {| inhrelid := oid; relispartition := true; relpartbound := spec |}.

Definition no_junk : nat -> nat -> Datum := fun _ _ => 0.

(** A range key over three [int4] columns. *)
Definition int4_range_key3 : PartitionKey :=
  {| strategy := PARTITION_STRATEGY_RANGE; partnatts := 3;
     partsupfunc := fun _ => btint4cmp; partattrs := [1; 2; 3];
     partexprs := [] |}.

(** ** Predicates of the statements *)

(** The columns [i .. i + n - 1] are finite in both bounds and compare
    equal. *)
Definition columns_equal (key : PartitionKey)
    (datums1 : list Datum) (content1 : list RangeDatumContent)
    (datums2 : list Datum) (content2 : list RangeDatumContent)
    (i n : nat) : Prop :=
  forall j : nat, (i <= j < i + n)%nat ->
    content1 !!! j = RANGE_DATUM_FINITE /\
    content2 !!! j = RANGE_DATUM_FINITE /\
    partsupfunc key j (datums1 !!! j) (datums2 !!! j) = 0.

(** The bound stored at [offset] compares to the probe with a value [c]
    such that [R c 0]: [Z.lt] for a bound below the probe, [Z.le], [eq],
    [Z.gt]. *)
Definition bound_vs_probe (key : PartitionKey)
    (boundinfo : PartitionBoundInfoData) (probe : Probe)
    (probe_is_bound : bool) (R : Z -> Z -> Prop) (offset : Z) : Prop :=
  exists c, partition_bound_cmp key boundinfo offset probe probe_is_bound
            = OK c /\ R c 0.

(** The stored bounds are strictly ascending as the probe sees them: below
    a bound that is not above the probe, every bound is below the probe. *)
Definition ascending_for_probe (key : PartitionKey)
    (boundinfo : PartitionBoundInfoData) (probe : Probe)
    (probe_is_bound : bool) : Prop :=
  forall i j, 0 <= i < j -> j < ndatums boundinfo ->
    bound_vs_probe key boundinfo probe probe_is_bound Z.le j ->
    bound_vs_probe key boundinfo probe probe_is_bound Z.lt i.

(** The bound collection of the two partitions [10, 20) and [20, 30). *)
Definition two_ranges_boundinfo : PartitionBoundInfoData :=
  {| bi_strategy := PARTITION_STRATEGY_RANGE; ndatums := 3;
     bi_datums := [[10]; [20]; [30]];
     bi_content := Some [[RANGE_DATUM_FINITE]; [RANGE_DATUM_FINITE];
                         [RANGE_DATUM_FINITE]];
     indexes := [-1; 0; 1; -1]; null_index := -1 |}.

(** A dispatch node over [key] and [boundinfo] with two partitions, for the
    root of a tree ([tupslot] and [tupmap] are [NULL]). *)
Definition root_node (key : PartitionKey) (boundinfo : PartitionBoundInfoData)
    (pd_indexes : list Z) : PartitionDispatchData :=
  {| reldesc := {| rd_id := 1; rd_att := 1; rd_partkey := Some key;
                   rd_partdesc := None |};
     key := Some key; keystate := [];
     partdesc := Some {| nparts := 2; oids := [101; 102];
                         boundinfo := Some boundinfo |};
     tupslot := None; tupmap := None; pd_indexes := pd_indexes |}.

(** The list collection of [P1 = {1, 2}], [P2 = {NULL}]. *)
Definition list_with_null_boundinfo : PartitionBoundInfoData :=
  {| bi_strategy := PARTITION_STRATEGY_LIST; ndatums := 2;
     bi_datums := [[1]; [2]]; bi_content := None;
     indexes := [0; 0]; null_index := 1 |}.

Definition row_slot (row : HeapRow) : TupleTableSlot :=
  {| tts_tupleDescriptor := 1; tts_tuple := row |}.

(** The OIDs [oids[0 .. nparts - 1]] of a descriptor, and those of a
    relation (none when it has no descriptor). *)
Definition partition_oids (partdesc : PartitionDescData) : list Oid :=
  (fun j => oids partdesc !!! j) <$> seq 0 (Z.to_nat (nparts partdesc)).

Definition rel_partition_oids (rel : RelationData) : list Oid :=
  match rd_partdesc rel with
  | Some partdesc => partition_oids partdesc
  | None => []
  end.

(** The hierarchy below [rel] is finite: [weight] bounds, for every
    partitioned relation, the number of relations below it. *)
Definition hierarchy_weight (weight : Oid -> nat) (oids : list Oid) : nat :=
  sum_list_with (fun o => S (weight o)) oids.

Definition finite_hierarchy (heap_open : Oid -> RelationData)
    (weight : Oid -> nat) : Prop :=
  forall oid, (hierarchy_weight weight (rel_partition_oids (heap_open oid))
               <= weight oid)%nat.

(** The test of the first loop of [RelationGetPartitionDispatchInfo] on the
    OID of a partition: the relation has a partition descriptor. *)
Definition has_partdesc (heap_open : Oid -> RelationData) (o : Oid) : Prop :=
  is_Some (rd_partdesc (heap_open o)).

#[global] Instance has_partdesc_dec heap_open o :
  Decision (has_partdesc heap_open o).
Proof. unfold has_partdesc. apply _. Defined.

(** The partitioned children of a relation, as [heap_open] returns them. *)
Definition partitioned_children (heap_open : Oid -> RelationData)
    (rel : RelationData) : list RelationData :=
  heap_open <$> filter (has_partdesc heap_open) (rel_partition_oids rel).

(** The two tests for "is a partitioned table" agree: [get_rel_relkind] on
    the OID, and the presence of a partition descriptor in the relation
    that [heap_open] returns. *)
Definition relkind_consistent (heap_open : Oid -> RelationData)
    (get_rel_relkind : Oid -> relkind) : Prop :=
  forall oid, get_rel_relkind oid = RELKIND_PARTITIONED_TABLE
              <-> is_Some (rd_partdesc (heap_open oid)).

(** The test of the second loop of [RelationGetPartitionDispatchInfo] on
    the OID of a partition. *)
Definition is_partitioned (get_rel_relkind : Oid -> relkind) (o : Oid)
    : Prop :=
  get_rel_relkind o = RELKIND_PARTITIONED_TABLE.

Definition is_leaf (get_rel_relkind : Oid -> relkind) (o : Oid) : Prop :=
  get_rel_relkind o <> RELKIND_PARTITIONED_TABLE.

#[global] Instance is_partitioned_dec get_rel_relkind o :
  Decision (is_partitioned get_rel_relkind o).
Proof. unfold is_partitioned. apply _. Defined.

#[global] Instance is_leaf_dec get_rel_relkind o :
  Decision (is_leaf get_rel_relkind o).
Proof. unfold is_leaf. apply _. Defined.

(** The leaf partitions and the partitioned partitions of a relation, in
    the order of its descriptor. *)
Definition leaf_oids (get_rel_relkind : Oid -> relkind) (rel : RelationData)
    : list Oid :=
  filter (is_leaf get_rel_relkind) (rel_partition_oids rel).

Definition parted_oids (get_rel_relkind : Oid -> relkind)
    (rel : RelationData) : list Oid :=
  filter (is_partitioned get_rel_relkind) (rel_partition_oids rel).

(** The non-negative entries of the arrays of all nodes, in the order of
    the nodes and of the slots. *)
Definition leaf_entries (pd : list PartitionDispatchData) : list Z :=
  filter (fun e => 0 <= e) (concat (pd_indexes <$> pd)).

(** A two-level hierarchy: relation 1 has the partitions 11, 12 and 13, of
    which 12 is partitioned into 121 and 122. *)
Definition example_partdesc (partoids : list Oid) : PartitionDescData :=
  {| nparts := Z.of_nat (length partoids); oids := partoids;
     boundinfo := None |}.

Definition example_heap_open (oid : Oid) : RelationData :=
  {| rd_id := oid; rd_att := oid;
     rd_partkey :=
       if (oid =? 1) || (oid =? 12) then Some int4_range_key else None;
     rd_partdesc :=
       if oid =? 1 then Some (example_partdesc [11; 12; 13])
       else if oid =? 12 then Some (example_partdesc [121; 122])
       else None |}.

Definition example_relkind (oid : Oid) : relkind :=
  if (oid =? 1) || (oid =? 12) then RELKIND_PARTITIONED_TABLE
  else RELKIND_RELATION.

Definition example_weight (oid : Oid) : nat :=
  if oid =? 1 then 5%nat else if oid =? 12 then 2%nat else 0%nat.

Definition no_conversion : TupleDesc -> TupleDesc -> option TupleConversionMap :=
  fun _ _ => None.

(** ** Assumptions on the comparison functions and on [qsort_arg] *)

(** The support function of every key column is a three-way comparison of
    a total preorder: the sign flips with the arguments, and "not greater"
    is transitive. *)
Definition column_orders (key : PartitionKey) : Prop :=
  forall j, (j < partnatts key)%nat ->
    (forall a b, partsupfunc key j a b < 0 <-> 0 < partsupfunc key j b a) /\
    (forall a b c, partsupfunc key j a b <= 0 -> partsupfunc key j b c <= 0 ->
                   partsupfunc key j a c <= 0).

(** [cmp] is such a comparison on the elements of [l]. *)
Definition total_preorder_on {A} (cmp : A -> A -> Z) (l : list A) : Prop :=
  (forall a b, a ∈ l -> b ∈ l -> (cmp a b < 0 <-> 0 < cmp b a)) /\
  (forall a b c, a ∈ l -> b ∈ l -> c ∈ l ->
     cmp a b <= 0 -> cmp b c <= 0 -> cmp a c <= 0).

(** What is assumed of [qsort_arg]: called with a comparison function that
    is consistent on the array, it leaves the same elements in ascending
    order.  Nothing is assumed about the order it gives to elements that
    compare equal. *)
Definition qsort_arg_spec
    (qsort_arg : forall A : Type, (A -> A -> Z) -> list A -> list A) : Prop :=
  forall (A : Type) (cmp : A -> A -> Z) (l : list A),
    total_preorder_on cmp l ->
    qsort_arg A cmp l ≡ₚ l /\
    StronglySorted (fun a b => cmp a b <= 0) (qsort_arg A cmp l).

(** No two different elements of [l] compare equal. *)
Definition ties_are_equal {A} (cmp : A -> A -> Z) (l : list A) : Prop :=
  forall a b, a ∈ l -> b ∈ l -> cmp a b = 0 -> a = b.

(** The value [partition_rbound_cmp] returns after its loop ended with
    [e]. *)
Definition rbound_cmp_result (e : loop_exit) (lower1 lower2 : bool) : Z :=
  match e with
  | LoopReturn v => v
  | LoopDone cmpval =>
      if (cmpval =? 0) && negb (eqb lower1 lower2)
      then (if lower1 then 1 else -1)
      else cmpval
  end.

(** ** The ordinal mapping *)

(** The state [(mapping, next_index)] after the statement [assign_mapping]
    ran for the original indexes [os], in that order. *)
Definition assign_all (os : list Z) (st : list Z * Z) : list Z * Z :=
  foldl (fun st o => assign_mapping o st.1 st.2) st os.

(** [mapping] maps the positions [0 .. n - 1] one-to-one onto the ordinals
    [0 .. n - 1]. *)
Definition ordinal_bijection (n : nat) (mapping : list Z) : Prop :=
  length mapping = n /\
  (forall i, (i < n)%nat -> 0 <= mapping !!! i < Z.of_nat n) /\
  (forall i j, (i < n)%nat -> (j < n)%nat ->
     mapping !!! i = mapping !!! j -> i = j) /\
  (forall k, 0 <= k < Z.of_nat n ->
     exists i, (i < n)%nat /\ mapping !!! i = k).

(** The invariant of the assignments: [next_index] counts the positions
    that have an ordinal, and those ordinals are [0 .. next_index - 1], each
    given to one position. *)
Definition partial_ordinals (n : nat) (st : list Z * Z) : Prop :=
  length st.1 = n /\
  st.2 = Z.of_nat (length (filter (fun v => v <> -1) st.1)) /\
  (forall i, (i < n)%nat -> st.1 !!! i = -1 \/ 0 <= st.1 !!! i < st.2) /\
  (forall i j, (i < n)%nat -> (j < n)%nat ->
     st.1 !!! i = st.1 !!! j -> st.1 !!! i <> -1 -> i = j) /\
  (forall k, 0 <= k < st.2 -> exists i, (i < n)%nat /\ st.1 !!! i = k).

(** ** Valid sets of partitions *)

(** The non-null values that the [i]'th list partition contributes, and
    those of the partitions [specs], numbered from [i]. *)
Definition spec_list_values (i : Z) (listdatums : list Const)
    : list PartitionListValue :=
  (fun c => {| lv_index := i; lv_value := constvalue c |})
    <$> filter (fun c => constisnull c = false) listdatums.

Fixpoint all_list_values (i : Z) (specs : list PartitionBoundSpec)
    : list PartitionListValue :=
  match specs with
  | [] => []
  | spec :: rest =>
      spec_list_values i (listdatums spec) ++ all_list_values (i + 1) rest
  end.

(** The number of NULLs among the declared values. *)
Definition null_count (listdatums : list Const) : nat :=
  length (filter (fun c => constisnull c = true) listdatums).

Definition total_null_count (specs : list PartitionBoundSpec) : nat :=
  sum_list_with (fun spec => null_count (listdatums spec)) specs.

(** A valid set of list partitions: every partition declares at least one
    value, and at most one NULL is declared in all. *)
Definition valid_list_partitions (specs : list PartitionBoundSpec) : Prop :=
  Forall (fun spec => spec_strategy spec = PARTITION_STRATEGY_LIST /\
                      listdatums spec <> []) specs /\
  (total_null_count specs <= 1)%nat.

(** The two bounds of a range partition, as [make_one_range_bound] builds
    them for the partition of index [i]. *)
Definition range_edges (key : PartitionKey) (i : Z)
    (spec : PartitionBoundSpec) (lower upper : PartitionRangeBound) : Prop :=
  spec_strategy spec = PARTITION_STRATEGY_RANGE /\
  make_one_range_bound key i (lowerdatums spec) true = OK lower /\
  make_one_range_bound key i (upperdatums spec) false = OK upper.

(** A valid set of range partitions: every partition has its lower bound
    strictly below its upper bound, and of any two partitions one has its
    upper bound strictly below the lower bound of the other. *)
Definition valid_range_partitions (key : PartitionKey)
    (specs : list PartitionBoundSpec) : Prop :=
  (forall i spec, specs !! i = Some spec ->
     exists lower upper,
       range_edges key (Z.of_nat i) spec lower upper /\
       qsort_partition_rbound_cmp key lower upper < 0) /\
  (forall i j si sj li ui lj uj, i <> j ->
     specs !! i = Some si -> specs !! j = Some sj ->
     range_edges key (Z.of_nat i) si li ui ->
     range_edges key (Z.of_nat j) sj lj uj ->
     qsort_partition_rbound_cmp key ui lj < 0 \/
     qsort_partition_rbound_cmp key uj li < 0).

Definition valid_partitions (key : PartitionKey)
    (specs : list PartitionBoundSpec) : Prop :=
  match strategy key with
  | PARTITION_STRATEGY_LIST => valid_list_partitions specs
  | PARTITION_STRATEGY_RANGE => valid_range_partitions key specs
  | PARTITION_STRATEGY_UNKNOWN => False
  end.

(** The catalog rows of [P1 = [10, 20)] (OID 101) and [P2 = [20, 30)]
    (OID 102), in the two orders a scan can return them. *)
Definition two_range_rows : list pg_class_row :=
  [partition_row 101 (range_spec 10 20); partition_row 102 (range_spec 20 30)].

Definition two_range_rows_swapped : list pg_class_row :=
  [partition_row 102 (range_spec 20 30); partition_row 101 (range_spec 10 20)].

(** The reading of the canonicalization under which an upper bound and a
    lower bound of the same finite value both stay in the array [rbounds]
    of distinct bounds. *)
Definition both_edges_survive
    (qsort_arg : forall A : Type, (A -> A -> Z) -> list A -> list A)
    (key : PartitionKey) (specs : list PartitionBoundSpec) : Prop :=
  forall all_bounds rbounds u l,
    collect_range_bounds key specs 0 [] = OK all_bounds ->
    sorted_raw_bounds qsort_arg key specs = OK (RawRange rbounds) ->
    u ∈ all_bounds -> l ∈ all_bounds ->
    rb_lower u = false -> rb_lower l = true ->
    columns_equal key (rb_datums u) (rb_content u)
      (rb_datums l) (rb_content l) 0 (partnatts key) ->
    u ∈ rbounds /\ l ∈ rbounds.

(** The upper bound 20 of the first partition and the lower bound 20 of the
    second. *)
Definition upper_20 : PartitionRangeBound :=
  {| rb_index := 0; rb_datums := [20]; rb_content := [RANGE_DATUM_FINITE];
     rb_lower := false |}.

Definition lower_20 : PartitionRangeBound :=
  {| rb_index := 1; rb_datums := [20]; rb_content := [RANGE_DATUM_FINITE];
     rb_lower := true |}.

(** ** Two scans of the same partitions *)



(** A bound without the position of its partition. *)
Definition erase_index (b : PartitionRangeBound) : PartitionRangeBound :=
  {| rb_index := 0; rb_datums := rb_datums b; rb_content := rb_content b;
     rb_lower := rb_lower b |}.



(** No two different declared values of a set of list partitions compare
    equal. *)
Definition list_values_distinct (key : PartitionKey)
    (specs : list PartitionBoundSpec) : Prop :=
  ties_are_equal (qsort_partition_list_value_cmp key)
    (all_list_values 0 specs).




(** Order independence with nothing asked of the declarations: whenever
    the bounds of the rows [inhoids] and of their rearrangement [inhoids']
    are both built, [partition_bounds_equal] judges the two collections
    equal. *)
Definition order_independent
    (qsort_arg : forall A : Type, (A -> A -> Z) -> list A -> list A)
    (junk : nat -> nat -> Datum) (key : PartitionKey)
    (inhoids inhoids' : list pg_class_row) : Prop :=
  forall desc desc' bi bi',
    RelationBuildPartitionDesc qsort_arg junk (Some key) inhoids
    = OK (Some desc) ->
    RelationBuildPartitionDesc qsort_arg junk (Some key) inhoids'
    = OK (Some desc') ->
    boundinfo desc = Some bi -> boundinfo desc' = Some bi' ->
    partition_bounds_equal key bi bi' = true.

(** The rows of two list partitions that both declare the value 1:
    [IN (1, 2)] (OID 101) and [IN (1)] (OID 102), in the two orders. *)
Definition overlapping_list_rows : list pg_class_row :=
  [partition_row 101 (list_spec [Some 1; Some 2]);
   partition_row 102 (list_spec [Some 1])].

Definition overlapping_list_rows_swapped : list pg_class_row :=
  [partition_row 102 (list_spec [Some 1]);
   partition_row 101 (list_spec [Some 1; Some 2])].

(** ** Stored bounds and probes *)

(** The key of a tuple as a range bound, every column finite. *)
Definition tuple_bound (key : PartitionKey) (values : list Datum)
    (lower : bool) : PartitionRangeBound :=
  {| rb_index := -1; rb_datums := values;
     rb_content := replicate (partnatts key) RANGE_DATUM_FINITE;
     rb_lower := lower |}.

(** [a] is below [b] for every probe: as bounds, and for every tuple that
    [b] is not above. *)
Definition below_for_probes (key : PartitionKey)
    (a b : PartitionRangeBound) : Prop :=
  qsort_partition_rbound_cmp key a b < 0 /\
  forall values,
    qsort_partition_rbound_cmp key b (tuple_bound key values true) <= 0 ->
    qsort_partition_rbound_cmp key a (tuple_bound key values false) < 0.

(** The declared values of a set of list partitions are pairwise
    different: no value is declared twice, by one partition or by two. *)
Definition list_values_disjoint (key : PartitionKey)
    (specs : list PartitionBoundSpec) : Prop :=
  list_values_distinct key specs /\ NoDup (all_list_values 0 specs).

(** The rows of the list partitions [IN (1, 2)] (OID 101) and
    [IN (3, NULL)] (OID 102), in the two orders. *)
Definition two_list_rows : list pg_class_row :=
  [partition_row 101 (list_spec [Some 1; Some 2]);
   partition_row 102 (list_spec [Some 3; None])].


(** ** Instances used by the examples of further properties *)

(** A collection that is not in ascending order. *)
Definition unsorted_boundinfo : PartitionBoundInfoData :=
  {| bi_strategy := PARTITION_STRATEGY_LIST; ndatums := 3;
     bi_datums := [[30]; [10]; [20]]; bi_content := None;
     indexes := [0; 1; 2]; null_index := -1 |}.

(** ** What a canonical collection stores *)

(** [bi] is the list collection of the sorted values [all_values], with the
    ordinals of [mapping]; [ni] is the position of the partition that
    declared NULL, or -1. *)
Definition list_collection (all_values : list PartitionListValue) (ni : Z)
    (mapping : list Z) (bi : PartitionBoundInfoData) : Prop :=
  bi_strategy bi = PARTITION_STRATEGY_LIST /\
  ndatums bi = Z.of_nat (length all_values) /\
  bi_datums bi = (fun v => [lv_value v]) <$> all_values /\
  bi_content bi = None /\
  indexes bi
  = (fun v => mapping !!! Z.to_nat (lv_index v)) <$> all_values /\
  null_index bi = (if ni =? -1 then -1 else mapping !!! Z.to_nat ni).

(** [bi] is the range collection of the distinct sorted bounds [rbounds],
    with the ordinals of [mapping]: the content tags are copied, the datums
    of finite columns too, an upper bound has the ordinal of its partition
    and a lower bound has -1. *)
Definition range_collection (key : PartitionKey)
    (rbounds : list PartitionRangeBound) (mapping : list Z)
    (bi : PartitionBoundInfoData) : Prop :=
  bi_strategy bi = PARTITION_STRATEGY_RANGE /\
  ndatums bi = Z.of_nat (length rbounds) /\
  null_index bi = -1 /\
  bi_content bi = Some (copy_range_content key <$> rbounds) /\
  indexes bi
  = ((fun b => if rb_lower b then -1
               else mapping !!! Z.to_nat (rb_index b)) <$> rbounds) ++ [-1] /\
  Forall2 (fun (b : PartitionRangeBound) (row : list Datum) =>
             forall j, (j < partnatts key)%nat ->
               rb_content b !!! j = RANGE_DATUM_FINITE ->
               row !!! j = rb_datums b !!! j)
    rbounds (bi_datums bi).

(** The rows of a scan that are partitions, and their bound
    declarations: [partoids] and [boundspecs] of
    [RelationBuildPartitionDesc], by row. *)
Definition scanned_partitions (inhoids : list pg_class_row)
    : list pg_class_row :=
  filter (fun t => relispartition t = true) inhoids.

Definition scanned_boundspecs (inhoids : list pg_class_row)
    : list PartitionBoundSpec :=
  relpartbound <$> scanned_partitions inhoids.

(** [lower] and [upper] are the two bounds of the partition at position [p]
    of [specs]. *)
Definition partition_edges (key : PartitionKey)
    (specs : list PartitionBoundSpec) (p : nat)
    (lower upper : PartitionRangeBound) : Prop :=
  exists spec, specs !! p = Some spec /\
               range_edges key (Z.of_nat p) spec lower upper.

(** Two bounds have the same finite value in every column. *)
Definition same_finite_value (key : PartitionKey)
    (a b : PartitionRangeBound) : Prop :=
  columns_equal key (rb_datums a) (rb_content a)
    (rb_datums b) (rb_content b) 0 (partnatts key).

(** [rbounds] is the array of distinct bounds of the partitions [specs]:
    ascending for every probe, made of bounds of the partitions, with the
    upper bound of every partition, and with its lower bound unless an upper
    bound of the same finite value stands for it. *)
Definition distinct_bounds_of (key : PartitionKey)
    (specs : list PartitionBoundSpec)
    (rbounds : list PartitionRangeBound) : Prop :=
  StronglySorted (below_for_probes key) rbounds /\
  (forall b, b ∈ rbounds ->
     exists p lower upper,
       partition_edges key specs p lower upper /\
       (b = lower \/ b = upper)) /\
  (forall p lower upper, partition_edges key specs p lower upper ->
     upper ∈ rbounds /\
     (lower ∈ rbounds \/
      exists u, u ∈ rbounds /\ rb_lower u = false /\
                qsort_partition_rbound_cmp key u lower < 0 /\
                same_finite_value key lower u)).

#[global] Instance PartitionRangeBound_eq_dec : EqDecision PartitionRangeBound.
Proof. solve_decision. Defined.

(** Offset [k] of the range collection [bi] stores the bound [b]: its
    content tags, and its datum in every finite column. *)
Definition stores_bound (key : PartitionKey) (bi : PartitionBoundInfoData)
    (k : nat) (b : PartitionRangeBound) : Prop :=
  (k < Z.to_nat (ndatums bi))%nat /\
  default [] (bi_content bi) !! k = Some (copy_range_content key b) /\
  exists row, bi_datums bi !! k = Some row /\
    forall j, (j < partnatts key)%nat ->
      rb_content b !!! j = RANGE_DATUM_FINITE ->
      row !!! j = rb_datums b !!! j.

(** The content tags that [make_one_range_bound] gives to a bound: finite,
    or the infinity of its edge kind. *)
Definition edge_content (b : PartitionRangeBound) : Prop :=
  forall j : nat, rb_content b !!! j = RANGE_DATUM_FINITE \/
            rb_content b !!! j = (if rb_lower b then RANGE_DATUM_NEG_INF
                                  else RANGE_DATUM_POS_INF).

(** [bi] is the collection of the valid range partitions [specs]:
    [rbounds] are their distinct bounds and [mapping] their ordinals. *)
Definition canonical_range (key : PartitionKey)
    (specs : list PartitionBoundSpec) (rbounds : list PartitionRangeBound)
    (mapping : list Z) (bi : PartitionBoundInfoData) : Prop :=
  column_orders key /\ (0 < partnatts key)%nat /\
  strategy key = PARTITION_STRATEGY_RANGE /\
  valid_range_partitions key specs /\ specs <> [] /\
  distinct_bounds_of key specs rbounds /\
  (length rbounds <= 2 * length specs)%nat /\
  ordinal_bijection (length specs) mapping /\
  range_collection key rbounds mapping bi.

(** The ranges [[lower1, upper1)] and [[lower2, upper2)] have a point in
    common: neither ends before the other starts. *)
Definition ranges_overlap (key : PartitionKey)
    (lower1 upper1 lower2 upper2 : PartitionRangeBound) : Prop :=
  ~ qsort_partition_rbound_cmp key upper1 lower2 < 0 /\
  ~ qsort_partition_rbound_cmp key upper2 lower1 < 0.

(** The bound that [make_one_range_bound] makes of one finite value for a
    candidate (index -1). *)
Definition candidate_bound (v : Datum) (lower : bool) : PartitionRangeBound :=
  {| rb_index := -1; rb_datums := [v]; rb_content := [RANGE_DATUM_FINITE];
     rb_lower := lower |}.

(** ** Tuples and partitions *)

(** The key [values] of a tuple lies in the range [[lower, upper)]:
    [partition_rbound_datum_cmp] finds [lower] not above it and [upper]
    above it. *)
Definition tuple_in_range (key : PartitionKey)
    (lower upper : PartitionRangeBound) (values : list Datum) : Prop :=
  partition_rbound_datum_cmp key (rb_datums lower) (rb_content lower) values
  <= 0 /\
  0 < partition_rbound_datum_cmp key (rb_datums upper) (rb_content upper)
        values.

(** The root node of a table with the partitions [10, 20) and [20, 30),
    both leaves. *)
Definition two_ranges_root : PartitionDispatchData :=
  root_node int4_range_key two_ranges_boundinfo [0; 1].

(** [bi] is the collection of the valid list partitions [specs], whose
    declared values are pairwise different: [all_values] are the values in
    strictly ascending order, [ni] is the position of the partition that
    declares NULL (or -1) and [mapping] holds the ordinals. *)
Definition canonical_list (key : PartitionKey)
    (specs : list PartitionBoundSpec) (all_values : list PartitionListValue)
    (ni : Z) (mapping : list Z) (bi : PartitionBoundInfoData) : Prop :=
  column_orders key /\ (0 < partnatts key)%nat /\
  strategy key = PARTITION_STRATEGY_LIST /\ specs <> [] /\
  all_values ≡ₚ all_list_values 0 specs /\
  StronglySorted (fun a b => qsort_partition_list_value_cmp key a b < 0)
    all_values /\
  ordinal_bijection (length specs) mapping /\
  (ni = -1 /\ total_null_count specs = 0%nat \/
   exists p spec, specs !! p = Some spec /\
     null_count (listdatums spec) <> 0%nat /\ ni = Z.of_nat p) /\
  list_collection all_values ni mapping bi.

(** The partition at position [p] of [specs] declares the non-null value
    [v]. *)
Definition declares_value (specs : list PartitionBoundSpec) (p : nat)
    (v : Datum) : Prop :=
  exists spec c, specs !! p = Some spec /\ c ∈ listdatums spec /\
                 constisnull c = false /\ constvalue c = v.

(** The list collection of [IN (1, 2)] and [IN (3, NULL)], and the root
    node of a table with these two partitions, both leaves. *)
Definition two_lists_boundinfo : PartitionBoundInfoData :=
  {| bi_strategy := PARTITION_STRATEGY_LIST; ndatums := 3;
     bi_datums := [[1]; [2]; [3]]; bi_content := None;
     indexes := [0; 0; 1]; null_index := 1 |}.

Definition two_lists_root : PartitionDispatchData :=
  root_node int4_list_key two_lists_boundinfo [0; 1].

(** The partition at position [p] of [specs] declares NULL. *)
Definition declares_null (specs : list PartitionBoundSpec) (p : nat) : Prop :=
  exists spec c, specs !! p = Some spec /\ c ∈ listdatums spec /\
                 constisnull c = true.

(** The value [c] of a candidate is taken by the partition at position
    [p]: the partition declares NULL when [c] is NULL, and otherwise a
    value that compares equal to [c]. *)
Definition value_taken (key : PartitionKey)
    (specs : list PartitionBoundSpec) (p : nat) (c : Const) : Prop :=
  if constisnull c then declares_null specs p
  else exists v, declares_value specs p v /\
                 partsupfunc key 0 v (constvalue c) = 0.

(** ** Equal collections *)

(** The cells of column [j] of bound [i] agree as [partition_bounds_equal]
    compares them: with content arrays the tags are the same and, in a
    finite column, so are the datums; without content arrays the datums are
    the same. *)
Definition bound_cells_agree (b1 b2 : PartitionBoundInfoData) (i j : nat)
    : Prop :=
  match bi_content b1, bi_content b2 with
  | Some content1, Some content2 =>
      (content1 !!! i) !!! j = (content2 !!! i) !!! j /\
      ((content1 !!! i) !!! j = RANGE_DATUM_FINITE ->
       (bi_datums b1 !!! i) !!! j = (bi_datums b2 !!! i) !!! j)
  | Some _, None => False
  | None, _ => (bi_datums b1 !!! i) !!! j = (bi_datums b2 !!! i) !!! j
  end.

(** Two collections of bounds over one column, equal but for the datum in
    their infinite cell. *)
Definition open_range_boundinfo (junk : Datum) : PartitionBoundInfoData :=
  {| bi_strategy := PARTITION_STRATEGY_RANGE; ndatums := 2;
     bi_datums := [[10]; [junk]];
     bi_content := Some [[RANGE_DATUM_FINITE]; [RANGE_DATUM_POS_INF]];
     indexes := [-1; 0; -1]; null_index := -1 |}.

(** ** The key of a tuple *)

(** The number of expression columns (attribute number 0) among the key
    columns [partattrs]. *)
Definition expression_columns (partattrs : list Z) : nat :=
  length (filter (fun keycol => keycol = 0) partattrs).

(** A key over the expression [a1 + 1] and the attribute 2. *)
Definition expression_key : PartitionKey :=
  {| strategy := PARTITION_STRATEGY_RANGE; partnatts := 2;
     partsupfunc := fun _ => btint4cmp; partattrs := [0; 2];
     partexprs := [fun row => (fun v => v + 1) <$> mjoin (row !! 0%nat)] |}.

(** ** A table with leaf partitions *)

(** The relation of a partitioned table with the key [key] and the
    descriptor [desc]. *)
Definition partitioned_table (relid : Oid) (key : PartitionKey)
    (desc : PartitionDescData) : RelationData :=
  {| rd_id := relid; rd_att := relid; rd_partkey := Some key;
     rd_partdesc := Some desc |}.

(** A catalog in which no relation is partitioned. *)
Definition leaf_heap_open (oid : Oid) : RelationData :=
  {| rd_id := oid; rd_att := oid; rd_partkey := None; rd_partdesc := None |}.

Definition leaf_relkind (oid : Oid) : relkind := RELKIND_RELATION.

(** The descriptors of the rows [two_range_rows] and [two_list_rows]. *)
Definition two_ranges_desc : PartitionDescData :=
  {| nparts := 2; oids := [101; 102];
     boundinfo := Some two_ranges_boundinfo |}.

Definition two_lists_desc : PartitionDescData :=
  {| nparts := 2; oids := [101; 102];
     boundinfo := Some two_lists_boundinfo |}.

(** ** Declared range bounds *)

(** The content tag and the stored datum of one column of a declared range
    bound: the cell of an infinite column keeps the zero of [palloc0]. *)
Definition datum_content (lower : bool) (d : PartitionRangeDatum)
    : RangeDatumContent :=
  if infinite d then
    if lower then RANGE_DATUM_NEG_INF else RANGE_DATUM_POS_INF
  else RANGE_DATUM_FINITE.

Definition datum_value (d : PartitionRangeDatum) : Datum :=
  if infinite d then 0 else constvalue (value d).

(** A finite column whose value is NULL. *)
Definition null_range_datum (d : PartitionRangeDatum) : Prop :=
  infinite d = false /\ constisnull (value d) = true.

(** [UNBOUNDED], and the list partitions [IN (NULL)] (OID 101) and
    [IN (1, NULL)] (OID 102). *)
Definition unbounded_datum : PartitionRangeDatum :=
  {| infinite := true; value := {| constisnull := true; constvalue := 0 |} |}.

Definition two_null_rows : list pg_class_row :=
  [partition_row 101 (list_spec [None]);
   partition_row 102 (list_spec [Some 1; None])].

(** A two-level hierarchy with bounds: table 1 has the range partitions
    [10, 20) (OID 101, a leaf) and [20, 30) (OID 102), and 102 is itself
    list partitioned into [IN (1, 2)] (OID 201) and [IN (3, NULL)]
    (OID 202). *)
Definition two_level_heap_open (oid : Oid) : RelationData :=
  if oid =? 1 then partitioned_table 1 int4_range_key two_ranges_desc
  else if oid =? 102 then
    partitioned_table 102 int4_list_key
      {| nparts := 2; oids := [201; 202];
         boundinfo := Some two_lists_boundinfo |}
  else leaf_heap_open oid.

Definition two_level_relkind (oid : Oid) : relkind :=
  if (oid =? 1) || (oid =? 102) then RELKIND_PARTITIONED_TABLE
  else RELKIND_RELATION.

Definition two_level_weight (oid : Oid) : nat :=
  if oid =? 1 then 4%nat else if oid =? 102 then 2%nat else 0%nat.

(** ** Parents in the dispatch array *)

(** [r] is the relation of a partition of [parent]. *)
Definition child_of (heap_open : Oid -> RelationData)
    (r parent : RelationData) : Prop :=
  exists o, o ∈ rel_partition_oids parent /\ r = heap_open o.

(** An entry of [parted_rels] with its entry of [parted_rel_parents]: the
    parent is one of the relations [rels] and has [rp.1] as a partition. *)
Definition has_parent_in (heap_open : Oid -> RelationData)
    (rels : list RelationData) (rp : RelationData * option RelationData)
    : Prop :=
  exists parent, rp.2 = Some parent /\ child_of heap_open rp.1 parent /\
                 parent ∈ rels.

(** ** Well-formed collections *)

(** What the walk relies on when it reads the collection [bi] of a
    descriptor with the key [key]: [indexes] has an entry for every bound
    (and one more for a range key), and every index it holds, like
    [null_index], is below [nparts]. *)
Definition indexes_in_range (key : PartitionKey) (desc : PartitionDescData)
    (bi : PartitionBoundInfoData) : Prop :=
  0 <= ndatums bi <= 2 ^ 30 /\
  ndatums bi + (if decide (strategy key = PARTITION_STRATEGY_RANGE)
                then 1 else 0) <= Z.of_nat (length (indexes bi)) /\
  Forall (fun index => index < nparts desc) (indexes bi) /\
  null_index bi < nparts desc.

(** ** Breadth-first order *)








(** ** The slots of the bounds of a partition *)

(** Offset [k] of the range collection [bi] of the descriptor [desc] is the
    slot of the upper bound [b] of the partition [oid]: it stores [b], and
    its entry of [indexes] is the ordinal of [oid] in [oids]. *)
Definition upper_slot (key : PartitionKey) (desc : PartitionDescData)
    (bi : PartitionBoundInfoData) (k : nat) (b : PartitionRangeBound)
    (oid : Oid) : Prop :=
  stores_bound key bi k b /\
  exists index, indexes bi !! k = Some index /\ 0 <= index /\
                oids desc !! Z.to_nat index = Some oid.

(** Offset [k] is the slot of the lower bound [b]: it stores [b], and its
    entry of [indexes] is -1. *)
Definition lower_slot (key : PartitionKey) (bi : PartitionBoundInfoData)
    (k : nat) (b : PartitionRangeBound) : Prop :=
  stores_bound key bi k b /\ indexes bi !! k = Some (-1).

(** The lower bound 10 of the first of the partitions [[10, 20)] and
    [[20, 30)], and the upper bound 30 of the second. *)
Definition lower_10 : PartitionRangeBound :=
  {| rb_index := 0; rb_datums := [10]; rb_content := [RANGE_DATUM_FINITE];
     rb_lower := true |}.

Definition upper_30 : PartitionRangeBound :=
  {| rb_index := 1; rb_datums := [30]; rb_content := [RANGE_DATUM_FINITE];
     rb_lower := false |}.

(** * Properties *)

(** ** The range comparator *)

Lemma partition_rbound_cmp_loop_equal key d1 c1 d2 c2 n i :
  columns_equal key d1 c1 d2 c2 i n ->
  partition_rbound_cmp_loop key d1 c1 d2 c2 n i 0 = LoopDone 0.
Proof.
  revert i. induction n as [|n IH]; intros i Heq; [reflexivity|].
  destruct (Heq i ltac:(lia)) as (H1 & H2 & H3).
  cbn [partition_rbound_cmp_loop]. rewrite H1, H2, H3. cbn.
  apply IH. intros j Hj. apply Heq. lia.
Qed.

Lemma partition_rbound_cmp_loop_skip key d1 c1 d2 c2 k n i :
  columns_equal key d1 c1 d2 c2 i k ->
  partition_rbound_cmp_loop key d1 c1 d2 c2 (k + n) i 0
  = partition_rbound_cmp_loop key d1 c1 d2 c2 n (i + k) 0.
Proof.
  revert i. induction k as [|k IH]; intros i Heq.
  - cbn. by rewrite Nat.add_0_r.
  - destruct (Heq i ltac:(lia)) as (H1 & H2 & H3).
    cbn [partition_rbound_cmp_loop Nat.add]. rewrite H1, H2, H3. cbn.
    rewrite IH; [f_equal; lia|]. intros j Hj. apply Heq. lia.
Qed.

Lemma rbound_cmp_columns_equal key datums1 content1 lower1 b2 :
  columns_equal key datums1 content1 (rb_datums b2) (rb_content b2)
    0 (partnatts key) ->
  partition_rbound_cmp key datums1 content1 lower1 b2
  = if eqb lower1 (rb_lower b2) then 0 else if lower1 then 1 else -1.
Proof.
  intros Heq. unfold partition_rbound_cmp.
  rewrite partition_rbound_cmp_loop_equal by done.
  by destruct lower1, (rb_lower b2).
Qed.

(** C5: when every key column is finite on both sides and compares equal,
    [partition_rbound_cmp] decides by the edge kinds alone: 1 for a lower
    edge against an upper edge, -1 for an upper edge against a lower edge,
    0 for two edges of the same kind. *)
Theorem partition_rbound_cmp_edge_kind key datums1 content1 lower1 b2 :
  columns_equal key datums1 content1 (rb_datums b2) (rb_content b2)
    0 (partnatts key) ->
  partition_rbound_cmp key datums1 content1 lower1 b2
  = match lower1, rb_lower b2 with
    | true, false => 1
    | false, true => -1
    | _, _ => 0
    end.
Proof.
  intros Heq. unfold partition_rbound_cmp.
  rewrite partition_rbound_cmp_loop_equal by done.
  by destruct lower1, (rb_lower b2).
Qed.

Lemma partition_rbound_cmp_edge_kind_witness :
  partition_rbound_cmp int4_range_key [20] [RANGE_DATUM_FINITE] true
    {| rb_index := 0; rb_datums := [20]; rb_content := [RANGE_DATUM_FINITE];
       rb_lower := false |} = 1.
Proof.
  apply (partition_rbound_cmp_edge_kind int4_range_key [20]
           [RANGE_DATUM_FINITE] true
           {| rb_index := 0; rb_datums := [20];
              rb_content := [RANGE_DATUM_FINITE]; rb_lower := false |}).
  intros j Hj. cbn in Hj. assert (j = 0%nat) as -> by lia. by vm_compute.
Defined.

(** C10: when the two bounds carry the same infinity at column [i], and the
    columns before [i] are finite and compare equal, [partition_rbound_cmp]
    returns 0.  Nothing is assumed about the columns after [i], about the
    datums at [i], or about the two edge kinds: none of them is looked at. *)
Theorem partition_rbound_cmp_same_infinity key datums1 content1 lower1 b2 i :
  (i < partnatts key)%nat ->
  columns_equal key datums1 content1 (rb_datums b2) (rb_content b2) 0 i ->
  content1 !!! i <> RANGE_DATUM_FINITE ->
  content1 !!! i = rb_content b2 !!! i ->
  partition_rbound_cmp key datums1 content1 lower1 b2 = 0.
Proof.
  intros Hi Heq Hinf Hsame. unfold partition_rbound_cmp.
  replace (partnatts key) with (i + S (partnatts key - S i))%nat by lia.
  rewrite partition_rbound_cmp_loop_skip by done.
  cbn [partition_rbound_cmp_loop Nat.add]. rewrite <- Hsame.
  by destruct (content1 !!! i).
Qed.

Lemma partition_rbound_cmp_same_infinity_witness :
  partition_rbound_cmp int4_range_key3
    [7; 1; 5] [RANGE_DATUM_FINITE; RANGE_DATUM_POS_INF; RANGE_DATUM_FINITE]
    true
    {| rb_index := 0; rb_datums := [7; 2; 9];
       rb_content := [RANGE_DATUM_FINITE; RANGE_DATUM_POS_INF;
                      RANGE_DATUM_NEG_INF];
       rb_lower := false |} = 0.
Proof.
  apply (partition_rbound_cmp_same_infinity _ _ _ _ _ 1%nat).
  - cbn. lia.
  - intros j Hj. assert (j = 0%nat) as -> by lia. by vm_compute.
  - by vm_compute.
  - by vm_compute.
Defined.

(** ** Binary search *)

Lemma bsearch_mid lo hi :
  -1 <= lo -> lo < hi -> hi < 2 ^ 30 ->
  int_div (int_add (int_add lo hi) 1) 2 = (lo + hi + 1) / 2 /\
  lo < (lo + hi + 1) / 2 <= hi.
Proof.
  intros Hlo Hlt Hhi. unfold int_div, int_add, int_wrap.
  assert (2 ^ 30 = 1073741824) as E30 by reflexivity.
  assert (2 ^ 31 = 2147483648) as E31 by reflexivity.
  assert (2 ^ 32 = 4294967296) as E32 by reflexivity.
  rewrite E30 in Hhi. rewrite E31, E32.
  rewrite (Z.mod_small (lo + hi + _)) by lia.
  replace (lo + hi + 2147483648 - 2147483648) with (lo + hi) by lia.
  rewrite Z.mod_small by lia.
  replace (lo + hi + 1 + 2147483648 - 2147483648) with (lo + hi + 1) by lia.
  rewrite Z.quot_div_nonneg by lia. split; [done|].
  Z.div_mod_to_equations. lia.
Qed.

Section bsearch.
Context (key : PartitionKey) (boundinfo : PartitionBoundInfoData)
        (probe : Probe) (probe_is_bound : bool).

Local Abbreviation vs := (bound_vs_probe key boundinfo probe probe_is_bound).

Hypothesis strategy_known : strategy key <> PARTITION_STRATEGY_UNKNOWN.

Lemma partition_bound_cmp_total offset :
  exists c,
    partition_bound_cmp key boundinfo offset probe probe_is_bound = OK c.
Proof using strategy_known.
  clear -strategy_known.
  unfold partition_bound_cmp. destruct (strategy key); [eauto| |done].
  destruct probe_is_bound; eauto.
Qed.

Lemma vs_trichotomy offset :
  vs Z.lt offset \/ vs eq offset \/ vs Z.gt offset.
Proof using strategy_known.
  destruct (partition_bound_cmp_total offset) as [c Hc].
  unfold bound_vs_probe.
  destruct (Z.lt_trichotomy c 0) as [?|[?|?]]; [left|right;left|right;right];
    exists c; split; auto; lia.
Qed.

Lemma vs_functional R1 R2 offset :
  vs R1 offset -> vs R2 offset -> exists c, R1 c 0 /\ R2 c 0.
Proof using Type.
  intros (c & Hc & ?) (c' & Hc' & ?). rewrite Hc in Hc'.
  injection Hc' as <-. eauto.
Qed.

Hypothesis ascending : ascending_for_probe key boundinfo probe probe_is_bound.

Lemma vs_gt_above i j :
  0 <= i < j -> j < ndatums boundinfo -> ~ vs Z.lt i -> vs Z.gt j.
Proof using All.
  intros Hij Hj Hi.
  destruct (vs_trichotomy j) as [(c & Hc & ?)|[(c & Hc & ?)|?]]; [| |done];
    destruct Hi; apply (ascending i j); auto; exists c; split; auto; lia.
Qed.

Lemma vs_weaken (R1 R2 : Z -> Z -> Prop) offset :
  (forall c, R1 c 0 -> R2 c 0) -> vs R1 offset -> vs R2 offset.
Proof using Type. intros HR (c & Hc & ?). exists c. auto. Qed.

(** Leaving the loop at [lo]: what is known of the bound at [lo] and of the
    flag. *)
Lemma bsearch_exit lo is_equal :
  (0 <= lo -> vs Z.lt lo /\ is_equal = false) ->
  (0 <= lo -> vs Z.le lo) /\
  (0 <= lo -> (is_equal = true <-> vs eq lo)).
Proof using Type.
  intros Hbelow. split.
  - intros H0. destruct (Hbelow H0) as [Hlt _].
    revert Hlt. apply vs_weaken. lia.
  - intros H0. destruct (Hbelow H0) as [Hlt ->]. split; [done|].
    intros Heq. destruct (vs_functional _ _ _ Hlt Heq) as (c & ? & ?). lia.
Qed.

(** The loop, from a state in which the bound at [lo] (if any) is below
    the probe and the bound after [hi] (if any) is above it. *)
Lemma partition_bound_bsearch_loop_spec fuel lo hi is_equal :
  (Z.to_nat (hi - lo) <= fuel)%nat ->
  -1 <= lo <= hi -> hi < ndatums boundinfo -> ndatums boundinfo <= 2 ^ 30 ->
  (0 <= lo -> vs Z.lt lo /\ is_equal = false) ->
  (hi + 1 < ndatums boundinfo -> vs Z.gt (hi + 1)) ->
  exists lo' is_equal',
    partition_bound_bsearch_loop fuel key boundinfo probe probe_is_bound
      lo hi is_equal = OK (lo', is_equal') /\
    lo <= lo' <= hi /\
    (0 <= lo' -> vs Z.le lo') /\
    (lo' + 1 < ndatums boundinfo -> vs Z.gt (lo' + 1)) /\
    (0 <= lo' -> (is_equal' = true <-> vs eq lo')) /\
    (lo' = -1 -> is_equal' = is_equal).
Proof using All.
  revert lo hi is_equal.
  induction fuel as [|fuel IH];
    intros lo hi is_equal Hfuel Hlo Hhi Hn Hbelow Habove.
  - assert (lo = hi) as <- by lia.
    cbn. rewrite Z.ltb_irrefl. exists lo, is_equal.
    destruct (bsearch_exit lo is_equal Hbelow) as [H1 H2].
    split; [done|]. split; [lia|]. auto.
  - cbn [partition_bound_bsearch_loop].
    destruct (Z.ltb_spec lo hi) as [Hlt|Hge].
    + destruct (bsearch_mid lo hi) as [-> Hmid]; [lia..|].
      set (mid := (lo + hi + 1) / 2) in *.
      destruct (partition_bound_cmp_total mid) as [c Hc].
      rewrite Hc. cbn.
      destruct (Z.leb_spec c 0) as [Hle|Hgt].
      * destruct (Z.eqb_spec c 0) as [->|Hne].
        -- exists mid, true. split; [done|]. split; [lia|].
           assert (vs eq mid) as Heq by (exists 0; done).
           split; [|split; [|split]].
           ++ intros _. revert Heq. apply vs_weaken. lia.
           ++ intros Hm1. apply (vs_gt_above mid); [lia..|].
              intros Hlt'.
              destruct (vs_functional _ _ _ Hlt' Heq) as (c' & ? & ?). lia.
           ++ done.
           ++ lia.
        -- destruct (IH mid hi false)
             as (lo' & eq' & Hrun & Hrange & H1 & H2 & H3 & H4);
             [lia..| | |].
           ++ intros _. split; [|done]. exists c. split; auto; lia.
           ++ done.
           ++ exists lo', eq'. split; [done|]. split; [lia|].
              split; [done|]. split; [done|]. split; [done|]. lia.
      * destruct (IH lo (mid - 1) is_equal)
          as (lo' & eq' & Hrun & Hrange & H1 & H2 & H3 & H4);
          [lia..| | |].
        -- done.
        -- intros _. replace (mid - 1 + 1) with mid by lia.
           exists c. split; auto; lia.
        -- exists lo', eq'. split; [done|]. split; [lia|]. auto.
    + assert (lo = hi) as <- by lia.
      exists lo, is_equal.
      destruct (bsearch_exit lo is_equal Hbelow) as [H1 H2].
      split; [done|]. split; [lia|]. auto.
Qed.

End bsearch.

(** C3: on a collection whose bounds are strictly ascending for the probe,
    [partition_bound_bsearch] returns an offset in [-1, ndatums - 1] such
    that: it is -1 exactly when every stored bound is above the probe;
    otherwise the bound at the offset is not above the probe and every later
    bound is; it is [ndatums - 1] exactly when no stored bound is above the
    probe; and, for an offset other than -1, [*is_equal] is left true
    exactly when the bound at the offset equals the probe.  The collection
    holds at most [2 ^ 30] bounds, which keeps [lo + hi + 1] an [int].
    The collections built for valid sets of partitions are ascending for
    every probe ([canonical_bounds_ascending] below). *)
Theorem partition_bound_bsearch_greatest_le
    key boundinfo probe probe_is_bound is_equal :
  strategy key <> PARTITION_STRATEGY_UNKNOWN ->
  0 <= ndatums boundinfo <= 2 ^ 30 ->
  ascending_for_probe key boundinfo probe probe_is_bound ->
  exists offset is_equal',
    partition_bound_bsearch key boundinfo probe probe_is_bound is_equal
    = OK (offset, is_equal') /\
    -1 <= offset < ndatums boundinfo /\
    (offset = -1 <->
       forall i, 0 <= i < ndatums boundinfo ->
         bound_vs_probe key boundinfo probe probe_is_bound Z.gt i) /\
    (0 <= offset ->
       bound_vs_probe key boundinfo probe probe_is_bound Z.le offset /\
       forall i, offset < i < ndatums boundinfo ->
         bound_vs_probe key boundinfo probe probe_is_bound Z.gt i) /\
    (offset = ndatums boundinfo - 1 <->
       forall i, 0 <= i < ndatums boundinfo ->
         bound_vs_probe key boundinfo probe probe_is_bound Z.le i) /\
    (0 <= offset ->
       (is_equal' = true <->
        bound_vs_probe key boundinfo probe probe_is_bound eq offset)) /\
    (offset = -1 -> is_equal' = is_equal).
Proof.
  intros Hstrat Hn Hasc. unfold partition_bound_bsearch.
  destruct (partition_bound_bsearch_loop_spec key boundinfo probe
              probe_is_bound Hstrat Hasc (Z.to_nat (ndatums boundinfo))
              (-1) (ndatums boundinfo - 1) is_equal)
    as (lo & eq' & Hrun & Hrange & Hle & Hgt & Heq & Hkeep); [lia..| | |].
  { lia. }
  { lia. }
  assert (forall i, lo < i < ndatums boundinfo ->
            bound_vs_probe key boundinfo probe probe_is_bound Z.gt i)
    as Habove.
  { intros i Hi. destruct (decide (i = lo + 1)) as [->|Hne]; [apply Hgt; lia|].
    apply (vs_gt_above key boundinfo probe probe_is_bound Hstrat Hasc
             (lo + 1) i); [lia..|].
    intros Hlt.
    destruct (vs_functional _ _ _ _ _ _ _ Hlt (Hgt ltac:(lia)))
      as (c & ? & ?). lia. }
  exists lo, eq'. split; [done|]. split; [lia|].
  split; [|split; [|split; [|split]]]; auto.
  - split.
    + intros ->. intros i Hi. apply Habove. lia.
    + intros Hall. destruct (decide (lo = -1)) as [|Hne]; [done|].
      destruct (vs_functional _ _ _ _ _ _ _ (Hle ltac:(lia))
                  (Hall lo ltac:(lia))) as (c & ? & ?). lia.
  - split.
    + intros -> i Hi.
      destruct (decide (i = ndatums boundinfo - 1)) as [->|Hne];
        [apply Hle; lia|].
      eapply vs_weaken; [|apply (Hasc i (ndatums boundinfo - 1));
                          [lia|lia|apply Hle; lia]].
      intros c. cbn. lia.
    + intros Hall.
      destruct (decide (lo = ndatums boundinfo - 1)) as [|Hne]; [done|].
      destruct (vs_functional _ _ _ _ _ _ _ (Hgt ltac:(lia))
                  (Hall (lo + 1) ltac:(lia))) as (c & ? & ?). lia.
Qed.

Lemma two_ranges_ascending :
  ascending_for_probe int4_range_key two_ranges_boundinfo
    (ProbeDatums [25]) false.
Proof.
  intros i j Hij Hj (c & Hc & Hle). cbn in Hj.
  assert (Hcases : (i = 0 /\ j = 1) \/ (i = 0 /\ j = 2) \/ (i = 1 /\ j = 2))
    by lia.
  unfold bound_vs_probe.
  destruct Hcases as [[-> ->]|[[-> ->]|[-> ->]]];
    vm_compute in Hc; injection Hc as <-; try done;
    eexists; (split; [by vm_compute|done]).
Qed.

Lemma partition_bound_bsearch_greatest_le_witness :
  exists offset is_equal',
    partition_bound_bsearch int4_range_key two_ranges_boundinfo
      (ProbeDatums [25]) false false = OK (offset, is_equal') /\
    -1 <= offset < 3 /\
    (offset = -1 <->
       forall i, 0 <= i < 3 ->
         bound_vs_probe int4_range_key two_ranges_boundinfo
           (ProbeDatums [25]) false Z.gt i) /\
    (0 <= offset ->
       bound_vs_probe int4_range_key two_ranges_boundinfo
         (ProbeDatums [25]) false Z.le offset /\
       forall i, offset < i < 3 ->
         bound_vs_probe int4_range_key two_ranges_boundinfo
           (ProbeDatums [25]) false Z.gt i) /\
    (offset = 3 - 1 <->
       forall i, 0 <= i < 3 ->
         bound_vs_probe int4_range_key two_ranges_boundinfo
           (ProbeDatums [25]) false Z.le i) /\
    (0 <= offset ->
       (is_equal' = true <->
        bound_vs_probe int4_range_key two_ranges_boundinfo
          (ProbeDatums [25]) false eq offset)) /\
    (offset = -1 -> is_equal' = false).
Proof.
  apply (partition_bound_bsearch_greatest_le int4_range_key
           two_ranges_boundinfo (ProbeDatums [25]) false false).
  - discriminate.
  - cbn. lia.
  - apply two_ranges_ascending.
Defined.

(** ** Checking a new bound: the empty range *)

(** C7: for a range key, a candidate whose lower bound is not below its
    upper bound is answered with the empty-range report, whatever the
    descriptor of the parent holds (no partition, or any bound collection);
    that report is not the overlap report. *)
Theorem check_new_partition_bound_empty_range key partdesc spec lower upper :
  strategy key = PARTITION_STRATEGY_RANGE ->
  make_one_range_bound key (-1) (lowerdatums spec) true = OK lower ->
  make_one_range_bound key (-1) (upperdatums spec) false = OK upper ->
  partition_rbound_cmp key (rb_datums lower) (rb_content lower) true upper
  >= 0 ->
  check_new_partition_bound key partdesc spec = ERROR ERR_empty_range /\
  forall oid, ERR_empty_range <> ERR_would_overlap oid.
Proof.
  intros Hstrat Hlower Hupper Hcmp. split; [|done].
  unfold check_new_partition_bound. rewrite Hstrat, Hlower. cbn.
  rewrite Hupper. cbn.
  destruct (Z.geb_spec
              (partition_rbound_cmp key (rb_datums lower) (rb_content lower)
                 true upper) 0); [done|lia].
Qed.

Lemma check_new_partition_bound_empty_range_witness :
  check_new_partition_bound int4_range_key
    {| nparts := 2; oids := [101; 102];
       boundinfo := Some two_ranges_boundinfo |}
    (range_spec 30 30) = ERROR ERR_empty_range /\
  forall oid, ERR_empty_range <> ERR_would_overlap oid.
Proof.
  apply (check_new_partition_bound_empty_range int4_range_key _
           (range_spec 30 30)
           {| rb_index := -1; rb_datums := [30];
              rb_content := [RANGE_DATUM_FINITE]; rb_lower := true |}
           {| rb_index := -1; rb_datums := [30];
              rb_content := [RANGE_DATUM_FINITE]; rb_lower := false |}).
  - reflexivity.
  - reflexivity.
  - reflexivity.
  - by vm_compute.
Defined.

(** ** Routing: null keys *)

Lemma any_key_isnull_true isnull n i j :
  (i <= j < i + n)%nat -> isnull !!! j = true ->
  any_key_isnull isnull n i = true.
Proof.
  revert i. induction n as [|n IH]; intros i Hj Hnull; [lia|].
  cbn. destruct (isnull !!! i) eqn:Hi; [done|].
  apply IH; [|done]. destruct (decide (j = i)) as [->|]; [congruence|lia].
Qed.

(** C6: the walk of [get_partition_for_tuple] stands at node [parent], which
    has partitions.  If the key is a range key and some key column of the
    row is null, the walk ends there with -1, [*failed_at] the node and
    [*failed_slot] the (converted) row; the bound collection is not
    consulted (it may even be missing).  If the key is a list key and the
    first key column is null: with a null-accepting partition the walk goes
    on from the entry of that partition in the node's array (a leaf is the
    result, a negative entry leads to the node it names); without one the
    walk ends at the node as above. *)
Theorem get_partition_for_tuple_null_key
    fuel pd parent slot k desc values isnull :
  key parent = Some k ->
  partdesc parent = Some desc ->
  nparts desc <> 0 ->
  FormPartitionKeyDatum parent k (convert_slot parent slot)
  = OK (values, isnull) ->
  (strategy k = PARTITION_STRATEGY_RANGE ->
   (exists i, (i < partnatts k)%nat /\ isnull !!! i = true) ->
   get_partition_for_tuple_loop (S fuel) pd parent slot
   = OK (NotRouted parent (convert_slot parent slot)) /\
   routing_result (NotRouted parent (convert_slot parent slot)) = -1) /\
  (strategy k = PARTITION_STRATEGY_LIST ->
   isnull !!! 0%nat = true ->
   forall bi, boundinfo desc = Some bi ->
     (0 <= null_index bi ->
      partition_bound_accepts_nulls bi = true /\
      get_partition_for_tuple_loop (S fuel) pd parent slot
      = let next := pd_indexes parent !!! Z.to_nat (null_index bi) in
        if 0 <=? next then OK (Routed next)
        else
          parent' ← deref (pd !! Z.to_nat (- next));
          get_partition_for_tuple_loop fuel pd parent'
            (convert_slot parent slot)) /\
     (partition_bound_accepts_nulls bi = false ->
      get_partition_for_tuple_loop (S fuel) pd parent slot
      = OK (NotRouted parent (convert_slot parent slot)))).
Proof.
  intros Hkey Hdesc Hn Hform. split.
  - intros Hstrat (i & Hi & Hnull). split; [|done].
    cbn [get_partition_for_tuple_loop]. rewrite Hdesc. cbn.
    destruct (Z.eqb_spec (nparts desc) 0) as [|_]; [done|].
    rewrite Hkey. cbn. rewrite Hform. cbn. rewrite Hstrat.
    rewrite bool_decide_eq_true_2 by done.
    by rewrite (any_key_isnull_true isnull (partnatts k) 0 i) by (done || lia).
  - intros Hstrat Hnull bi Hbi. split.
    + intros Hidx.
      assert (partition_bound_accepts_nulls bi = true) as Hacc.
      { unfold partition_bound_accepts_nulls.
        destruct (Z.eqb_spec (null_index bi) (-1)); [lia|done]. }
      split; [done|].
      cbn [get_partition_for_tuple_loop]. rewrite Hdesc. cbn.
      destruct (Z.eqb_spec (nparts desc) 0) as [|_]; [done|].
      rewrite Hkey. cbn. rewrite Hform. cbn. rewrite Hstrat.
      rewrite bool_decide_eq_false_2 by done. cbn.
      rewrite Hbi. cbn. rewrite Hnull, Hacc. cbn.
      destruct (Z.ltb_spec (null_index bi) 0); [lia|done].
    + intros Hacc.
      cbn [get_partition_for_tuple_loop]. rewrite Hdesc. cbn.
      destruct (Z.eqb_spec (nparts desc) 0) as [|_]; [done|].
      rewrite Hkey. cbn. rewrite Hform. cbn. rewrite Hstrat.
      rewrite bool_decide_eq_false_2 by done. cbn.
      rewrite Hbi. cbn. by rewrite Hnull, Hacc.
Qed.

Lemma get_partition_for_tuple_null_key_witness :
  get_partition_for_tuple_loop 1
    [root_node int4_range_key two_ranges_boundinfo [0; 1]]
    (root_node int4_range_key two_ranges_boundinfo [0; 1])
    (row_slot [None])
  = OK (NotRouted (root_node int4_range_key two_ranges_boundinfo [0; 1])
          (row_slot [None])) /\
  get_partition_for_tuple_loop 1
    [root_node int4_list_key list_with_null_boundinfo [0; 1]]
    (root_node int4_list_key list_with_null_boundinfo [0; 1])
    (row_slot [None])
  = OK (Routed 1).
Proof.
  split.
  - destruct (get_partition_for_tuple_null_key 0
                [root_node int4_range_key two_ranges_boundinfo [0; 1]]
                (root_node int4_range_key two_ranges_boundinfo [0; 1])
                (row_slot [None]) int4_range_key
                {| nparts := 2; oids := [101; 102];
                   boundinfo := Some two_ranges_boundinfo |}
                [0] [true] eq_refl eq_refl ltac:(discriminate) eq_refl)
      as [Hrange _].
    apply Hrange; [reflexivity|].
    exists 0%nat. split; [cbn; lia|reflexivity].
  - destruct (get_partition_for_tuple_null_key 0
                [root_node int4_list_key list_with_null_boundinfo [0; 1]]
                (root_node int4_list_key list_with_null_boundinfo [0; 1])
                (row_slot [None]) int4_list_key
                {| nparts := 2; oids := [101; 102];
                   boundinfo := Some list_with_null_boundinfo |}
                [0] [true] eq_refl eq_refl ltac:(discriminate) eq_refl)
      as [_ Hlist].
    destruct (Hlist eq_refl eq_refl list_with_null_boundinfo eq_refl)
      as [Haccepts _].
    destruct Haccepts as [_ Hrun]; [cbn; lia|]. exact Hrun.
Defined.

(** ** The dispatch array *)

Lemma lookup_filter_take {A} (P : A -> Prop) `{!forall x, Decision (P x)}
    (l : list A) j x :
  l !! j = Some x -> P x ->
  filter P l !! length (filter P (take j l)) = Some x.
Proof.
  intros Hj HP.
  remember (length (filter P (take j l))) as n eqn:Hn.
  rewrite <- (take_drop_middle l j x Hj).
  rewrite filter_app, filter_cons_True by done.
  by rewrite lookup_app_r, Hn, Nat.sub_diag by lia.
Qed.

Lemma lookup_concat_take {A} (ls : list (list A)) i l q x :
  ls !! i = Some l -> l !! q = Some x ->
  concat ls !! (length (concat (take i ls)) + q)%nat = Some x.
Proof.
  intros Hi Hq.
  remember (length (concat (take i ls))) as n eqn:Hn.
  rewrite <- (take_drop_middle ls i l Hi).
  rewrite concat_app, concat_cons.
  rewrite lookup_app_r by lia.
  replace (n + q - length (concat (take i ls)))%nat with q by lia.
  by rewrite lookup_app_l by (by eapply lookup_lt_Some).
Qed.

Lemma dispatch_indexes_loop_spec (grk : Oid -> relkind)
    partoids offset k m leaf_part_oids :
  exists indexes,
    dispatch_indexes_loop grk partoids offset k m leaf_part_oids
    = (indexes,
       (k + Z.of_nat (length (filter (is_leaf grk) partoids)),
        m + Z.of_nat (length (filter (is_partitioned grk) partoids)),
        leaf_part_oids ++ filter (is_leaf grk) partoids)) /\
    length indexes = length partoids /\
    forall j o, partoids !! j = Some o ->
      indexes !! j
      = Some (if decide (is_partitioned grk o)
              then - (1 + offset
                      + (m + Z.of_nat (length (filter (is_partitioned grk)
                                                 (take j partoids)))))
              else k + Z.of_nat (length (filter (is_leaf grk)
                                           (take j partoids)))).
Proof.
  revert k m leaf_part_oids.
  induction partoids as [|o rest IH]; intros k m leaf_part_oids.
  - exists []. cbn. rewrite app_nil_r, !Z.add_0_r. done.
  - cbn [dispatch_indexes_loop].
    destruct (decide (is_partitioned grk o)) as [Hp|Hl].
    + rewrite bool_decide_eq_true_2 by done. cbn [negb].
      destruct (IH k (m + 1) leaf_part_oids) as (idx & -> & Hlen & Hidx).
      assert (~ is_leaf grk o) as Hnl by (intros H; by apply H).
      eexists. split; [|split].
      * rewrite (filter_cons_True (is_partitioned grk)) by done.
        rewrite (filter_cons_False (is_leaf grk)) by done.
        cbn [length]. do 3 f_equal; lia.
      * cbn. by rewrite Hlen.
      * intros [|j] o' Hj.
        -- injection Hj as <-. cbn. rewrite decide_True by done.
           do 2 f_equal. lia.
        -- cbn in Hj. rewrite lookup_cons, firstn_cons. rewrite (Hidx j o' Hj).
           rewrite (filter_cons_True (is_partitioned grk)) by done.
           rewrite (filter_cons_False (is_leaf grk)) by done.
           cbn [length]. destruct (decide (is_partitioned grk o')); f_equal; lia.
    + rewrite bool_decide_eq_false_2 by done. cbn [negb].
      destruct (IH (k + 1) m (leaf_part_oids ++ [o])) as (idx & -> & Hlen & Hidx).
      eexists. split; [|split].
      * rewrite (filter_cons_False (is_partitioned grk)) by done.
        rewrite (filter_cons_True (is_leaf grk)) by done.
        cbn [length]. rewrite <- app_assoc. do 3 f_equal; lia.
      * cbn. by rewrite Hlen.
      * intros [|j] o' Hj.
        -- injection Hj as <-. cbn. rewrite decide_False by done.
           do 2 f_equal. lia.
        -- cbn in Hj. rewrite lookup_cons, firstn_cons. rewrite (Hidx j o' Hj).
           rewrite (filter_cons_False (is_partitioned grk)) by done.
           rewrite (filter_cons_True (is_leaf grk)) by done.
           cbn [length]. destruct (decide (is_partitioned grk o')); f_equal; lia.
Qed.
Lemma APPEND_REL_PARTITION_OIDS_fst rel partdesc all_parts :
  (APPEND_REL_PARTITION_OIDS rel partdesc all_parts).*1
  = all_parts.*1 ++ partition_oids partdesc.
Proof.
  unfold APPEND_REL_PARTITION_OIDS, partition_oids.
  rewrite fmap_app. f_equal. rewrite <- list_fmap_compose.
  by apply list_fmap_ext.
Qed.

Lemma hierarchy_weight_app weight l1 l2 :
  hierarchy_weight weight (l1 ++ l2)
  = (hierarchy_weight weight l1 + hierarchy_weight weight l2)%nat.
Proof. apply sum_list_with_app. Qed.

Lemma hierarchy_weight_cons weight o l :
  hierarchy_weight weight (o :: l)
  = S (weight o + hierarchy_weight weight l).
Proof. reflexivity. Qed.

Lemma collect_parted_rels_spec heap_open weight root fuel all_parts parted_rels :
  finite_hierarchy heap_open weight ->
  (hierarchy_weight weight all_parts.*1 <= fuel)%nat ->
  parted_rels.*1
    ++ (heap_open <$> filter (has_partdesc heap_open) all_parts.*1)
  = root :: concat (partitioned_children heap_open <$> parted_rels.*1) ->
  Forall (fun r => is_Some (rd_partdesc r)) parted_rels.*1 ->
  exists result,
    collect_parted_rels heap_open fuel all_parts parted_rels = OK result /\
    result.*1 = root :: concat (partitioned_children heap_open <$> result.*1) /\
    Forall (fun r => is_Some (rd_partdesc r)) result.*1.
Proof.
  intros Hfin. revert all_parts parted_rels.
  induction fuel as [|fuel IH]; intros all_parts parted_rels Hfuel Hinv Hall.
  - destruct all_parts as [|[o p] rest];
      [|cbn [fmap list_fmap fst] in Hfuel;
        rewrite hierarchy_weight_cons in Hfuel; lia].
    exists parted_rels. cbn in *. by rewrite app_nil_r in Hinv.
  - destruct all_parts as [|[o p] rest].
    { exists parted_rels. cbn in *. by rewrite app_nil_r in Hinv. }
    cbn [collect_parted_rels].
    destruct (rd_partdesc (heap_open o)) as [d|] eqn:Hd.
    + apply IH.
      * rewrite APPEND_REL_PARTITION_OIDS_fst, hierarchy_weight_app.
        specialize (Hfin o). unfold rel_partition_oids in Hfin.
        rewrite Hd in Hfin. cbn [fmap list_fmap fst] in Hfuel.
        rewrite hierarchy_weight_cons in Hfuel. lia.
      * rewrite APPEND_REL_PARTITION_OIDS_fst, filter_app, !fmap_app.
        cbn [fmap list_fmap fst]. rewrite concat_app. cbn [concat].
        rewrite app_nil_r.
        cbn [fmap list_fmap fst] in Hinv.
        rewrite filter_cons_True in Hinv by (unfold has_partdesc; by rewrite Hd).
        cbn [fmap list_fmap] in Hinv.
        rewrite app_comm_cons, <- Hinv.
        rewrite <- !app_assoc. cbn [app]. do 3 f_equal.
        unfold partitioned_children, rel_partition_oids. by rewrite Hd.
      * rewrite fmap_app. apply Forall_app. split; [done|].
        cbn. constructor; [by rewrite Hd|constructor].
    + apply IH.
      * cbn [fmap list_fmap fst] in Hfuel.
        rewrite hierarchy_weight_cons in Hfuel. lia.
      * cbn [fmap list_fmap fst] in Hinv.
        rewrite filter_cons_False in Hinv
          by (unfold has_partdesc; rewrite Hd; by intros [? ?]).
        done.
      * done.
Qed.
Lemma dispatch_indexes_loop_leaf_entries grk partoids offset k m leafs :
  0 <= k -> 0 <= offset -> 0 <= m ->
  filter (fun e => 0 <= e)
    (dispatch_indexes_loop grk partoids offset k m leafs).1
  = (fun x => k + Z.of_nat x)
      <$> seq 0 (length (filter (is_leaf grk) partoids)).
Proof.
  revert k m leafs.
  induction partoids as [|o rest IH]; intros k m leafs Hk Hoff Hm; [done|].
  cbn [dispatch_indexes_loop].
  destruct (decide (is_partitioned grk o)) as [Hp|Hl].
  - rewrite bool_decide_eq_true_2 by done. cbn [negb].
    specialize (IH k (m + 1) leafs Hk Hoff ltac:(lia)).
    destruct (dispatch_indexes_loop grk rest offset k (m + 1) leafs)
      as [idx st]. cbn [fst] in *.
    rewrite filter_cons_False by lia.
    rewrite (filter_cons_False (is_leaf grk)) by (intros H; by apply H).
    done.
  - rewrite bool_decide_eq_false_2 by done. cbn [negb].
    specialize (IH (k + 1) m (leafs ++ [o]) ltac:(lia) Hoff Hm).
    destruct (dispatch_indexes_loop grk rest offset (k + 1) m (leafs ++ [o]))
      as [idx st]. cbn [fst] in *.
    rewrite filter_cons_True by lia.
    rewrite (filter_cons_True (is_leaf grk)) by done.
    cbn [length seq fmap list_fmap]. rewrite IH. f_equal; [lia|].
    rewrite <- fmap_S_seq, <- list_fmap_compose.
    apply list_fmap_ext. intros ? x _. cbn. lia.
Qed.

Lemma fmap_seq_shift (k : Z) (n m : nat) :
  (fun x => k + Z.of_nat n + Z.of_nat x) <$> seq 0 m
  = (fun x => k + Z.of_nat x) <$> seq (0 + n) m.
Proof.
  rewrite Nat.add_0_l, <- (Nat.add_0_r n), <- (fmap_add_seq n 0 m).
  rewrite <- list_fmap_compose. apply list_fmap_ext. intros ? x _. cbn. lia.
Qed.

Lemma build_dispatch_loop_spec grk conv parted_rels k offset leafs :
  Forall (fun r => is_Some (rd_partdesc r)) parted_rels.*1 ->
  exists pd leafs',
    build_dispatch_loop grk conv parted_rels k offset leafs = OK (pd, leafs') /\
    leafs' = leafs ++ concat (leaf_oids grk <$> parted_rels.*1) /\
    reldesc <$> pd = parted_rels.*1 /\
    (0 <= k -> 0 <= offset ->
     leaf_entries pd
     = (fun x => k + Z.of_nat x)
         <$> seq 0 (length (concat (leaf_oids grk <$> parted_rels.*1)))) /\
    forall i node, pd !! i = Some node ->
      partdesc node = rd_partdesc (reldesc node) /\
      length (pd_indexes node) = length (rel_partition_oids (reldesc node)) /\
      forall j o, rel_partition_oids (reldesc node) !! j = Some o ->
        pd_indexes node !! j
        = Some (if decide (is_partitioned grk o)
                then - (1 + (offset
                             + Z.of_nat (length (concat (parted_oids grk <$>
                                                  take i parted_rels.*1))))
                        + Z.of_nat (length (filter (is_partitioned grk)
                                    (take j (rel_partition_oids
                                               (reldesc node))))))
                else k + Z.of_nat (length (concat (leaf_oids grk <$>
                                            take i parted_rels.*1)))
                     + Z.of_nat (length (filter (is_leaf grk)
                                 (take j (rel_partition_oids
                                            (reldesc node)))))).
Proof.
  revert k offset leafs.
  induction parted_rels as [|[partrel parent] rest IH];
    intros k offset leafs Hall.
  - exists [], leafs. cbn. rewrite app_nil_r. repeat split; try done.
  - cbn [fmap list_fmap fst] in Hall. apply Forall_cons in Hall as [[d Hd] Hall].
    cbn [build_dispatch_loop]. rewrite Hd. cbn [deref mbind res_bind].
    change ((fun j => oids d !!! j) <$> seq 0 (Z.to_nat (nparts d)))
      with (partition_oids d).
    assert (rel_partition_oids partrel = partition_oids d) as Hos
      by (unfold rel_partition_oids; by rewrite Hd).
    pose proof (dispatch_indexes_loop_leaf_entries grk (partition_oids d)
                  offset k 0 leafs) as Hleaf.
    destruct (dispatch_indexes_loop_spec grk (partition_oids d) offset k 0
                leafs) as (idx & Hrun & Hlen & Hidx).
    rewrite Hrun in Hleaf |- *. cbn [fst] in Hleaf.
    destruct (IH (k + Z.of_nat (length (filter (is_leaf grk) (partition_oids d))))
                (offset + (0 + Z.of_nat (length (filter (is_partitioned grk)
                                                   (partition_oids d)))))
                (leafs ++ filter (is_leaf grk) (partition_oids d)) Hall)
      as (pd & leafs' & Hrest & Hleafs & Hrel & Hentries & Hnodes).
    set (pd0 := {| reldesc := partrel; key := rd_partkey partrel;
                   keystate := [];
                   partdesc := Some d;
                   tupslot := match parent with
                              | Some _ => Some (rd_att partrel)
                              | None => None
                              end;
                   tupmap := match parent with
                             | Some parent =>
                                 conv (rd_att parent) (rd_att partrel)
                             | None => None
                             end;
                   pd_indexes := idx |}).
    exists (pd0 :: pd), leafs'. split; [|split; [|split; [|split]]].
    + destruct parent; by rewrite Hrest.
    + rewrite Hleafs. cbn [fmap list_fmap fst concat].
      unfold leaf_oids at 2. by rewrite Hos, <- app_assoc.
    + cbn [fmap list_fmap fst reldesc]. by rewrite Hrel.
    + intros Hk Hoff. unfold leaf_entries in *. subst pd0.
      cbn [fmap list_fmap fst concat pd_indexes].
      rewrite filter_app, Hleaf, Hentries by lia.
      replace (leaf_oids grk partrel)
        with (filter (is_leaf grk) (partition_oids d))
        by (unfold leaf_oids; by rewrite Hos).
      rewrite length_app, seq_app, fmap_app.
      f_equal. apply fmap_seq_shift.
    + intros [|i] node Hnode.
      * injection Hnode as <-. subst pd0. cbn [reldesc partdesc pd_indexes].
        rewrite Hos. split; [done|]. split; [done|].
        intros j o Hj. rewrite (Hidx j o Hj).
        cbn [take fmap list_fmap concat length].
        destruct (decide (is_partitioned grk o)); do 2 f_equal; lia.
      * cbn [lookup list_lookup] in Hnode.
        destruct (Hnodes i node Hnode) as (Hpd & Hl & Hix).
        split; [done|]. split; [done|].
        intros j o Hj. rewrite (Hix j o Hj).
        cbn [fmap list_fmap fst take concat].
        replace (leaf_oids grk partrel)
          with (filter (is_leaf grk) (partition_oids d))
          by (unfold leaf_oids; by rewrite Hos).
        replace (parted_oids grk partrel)
          with (filter (is_partitioned grk) (partition_oids d))
          by (unfold parted_oids; by rewrite Hos).
        rewrite !length_app.
        destruct (decide (is_partitioned grk o)); do 2 f_equal; lia.
Qed.
Lemma partitioned_children_parted_oids heap_open grk rel :
  relkind_consistent heap_open grk ->
  partitioned_children heap_open rel = heap_open <$> parted_oids grk rel.
Proof.
  intros Hcons. unfold partitioned_children, parted_oids. f_equal.
  apply list_filter_iff. intros o. symmetry. apply Hcons.
Qed.

Lemma partitioned_children_concat heap_open grk (rels : list RelationData) :
  relkind_consistent heap_open grk ->
  concat (partitioned_children heap_open <$> rels)
  = heap_open <$> concat (parted_oids grk <$> rels).
Proof.
  intros Hcons. induction rels as [|r rels IH]; [done|].
  cbn. by rewrite fmap_app, IH, (partitioned_children_parted_oids _ grk).
Qed.

(** The relations collected by the first loop come in breadth-first order:
    before position [i] there are at least [i] partitioned children, so
    the children of the relation at position [i] are placed after it. *)
Lemma collect_parted_rels_order heap_open weight root fuel all_parts
    parted_rels :
  finite_hierarchy heap_open weight ->
  (hierarchy_weight weight all_parts.*1 <= fuel)%nat ->
  parted_rels.*1
    ++ (heap_open <$> filter (has_partdesc heap_open) all_parts.*1)
  = root :: concat (partitioned_children heap_open <$> parted_rels.*1) ->
  (forall i, (i < length parted_rels)%nat ->
     (i <= length (concat (partitioned_children heap_open
                             <$> take i parted_rels.*1)))%nat) ->
  exists result,
    collect_parted_rels heap_open fuel all_parts parted_rels = OK result /\
    forall i, (i < length result)%nat ->
      (i <= length (concat (partitioned_children heap_open
                              <$> take i result.*1)))%nat.
Proof.
  intros Hfin. revert all_parts parted_rels.
  induction fuel as [|fuel IH]; intros all_parts parted_rels Hfuel Hinv Hord.
  - destruct all_parts as [|[o p] rest];
      [|cbn [fmap list_fmap fst] in Hfuel;
        rewrite hierarchy_weight_cons in Hfuel; lia].
    by exists parted_rels.
  - destruct all_parts as [|[o p] rest]; [by exists parted_rels|].
    cbn [collect_parted_rels].
    destruct (rd_partdesc (heap_open o)) as [d|] eqn:Hd.
    + apply IH.
      * rewrite APPEND_REL_PARTITION_OIDS_fst, hierarchy_weight_app.
        specialize (Hfin o). unfold rel_partition_oids in Hfin.
        rewrite Hd in Hfin. cbn [fmap list_fmap fst] in Hfuel.
        rewrite hierarchy_weight_cons in Hfuel. lia.
      * rewrite APPEND_REL_PARTITION_OIDS_fst, filter_app, !fmap_app.
        cbn [fmap list_fmap fst]. rewrite concat_app. cbn [concat].
        rewrite app_nil_r.
        cbn [fmap list_fmap fst] in Hinv.
        rewrite filter_cons_True in Hinv by (unfold has_partdesc; by rewrite Hd).
        cbn [fmap list_fmap] in Hinv.
        rewrite app_comm_cons, <- Hinv.
        rewrite <- !app_assoc. cbn [app]. do 3 f_equal.
        unfold partitioned_children, rel_partition_oids. by rewrite Hd.
      * intros i Hi. rewrite length_app in Hi. cbn [length] in Hi.
        rewrite fmap_app. cbn [fmap list_fmap fst].
        destruct (decide (i < length parted_rels)%nat) as [Hold|Hnew].
        -- rewrite take_app_le by (rewrite length_fmap; lia).
           by apply Hord.
        -- assert (i = length parted_rels) as -> by lia.
           rewrite take_app_length' by (by rewrite length_fmap).
           apply (f_equal length) in Hinv.
           cbn [fmap list_fmap fst] in Hinv.
           rewrite filter_cons_True in Hinv
             by (unfold has_partdesc; by rewrite Hd).
           rewrite length_app, !length_fmap in Hinv.
           cbn [length] in Hinv. lia.
    + apply IH.
      * cbn [fmap list_fmap fst] in Hfuel.
        rewrite hierarchy_weight_cons in Hfuel. lia.
      * cbn [fmap list_fmap fst] in Hinv.
        rewrite filter_cons_False in Hinv
          by (unfold has_partdesc; rewrite Hd; by intros [? ?]).
        done.
      * done.
Qed.





Lemma example_relkind_consistent :
  relkind_consistent example_heap_open example_relkind.
Proof.
  intros oid. unfold example_relkind, example_heap_open. cbn.
  destruct (Z.eqb_spec oid 1); [by split; eauto|].
  destruct (Z.eqb_spec oid 12); [by split; eauto|].
  cbn. split; [done|]. by intros [? ?].
Qed.

Lemma example_finite_hierarchy :
  finite_hierarchy example_heap_open example_weight.
Proof.
  intros oid. unfold rel_partition_oids, example_heap_open, example_weight.
  cbn. destruct (Z.eqb_spec oid 1); [by vm_compute|].
  destruct (Z.eqb_spec oid 12); [by vm_compute|]. cbn. lia.
Qed.



Lemma partition_rbound_cmp_result key d1 c1 l1 b2 :
  partition_rbound_cmp key d1 c1 l1 b2
  = rbound_cmp_result
      (partition_rbound_cmp_loop key d1 c1 (rb_datums b2) (rb_content b2)
         (partnatts key) 0 0) l1 (rb_lower b2).
Proof. reflexivity. Qed.

Ltac content_cases :=
  repeat match goal with
         | |- context [?c !!! ?i] =>
             match type of (c !!! i) with
             | RangeDatumContent => destruct (c !!! i) eqn:?
             end
         end.

Lemma rbound_cmp_loop_antisym key d1 c1 l1 d2 c2 l2 n i :
  column_orders key -> (i + n <= partnatts key)%nat ->
  rbound_cmp_result (partition_rbound_cmp_loop key d1 c1 d2 c2 n i 0) l1 l2 < 0
  <-> 0 < rbound_cmp_result
            (partition_rbound_cmp_loop key d2 c2 d1 c1 n i 0) l2 l1.
Proof.
  intros Hcol. revert i. induction n as [|n IH]; intros i Hi.
  - cbn. destruct l1, l2; cbn; lia.
  - cbn [partition_rbound_cmp_loop].
    destruct (Hcol i ltac:(lia)) as [Hanti _].
    pose proof (Hanti (d1 !!! i) (d2 !!! i)).
    pose proof (Hanti (d2 !!! i) (d1 !!! i)).
    destruct (c1 !!! i), (c2 !!! i); cbn; try lia.
    destruct (Z.eqb_spec (partsupfunc key i (d1 !!! i) (d2 !!! i)) 0) as [E1|E1],
             (Z.eqb_spec (partsupfunc key i (d2 !!! i) (d1 !!! i)) 0) as [E2|E2];
      cbn; try lia.
    + rewrite E1, E2. apply IH. lia.
    + rewrite (proj2 (Z.eqb_neq _ _) E1), (proj2 (Z.eqb_neq _ _) E2). cbn. lia.
Qed.

Lemma rbound_cmp_loop_trans key d1 c1 l1 d2 c2 l2 d3 c3 l3 n i :
  column_orders key -> (i + n <= partnatts key)%nat ->
  rbound_cmp_result (partition_rbound_cmp_loop key d1 c1 d2 c2 n i 0) l1 l2
  <= 0 ->
  rbound_cmp_result (partition_rbound_cmp_loop key d2 c2 d3 c3 n i 0) l2 l3
  <= 0 ->
  rbound_cmp_result (partition_rbound_cmp_loop key d1 c1 d3 c3 n i 0) l1 l3
  <= 0.
Proof.
  intros Hcol. revert i. induction n as [|n IH]; intros i Hi.
  - cbn. destruct l1, l2, l3; cbn; lia.
  - cbn [partition_rbound_cmp_loop].
    destruct (Hcol i ltac:(lia)) as [Hanti Htrans].
    set (x1 := d1 !!! i). set (x2 := d2 !!! i). set (x3 := d3 !!! i).
    pose proof (Hanti x1 x2). pose proof (Hanti x2 x1).
    pose proof (Hanti x2 x3). pose proof (Hanti x3 x2).
    pose proof (Hanti x1 x3). pose proof (Hanti x3 x1).
    pose proof (Htrans x1 x2 x3). pose proof (Htrans x3 x2 x1).
    pose proof (Htrans x2 x3 x1). pose proof (Htrans x1 x3 x2).
    pose proof (Htrans x3 x1 x2). pose proof (Htrans x2 x1 x3).
    destruct (c1 !!! i), (c2 !!! i), (c3 !!! i); cbn; try lia.
    destruct (Z.eqb_spec (partsupfunc key i x1 x2) 0) as [E1|E1],
             (Z.eqb_spec (partsupfunc key i x2 x3) 0) as [E2|E2],
             (Z.eqb_spec (partsupfunc key i x1 x3) 0) as [E3|E3];
      cbn;
      rewrite ?E1, ?E2, ?E3,
        ?(proj2 (Z.eqb_neq _ _) E1), ?(proj2 (Z.eqb_neq _ _) E2),
        ?(proj2 (Z.eqb_neq _ _) E3); cbn; try lia.
    apply IH. lia.
Qed.

Lemma qsort_partition_rbound_cmp_antisym key a b :
  column_orders key ->
  qsort_partition_rbound_cmp key a b < 0
  <-> 0 < qsort_partition_rbound_cmp key b a.
Proof.
  intros Hcol. unfold qsort_partition_rbound_cmp.
  rewrite !partition_rbound_cmp_result.
  by apply rbound_cmp_loop_antisym.
Qed.

Lemma qsort_partition_rbound_cmp_trans key a b c :
  column_orders key ->
  qsort_partition_rbound_cmp key a b <= 0 ->
  qsort_partition_rbound_cmp key b c <= 0 ->
  qsort_partition_rbound_cmp key a c <= 0.
Proof.
  intros Hcol. unfold qsort_partition_rbound_cmp.
  rewrite !partition_rbound_cmp_result.
  by apply rbound_cmp_loop_trans.
Qed.

Lemma qsort_partition_rbound_cmp_preorder key l :
  column_orders key ->
  total_preorder_on (qsort_partition_rbound_cmp key) l.
Proof.
  intros Hcol. split.
  - intros a b _ _. by apply qsort_partition_rbound_cmp_antisym.
  - intros a b c _ _ _. by apply qsort_partition_rbound_cmp_trans.
Qed.

Lemma qsort_partition_list_value_cmp_preorder key l :
  column_orders key -> (0 < partnatts key)%nat ->
  total_preorder_on (qsort_partition_list_value_cmp key) l.
Proof.
  intros Hcol Hn. destruct (Hcol 0%nat Hn) as [Hanti Htrans].
  unfold qsort_partition_list_value_cmp. split.
  - intros a b _ _. apply Hanti.
  - intros a b c _ _ _. apply Htrans.
Qed.

(** Consequences of a total preorder. *)
Lemma total_preorder_eq_sym {A} (cmp : A -> A -> Z) l a b :
  total_preorder_on cmp l -> a ∈ l -> b ∈ l -> cmp a b = 0 -> cmp b a = 0.
Proof.
  intros [Hanti _] Ha Hb H0.
  pose proof (Hanti a b Ha Hb). pose proof (Hanti b a Hb Ha). lia.
Qed.

Lemma total_preorder_lt_le_trans {A} (cmp : A -> A -> Z) l a b c :
  total_preorder_on cmp l -> a ∈ l -> b ∈ l -> c ∈ l ->
  cmp a b < 0 -> cmp b c <= 0 -> cmp a c < 0.
Proof.
  intros [Hanti Htrans] Ha Hb Hc Hab Hbc.
  pose proof (Htrans a b c Ha Hb Hc ltac:(lia) Hbc).
  destruct (decide (cmp a c = 0)) as [E|]; [|lia].
  pose proof (Hanti a c Ha Hc). pose proof (Hanti c a Hc Ha).
  pose proof (Htrans b c a Hb Hc Ha Hbc ltac:(lia)).
  pose proof (Hanti a b Ha Hb). lia.
Qed.

Lemma total_preorder_le_lt_trans {A} (cmp : A -> A -> Z) l a b c :
  total_preorder_on cmp l -> a ∈ l -> b ∈ l -> c ∈ l ->
  cmp a b <= 0 -> cmp b c < 0 -> cmp a c < 0.
Proof.
  intros [Hanti Htrans] Ha Hb Hc Hab Hbc.
  pose proof (Htrans a b c Ha Hb Hc Hab ltac:(lia)).
  destruct (decide (cmp a c = 0)) as [E|]; [|lia].
  pose proof (Hanti a c Ha Hc). pose proof (Hanti c a Hc Ha).
  pose proof (Htrans c a b Hc Ha Hb ltac:(lia) Hab).
  pose proof (Hanti b c Hb Hc). lia.
Qed.

(** ** Sorting *)

Lemma insertion_sort_insert_perm {A} (cmp : A -> A -> Z) x acc :
  insertion_sort_insert cmp x acc ≡ₚ x :: acc.
Proof.
  induction acc as [|y acc IH]; [done|]. cbn.
  destruct (cmp y x >? 0); [|done]. rewrite IH. apply Permutation_swap.
Qed.

Lemma insertion_sort_insert_sorted {A} (cmp : A -> A -> Z) l x acc :
  total_preorder_on cmp l -> x ∈ l -> (forall y, y ∈ acc -> y ∈ l) ->
  StronglySorted (fun a b => cmp b a <= 0) acc ->
  StronglySorted (fun a b => cmp b a <= 0) (insertion_sort_insert cmp x acc).
Proof.
  intros [Hanti Htrans] Hx. induction acc as [|y acc IH]; intros Hsub Hsorted.
  - cbn. repeat constructor.
  - cbn. apply StronglySorted_cons in Hsorted as [Hy Hsorted].
    destruct (Z.gtb_spec (cmp y x) 0) as [Hgt|Hle].
    + apply StronglySorted_cons. split.
      * rewrite Forall_forall. intros z Hz.
        rewrite insertion_sort_insert_perm in Hz.
        apply elem_of_cons in Hz as [->|Hz].
        -- pose proof (Hanti x y Hx (Hsub y ltac:(left))). lia.
        -- rewrite Forall_forall in Hy. by apply Hy.
      * apply IH; [|done]. intros z Hz. apply Hsub. by right.
    + apply StronglySorted_cons. split.
      * rewrite Forall_forall. intros z Hz.
        apply elem_of_cons in Hz as [->|Hz]; [done|].
        rewrite Forall_forall in Hy.
        apply (Htrans z y x); [apply Hsub; by right|apply Hsub; by left|done| |done].
        by apply Hy.
      * apply StronglySorted_cons. split; [done|done].
Qed.

Lemma StronglySorted_reverse {A} (R : A -> A -> Prop) l :
  StronglySorted (fun a b => R b a) l -> StronglySorted R (reverse l).
Proof.
  induction 1 as [|x l Hl IH Hx]; [constructor|].
  rewrite reverse_cons. apply StronglySorted_app_2; [|done|repeat constructor].
  intros x1 x2 Hx1 Hx2. apply list_elem_of_singleton in Hx2 as ->.
  rewrite Forall_forall in Hx. apply Hx. by apply elem_of_reverse.
Qed.

Lemma insertion_sort_fold {A} (cmp : A -> A -> Z) l a acc :
  total_preorder_on cmp l ->
  (forall y, y ∈ a -> y ∈ l) -> (forall y, y ∈ acc -> y ∈ l) ->
  StronglySorted (fun a b => cmp b a <= 0) acc ->
  fold_left (fun sorted_rev x => insertion_sort_insert cmp x sorted_rev) a acc
  ≡ₚ a ++ acc /\
  StronglySorted (fun a b => cmp b a <= 0)
    (fold_left (fun sorted_rev x => insertion_sort_insert cmp x sorted_rev)
       a acc).
Proof.
  intros Hpre. revert acc.
  induction a as [|x a IH]; intros acc Ha Hacc Hsorted; [done|].
  cbn [fold_left].
  destruct (IH (insertion_sort_insert cmp x acc)) as [Hperm Hs].
  - intros y Hy. apply Ha. by right.
  - intros y Hy. rewrite insertion_sort_insert_perm in Hy.
    apply elem_of_cons in Hy as [->|Hy]; [apply Ha; by left|by apply Hacc].
  - apply (insertion_sort_insert_sorted cmp l); auto. apply Ha. by left.
  - split; [|done]. rewrite Hperm, insertion_sort_insert_perm.
    by rewrite <- Permutation_middle.
Qed.

Lemma insertion_sort_spec : qsort_arg_spec insertion_sort.
Proof.
  intros A cmp l Hpre. unfold insertion_sort.
  destruct (insertion_sort_fold cmp l l [] Hpre) as [Hperm Hs];
    [done|by intros ? ?%elem_of_nil|constructor|].
  split.
  - by rewrite reverse_Permutation, Hperm, app_nil_r.
  - by apply StronglySorted_reverse.
Qed.

(** Where no two different elements compare equal, the sorted array does
    not depend on the sorting function. *)
Lemma sorted_unique {A} (cmp : A -> A -> Z) (l l1 l2 : list A) :
  total_preorder_on cmp l -> ties_are_equal cmp l ->
  l1 ≡ₚ l -> l2 ≡ₚ l ->
  StronglySorted (fun a b => cmp a b <= 0) l1 ->
  StronglySorted (fun a b => cmp a b <= 0) l2 ->
  l1 = l2.
Proof.
  intros [Hanti _] Hties H1 H2 Hs1 Hs2.
  apply (StronglySorted_unique_strong (fun a b => cmp a b <= 0));
    [|done|done|by rewrite H1, H2].
  intros x1 x2 Hx1 Hx2 Hle1 Hle2. rewrite H1 in Hx1. rewrite H2 in Hx2.
  apply Hties; [done|done|].
  pose proof (Hanti x1 x2 Hx1 Hx2). pose proof (Hanti x2 x1 Hx2 Hx1). lia.
Qed.

Lemma qsort_arg_unique qsort_arg {A} (cmp : A -> A -> Z) (l : list A) :
  qsort_arg_spec qsort_arg ->
  total_preorder_on cmp l -> ties_are_equal cmp l ->
  qsort_arg A cmp l = insertion_sort A cmp l.
Proof.
  intros Hq Hpre Hties.
  destruct (Hq A cmp l Hpre) as [Hp1 Hs1].
  destruct (insertion_sort_spec A cmp l Hpre) as [Hp2 Hs2].
  by apply (sorted_unique cmp l).
Qed.
(** ** The ordinal mapping *)

Lemma filter_length_insert (P : Z -> Prop) `{!forall x, Decision (P x)}
    (l : list Z) i v :
  (i < length l)%nat -> ~ P (l !!! i) -> P v ->
  length (filter P (<[i:=v]> l)) = S (length (filter P l)).
Proof.
  revert i. induction l as [|x l IH]; intros i Hi Hold Hnew; [cbn in Hi; lia|].
  destruct i as [|i]; cbn -[filter] in *.
  - rewrite filter_cons_True, (filter_cons_False _ x) by done. done.
  - destruct (decide (P x)).
    + rewrite !filter_cons_True by done. cbn. rewrite IH; [done|lia|done|done].
    + rewrite !filter_cons_False by done. rewrite IH; [done|lia|done|done].
Qed.

Lemma filter_all {A} (P : A -> Prop) `{!forall x, Decision (P x)}
    (l : list A) :
  (forall x, x ∈ l -> P x) -> filter P l = l.
Proof.
  induction l as [|x l IH]; intros Hall; [done|].
  rewrite filter_cons_True by (apply Hall; by left).
  f_equal. apply IH. intros y Hy. apply Hall. by right.
Qed.

Lemma partial_ordinals_init n : partial_ordinals n (replicate n (-1), 0).
Proof.
  split; [apply length_replicate|]. cbn [fst snd].
  split; [|split; [|split]].
  - induction n as [|n IH]; [done|]. cbn [replicate].
    by rewrite filter_cons_False by (intros H; by apply H).
  - intros i Hi. left. by apply lookup_total_replicate_2.
  - intros i j Hi Hj _ Hne. by rewrite lookup_total_replicate_2 in Hne.
  - lia.
Qed.

Lemma partial_ordinals_assign n o mapping next_index :
  partial_ordinals n (mapping, next_index) ->
  0 <= o < Z.of_nat n ->
  partial_ordinals n (assign_mapping o mapping next_index) /\
  (assign_mapping o mapping next_index).1 !!! Z.to_nat o <> -1 /\
  (forall i, (i < n)%nat -> mapping !!! i <> -1 ->
     (assign_mapping o mapping next_index).1 !!! i = mapping !!! i).
Proof.
  intros (Hlen & Hnext & Hrange & Hinj & Hsurj) Ho. cbn [fst snd] in *.
  unfold assign_mapping.
  destruct (Z.eqb_spec (mapping !!! Z.to_nat o) (-1)) as [Hfree|Hset].
  - assert (0 <= next_index) as Hnn by lia.
    cbn [fst snd]. split; [|split].
    + unfold partial_ordinals. cbn [fst snd].
      split; [by rewrite length_insert|].
      split; [|split; [|split]].
      * rewrite filter_length_insert; [lia|lia|by rewrite Hfree; intros H; apply H|lia].
      * intros i Hi. destruct (decide (i = Z.to_nat o)) as [->|Hne].
        -- right. rewrite list_lookup_total_insert_eq by lia. lia.
        -- rewrite list_lookup_total_insert_ne by done.
           destruct (Hrange i Hi); [by left|right; lia].
      * intros i j Hi Hj.
        destruct (decide (i = Z.to_nat o)) as [->|Hi'],
                 (decide (j = Z.to_nat o)) as [->|Hj']; [done| | |].
        -- rewrite list_lookup_total_insert_eq by lia.
           rewrite list_lookup_total_insert_ne by done.
           intros Heq _. destruct (Hrange j Hj); lia.
        -- rewrite list_lookup_total_insert_eq by lia.
           rewrite list_lookup_total_insert_ne by done.
           intros Heq _. destruct (Hrange i Hi); lia.
        -- rewrite !list_lookup_total_insert_ne by done. by apply Hinj.
      * intros k Hk. destruct (decide (k = next_index)) as [->|Hne].
        -- exists (Z.to_nat o). split; [lia|].
           by rewrite list_lookup_total_insert_eq by lia.
        -- destruct (Hsurj k ltac:(lia)) as (i & Hi & Hik).
           exists i. split; [done|].
           rewrite list_lookup_total_insert_ne; [done|].
           intros <-. lia.
    + rewrite list_lookup_total_insert_eq by lia. lia.
    + intros i Hi Hne. rewrite list_lookup_total_insert_ne; [done|].
      intros <-. done.
  - cbn [fst snd]. repeat split; auto.
Qed.

Lemma partial_ordinals_assign_all n os st :
  partial_ordinals n st ->
  Forall (fun o => 0 <= o < Z.of_nat n) os ->
  partial_ordinals n (assign_all os st) /\
  (forall i, (i < n)%nat -> st.1 !!! i <> -1 ->
     (assign_all os st).1 !!! i = st.1 !!! i) /\
  (forall o, o ∈ os -> (assign_all os st).1 !!! Z.to_nat o <> -1).
Proof.
  intros Hinv Hos. revert st Hinv.
  induction Hos as [|o os Ho Hos IH]; intros [mapping next_index] Hinv.
  - cbn. split; [done|]. split; [done|]. by intros ? ?%elem_of_nil.
  - cbn [assign_all foldl fst snd].
    destruct (partial_ordinals_assign n o mapping next_index Hinv Ho)
      as (Hinv' & Hset & Hkeep).
    destruct (assign_mapping o mapping next_index) as [mapping' next'] eqn:E.
    destruct (IH (mapping', next') Hinv') as (Hinv'' & Hkeep' & Hall).
    fold (assign_all os (mapping', next')).
    split; [done|]. split.
    + intros i Hi Hne. cbn [fst] in *. rewrite Hkeep'; [by apply Hkeep|done|].
      rewrite Hkeep; done.
    + intros o' Ho'. apply elem_of_cons in Ho' as [->|Ho']; [|by apply Hall].
      cbn [fst] in *. rewrite Hkeep'; [done|lia|done].
Qed.

(** Once every position has been seen, the mapping is a bijection. *)
Lemma assign_all_bijection n os :
  Forall (fun o => 0 <= o < Z.of_nat n) os ->
  (forall i, (i < n)%nat -> Z.of_nat i ∈ os) ->
  ordinal_bijection n (assign_all os (replicate n (-1), 0)).1 /\
  (assign_all os (replicate n (-1), 0)).2 = Z.of_nat n.
Proof.
  intros Hos Hall.
  destruct (partial_ordinals_assign_all n os _ (partial_ordinals_init n) Hos)
    as ((Hlen & Hnext & Hrange & Hinj & Hsurj) & _ & Hset).
  destruct (assign_all os (replicate n (-1), 0)) as [mapping next_index].
  cbn [fst snd] in *.
  assert (forall i, (i < n)%nat -> mapping !!! i <> -1) as Hassigned.
  { intros i Hi. specialize (Hset _ (Hall i Hi)). by rewrite Nat2Z.id in Hset. }
  assert (filter (fun v => v <> -1) mapping = mapping) as Hfull.
  { apply filter_all. intros v Hv.
    apply list_elem_of_lookup in Hv as [i Hi].
    rewrite <- (list_lookup_total_correct _ _ _ Hi).
    apply Hassigned. rewrite <- Hlen. by eapply lookup_lt_Some. }
  rewrite Hfull, Hlen in Hnext. subst next_index.
  split; [|done]. split; [done|]. split; [|split].
  - intros i Hi. destruct (Hrange i Hi); [by destruct (Hassigned i Hi)|done].
  - intros i j Hi Hj Heq. apply Hinj; auto.
  - done.
Qed.
Lemma assign_all_cons o os st :
  assign_all (o :: os) st = assign_all os (assign_mapping o st.1 st.2).
Proof. reflexivity. Qed.

Lemma list_boundinfo_loop_state all_values mapping next_index :
  (list_boundinfo_loop all_values mapping next_index).2
  = assign_all (lv_index <$> all_values) (mapping, next_index).
Proof.
  revert mapping next_index.
  induction all_values as [|v rest IH]; intros mapping next_index; [done|].
  cbn [list_boundinfo_loop fmap list_fmap]. rewrite assign_all_cons.
  cbn [fst snd].
  destruct (assign_mapping (lv_index v) mapping next_index) as [m' n'].
  specialize (IH m' n').
  destruct (list_boundinfo_loop rest m' n') as [[datums indexes] st].
  by cbn in *.
Qed.

Lemma range_boundinfo_loop_state key junk rbounds i mapping next_index :
  (range_boundinfo_loop key junk rbounds i mapping next_index).2
  = assign_all (rb_index <$> filter (fun b => rb_lower b = false) rbounds)
      (mapping, next_index).
Proof.
  revert i mapping next_index.
  induction rbounds as [|b rest IH]; intros i mapping next_index; [done|].
  cbn [range_boundinfo_loop].
  destruct (rb_lower b) eqn:Hlower.
  - rewrite filter_cons_False by (by rewrite Hlower).
    specialize (IH (S i) mapping next_index).
    destruct (range_boundinfo_loop key junk rest (S i) mapping next_index)
      as [[[datums content] indexes] st].
    by cbn in *.
  - rewrite filter_cons_True by done.
    cbn [fmap list_fmap]. rewrite assign_all_cons. cbn [fst snd].
    destruct (assign_mapping (rb_index b) mapping next_index) as [m' n'].
    specialize (IH (S i) m' n').
    destruct (range_boundinfo_loop key junk rest (S i) m' n')
      as [[[datums content] indexes] st].
    by cbn in *.
Qed.

Lemma assign_oids_spec n mapping partoids i result_oids :
  ordinal_bijection n mapping ->
  length result_oids = n -> (i + length partoids = n)%nat ->
  exists result,
    assign_oids partoids i mapping result_oids = OK result /\
    length result = n /\
    (forall j oid, partoids !! j = Some oid ->
       result !! Z.to_nat (mapping !!! (i + j)%nat) = Some oid) /\
    (forall j, (j < i)%nat ->
       result !! Z.to_nat (mapping !!! j)
       = result_oids !! Z.to_nat (mapping !!! j)).
Proof.
  intros (Hlen & Hrange & Hinj & Hsurj). revert i result_oids.
  induction partoids as [|oid rest IH]; intros i result_oids Hres Hi.
  - exists result_oids. cbn. repeat split; auto. by intros ? ? ?.
  - cbn [assign_oids length] in *.
    pose proof (Hrange i ltac:(lia)) as Hm.
    destruct (Z.leb_spec 0 (mapping !!! i)); [|lia].
    destruct (Z.ltb_spec (mapping !!! i) (Z.of_nat (length result_oids)));
      [|lia].
    cbn [andb].
    destruct (IH (S i) (<[Z.to_nat (mapping !!! i):=oid]> result_oids))
      as (result & Hrun & Hrlen & Hnew & Hold);
      [by rewrite length_insert|lia|].
    exists result. split; [done|]. split; [done|]. split.
    + intros [|j] oid' Hj.
      * injection Hj as <-. rewrite Nat.add_0_r.
        rewrite Hold by lia. apply list_lookup_insert_eq. lia.
      * cbn in Hj. replace (i + S j)%nat with (S i + j)%nat by lia.
        by apply Hnew.
    + intros j Hj. rewrite Hold by lia.
      apply list_lookup_insert_ne. intros Heq.
      assert (mapping !!! i = mapping !!! j) as Heq'.
      { pose proof (Hrange j ltac:(lia)). lia. }
      apply Hinj in Heq'; lia.
Qed.
(** ** Collecting the list values *)

Lemma collect_list_datums_spec i listdatums null_index acc :
  i <> -1 ->
  (null_index = -1 /\ (null_count listdatums <= 1)%nat)
  \/ null_count listdatums = 0%nat ->
  collect_list_datums i listdatums null_index acc
  = OK (if decide (null_count listdatums = 0%nat) then null_index else i,
        acc ++ spec_list_values i listdatums).
Proof.
  intros Hi. revert null_index acc.
  induction listdatums as [|c rest IH]; intros null_index acc Hpre.
  - cbn. by rewrite app_nil_r.
  - cbn [collect_list_datums]. unfold null_count, spec_list_values in *.
    destruct (constisnull c) eqn:Hc; cbn [negb].
    + rewrite filter_cons_True in Hpre |- * by done.
      rewrite filter_cons_False by (by rewrite Hc).
      cbn [length] in Hpre |- *.
      destruct Hpre as [[-> Hle]|?]; [|lia]. cbn.
      rewrite IH by (right; lia).
      rewrite decide_True by lia. by rewrite decide_False by lia.
    + rewrite filter_cons_False in Hpre |- * by (by rewrite Hc).
      rewrite filter_cons_True by done.
      rewrite IH by done. cbn [fmap list_fmap].
      by rewrite <- app_assoc.
Qed.

Lemma total_null_count_lookup specs p spec :
  specs !! p = Some spec ->
  (null_count (listdatums spec) <= total_null_count specs)%nat.
Proof.
  intros Hp. unfold total_null_count.
  apply (sum_list_with_in spec (fun spec => null_count (listdatums spec))).
  by eapply list_elem_of_lookup_2.
Qed.

Lemma collect_list_values_spec specs i null_index acc :
  0 <= i ->
  Forall (fun spec => spec_strategy spec = PARTITION_STRATEGY_LIST) specs ->
  (null_index = -1 /\ (total_null_count specs <= 1)%nat)
  \/ total_null_count specs = 0%nat ->
  exists null_index',
    collect_list_values specs i null_index acc
    = OK (null_index', acc ++ all_list_values i specs) /\
    (null_index' = null_index \/
     exists p spec, specs !! p = Some spec /\
       null_count (listdatums spec) <> 0%nat /\
       null_index' = i + Z.of_nat p) /\
    (forall p spec, specs !! p = Some spec ->
       null_count (listdatums spec) <> 0%nat ->
       null_index' = i + Z.of_nat p).
Proof.
  intros Hi Hstrat. revert i null_index acc Hi.
  induction Hstrat as [|spec rest Hspec Hrest IH];
    intros i null_index acc Hi Hpre.
  - exists null_index. cbn. rewrite app_nil_r. split; [done|].
    split; [by left|]. by intros ? ? ?.
  - cbn [collect_list_values]. rewrite Hspec.
    rewrite bool_decide_eq_true_2 by done. cbn [negb].
    unfold total_null_count in Hpre. cbn [sum_list_with] in Hpre.
    fold (total_null_count rest) in Hpre.
    rewrite collect_list_datums_spec by lia. cbn [mbind res_bind].
    destruct (decide (null_count (listdatums spec) = 0%nat)) as [Hz|Hnz].
    + destruct (IH (i + 1) null_index
                  (acc ++ spec_list_values i (listdatums spec)))
        as (ni' & Hrun & Hni & Hnull); [lia|lia|].
      exists ni'. split; [|split].
      * rewrite Hrun. cbn [all_list_values]. by rewrite app_assoc.
      * destruct Hni as [->|(p & spec' & Hp & Hn & ->)]; [by left|].
        right. exists (S p), spec'. split; [done|]. split; [done|]. lia.
      * intros [|p] spec' Hp Hn.
        -- injection Hp as <-. done.
        -- cbn in Hp. rewrite (Hnull p spec' Hp Hn). lia.
    + assert (total_null_count rest = 0%nat) as Hzero by lia.
      destruct (IH (i + 1) i
                  (acc ++ spec_list_values i (listdatums spec)))
        as (ni' & Hrun & Hni & Hnull); [lia|by right|].
      assert (ni' = i) as ->.
      { destruct Hni as [->|(p & spec' & Hp & Hn & ->)]; [done|].
        pose proof (total_null_count_lookup rest p spec' Hp). lia. }
      exists i. split; [|split].
      * rewrite Hrun. cbn [all_list_values]. by rewrite app_assoc.
      * right. exists 0%nat, spec. split; [done|]. split; [done|]. lia.
      * intros [|p] spec' Hp Hn; [lia|].
        cbn in Hp. pose proof (total_null_count_lookup rest p spec' Hp). lia.
Qed.

Lemma elem_of_all_list_values v i specs :
  v ∈ all_list_values i specs <->
  exists p spec c, specs !! p = Some spec /\ c ∈ listdatums spec /\
    constisnull c = false /\
    v = {| lv_index := i + Z.of_nat p; lv_value := constvalue c |}.
Proof.
  revert i. induction specs as [|spec rest IH]; intros i.
  - cbn. split; [by intros ?%elem_of_nil|by intros (? & ? & ? & ? & _)].
  - cbn [all_list_values]. rewrite elem_of_app, IH. split.
    + intros [Hv|(p & spec' & c & Hp & Hc & Hnull & ->)].
      * unfold spec_list_values in Hv.
        apply list_elem_of_fmap in Hv as (c & -> & Hc).
        apply list_elem_of_filter in Hc as [Hnull Hc].
        exists 0%nat, spec, c. repeat split; auto. f_equal. lia.
      * exists (S p), spec', c. repeat split; auto. f_equal. lia.
    + intros ([|p] & spec' & c & Hp & Hc & Hnull & ->).
      * injection Hp as <-. left. unfold spec_list_values.
        apply list_elem_of_fmap. exists c. split; [f_equal; lia|].
        by apply list_elem_of_filter.
      * right. exists p, spec', c. repeat split; auto. f_equal. lia.
Qed.
Lemma assign_all_app os1 os2 st :
  assign_all (os1 ++ os2) st = assign_all os2 (assign_all os1 st).
Proof. apply foldl_app. Qed.

Lemma null_count_nonzero listdatums c :
  c ∈ listdatums -> constisnull c = true -> null_count listdatums <> 0%nat.
Proof.
  intros Hc Hnull. unfold null_count.
  assert (c ∈ filter (fun c => constisnull c = true) listdatums) as Hin
    by (by apply list_elem_of_filter).
  destruct (filter _ listdatums); [by apply elem_of_nil in Hin|done].
Qed.

(** The list branch: the state of the mapping after the copy loop and the
    null case. *)
Lemma list_mapping_bijection qsort_arg junk key specs :
  qsort_arg_spec qsort_arg -> column_orders key -> (0 < partnatts key)%nat ->
  strategy key = PARTITION_STRATEGY_LIST ->
  valid_list_partitions specs -> specs <> [] ->
  exists raw bi mapping,
    sorted_raw_bounds qsort_arg key specs = OK raw /\
    build_boundinfo junk key (length specs) raw = OK (bi, mapping) /\
    ordinal_bijection (length specs) mapping.
Proof.
  intros Hq Hcol Hn Hstrat [Hspecs Hnulls] Hne.
  unfold sorted_raw_bounds.
  assert ((0 <? Z.of_nat (length specs)) = true) as ->.
  { apply Z.ltb_lt. destruct specs; [done|]. cbn [length]. lia. }
  rewrite Hstrat.
  destruct (collect_list_values_spec specs 0 (-1) [])
    as (ni & -> & Hni & Hnull); [lia| |left; split; [done|lia]|].
  { eapply Forall_impl; [exact Hspecs|]. by intros ? [? _]. }
  cbn [app mbind res_bind].
  set (V := all_list_values 0 specs) in *.
  destruct (Hq _ (qsort_partition_list_value_cmp key) V
              (qsort_partition_list_value_cmp_preorder key V Hcol Hn))
    as [Hperm _].
  set (S := qsort_arg _ (qsort_partition_list_value_cmp key) V) in *.
  exists (RawList ni S).
  unfold build_boundinfo. rewrite Hstrat.
  pose proof (list_boundinfo_loop_state S (replicate (length specs) (-1)) 0)
    as Hstate.
  destruct (list_boundinfo_loop S (replicate (length specs) (-1)) 0)
    as [[datums indexes] [mapping next_index]].
  cbn [snd] in Hstate.
  set (os := (lv_index <$> S) ++ (if decide (ni = -1) then [] else [ni])).
  assert ((if negb (ni =? -1)
           then let '(mapping0, _) := assign_mapping ni mapping next_index in
                (mapping0, mapping0 !!! Z.to_nat ni)
           else (mapping, -1)).1
          = (assign_all os (replicate (length specs) (-1), 0)).1) as Hmap.
  { unfold os. rewrite assign_all_app, <- Hstate.
    destruct (Z.eqb_spec ni (-1)) as [->|Hnn]; cbn [negb].
    - by rewrite decide_True.
    - rewrite decide_False by done. cbn.
      by destruct (assign_mapping ni mapping next_index). }
  destruct (if negb (ni =? -1)
            then let '(mapping0, _) := assign_mapping ni mapping next_index in
                 (mapping0, mapping0 !!! Z.to_nat ni)
            else (mapping, -1)) as [mapping' bi_null] eqn:E.
  cbn [fst] in Hmap. eexists _, mapping'. split; [reflexivity|].
  split; [reflexivity|].
  rewrite Hmap. apply assign_all_bijection.
  - unfold os. apply Forall_app. split.
    + rewrite Forall_forall. intros o Ho.
      apply list_elem_of_fmap in Ho as (v & -> & Hv).
      rewrite Hperm in Hv.
      apply elem_of_all_list_values in Hv as (p & s & c & Hp & _ & _ & ->).
      cbn. apply lookup_lt_Some in Hp. lia.
    + destruct (decide (ni = -1)); [constructor|].
      constructor; [|constructor].
      destruct Hni as [?|(p & s & Hp & _ & ->)]; [done|].
      apply lookup_lt_Some in Hp. lia.
  - intros i Hi. unfold os. apply elem_of_app.
    destruct (lookup_lt_is_Some_2 specs i Hi) as [spec Hspec].
    rewrite Forall_forall in Hspecs.
    destruct (Hspecs spec (list_elem_of_lookup_2 _ _ _ Hspec)) as [_ Hdatums].
    destruct (listdatums spec) as [|c rest] eqn:Hld; [done|].
    destruct (constisnull c) eqn:Hc.
    + right.
      assert (ni = Z.of_nat i) as Hnii.
      { rewrite (Hnull i spec Hspec); [lia|].
        apply (null_count_nonzero _ c); [rewrite Hld; by left|done]. }
      rewrite decide_False by lia. rewrite Hnii. by left.
    + left. apply list_elem_of_fmap.
      exists {| lv_index := 0 + Z.of_nat i; lv_value := constvalue c |}.
      split; [cbn; lia|]. rewrite Hperm.
      apply elem_of_all_list_values. exists i, spec, c.
      split; [done|]. split; [rewrite Hld; by left|done].
Qed.
(** ** Collecting the range bounds *)

Lemma make_one_range_bound_fields key i datums lower b :
  make_one_range_bound key i datums lower = OK b ->
  rb_index b = i /\ rb_lower b = lower.
Proof.
  unfold make_one_range_bound.
  destruct (make_one_range_bound_loop _ _ _ _ _) as [[bd bc]| | |]; [|done..].
  cbn. by intros [= <-].
Qed.

Lemma range_edges_fields key i spec lower upper :
  range_edges key i spec lower upper ->
  rb_index lower = i /\ rb_lower lower = true /\
  rb_index upper = i /\ rb_lower upper = false.
Proof.
  intros (_ & Hl & Hu).
  apply make_one_range_bound_fields in Hl as [? ?].
  apply make_one_range_bound_fields in Hu as [? ?]. done.
Qed.

Lemma range_edges_functional key i spec l1 u1 l2 u2 :
  range_edges key i spec l1 u1 -> range_edges key i spec l2 u2 ->
  l1 = l2 /\ u1 = u2.
Proof. intros (_ & H1 & H2) (_ & H3 & H4). split; congruence. Qed.

Lemma collect_range_bounds_spec key specs i acc :
  (forall p spec, specs !! p = Some spec ->
     exists lower upper, range_edges key (i + Z.of_nat p) spec lower upper) ->
  exists all_bounds,
    collect_range_bounds key specs i acc = OK (acc ++ all_bounds) /\
    (forall b, b ∈ all_bounds <->
       exists p spec lower upper,
         specs !! p = Some spec /\
         range_edges key (i + Z.of_nat p) spec lower upper /\
         (b = lower \/ b = upper)) /\
    NoDup all_bounds.
Proof.
  revert i acc. induction specs as [|spec rest IH]; intros i acc Hedges.
  - exists []. cbn. rewrite app_nil_r. split; [done|]. split; [|constructor].
    intros b. split; [by intros ?%elem_of_nil|by intros (? & ? & ? & ? & ? & _)].
  - destruct (Hedges 0%nat spec eq_refl) as (lo & up & Hlu).
    rewrite Z.add_0_r in Hlu.
    pose proof Hlu as (Hstrat & Hlo & Hup).
    destruct (range_edges_fields _ _ _ _ _ Hlu) as (Hli & Hll & Hui & Hul).
    cbn [collect_range_bounds]. rewrite Hstrat.
    rewrite bool_decide_eq_true_2 by done. cbn [negb].
    rewrite Hlo. cbn [mbind res_bind]. rewrite Hup. cbn [mbind res_bind].
    destruct (IH (i + 1) (acc ++ [lo; up])) as (AB & -> & Hmem & Hnodup).
    { intros p spec' Hp. destruct (Hedges (S p) spec' Hp) as (l' & u' & H').
      exists l', u'. by replace (i + 1 + Z.of_nat p) with (i + Z.of_nat (S p))
        by lia. }
    exists (lo :: up :: AB). split; [by rewrite <- app_assoc|]. split.
    + intros b. rewrite !elem_of_cons, Hmem. split.
      * intros [->|[->|(p & spec' & l' & u' & Hp & He & Hb)]].
        -- exists 0%nat, spec, lo, up. rewrite Z.add_0_r. auto.
        -- exists 0%nat, spec, lo, up. rewrite Z.add_0_r. auto.
        -- exists (S p), spec', l', u'. split; [done|]. split; [|done].
           by replace (i + Z.of_nat (S p)) with (i + 1 + Z.of_nat p) by lia.
      * intros ([|p] & spec' & l' & u' & Hp & He & Hb).
        -- injection Hp as <-. rewrite Z.add_0_r in He.
           destruct (range_edges_functional _ _ _ _ _ _ _ Hlu He) as [<- <-].
           destruct Hb; auto.
        -- right. right. exists p, spec', l', u'. split; [done|].
           split; [|done].
           by replace (i + 1 + Z.of_nat p) with (i + Z.of_nat (S p)) by lia.
    + assert (forall b, b ∈ AB -> rb_index b <> i) as Hidx.
      { intros b Hb. apply Hmem in Hb as (p & spec' & l' & u' & _ & He & Hb).
        destruct (range_edges_fields _ _ _ _ _ He) as (? & _ & ? & _).
        destruct Hb as [->| ->]; lia. }
      constructor; [|constructor; [|done]].
      * rewrite elem_of_cons. intros [->|Hin]; [congruence|].
        by apply Hidx in Hin.
      * intros Hin. by apply Hidx in Hin.
Qed.

(** Order facts for the range comparator. *)
Lemma rbound_cmp_refl key a :
  column_orders key -> qsort_partition_rbound_cmp key a a = 0.
Proof.
  intros Hcol. pose proof (qsort_partition_rbound_cmp_antisym key a a Hcol).
  lia.
Qed.

Lemma rbound_lt_le_trans key a b c :
  column_orders key ->
  qsort_partition_rbound_cmp key a b < 0 ->
  qsort_partition_rbound_cmp key b c <= 0 ->
  qsort_partition_rbound_cmp key a c < 0.
Proof.
  intros Hcol.
  apply (total_preorder_lt_le_trans _ [a; b; c]);
    [by apply qsort_partition_rbound_cmp_preorder
    |by left|by right; left|by right; right; left].
Qed.

Lemma rbound_le_lt_trans key a b c :
  column_orders key ->
  qsort_partition_rbound_cmp key a b <= 0 ->
  qsort_partition_rbound_cmp key b c < 0 ->
  qsort_partition_rbound_cmp key a c < 0.
Proof.
  intros Hcol.
  apply (total_preorder_le_lt_trans _ [a; b; c]);
    [by apply qsort_partition_rbound_cmp_preorder
    |by left|by right; left|by right; right; left].
Qed.

(** In a valid set of range partitions no two different bounds compare
    equal. *)
Lemma valid_range_ties key specs all_bounds :
  column_orders key -> valid_range_partitions key specs ->
  (forall b, b ∈ all_bounds <->
     exists p spec lower upper,
       specs !! p = Some spec /\
       range_edges key (0 + Z.of_nat p) spec lower upper /\
       (b = lower \/ b = upper)) ->
  ties_are_equal (qsort_partition_rbound_cmp key) all_bounds.
Proof.
  intros Hcol [Hvalid Hdisjoint] Hmem a b Ha Hb Hab.
  apply Hmem in Ha as (p & sp & lp & up & Hp & Hep & Ha).
  apply Hmem in Hb as (q & sq & lq & uq & Hq & Heq & Hb).
  rewrite Z.add_0_l in Hep, Heq.
  destruct (Hvalid p sp Hp) as (lp' & up' & Hep' & Hltp).
  destruct (range_edges_functional _ _ _ _ _ _ _ Hep Hep') as [<- <-].
  destruct (Hvalid q sq Hq) as (lq' & uq' & Heq' & Hltq).
  destruct (range_edges_functional _ _ _ _ _ _ _ Heq Heq') as [<- <-].
  pose proof (qsort_partition_rbound_cmp_antisym key a b Hcol) as Hanti.
  pose proof (qsort_partition_rbound_cmp_antisym key b a Hcol) as Hanti'.
  destruct (decide (p = q)) as [->|Hpq].
  - assert (sp = sq) as <- by congruence.
    destruct (range_edges_functional _ _ _ _ _ _ _ Hep Heq) as [<- <-].
    destruct Ha as [->| ->], Hb as [->| ->]; try done; lia.
  - assert (forall x, x = lp \/ x = up ->
              qsort_partition_rbound_cmp key x up <= 0) as Hxp.
    { intros x [->| ->]; [lia|]. by rewrite rbound_cmp_refl. }
    assert (forall x, x = lq \/ x = uq ->
              qsort_partition_rbound_cmp key x uq <= 0) as Hxq.
    { intros x [->| ->]; [lia|]. by rewrite rbound_cmp_refl. }
    assert (forall x, x = lp \/ x = up ->
              qsort_partition_rbound_cmp key lp x <= 0) as Hpx.
    { intros x [->| ->]; [|lia]. by rewrite rbound_cmp_refl. }
    assert (forall x, x = lq \/ x = uq ->
              qsort_partition_rbound_cmp key lq x <= 0) as Hqx.
    { intros x [->| ->]; [|lia]. by rewrite rbound_cmp_refl. }
    destruct (Hdisjoint p q sp sq lp up lq uq Hpq Hp Hq Hep Heq) as [Hlt|Hlt].
    + assert (qsort_partition_rbound_cmp key a b < 0); [|lia].
      eapply rbound_le_lt_trans; [done|by apply Hxp|].
      eapply rbound_lt_le_trans; [done|exact Hlt|by apply Hqx].
    + assert (qsort_partition_rbound_cmp key b a < 0); [|lia].
      eapply rbound_le_lt_trans; [done|by apply Hxq|].
      eapply rbound_lt_le_trans; [done|exact Hlt|by apply Hpx].
Qed.
(** ** Merging the sorted range bounds *)

Lemma columns_equal_S key d1 c1 d2 c2 j n :
  columns_equal key d1 c1 d2 c2 j (S n) <->
  (c1 !!! j = RANGE_DATUM_FINITE /\ c2 !!! j = RANGE_DATUM_FINITE /\
   partsupfunc key j (d1 !!! j) (d2 !!! j) = 0) /\
  columns_equal key d1 c1 d2 c2 (S j) n.
Proof.
  unfold columns_equal. split.
  - intros H. split; [apply H; lia|]. intros k Hk. apply H. lia.
  - intros [H0 H] k Hk. destruct (decide (k = j)) as [->|]; [done|].
    apply H. lia.
Qed.

Lemma is_distinct_loop_false_iff key prev cur n j :
  is_distinct_loop key (Some prev) cur n j = false <->
  columns_equal key (rb_datums cur) (rb_content cur)
    (rb_datums prev) (rb_content prev) j n.
Proof.
  revert j. induction n as [|n IH]; intros j.
  - cbn. split; [|done]. intros _ k Hk. lia.
  - rewrite columns_equal_S, <- IH. cbn [is_distinct_loop].
    destruct (rb_content cur !!! j), (rb_content prev !!! j); cbn;
      try (split; [done|by intros [(? & ? & ?) _]]).
    destruct (Z.eqb_spec (partsupfunc key j (rb_datums cur !!! j)
                            (rb_datums prev !!! j)) 0) as [E|E]; cbn.
    + split; [done|by intros [_ ?]].
    + split; [done|]. by intros [(_ & _ & ?) _].
Qed.

Lemma columns_equal_sym key d1 c1 d2 c2 j n :
  column_orders key -> (j + n <= partnatts key)%nat ->
  columns_equal key d1 c1 d2 c2 j n -> columns_equal key d2 c2 d1 c1 j n.
Proof.
  intros Hcol Hn Heq k Hk. destruct (Heq k Hk) as (H1 & H2 & H3).
  split; [done|]. split; [done|].
  destruct (Hcol k ltac:(lia)) as [Hanti _].
  pose proof (Hanti (d1 !!! k) (d2 !!! k)).
  pose proof (Hanti (d2 !!! k) (d1 !!! k)). lia.
Qed.

Lemma save_distinct_bounds_subseteq b flags l :
  b ∈ save_distinct_bounds flags l -> b ∈ l.
Proof.
  revert flags. induction l as [|x l IH]; intros [|f flags]; cbn;
    try by intros ?%elem_of_nil.
  destruct f.
  - rewrite !elem_of_cons. intros [->|H]; [by left|right; eauto].
  - intros H. right. eauto.
Qed.

(** In the sorted array of a valid set every upper bound is distinct from
    the bound before it, so it is kept. *)
Lemma upper_bounds_kept key prev l :
  column_orders key -> (0 < partnatts key)%nat ->
  StronglySorted (fun a b => qsort_partition_rbound_cmp key a b <= 0)
    (from_option (fun p => [p]) [] prev ++ l) ->
  NoDup (from_option (fun p => [p]) [] prev ++ l) ->
  ties_are_equal (qsort_partition_rbound_cmp key)
    (from_option (fun p => [p]) [] prev ++ l) ->
  forall b, b ∈ l -> rb_lower b = false ->
    b ∈ save_distinct_bounds (distinct_indexes_loop key prev l) l.
Proof.
  intros Hcol Hn. revert prev.
  induction l as [|cur rest IH]; intros prev Hsorted Hnodup Hties b Hb Hupper;
    [by apply elem_of_nil in Hb|].
  cbn [distinct_indexes_loop save_distinct_bounds].
  assert (StronglySorted (fun a b => qsort_partition_rbound_cmp key a b <= 0)
            (cur :: rest) /\ NoDup (cur :: rest) /\
          ties_are_equal (qsort_partition_rbound_cmp key) (cur :: rest))
    as (Hsorted' & Hnodup' & Hties').
  { destruct prev as [p|]; cbn in *; [|done].
    apply StronglySorted_cons in Hsorted as [_ ?].
    apply NoDup_cons in Hnodup as [_ ?].
    split; [done|]. split; [done|].
    intros x y Hx Hy. apply Hties; by right. }
  specialize (IH (Some cur) Hsorted' Hnodup' Hties').
  apply elem_of_cons in Hb as [->|Hb].
  - assert (is_distinct_loop key prev cur (partnatts key) 0 = true) as ->;
      [|by left].
    destruct prev as [p|].
    + destruct (is_distinct_loop key (Some p) cur (partnatts key) 0) eqn:E;
        [done|exfalso].
      apply is_distinct_loop_false_iff in E.
      apply columns_equal_sym in E; [|done|lia].
      pose proof (rbound_cmp_columns_equal key (rb_datums p)
                    (rb_content p) (rb_lower p) cur E) as Hcmp.
      rewrite Hupper in Hcmp.
      cbn in Hsorted, Hnodup, Hties.
      apply StronglySorted_cons in Hsorted as [Hp _].
      apply Forall_cons in Hp as [Hp _].
      unfold qsort_partition_rbound_cmp in Hp.
      destruct (rb_lower p) eqn:Hlp; cbn [eqb] in Hcmp; [lia|].
      assert (p = cur) as ->.
      { apply Hties; [by left|by right; left|].
        unfold qsort_partition_rbound_cmp. by rewrite Hlp. }
      apply NoDup_cons in Hnodup as [Hnotin _]. apply Hnotin. by left.
    + destruct (partnatts key); [lia|reflexivity].
  - destruct (is_distinct_loop key prev cur (partnatts key) 0);
      [right|]; by apply IH.
Qed.

(** The range branch: the state of the mapping after the copy loop. *)
Lemma range_mapping_bijection qsort_arg junk key specs :
  qsort_arg_spec qsort_arg -> column_orders key -> (0 < partnatts key)%nat ->
  strategy key = PARTITION_STRATEGY_RANGE ->
  valid_range_partitions key specs -> specs <> [] ->
  exists raw bi mapping,
    sorted_raw_bounds qsort_arg key specs = OK raw /\
    build_boundinfo junk key (length specs) raw = OK (bi, mapping) /\
    ordinal_bijection (length specs) mapping.
Proof.
  intros Hq Hcol Hn Hstrat Hvalid Hne.
  unfold sorted_raw_bounds.
  assert ((0 <? Z.of_nat (length specs)) = true) as ->.
  { apply Z.ltb_lt. destruct specs; [done|]. cbn [length]. lia. }
  rewrite Hstrat.
  destruct (collect_range_bounds_spec key specs 0 [])
    as (AB & -> & Hmem & Hnodup).
  { intros p spec Hp. destruct (proj1 Hvalid p spec Hp) as (lo & up & He & _).
    exists lo, up. by rewrite Z.add_0_l. }
  cbn [app mbind res_bind].
  pose proof (valid_range_ties key specs AB Hcol Hvalid Hmem) as Hties.
  destruct (Hq _ (qsort_partition_rbound_cmp key) AB
              (qsort_partition_rbound_cmp_preorder key AB Hcol))
    as [Hperm Hsorted].
  set (S := qsort_arg _ (qsort_partition_rbound_cmp key) AB) in *.
  set (R := save_distinct_bounds (distinct_indexes_loop key None S) S).
  exists (RawRange R).
  unfold build_boundinfo. rewrite Hstrat.
  pose proof (range_boundinfo_loop_state key junk R 0
                (replicate (length specs) (-1)) 0) as Hstate.
  destruct (range_boundinfo_loop key junk R 0 (replicate (length specs) (-1)) 0)
    as [[[datums content] indexes] [mapping next_index]].
  cbn [snd] in Hstate.
  eexists _, mapping. split; [reflexivity|]. split; [reflexivity|].
  replace mapping with (mapping, next_index).1 by done. rewrite Hstate.
  apply assign_all_bijection.
  - rewrite Forall_forall. intros o Ho.
    apply list_elem_of_fmap in Ho as (b & -> & Hb).
    apply list_elem_of_filter in Hb as [_ Hb].
    apply save_distinct_bounds_subseteq in Hb. rewrite Hperm in Hb.
    apply Hmem in Hb as (p & spec & lo & up & Hp & He & Hb).
    destruct (range_edges_fields _ _ _ _ _ He) as (Hli & _ & Hui & _).
    apply lookup_lt_Some in Hp. destruct Hb as [->| ->]; lia.
  - intros i Hi.
    destruct (lookup_lt_is_Some_2 specs i Hi) as [spec Hspec].
    destruct (proj1 Hvalid i spec Hspec) as (lo & up & He & _).
    destruct (range_edges_fields _ _ _ _ _ He) as (_ & _ & Hui & Hul).
    apply list_elem_of_fmap. exists up. split; [done|].
    apply list_elem_of_filter. split; [done|].
    apply (upper_bounds_kept key None S); try done.
    + cbn. by rewrite Hperm.
    + cbn. intros x y Hx Hy. rewrite Hperm in Hx, Hy. by apply Hties.
    + rewrite Hperm. apply Hmem. exists i, spec, lo, up.
      rewrite Z.add_0_l. auto.
Qed.
(** ** The ordinal mapping is a bijection *)

(** C9: for a valid set of [nparts > 0] partitions (list: every partition
    declares a value and at most one NULL is declared; range: every lower
    bound is strictly below its upper bound and the partitions do not
    overlap), a key whose support functions are total preorders, and any
    [qsort_arg] that sorts, [RelationBuildPartitionDesc] succeeds; its
    [mapping] array takes the positions [0 .. nparts - 1] of the input
    one-to-one onto the ordinals [0 .. nparts - 1]; and the OID of the
    partition at position [i] is stored in [oids[mapping[i]]]. *)
Theorem canonical_ordinal_bijection qsort_arg junk key inhoids :
  qsort_arg_spec qsort_arg -> column_orders key -> (0 < partnatts key)%nat ->
  (0 < length (filter (fun t => relispartition t = true) inhoids))%nat ->
  valid_partitions key
    (relpartbound <$> filter (fun t => relispartition t = true) inhoids) ->
  exists raw bi mapping desc,
    sorted_raw_bounds qsort_arg key
      (relpartbound <$> filter (fun t => relispartition t = true) inhoids)
    = OK raw /\
    build_boundinfo junk key
      (length (filter (fun t => relispartition t = true) inhoids)) raw
    = OK (bi, mapping) /\
    RelationBuildPartitionDesc qsort_arg junk (Some key) inhoids
    = OK (Some desc) /\
    boundinfo desc = Some bi /\
    nparts desc
    = Z.of_nat (length (filter (fun t => relispartition t = true) inhoids)) /\
    length (oids desc)
    = length (filter (fun t => relispartition t = true) inhoids) /\
    ordinal_bijection
      (length (filter (fun t => relispartition t = true) inhoids)) mapping /\
    forall i part,
      filter (fun t => relispartition t = true) inhoids !! i = Some part ->
      oids desc !! Z.to_nat (mapping !!! i) = Some (inhrelid part).
Proof.
  intros Hq Hcol Hn Hparts Hvalid.
  set (parts := filter (fun t => relispartition t = true) inhoids) in *.
  assert (relpartbound <$> parts <> []) as Hne.
  { destruct parts; [cbn in Hparts; lia|done]. }
  assert (exists raw bi mapping,
            sorted_raw_bounds qsort_arg key (relpartbound <$> parts) = OK raw /\
            build_boundinfo junk key (length parts) raw = OK (bi, mapping) /\
            ordinal_bijection (length parts) mapping)
    as (raw & bi & mapping & Hraw & Hbuild & Hbij).
  { rewrite <- (length_fmap relpartbound parts).
    unfold valid_partitions in Hvalid.
    destruct (strategy key) eqn:Hstrat; [| |done].
    - by apply list_mapping_bijection.
    - by apply range_mapping_bijection. }
  destruct (assign_oids_spec (length parts) mapping (inhrelid <$> parts) 0
              (replicate (length parts) 0) Hbij)
    as (result & Hassign & Hlen & Hnew & _).
  { apply length_replicate. }
  { by rewrite length_fmap. }
  exists raw, bi, mapping,
    {| nparts := Z.of_nat (length parts); oids := result;
       boundinfo := Some bi |}.
  split; [done|]. split; [done|]. split.
  - unfold RelationBuildPartitionDesc. fold parts. rewrite Hraw.
    cbn [mbind res_bind]. rewrite length_fmap.
    destruct (Z.ltb_spec 0 (Z.of_nat (length parts))); [|lia].
    rewrite Hbuild. cbn [mbind res_bind]. by rewrite Hassign.
  - split; [done|]. split; [done|]. split; [done|]. split; [done|].
    intros i part Hi. apply (Hnew i). by rewrite list_lookup_fmap, Hi.
Qed.
Lemma btint4cmp_orders :
  (forall a b, btint4cmp a b < 0 <-> 0 < btint4cmp b a) /\
  (forall a b c, btint4cmp a b <= 0 -> btint4cmp b c <= 0 ->
                 btint4cmp a c <= 0).
Proof.
  unfold btint4cmp. split.
  - intros a b.
    destruct (Z.gtb_spec a b), (Z.eqb_spec a b), (Z.gtb_spec b a),
      (Z.eqb_spec b a); lia.
  - intros a b c.
    destruct (Z.gtb_spec a b), (Z.eqb_spec a b), (Z.gtb_spec b c),
      (Z.eqb_spec b c), (Z.gtb_spec a c), (Z.eqb_spec a c); lia.
Qed.

Lemma int4_range_key_orders : column_orders int4_range_key.
Proof. intros j _. apply btint4cmp_orders. Qed.

Lemma int4_list_key_orders : column_orders int4_list_key.
Proof. intros j _. apply btint4cmp_orders. Qed.

Lemma two_range_rows_valid :
  valid_partitions int4_range_key
    (relpartbound <$> filter (fun t => relispartition t = true) two_range_rows).
Proof.
  split.
  - intros [|[|i]] spec Hi; [| |done]; injection Hi as <-;
      eexists _, _; (split; [by repeat split|by vm_compute]).
  - intros [|[|i]] [|[|j]] si sj li ui lj uj Hij Hi Hj Hei Hej; try done;
      injection Hi as <-; injection Hj as <-;
      destruct Hei as (_ & Hli & Hui); destruct Hej as (_ & Hlj & Huj);
      vm_compute in Hli, Hui, Hlj, Huj;
      injection Hli as <-; injection Hui as <-;
      injection Hlj as <-; injection Huj as <-;
      [left|right]; by vm_compute.
Qed.

Lemma canonical_ordinal_bijection_witness :
  exists mapping desc,
    RelationBuildPartitionDesc insertion_sort no_junk (Some int4_range_key)
      two_range_rows = OK (Some desc) /\
    ordinal_bijection 2 mapping /\
    forall i part,
      two_range_rows !! i = Some part ->
      oids desc !! Z.to_nat (mapping !!! i) = Some (inhrelid part).
Proof.
  destruct (canonical_ordinal_bijection insertion_sort no_junk int4_range_key
              two_range_rows insertion_sort_spec int4_range_key_orders)
    as (raw & bi & mapping & desc & _ & _ & Hrun & _ & _ & _ & Hbij & Hoids).
  - vm_compute. lia.
  - vm_compute. lia.
  - apply two_range_rows_valid.
  - exists mapping, desc. split; [exact Hrun|]. split; [exact Hbij|].
    exact Hoids.
Defined.
(** ** Independence from the sorting function *)

(** For a valid set of range partitions every [qsort_arg] that sorts leaves
    the bounds in the same order. *)
Lemma sorted_raw_bounds_range_unique qsort_arg key specs :
  qsort_arg_spec qsort_arg -> column_orders key ->
  strategy key = PARTITION_STRATEGY_RANGE ->
  valid_range_partitions key specs ->
  sorted_raw_bounds qsort_arg key specs
  = sorted_raw_bounds insertion_sort key specs.
Proof.
  intros Hq Hcol Hstrat Hvalid. unfold sorted_raw_bounds.
  destruct (0 <? Z.of_nat (length specs)); [|done]. rewrite Hstrat.
  destruct (collect_range_bounds_spec key specs 0 [])
    as (AB & -> & Hmem & Hnodup).
  { intros p spec Hp. destruct (proj1 Hvalid p spec Hp) as (lo & up & He & _).
    exists lo, up. by rewrite Z.add_0_l. }
  cbn [app mbind res_bind].
  rewrite (qsort_arg_unique qsort_arg); [done|done| |].
  - by apply qsort_partition_rbound_cmp_preorder.
  - by apply (valid_range_ties key specs).
Qed.

Lemma RelationBuildPartitionDesc_range_unique qsort_arg junk key inhoids :
  qsort_arg_spec qsort_arg -> column_orders key ->
  strategy key = PARTITION_STRATEGY_RANGE ->
  valid_range_partitions key
    (relpartbound <$> filter (fun t => relispartition t = true) inhoids) ->
  RelationBuildPartitionDesc qsort_arg junk (Some key) inhoids
  = RelationBuildPartitionDesc insertion_sort junk (Some key) inhoids.
Proof.
  intros Hq Hcol Hstrat Hvalid. unfold RelationBuildPartitionDesc.
  by rewrite (sorted_raw_bounds_range_unique qsort_arg).
Qed.

Lemma two_range_rows_swapped_valid :
  valid_partitions int4_range_key
    (relpartbound <$> filter (fun t => relispartition t = true)
                        two_range_rows_swapped).
Proof.
  split.
  - intros [|[|i]] spec Hi; [| |done]; injection Hi as <-;
      eexists _, _; (split; [by repeat split|by vm_compute]).
  - intros [|[|i]] [|[|j]] si sj li ui lj uj Hij Hi Hj Hei Hej; try done;
      injection Hi as <-; injection Hj as <-;
      destruct Hei as (_ & Hli & Hui); destruct Hej as (_ & Hlj & Huj);
      vm_compute in Hli, Hui, Hlj, Huj;
      injection Hli as <-; injection Hui as <-;
      injection Hlj as <-; injection Huj as <-;
      [right|left]; by vm_compute.
Qed.

(** C4: the parent has exactly the two partitions [P1 = [10, 20)] (OID 101)
    and [P2 = [20, 30)] (OID 102) over one [int4] column, read from the
    catalog in either order and sorted by any [qsort_arg] that sorts.  Then
    [RelationBuildPartitionDesc] succeeds, and [check_new_partition_bound]
    reports an overlap with [P1] for the candidate [[15, 25)] (so with "P1
    or P2"), an overlap with [P2] for [[20, 30)], and returns without a
    report for [[30, 40)]. *)
Theorem check_new_partition_bound_two_ranges qsort_arg junk rows :
  qsort_arg_spec qsort_arg ->
  rows = two_range_rows \/ rows = two_range_rows_swapped ->
  exists desc,
    RelationBuildPartitionDesc qsort_arg junk (Some int4_range_key) rows
    = OK (Some desc) /\
    check_new_partition_bound int4_range_key desc (range_spec 15 25)
    = ERROR (ERR_would_overlap 101) /\
    check_new_partition_bound int4_range_key desc (range_spec 20 30)
    = ERROR (ERR_would_overlap 102) /\
    check_new_partition_bound int4_range_key desc (range_spec 30 40) = OK tt.
Proof.
  intros Hq [-> | ->].
  - rewrite (RelationBuildPartitionDesc_range_unique qsort_arg);
      [|done|apply int4_range_key_orders|done|apply two_range_rows_valid].
    eexists. split; [by vm_compute|]. by vm_compute.
  - rewrite (RelationBuildPartitionDesc_range_unique qsort_arg);
      [|done|apply int4_range_key_orders|done
       |apply two_range_rows_swapped_valid].
    eexists. split; [by vm_compute|]. by vm_compute.
Qed.

Lemma check_new_partition_bound_two_ranges_witness :
  exists desc,
    RelationBuildPartitionDesc insertion_sort no_junk (Some int4_range_key)
      two_range_rows_swapped = OK (Some desc) /\
    check_new_partition_bound int4_range_key desc (range_spec 15 25)
    = ERROR (ERR_would_overlap 101) /\
    check_new_partition_bound int4_range_key desc (range_spec 20 30)
    = ERROR (ERR_would_overlap 102) /\
    check_new_partition_bound int4_range_key desc (range_spec 30 40) = OK tt.
Proof.
  apply (check_new_partition_bound_two_ranges insertion_sort no_junk
           two_range_rows_swapped insertion_sort_spec).
  by right.
Defined.
(** ** Which bounds are merged *)

(** C2, as stated, fails: for [P1 = [10, 20)] and [P2 = [20, 30)] the upper
    bound 20 and the lower bound 20 are both in the sorted array, and the
    lower bound is not in [rbounds]. *)
Lemma both_edges_survive_counterexample :
  ~ both_edges_survive insertion_sort int4_range_key
      [range_spec 10 20; range_spec 20 30].
Proof.
  intros H.
  destruct (H _ _ upper_20 lower_20 eq_refl eq_refl) as [_ Hl].
  - by right; left.
  - by right; right; left.
  - done.
  - done.
  - intros j Hj. assert (j = 0%nat) as -> by (cbn in Hj; lia). by vm_compute.
  - vm_compute in Hl.
    repeat (apply elem_of_cons in Hl as [Hl|Hl]; [discriminate Hl|]).
    by apply elem_of_nil in Hl.
Qed.

(** A bound of the sorted array is merged into the bound before it (its
    [distinct_indexes] flag is false) exactly when every key column is
    finite in both and compares equal; the edge kinds play no part, and a
    bound with an infinite column is never merged.  So for an upper bound
    [u] and a lower bound [l] of the same finite value: [u] sorts strictly
    before [l], and in the array [... u l ...] the second loop keeps [u] (if
    it is distinct from its own predecessor) and drops [l]. *)
Lemma distinct_indexes_loop_same_value key :
  column_orders key ->
  (forall prev cur,
     is_distinct_loop key (Some prev) cur (partnatts key) 0 = false <->
     columns_equal key (rb_datums cur) (rb_content cur)
       (rb_datums prev) (rb_content prev) 0 (partnatts key)) /\
  (forall u l prev rest,
     rb_lower u = false -> rb_lower l = true ->
     columns_equal key (rb_datums u) (rb_content u)
       (rb_datums l) (rb_content l) 0 (partnatts key) ->
     qsort_partition_rbound_cmp key u l = -1 /\
     save_distinct_bounds (distinct_indexes_loop key prev (u :: l :: rest))
       (u :: l :: rest)
     = (if is_distinct_loop key prev u (partnatts key) 0 then [u] else [])
       ++ save_distinct_bounds (distinct_indexes_loop key (Some l) rest)
            rest).
Proof.
  intros Hcol. split.
  - intros prev cur. apply is_distinct_loop_false_iff.
  - intros u l prev rest Hu Hl Heq. split.
    + unfold qsort_partition_rbound_cmp.
      rewrite rbound_cmp_columns_equal by done. by rewrite Hu, Hl.
    + cbn [distinct_indexes_loop save_distinct_bounds].
      assert (is_distinct_loop key (Some u) l (partnatts key) 0 = false)
        as ->.
      { apply is_distinct_loop_false_iff.
        apply columns_equal_sym; [done|lia|done]. }
      by destruct (is_distinct_loop key prev u (partnatts key) 0).
Qed.

(** ** Equality of bound collections *)



(** ** Two scans of the same partitions: the mapping *)





Lemma range_boundinfo_loop_datums key junk R i mapping next_index :
  Forall2 (fun (b : PartitionRangeBound) (row : list Z) =>
             forall j, (j < partnatts key)%nat ->
               rb_content b !!! j = RANGE_DATUM_FINITE ->
               row !!! j = rb_datums b !!! j)
    R (range_boundinfo_loop key junk R i mapping next_index).1.1.1.
Proof.
  revert i mapping next_index.
  induction R as [|b R IH]; intros i mapping next_index; [constructor|].
  cbn [range_boundinfo_loop].
  assert (forall j, (j < partnatts key)%nat ->
            rb_content b !!! j = RANGE_DATUM_FINITE ->
            copy_range_datums key junk i b !!! j = rb_datums b !!! j) as Hrow.
  { intros j Hj Hfin. unfold copy_range_datums.
    apply list_lookup_total_correct.
    rewrite list_lookup_fmap, lookup_seq_lt by lia. cbn. by rewrite Hfin. }
  destruct (rb_lower b).
  - specialize (IH (S i) mapping next_index).
    destruct (range_boundinfo_loop key junk R (S i) mapping next_index)
      as [[[datums content] indexes] st]. cbn [fst snd] in *.
    by constructor.
  - destruct (assign_mapping (rb_index b) mapping next_index) as [m1 n1].
    specialize (IH (S i) m1 n1).
    destruct (range_boundinfo_loop key junk R (S i) m1 n1)
      as [[[datums content] indexes] st]. cbn [fst snd] in *.
    by constructor.
Qed.

(** ** Two scans of the same partitions: the sorted arrays *)



Lemma make_one_range_bound_erase key i datums lower b :
  make_one_range_bound key i datums lower = OK b ->
  make_one_range_bound key 0 datums lower = OK (erase_index b).
Proof.
  unfold make_one_range_bound.
  destruct (make_one_range_bound_loop _ _ _ _ _) as [[bd bc]| | |]; [|done..].
  cbn. by intros [= <-].
Qed.


Lemma make_one_range_bound_reindex key i j datums lower b :
  make_one_range_bound key i datums lower = OK b ->
  exists b', make_one_range_bound key j datums lower = OK b' /\
             erase_index b' = erase_index b.
Proof.
  unfold make_one_range_bound.
  destruct (make_one_range_bound_loop _ _ _ _ _) as [[bd bc]| | |]; [|done..].
  cbn. intros [= <-]. by eexists.
Qed.

Lemma range_edges_reindex key i j spec lower upper :
  range_edges key i spec lower upper ->
  exists lower' upper', range_edges key j spec lower' upper'.
Proof.
  intros (Hstrat & Hl & Hu).
  destruct (make_one_range_bound_reindex key i j _ _ _ Hl) as (l' & Hl' & _).
  destruct (make_one_range_bound_reindex key i j _ _ _ Hu) as (u' & Hu' & _).
  by exists l', u'.
Qed.


Lemma range_edges_erase key i j spec l u l' u' :
  range_edges key i spec l u -> range_edges key j spec l' u' ->
  erase_index l = erase_index l' /\ erase_index u = erase_index u'.
Proof.
  intros (_ & Hl & Hu) (_ & Hl' & Hu').
  apply make_one_range_bound_erase in Hl, Hu, Hl', Hu'.
  split; congruence.
Qed.

Lemma rbound_cmp_erase key a b a' b' :
  erase_index a = erase_index a' -> erase_index b = erase_index b' ->
  qsort_partition_rbound_cmp key a b = qsort_partition_rbound_cmp key a' b'.
Proof.
  intros Ha Hb.
  change (qsort_partition_rbound_cmp key (erase_index a) (erase_index b)
          = qsort_partition_rbound_cmp key a' b').
  by rewrite Ha, Hb.
Qed.








Lemma range_boundinfo_loop_content key junk R i mapping next_index :
  (range_boundinfo_loop key junk R i mapping next_index).1.1.2
  = copy_range_content key <$> R.
Proof.
  revert i mapping next_index.
  induction R as [|b R IH]; intros i mapping next_index; [done|].
  cbn [range_boundinfo_loop fmap list_fmap].
  destruct (rb_lower b).
  - specialize (IH (S i) mapping next_index).
    destruct (range_boundinfo_loop key junk R (S i) mapping next_index)
      as [[[datums content] indexes] st]. cbn [fst snd] in *. by rewrite IH.
  - destruct (assign_mapping (rb_index b) mapping next_index) as [m1 n1].
    specialize (IH (S i) m1 n1).
    destruct (range_boundinfo_loop key junk R (S i) m1 n1)
      as [[[datums content] indexes] st]. cbn [fst snd] in *. by rewrite IH.
Qed.





(** The validity of the set of partitions cannot be dropped from the
    statement below.  The list partitions [IN (1, 2)] and [IN (1)] both
    declare 1, which [check_new_partition_bound] refuses for the partitions
    of one table; on such rows the sorted array keeps the two entries of
    value 1 in scan order, and the ordinals come out as [0; 1; 0] for one
    scan and [0; 1; 1] for the other. *)
Lemma overlapping_lists_order_dependent :
  overlapping_list_rows ≡ₚ overlapping_list_rows_swapped /\
  ~ order_independent insertion_sort no_junk int4_list_key
      overlapping_list_rows overlapping_list_rows_swapped.
Proof.
  split; [apply Permutation_swap|]. intros Hind.
  pose proof (Hind _ _ _ _ eq_refl eq_refl eq_refl eq_refl) as Heq.
  vm_compute in Heq. discriminate.
Qed.


Lemma two_list_rows_valid :
  valid_partitions int4_list_key
    (relpartbound <$> filter (fun t => relispartition t = true) two_list_rows).
Proof.
  split; [|vm_compute; lia]. by repeat constructor.
Qed.

Lemma two_list_rows_distinct :
  list_values_distinct int4_list_key
    (relpartbound <$> filter (fun t => relispartition t = true) two_list_rows).
Proof.
  intros a b Ha Hb.
  change (a ∈ [ {| lv_index := 0; lv_value := 1 |};
                {| lv_index := 0; lv_value := 2 |};
                {| lv_index := 1; lv_value := 3 |} ]) in Ha.
  change (b ∈ [ {| lv_index := 0; lv_value := 1 |};
                {| lv_index := 0; lv_value := 2 |};
                {| lv_index := 1; lv_value := 3 |} ]) in Hb.
  repeat (apply elem_of_cons in Ha as [->|Ha]);
    try (by apply elem_of_nil in Ha);
    repeat (apply elem_of_cons in Hb as [->|Hb]);
    try (by apply elem_of_nil in Hb);
    by vm_compute.
Qed.

(** ** Canonical collections are ascending for every probe *)

Lemma partition_rbound_cmp_loop_ext key d1 c1 d1' c1' d2 c2 n i cmpval :
  (forall j, (i <= j < i + n)%nat ->
     c1 !!! j = c1' !!! j /\
     (c1 !!! j = RANGE_DATUM_FINITE -> d1 !!! j = d1' !!! j)) ->
  partition_rbound_cmp_loop key d1 c1 d2 c2 n i cmpval
  = partition_rbound_cmp_loop key d1' c1' d2 c2 n i cmpval.
Proof.
  revert i cmpval. induction n as [|n IH]; intros i cmpval Hext; [done|].
  cbn [partition_rbound_cmp_loop].
  destruct (Hext i ltac:(lia)) as [Hc Hd]. rewrite <- Hc.
  destruct (c1 !!! i) eqn:Hci; cbn; try done.
  rewrite <- (Hd eq_refl).
  destruct (is_finite (c2 !!! i)); cbn; [|done].
  destruct (partsupfunc key i (d1 !!! i) (d2 !!! i) =? 0); cbn; [|done].
  apply IH. intros j Hj. apply Hext. lia.
Qed.

Lemma partition_rbound_datum_cmp_loop_bound key d c t c2 n i cmpval :
  (forall j, (j < partnatts key)%nat -> c2 !!! j = RANGE_DATUM_FINITE) ->
  (i + n <= partnatts key)%nat ->
  partition_rbound_datum_cmp_loop key d c t n i cmpval
  = partition_rbound_cmp_loop key d c t c2 n i cmpval.
Proof.
  intros Hfin. revert i cmpval.
  induction n as [|n IH]; intros i cmpval Hn; [done|].
  cbn [partition_rbound_datum_cmp_loop partition_rbound_cmp_loop].
  rewrite (Hfin i) by lia.
  destruct (c !!! i) eqn:Hci; cbn; try done.
  destruct (partsupfunc key i (d !!! i) (t !!! i) =? 0); cbn; [|done].
  apply IH. lia.
Qed.

Lemma partition_rbound_cmp_loop_cmpval key d1 c1 d2 c2 n i cmpval :
  partition_rbound_cmp_loop key d1 c1 d2 c2 (S n) i cmpval
  = partition_rbound_cmp_loop key d1 c1 d2 c2 (S n) i 0.
Proof. reflexivity. Qed.

Lemma tuple_bound_finite key values lower j :
  (j < partnatts key)%nat ->
  rb_content (tuple_bound key values lower) !!! j = RANGE_DATUM_FINITE.
Proof. intros Hj. cbn. by rewrite lookup_total_replicate_2. Qed.

(** A tuple compares to a bound as the bound of its values does, the
    edge kinds apart. *)
Lemma partition_rbound_datum_cmp_le key d c lower values :
  (0 < partnatts key)%nat ->
  partition_rbound_datum_cmp key d c values <= 0 <->
  partition_rbound_cmp key d c lower (tuple_bound key values true) <= 0.
Proof.
  intros Hn. unfold partition_rbound_datum_cmp.
  rewrite partition_rbound_cmp_result.
  rewrite (partition_rbound_datum_cmp_loop_bound key d c values
             (rb_content (tuple_bound key values true)))
    by (auto using tuple_bound_finite).
  destruct (partnatts key) as [|n] eqn:Hp; [lia|].
  rewrite partition_rbound_cmp_loop_cmpval. cbn [rb_datums tuple_bound].
  destruct (partition_rbound_cmp_loop _ _ _ _ _ _ _ _) as [v|v]; [done|].
  cbn. destruct (Z.eqb_spec v 0) as [->|?]; [|done].
  by destruct lower.
Qed.

Lemma partition_rbound_datum_cmp_lt key d c lower values :
  (0 < partnatts key)%nat ->
  partition_rbound_datum_cmp key d c values < 0 <->
  partition_rbound_cmp key d c lower (tuple_bound key values false) < 0.
Proof.
  intros Hn. unfold partition_rbound_datum_cmp.
  rewrite partition_rbound_cmp_result.
  rewrite (partition_rbound_datum_cmp_loop_bound key d c values
             (rb_content (tuple_bound key values false)))
    by (auto using tuple_bound_finite).
  destruct (partnatts key) as [|n] eqn:Hp; [lia|].
  rewrite partition_rbound_cmp_loop_cmpval. cbn [rb_datums tuple_bound].
  destruct (partition_rbound_cmp_loop _ _ _ _ _ _ _ _) as [v|v]; [done|].
  cbn. destruct (Z.eqb_spec v 0) as [->|?]; [|done].
  by destruct lower.
Qed.
(** A bound that is neither below the upper edge nor above the lower edge
    of a tuple has the tuple's values in every column. *)
Lemma rbound_cmp_loop_between key d c lower values c2 n i :
  column_orders key ->
  (forall j, (j < partnatts key)%nat -> c2 !!! j = RANGE_DATUM_FINITE) ->
  (i + n <= partnatts key)%nat ->
  rbound_cmp_result (partition_rbound_cmp_loop key values c2 d c n i 0)
    false lower <= 0 ->
  rbound_cmp_result (partition_rbound_cmp_loop key d c values c2 n i 0)
    lower true <= 0 ->
  columns_equal key d c values c2 i n.
Proof.
  intros Hcol Hfin. revert i.
  induction n as [|n IH]; intros i Hn Hlo Hhi; [intros j Hj; lia|].
  apply columns_equal_S. revert Hlo Hhi.
  cbn [partition_rbound_cmp_loop]. rewrite (Hfin i) by lia.
  destruct (Hcol i ltac:(lia)) as [Hanti _].
  pose proof (Hanti (d !!! i) (values !!! i)) as H1.
  pose proof (Hanti (values !!! i) (d !!! i)) as H2.
  destruct (c !!! i) eqn:Hci; cbn; try lia.
  destruct (Z.eqb_spec (partsupfunc key i (values !!! i) (d !!! i)) 0)
    as [Hz|Hnz]; cbn.
  - destruct (Z.eqb_spec (partsupfunc key i (d !!! i) (values !!! i)) 0)
      as [Hz'|Hnz']; cbn; [|lia].
    rewrite Hz, Hz'. intros Hlo Hhi. split; [done|]. apply IH; [lia|done..].
  - destruct (Z.eqb_spec (partsupfunc key i (d !!! i) (values !!! i)) 0)
      as [Hz'|Hnz']; cbn; [lia|].
    rewrite (proj2 (Z.eqb_neq _ _) Hnz), (proj2 (Z.eqb_neq _ _) Hnz').
    cbn. lia.
Qed.

Lemma rbound_between_tuple_bounds key x values :
  column_orders key ->
  qsort_partition_rbound_cmp key (tuple_bound key values false) x <= 0 ->
  qsort_partition_rbound_cmp key x (tuple_bound key values true) <= 0 ->
  columns_equal key (rb_datums x) (rb_content x) values
    (replicate (partnatts key) RANGE_DATUM_FINITE) 0 (partnatts key).
Proof.
  intros Hcol Hlo Hhi.
  apply (rbound_cmp_loop_between key _ _ (rb_lower x)); try done.
  intros j Hj. by rewrite lookup_total_replicate_2.
Qed.

Lemma columns_equal_via key d1 c1 d2 c2 d3 c3 i n :
  column_orders key -> (i + n <= partnatts key)%nat ->
  columns_equal key d1 c1 d3 c3 i n -> columns_equal key d2 c2 d3 c3 i n ->
  columns_equal key d1 c1 d2 c2 i n.
Proof.
  intros Hcol Hn H1 H2 j Hj.
  destruct (H1 j Hj) as (Hc1 & _ & Hz1). destruct (H2 j Hj) as (Hc2 & _ & Hz2).
  split; [done|]. split; [done|].
  destruct (Hcol j ltac:(lia)) as [Hanti Htrans].
  pose proof (Hanti (d2 !!! j) (d3 !!! j)).
  pose proof (Hanti (d3 !!! j) (d2 !!! j)).
  pose proof (Hanti (d1 !!! j) (d2 !!! j)).
  pose proof (Hanti (d2 !!! j) (d1 !!! j)).
  pose proof (Htrans (d1 !!! j) (d3 !!! j) (d2 !!! j)).
  pose proof (Htrans (d2 !!! j) (d3 !!! j) (d1 !!! j)).
  pose proof (Hanti (d1 !!! j) (d3 !!! j)).
  pose proof (Hanti (d3 !!! j) (d1 !!! j)).
  lia.
Qed.

Lemma rbound_cmp_ge key a b :
  column_orders key ->
  ~ qsort_partition_rbound_cmp key a b < 0 ->
  qsort_partition_rbound_cmp key b a <= 0.
Proof.
  intros Hcol Hge.
  pose proof (qsort_partition_rbound_cmp_antisym key a b Hcol).
  pose proof (qsort_partition_rbound_cmp_antisym key b a Hcol). lia.
Qed.

(** A bound that the first loop finds distinct from the bound before it is
    above it for every probe. *)
Lemma distinct_below_for_probes key prev cur :
  column_orders key ->
  qsort_partition_rbound_cmp key prev cur < 0 ->
  is_distinct_loop key (Some prev) cur (partnatts key) 0 = true ->
  below_for_probes key prev cur.
Proof.
  intros Hcol Hlt Hdistinct. split; [done|]. intros values Hcur.
  destruct (decide (qsort_partition_rbound_cmp key prev
                      (tuple_bound key values false) < 0)) as [|Hge];
    [done|exfalso].
  apply rbound_cmp_ge in Hge; [|done].
  assert (qsort_partition_rbound_cmp key prev (tuple_bound key values true)
          <= 0) as Hprev.
  { eapply qsort_partition_rbound_cmp_trans; [done| |exact Hcur]. lia. }
  assert (qsort_partition_rbound_cmp key (tuple_bound key values false) cur
          <= 0) as Hcur'.
  { eapply qsort_partition_rbound_cmp_trans; [done|exact Hge|lia]. }
  pose proof (rbound_between_tuple_bounds key prev values Hcol Hge Hprev)
    as Heq1.
  pose proof (rbound_between_tuple_bounds key cur values Hcol Hcur' Hcur)
    as Heq2.
  assert (is_distinct_loop key (Some prev) cur (partnatts key) 0 = false)
    as Hfalse.
  { apply is_distinct_loop_false_iff.
    by apply (columns_equal_via key _ _ _ _ values
                (replicate (partnatts key) RANGE_DATUM_FINITE)). }
  congruence.
Qed.

Lemma below_for_probes_le key a b c :
  column_orders key ->
  qsort_partition_rbound_cmp key a b <= 0 -> below_for_probes key b c ->
  below_for_probes key a c.
Proof.
  intros Hcol Hab [Hbc Hprobe]. split.
  - by eapply rbound_le_lt_trans.
  - intros values Hc. eapply rbound_le_lt_trans; [done|exact Hab|].
    by apply Hprobe.
Qed.

(** The bounds that [save_distinct_bounds] keeps are ascending for every
    probe. *)
Lemma save_distinct_bounds_ascending key prev l :
  column_orders key ->
  StronglySorted (fun a b => qsort_partition_rbound_cmp key a b < 0)
    (from_option (fun p => [p]) [] prev ++ l) ->
  StronglySorted (below_for_probes key)
    (save_distinct_bounds (distinct_indexes_loop key prev l) l) /\
  forall p b, prev = Some p ->
    b ∈ save_distinct_bounds (distinct_indexes_loop key prev l) l ->
    below_for_probes key p b.
Proof.
  intros Hcol. revert prev.
  induction l as [|cur rest IH]; intros prev Hsorted.
  { split; [constructor|]. intros p b _ Hb. by apply elem_of_nil in Hb. }
  cbn [distinct_indexes_loop save_distinct_bounds].
  assert (StronglySorted (fun a b => qsort_partition_rbound_cmp key a b < 0)
            (cur :: rest)) as Hsorted'.
  { destruct prev; cbn in Hsorted; [|done].
    by apply StronglySorted_cons in Hsorted as [_ ?]. }
  destruct (IH (Some cur) Hsorted') as [IHs IHp].
  assert (forall p, prev = Some p -> qsort_partition_rbound_cmp key p cur < 0)
    as Hprev.
  { intros p ->. cbn in Hsorted.
    apply StronglySorted_cons in Hsorted as [Hp _].
    by apply Forall_cons in Hp as [? _]. }
  destruct (is_distinct_loop key prev cur (partnatts key) 0) eqn:Hd.
  - split.
    + apply StronglySorted_cons. split; [|done].
      apply Forall_forall. intros b Hb. by apply (IHp cur).
    + intros p b -> Hb. apply elem_of_cons in Hb as [->|Hb].
      * apply distinct_below_for_probes; auto.
      * apply (below_for_probes_le key p cur b); [done| |by apply (IHp cur)].
        specialize (Hprev p eq_refl). lia.
  - split; [done|]. intros p b -> Hb.
    apply (below_for_probes_le key p cur b); [done| |by apply (IHp cur)].
    specialize (Hprev p eq_refl). lia.
Qed.
Lemma StronglySorted_lookup_lt {A} (R : A -> A -> Prop) l i j x y :
  StronglySorted R l -> (i < j)%nat ->
  l !! i = Some x -> l !! j = Some y -> R x y.
Proof.
  intros Hsorted. revert i j.
  induction Hsorted as [|a l Hsorted IH Ha]; intros i j Hij Hi Hj; [done|].
  destruct j as [|j]; [lia|]. destruct i as [|i].
  - injection Hi as ->. cbn in Hj.
    by apply (proj1 (Forall_forall _ _) Ha), (list_elem_of_lookup_2 _ j).
  - cbn in Hi, Hj. apply (IH i j); [lia|done..].
Qed.

Lemma StronglySorted_strict {A} (cmp : A -> A -> Z) l :
  StronglySorted (fun a b => cmp a b <= 0) l ->
  NoDup l -> ties_are_equal cmp l ->
  StronglySorted (fun a b => cmp a b < 0) l.
Proof.
  induction 1 as [|a l Hsorted IH Ha]; intros Hnd Hties; [constructor|].
  apply NoDup_cons in Hnd as [Hnotin Hnd]. constructor.
  - apply IH; [done|]. intros x y Hx Hy. apply Hties; by right.
  - apply Forall_forall. intros b Hb.
    pose proof (proj1 (Forall_forall _ _) Ha b Hb) as Hle. cbn beta in Hle.
    destruct (decide (cmp a b = 0)) as [Hz|]; [exfalso|lia].
    assert (a = b) as -> by (apply Hties; [by left|by right|done]). done.
Qed.

Lemma assign_mapping_nonneg o mapping next_index :
  Forall (fun v => -1 <= v) mapping -> 0 <= next_index ->
  Forall (fun v => -1 <= v) (assign_mapping o mapping next_index).1 /\
  0 <= (assign_mapping o mapping next_index).2 /\
  0 <= (assign_mapping o mapping next_index).1 !!! Z.to_nat o.
Proof.
  intros Hall Hnext. unfold assign_mapping.
  rewrite (list_lookup_total_alt mapping).
  destruct (mapping !! Z.to_nat o) as [v|] eqn:E; unfold default;
    cbn [from_option id].
  - pose proof (proj1 (Forall_lookup _ _) Hall _ _ E) as Hv. cbn beta in Hv.
    destruct (Z.eqb_spec v (-1)) as [->|Hne]; cbn [fst snd].
    + split; [apply Forall_insert; [done|lia]|]. split; [lia|].
      rewrite list_lookup_total_insert_eq; [done|by eapply lookup_lt_Some].
    + split; [done|]. split; [done|].
      rewrite (list_lookup_total_correct _ _ _ E). lia.
  - cbn. split; [done|]. split; [done|].
    rewrite list_lookup_total_alt, E. by cbn.
Qed.

(** In [indexes], the entry of a lower bound is -1 and the entry of an
    upper bound is an ordinal: the sign tells the edge kind back. *)
Lemma range_boundinfo_loop_lower key junk rbounds i mapping next_index :
  Forall (fun v => -1 <= v) mapping -> 0 <= next_index ->
  Forall2 (fun b index => (index <? 0) = rb_lower b) rbounds
    (range_boundinfo_loop key junk rbounds i mapping next_index).1.2.
Proof.
  revert i mapping next_index.
  induction rbounds as [|b rest IH]; intros i mapping next_index Hall Hnext;
    [constructor|].
  cbn [range_boundinfo_loop].
  destruct (rb_lower b) eqn:Hl.
  - specialize (IH (S i) mapping next_index Hall Hnext).
    destruct (range_boundinfo_loop key junk rest (S i) mapping next_index)
      as [[[datums content] indexes] st]. cbn [fst snd] in *.
    constructor; [by rewrite Hl|done].
  - destruct (assign_mapping_nonneg (rb_index b) mapping next_index Hall Hnext)
      as (Hall1 & Hnext1 & Hidx).
    destruct (assign_mapping (rb_index b) mapping next_index) as [m1 n1].
    cbn [fst snd] in *.
    specialize (IH (S i) m1 n1 Hall1 Hnext1).
    destruct (range_boundinfo_loop key junk rest (S i) m1 n1)
      as [[[datums content] indexes] st]. cbn [fst snd] in *.
    constructor; [|done]. rewrite Hl. apply Z.ltb_ge. lia.
Qed.

(** What [partition_bound_cmp] reads of the stored bound [offset] is the
    bound that was copied there. *)
Lemma stored_rbound_cmp key junk n rbounds bi mapping k b x :
  strategy key = PARTITION_STRATEGY_RANGE ->
  build_boundinfo junk key n (RawRange rbounds) = OK (bi, mapping) ->
  rbounds !! k = Some b ->
  partition_rbound_cmp key (bi_datums bi !!! k)
    (default [] (bi_content bi) !!! k) (indexes bi !!! k <? 0) x
  = qsort_partition_rbound_cmp key b x.
Proof.
  intros Hstrat Hbuild Hk. unfold build_boundinfo in Hbuild.
  rewrite Hstrat in Hbuild.
  pose proof (range_boundinfo_loop_datums key junk rbounds 0
                (replicate n (-1)) 0) as Hdatums.
  pose proof (range_boundinfo_loop_content key junk rbounds 0
                (replicate n (-1)) 0) as Hcontent.
  pose proof (range_boundinfo_loop_lower key junk rbounds 0
                (replicate n (-1)) 0) as Hlower.
  destruct (range_boundinfo_loop key junk rbounds 0 (replicate n (-1)) 0)
    as [[[datums content] idx] [m next_index]].
  cbn [fst snd] in *. injection Hbuild as <- <-. cbn.
  destruct (Forall2_lookup_l _ _ _ _ _ Hdatums Hk) as (row & Hrow & Hr).
  destruct (Forall2_lookup_l _ _ _ _ _ (Hlower ltac:(by apply Forall_replicate)
                                          ltac:(lia)) Hk)
    as (index & Hindex & Hsign).
  rewrite (list_lookup_total_correct _ _ _ Hrow).
  rewrite lookup_total_app_l by (by eapply lookup_lt_Some).
  rewrite (list_lookup_total_correct _ _ _ Hindex), Hsign.
  erewrite (list_lookup_total_correct content);
    [|by rewrite Hcontent, list_lookup_fmap, Hk].
  unfold qsort_partition_rbound_cmp. rewrite !partition_rbound_cmp_result.
  f_equal. apply partition_rbound_cmp_loop_ext. intros j Hj.
  assert (copy_range_content key b !!! j = rb_content b !!! j) as Hc.
  { unfold copy_range_content. apply list_lookup_total_correct.
    by rewrite list_lookup_fmap, lookup_seq_lt by lia. }
  rewrite Hc. split; [done|]. intros Hfin. apply Hr; [lia|done].
Qed.
Lemma range_bounds_ascending key junk n rbounds bi mapping probe
    probe_is_bound :
  column_orders key -> (0 < partnatts key)%nat ->
  strategy key = PARTITION_STRATEGY_RANGE ->
  StronglySorted (below_for_probes key) rbounds ->
  build_boundinfo junk key n (RawRange rbounds) = OK (bi, mapping) ->
  ascending_for_probe key bi probe probe_is_bound.
Proof.
  intros Hcol Hn Hstrat Hsorted Hbuild i j Hij Hj (c & Hc & Hle).
  assert (ndatums bi = Z.of_nat (length rbounds)) as Hlen.
  { unfold build_boundinfo in Hbuild. rewrite Hstrat in Hbuild.
    destruct (range_boundinfo_loop key junk rbounds 0 (replicate n (-1)) 0)
      as [[[datums content] idx] [m next_index]].
    by injection Hbuild as <- <-. }
  destruct (lookup_lt_is_Some_2 rbounds (Z.to_nat i) ltac:(lia)) as [a Ha].
  destruct (lookup_lt_is_Some_2 rbounds (Z.to_nat j) ltac:(lia)) as [b Hb].
  destruct (StronglySorted_lookup_lt _ _ (Z.to_nat i) (Z.to_nat j) a b
              Hsorted ltac:(lia) Ha Hb) as [Hab Htuple].
  unfold bound_vs_probe, partition_bound_cmp in *. rewrite Hstrat in *.
  destruct probe_is_bound.
  - injection Hc as <-. eexists. split; [reflexivity|].
    rewrite (stored_rbound_cmp key junk n rbounds bi mapping _ a)
      by done.
    rewrite (stored_rbound_cmp key junk n rbounds bi mapping _ b) in Hle
      by done.
    by eapply rbound_lt_le_trans.
  - injection Hc as <-. eexists. split; [reflexivity|].
    apply (partition_rbound_datum_cmp_lt key _ _
             (indexes bi !!! Z.to_nat i <? 0) _ Hn).
    apply (partition_rbound_datum_cmp_le key _ _
             (indexes bi !!! Z.to_nat j <? 0) _ Hn) in Hle.
    rewrite (stored_rbound_cmp key junk n rbounds bi mapping _ a)
      by done.
    rewrite (stored_rbound_cmp key junk n rbounds bi mapping _ b) in Hle
      by done.
    by apply Htuple.
Qed.

Lemma list_boundinfo_loop_datums all_values mapping next_index :
  (list_boundinfo_loop all_values mapping next_index).1.1
  = (fun v => [lv_value v]) <$> all_values.
Proof.
  revert mapping next_index.
  induction all_values as [|v rest IH]; intros mapping next_index; [done|].
  cbn [list_boundinfo_loop fmap list_fmap].
  destruct (assign_mapping (lv_index v) mapping next_index) as [m1 n1].
  specialize (IH m1 n1).
  destruct (list_boundinfo_loop rest m1 n1) as [[datums indexes] st].
  cbn [fst snd] in *. by rewrite IH.
Qed.

Lemma list_bounds_ascending key junk n ni all_values bi mapping probe
    probe_is_bound :
  column_orders key -> (0 < partnatts key)%nat ->
  strategy key = PARTITION_STRATEGY_LIST ->
  StronglySorted (fun a b => qsort_partition_list_value_cmp key a b < 0)
    all_values ->
  build_boundinfo junk key n (RawList ni all_values) = OK (bi, mapping) ->
  ascending_for_probe key bi probe probe_is_bound.
Proof.
  intros Hcol Hn Hstrat Hsorted Hbuild i j Hij Hj (c & Hc & Hle).
  unfold build_boundinfo in Hbuild. rewrite Hstrat in Hbuild.
  pose proof (list_boundinfo_loop_datums all_values (replicate n (-1)) 0)
    as Hdatums.
  destruct (list_boundinfo_loop all_values (replicate n (-1)) 0)
    as [[datums idx] [m next_index]].
  cbn [fst snd] in Hdatums. subst datums.
  destruct (if negb (ni =? -1)
            then let '(mapping0, _) := assign_mapping ni m next_index in
                 (mapping0, mapping0 !!! Z.to_nat ni)
            else (m, -1)) as [m' bi_null].
  injection Hbuild as <- <-. cbn [ndatums] in Hj.
  destruct (lookup_lt_is_Some_2 all_values (Z.to_nat i) ltac:(lia))
    as [a Ha].
  destruct (lookup_lt_is_Some_2 all_values (Z.to_nat j) ltac:(lia))
    as [b Hb].
  pose proof (StronglySorted_lookup_lt _ _ (Z.to_nat i) (Z.to_nat j) a b
                Hsorted ltac:(lia) Ha Hb) as Hab.
  unfold bound_vs_probe, partition_bound_cmp in *. rewrite Hstrat in *.
  cbn [bi_datums] in *. injection Hc as <-.
  eexists. split; [reflexivity|].
  erewrite (list_lookup_total_correct _ (Z.to_nat i));
    [|by rewrite list_lookup_fmap, Ha].
  erewrite (list_lookup_total_correct _ (Z.to_nat j)) in Hle;
    [|by rewrite list_lookup_fmap, Hb].
  cbn in *. unfold qsort_partition_list_value_cmp in Hab.
  destruct (Hcol 0%nat Hn) as [Hanti Htrans].
  set (p := probe_datums probe !!! 0%nat) in *.
  destruct (decide (partsupfunc key 0 (lv_value a) p < 0)) as [|Hge];
    [done|exfalso].
  pose proof (Hanti (lv_value a) p). pose proof (Hanti p (lv_value a)).
  pose proof (Htrans (lv_value b) p (lv_value a) Hle ltac:(lia)).
  pose proof (Hanti (lv_value a) (lv_value b)). lia.
Qed.

(** The collection that [RelationBuildPartitionDesc] builds for a valid
    set of partitions is ascending for every probe, a bound or the key of a
    tuple: it is one of the collections that [partition_bound_bsearch] is
    specified on. *)
Lemma canonical_bounds_ascending qsort_arg junk key specs raw bi mapping
    probe probe_is_bound :
  qsort_arg_spec qsort_arg -> column_orders key -> (0 < partnatts key)%nat ->
  valid_partitions key specs ->
  (strategy key = PARTITION_STRATEGY_LIST -> list_values_disjoint key specs) ->
  sorted_raw_bounds qsort_arg key specs = OK raw ->
  build_boundinfo junk key (length specs) raw = OK (bi, mapping) ->
  ascending_for_probe key bi probe probe_is_bound.
Proof.
  intros Hq Hcol Hn Hvalid Hdisjoint Hraw Hbuild.
  unfold sorted_raw_bounds in Hraw.
  destruct (0 <? Z.of_nat (length specs)) eqn:Hlen.
  2:{ injection Hraw as <-. unfold build_boundinfo in Hbuild.
      unfold valid_partitions in Hvalid.
      by destruct (strategy key). }
  unfold valid_partitions in Hvalid.
  destruct (strategy key) eqn:Hstrat; [| |done].
  - destruct (Hdisjoint eq_refl) as [Hties Hnd].
    destruct Hvalid as [Hspecs Hnulls].
    destruct (collect_list_values_spec specs 0 (-1) [])
      as (ni & Hcoll & _); [lia| |left; split; [done|lia]|].
    { eapply Forall_impl; [exact Hspecs|]. by intros ? [? _]. }
    rewrite Hcoll in Hraw. cbn [app mbind res_bind] in Hraw.
    injection Hraw as <-.
    set (V := all_list_values 0 specs) in *.
    destruct (Hq _ (qsort_partition_list_value_cmp key) V
                (qsort_partition_list_value_cmp_preorder key V Hcol Hn))
      as [HpS HsS].
    eapply list_bounds_ascending; [done..| |exact Hbuild].
    apply StronglySorted_strict; [done|by rewrite HpS|].
    intros x y Hx Hy. rewrite HpS in Hx, Hy. by apply Hties.
  - destruct (collect_range_bounds_spec key specs 0 [])
      as (AB & HAB & Hmem & HndAB).
    { intros p spec Hp.
      destruct (proj1 Hvalid p spec Hp) as (lo & up & He & _).
      exists lo, up. by rewrite Z.add_0_l. }
    rewrite HAB in Hraw. cbn [app mbind res_bind] in Hraw.
    injection Hraw as <-.
    destruct (Hq _ (qsort_partition_rbound_cmp key) AB
                (qsort_partition_rbound_cmp_preorder key AB Hcol))
      as [HpS HsS].
    pose proof (valid_range_ties key specs AB Hcol Hvalid Hmem) as Hties.
    eapply range_bounds_ascending; [done..| |exact Hbuild].
    apply (save_distinct_bounds_ascending key None); [done|].
    cbn [from_option app].
    apply StronglySorted_strict; [done|by rewrite HpS|].
    intros x y Hx Hy. rewrite HpS in Hx, Hy. by apply Hties.
Qed.
(** * Further properties of the code *)

(** ** The search on any collection *)

(** [partition_bound_bsearch] on a collection ascending for the probe: the
    offset of the greatest bound not above the probe. *)
Lemma partition_bound_bsearch_spec key boundinfo probe probe_is_bound
    is_equal :
  strategy key <> PARTITION_STRATEGY_UNKNOWN ->
  0 <= ndatums boundinfo <= 2 ^ 30 ->
  ascending_for_probe key boundinfo probe probe_is_bound ->
  exists offset is_equal',
    partition_bound_bsearch key boundinfo probe probe_is_bound is_equal
    = OK (offset, is_equal') /\
    -1 <= offset < ndatums boundinfo /\
    (0 <= offset ->
       bound_vs_probe key boundinfo probe probe_is_bound Z.le offset) /\
    (forall i, offset < i < ndatums boundinfo ->
       bound_vs_probe key boundinfo probe probe_is_bound Z.gt i) /\
    (0 <= offset ->
       (is_equal' = true <->
        bound_vs_probe key boundinfo probe probe_is_bound eq offset)) /\
    (offset = -1 -> is_equal' = is_equal).
Proof.
  intros Hstrat Hn Hasc. unfold partition_bound_bsearch.
  destruct (partition_bound_bsearch_loop_spec key boundinfo probe
              probe_is_bound Hstrat Hasc (Z.to_nat (ndatums boundinfo))
              (-1) (ndatums boundinfo - 1) is_equal)
    as (lo & eq' & Hrun & Hrange & Hle & Hgt & Heq & Hkeep); [lia..| | |].
  { lia. }
  { lia. }
  exists lo, eq'. split; [done|]. split; [lia|]. split; [done|].
  split; [|done].
  intros i Hi. destruct (decide (i = lo + 1)) as [->|Hne]; [apply Hgt; lia|].
  apply (vs_gt_above key boundinfo probe probe_is_bound Hstrat Hasc
           (lo + 1) i); [lia..|].
  intros Hlt.
  destruct (vs_functional _ _ _ _ _ _ _ Hlt (Hgt ltac:(lia)))
    as (c & ? & ?). lia.
Qed.

(** The loop on any collection, sorted or not: it ends within
    [hi - lo] turns, [lo] never leaves [lo .. hi], and [lo] moves only to
    a bound that is not above the probe, with [*is_equal] telling whether
    that bound equals it. *)
Lemma partition_bound_bsearch_loop_any key boundinfo probe probe_is_bound
    fuel lo hi is_equal :
  strategy key <> PARTITION_STRATEGY_UNKNOWN ->
  (Z.to_nat (hi - lo) <= fuel)%nat ->
  -1 <= lo <= hi -> hi < 2 ^ 30 ->
  exists lo' is_equal',
    partition_bound_bsearch_loop fuel key boundinfo probe probe_is_bound
      lo hi is_equal = OK (lo', is_equal') /\
    lo <= lo' <= hi /\
    (lo' = lo -> is_equal' = is_equal) /\
    (lo' <> lo ->
     bound_vs_probe key boundinfo probe probe_is_bound Z.le lo' /\
     (is_equal' = true <->
      bound_vs_probe key boundinfo probe probe_is_bound eq lo')).
Proof.
  intros Hstrat. revert lo hi is_equal.
  induction fuel as [|fuel IH]; intros lo hi is_equal Hfuel Hlo Hhi.
  - assert (lo = hi) as <- by lia. cbn. rewrite Z.ltb_irrefl.
    exists lo, is_equal. split; [done|]. split; [lia|]. by split.
  - cbn [partition_bound_bsearch_loop].
    destruct (Z.ltb_spec lo hi) as [Hlt|Hge].
    2:{ exists lo, is_equal. split; [done|]. split; [lia|]. by split. }
    destruct (bsearch_mid lo hi) as [-> Hmid]; [lia..|].
    set (mid := (lo + hi + 1) / 2) in *.
    destruct (partition_bound_cmp_total key boundinfo probe probe_is_bound
                Hstrat mid) as [c Hc].
    rewrite Hc. cbn.
    destruct (Z.leb_spec c 0) as [Hle|Hgt].
    + destruct (Z.eqb_spec c 0) as [->|Hne].
      * exists mid, true. split; [done|]. split; [lia|]. split; [lia|].
        intros _. split; [by exists 0|]. split; [|done]. intros _.
        by exists 0.
      * destruct (IH mid hi false) as (lo' & eq' & Hrun & Hrange & Hsame & Hnew);
          [lia..|].
        exists lo', eq'. split; [done|]. split; [lia|]. split; [lia|].
        intros _. destruct (decide (lo' = mid)) as [->|Hmoved].
        -- rewrite (Hsame eq_refl). split; [exists c; split; [done|lia]|].
           split; [done|]. intros (c' & Hc' & ->). congruence.
        -- by apply Hnew.
    + destruct (IH lo (mid - 1) is_equal)
        as (lo' & eq' & Hrun & Hrange & Hsame & Hnew); [lia..|].
      exists lo', eq'. split; [done|]. split; [lia|]. by split.
Qed.

(** X1: on any collection of at most [2 ^ 30] bounds, in ascending order or
    not, [partition_bound_bsearch] returns; the offset is -1 or the
    position of a stored bound that is not above the probe; [*is_equal] is
    left as it was for -1 and otherwise tells whether that bound equals the
    probe. *)
Theorem partition_bound_bsearch_any_collection
    key boundinfo probe probe_is_bound is_equal :
  strategy key <> PARTITION_STRATEGY_UNKNOWN ->
  0 <= ndatums boundinfo <= 2 ^ 30 ->
  exists offset is_equal',
    partition_bound_bsearch key boundinfo probe probe_is_bound is_equal
    = OK (offset, is_equal') /\
    -1 <= offset < ndatums boundinfo /\
    (offset = -1 -> is_equal' = is_equal) /\
    (0 <= offset ->
     bound_vs_probe key boundinfo probe probe_is_bound Z.le offset /\
     (is_equal' = true <->
      bound_vs_probe key boundinfo probe probe_is_bound eq offset)).
Proof.
  intros Hstrat Hn. unfold partition_bound_bsearch.
  destruct (partition_bound_bsearch_loop_any key boundinfo probe
              probe_is_bound (Z.to_nat (ndatums boundinfo)) (-1)
              (ndatums boundinfo - 1) is_equal Hstrat)
    as (lo & eq' & Hrun & Hrange & Hsame & Hnew); [lia..|].
  exists lo, eq'. split; [done|]. split; [lia|]. split; [done|].
  intros Hlo. apply Hnew. lia.
Qed.

Lemma partition_bound_bsearch_any_collection_witness :
  exists offset is_equal',
    partition_bound_bsearch int4_list_key unsorted_boundinfo
      (ProbeDatums [25]) false false = OK (offset, is_equal') /\
    -1 <= offset < 3 /\
    (offset = -1 -> is_equal' = false) /\
    (0 <= offset ->
     bound_vs_probe int4_list_key unsorted_boundinfo (ProbeDatums [25])
       false Z.le offset /\
     (is_equal' = true <->
      bound_vs_probe int4_list_key unsorted_boundinfo (ProbeDatums [25])
        false eq offset)).
Proof.
  apply (partition_bound_bsearch_any_collection int4_list_key
           unsorted_boundinfo (ProbeDatums [25]) false false).
  - discriminate.
  - cbn. lia.
Defined.
(** ** The form of a canonical collection *)

Lemma list_boundinfo_loop_indexes n all_values mapping next_index :
  partial_ordinals n (mapping, next_index) ->
  Forall (fun v => 0 <= lv_index v < Z.of_nat n) all_values ->
  (list_boundinfo_loop all_values mapping next_index).1.2
  = (fun v =>
       (list_boundinfo_loop all_values mapping next_index).2.1
       !!! Z.to_nat (lv_index v)) <$> all_values.
Proof.
  revert mapping next_index.
  induction all_values as [|v rest IH]; intros mapping next_index Hinv Hall;
    [done|].
  apply Forall_cons in Hall as [Hv Hall].
  cbn [list_boundinfo_loop fmap list_fmap].
  destruct (partial_ordinals_assign n (lv_index v) mapping next_index Hinv Hv)
    as (Hinv1 & Hset & _).
  destruct (assign_mapping (lv_index v) mapping next_index) as [m1 n1].
  cbn [fst snd] in *.
  specialize (IH m1 n1 Hinv1 Hall).
  pose proof (list_boundinfo_loop_state rest m1 n1) as Hstate.
  destruct (partial_ordinals_assign_all n (lv_index <$> rest) (m1, n1) Hinv1)
    as (_ & Hkeep & _).
  { apply Forall_fmap. eapply Forall_impl; [exact Hall|]. by intros ? ?. }
  destruct (list_boundinfo_loop rest m1 n1) as [[datums indexes] st].
  cbn [fst snd] in *. rewrite <- Hstate in Hkeep. f_equal; [|done].
  symmetry. apply Hkeep; [lia|done].
Qed.

Lemma build_boundinfo_list_form junk key n ni all_values bi mapping :
  strategy key = PARTITION_STRATEGY_LIST ->
  Forall (fun v => 0 <= lv_index v < Z.of_nat n) all_values ->
  ni = -1 \/ 0 <= ni < Z.of_nat n ->
  build_boundinfo junk key n (RawList ni all_values) = OK (bi, mapping) ->
  list_collection all_values ni mapping bi.
Proof.
  intros Hstrat Hall Hni Hbuild. unfold build_boundinfo in Hbuild.
  rewrite Hstrat in Hbuild.
  pose proof (list_boundinfo_loop_datums all_values (replicate n (-1)) 0)
    as Hdatums.
  pose proof (list_boundinfo_loop_indexes n all_values (replicate n (-1)) 0
                (partial_ordinals_init n) Hall) as Hindexes.
  pose proof (list_boundinfo_loop_state all_values (replicate n (-1)) 0)
    as Hstate.
  destruct (partial_ordinals_assign_all n (lv_index <$> all_values)
              (replicate n (-1), 0) (partial_ordinals_init n))
    as (Hinv & _ & Hset).
  { apply Forall_fmap. eapply Forall_impl; [exact Hall|]. by intros ? ?. }
  rewrite <- Hstate in Hinv, Hset.
  destruct (list_boundinfo_loop all_values (replicate n (-1)) 0)
    as [[datums idx] [m next_index]].
  cbn [fst snd] in *. subst datums idx.
  destruct (Z.eqb_spec ni (-1)) as [->|Hne]; cbn [negb] in Hbuild.
  - injection Hbuild as <- <-. by repeat split.
  - destruct Hni as [|Hni]; [done|].
    destruct (partial_ordinals_assign n ni m next_index Hinv Hni)
      as (_ & _ & Hkeep).
    destruct (assign_mapping ni m next_index) as [m1 n1].
    cbn [fst snd] in *. injection Hbuild as <- <-.
    split; [done|]. split; [done|]. split; [done|]. split; [done|].
    split; [|cbn; by rewrite (proj2 (Z.eqb_neq _ _) Hne)]. cbn [indexes].
    apply list_fmap_ext. intros k v Hv. symmetry.
    pose proof (proj1 (Forall_lookup _ _) Hall k v Hv) as Hrange.
    cbn beta in Hrange. apply Hkeep; [lia|].
    apply Hset. apply list_elem_of_fmap. exists v. split; [done|].
    by eapply list_elem_of_lookup_2.
Qed.

Lemma range_boundinfo_loop_indexes key junk n rbounds i mapping next_index :
  partial_ordinals n (mapping, next_index) ->
  Forall (fun b => 0 <= rb_index b < Z.of_nat n) rbounds ->
  (range_boundinfo_loop key junk rbounds i mapping next_index).1.2
  = (fun b =>
       if rb_lower b then -1
       else (range_boundinfo_loop key junk rbounds i mapping next_index).2.1
            !!! Z.to_nat (rb_index b)) <$> rbounds.
Proof.
  revert i mapping next_index.
  induction rbounds as [|b rest IH]; intros i mapping next_index Hinv Hall;
    [done|].
  apply Forall_cons in Hall as [Hb Hall].
  cbn [range_boundinfo_loop fmap list_fmap].
  destruct (rb_lower b) eqn:Hl.
  - specialize (IH (S i) mapping next_index Hinv Hall).
    destruct (range_boundinfo_loop key junk rest (S i) mapping next_index)
      as [[[datums content] indexes] st]. cbn [fst snd] in *.
    by rewrite IH.
  - destruct (partial_ordinals_assign n (rb_index b) mapping next_index
                Hinv Hb) as (Hinv1 & Hset & _).
    destruct (assign_mapping (rb_index b) mapping next_index) as [m1 n1].
    cbn [fst snd] in *.
    specialize (IH (S i) m1 n1 Hinv1 Hall).
    pose proof (range_boundinfo_loop_state key junk rest (S i) m1 n1)
      as Hstate.
    destruct (partial_ordinals_assign_all n
                (rb_index <$> filter (fun b => rb_lower b = false) rest)
                (m1, n1) Hinv1) as (_ & Hkeep & _).
    { apply Forall_fmap, Forall_forall. intros b' Hb'.
      apply list_elem_of_filter in Hb' as [_ Hb'].
      exact (proj1 (Forall_forall _ _) Hall b' Hb'). }
    destruct (range_boundinfo_loop key junk rest (S i) m1 n1)
      as [[[datums content] indexes] st].
    cbn [fst snd] in *. rewrite <- Hstate in Hkeep. f_equal; [|done].
    symmetry. apply Hkeep; [lia|done].
Qed.

Lemma build_boundinfo_range_form junk key n rbounds bi mapping :
  strategy key = PARTITION_STRATEGY_RANGE ->
  Forall (fun b => 0 <= rb_index b < Z.of_nat n) rbounds ->
  build_boundinfo junk key n (RawRange rbounds) = OK (bi, mapping) ->
  range_collection key rbounds mapping bi.
Proof.
  intros Hstrat Hall Hbuild. unfold build_boundinfo in Hbuild.
  rewrite Hstrat in Hbuild.
  pose proof (range_boundinfo_loop_datums key junk rbounds 0
                (replicate n (-1)) 0) as Hdatums.
  pose proof (range_boundinfo_loop_content key junk rbounds 0
                (replicate n (-1)) 0) as Hcontent.
  pose proof (range_boundinfo_loop_indexes key junk n rbounds 0
                (replicate n (-1)) 0 (partial_ordinals_init n) Hall)
    as Hindexes.
  destruct (range_boundinfo_loop key junk rbounds 0 (replicate n (-1)) 0)
    as [[[datums content] idx] [m next_index]].
  cbn [fst snd] in *. injection Hbuild as <- <-. subst content idx.
  by repeat split.
Qed.
Lemma dropped_bound_merged key prev l b :
  (0 < partnatts key)%nat ->
  StronglySorted (fun a b => qsort_partition_rbound_cmp key a b < 0)
    (from_option (fun p => [p]) [] prev ++ l) ->
  b ∈ l ->
  b ∉ save_distinct_bounds (distinct_indexes_loop key prev l) l ->
  exists d, d ∈ from_option (fun p => [p]) [] prev ++ l /\
            qsort_partition_rbound_cmp key d b < 0 /\
            same_finite_value key b d.
Proof.
  intros Hn. revert prev.
  induction l as [|cur rest IH]; intros prev Hsorted Hb Hdropped;
    [by apply elem_of_nil in Hb|].
  cbn [distinct_indexes_loop save_distinct_bounds] in Hdropped.
  assert (StronglySorted (fun a b => qsort_partition_rbound_cmp key a b < 0)
            (cur :: rest)) as Hsorted'.
  { destruct prev; cbn in Hsorted; [|done].
    by apply StronglySorted_cons in Hsorted as [_ ?]. }
  destruct (is_distinct_loop key prev cur (partnatts key) 0) eqn:Hd.
  - apply not_elem_of_cons in Hdropped as [Hne Hdropped].
    apply elem_of_cons in Hb as [->|Hb]; [done|].
    destruct (IH (Some cur) Hsorted' Hb Hdropped) as (d & Hd' & Hlt & Heq).
    exists d. split; [|done]. apply elem_of_app. by right.
  - destruct (decide (b = cur)) as [->|Hne].
    + destruct prev as [p|].
      2:{ destruct (partnatts key); [lia|]. by cbn in Hd. }
      exists p. split; [by apply elem_of_app; left; left|].
      split; [|by apply is_distinct_loop_false_iff].
      cbn in Hsorted. apply StronglySorted_cons in Hsorted as [Hp _].
      by apply Forall_cons in Hp as [? _].
    + apply elem_of_cons in Hb as [->|Hb]; [done|].
      destruct (IH (Some cur) Hsorted' Hb Hdropped) as (d & Hd' & Hlt & Heq).
      exists d. split; [|done]. apply elem_of_app. by right.
Qed.

Lemma same_finite_value_sym key a b :
  column_orders key -> same_finite_value key a b -> same_finite_value key b a.
Proof. intros Hcol. apply columns_equal_sym; [done|lia]. Qed.

(** Bounds of the same finite value compare by their edge kinds. *)
Lemma same_finite_value_cmp key a b :
  same_finite_value key a b ->
  qsort_partition_rbound_cmp key a b
  = if eqb (rb_lower a) (rb_lower b) then 0
    else if rb_lower a then 1 else -1.
Proof. apply rbound_cmp_columns_equal. Qed.

Lemma partition_edges_iff key specs
    (all_bounds : list PartitionRangeBound) :
  (forall b, b ∈ all_bounds <->
     exists p spec lower upper,
       specs !! p = Some spec /\
       range_edges key (0 + Z.of_nat p) spec lower upper /\
       (b = lower \/ b = upper)) ->
  forall b, b ∈ all_bounds <->
    exists p lower upper,
      partition_edges key specs p lower upper /\ (b = lower \/ b = upper).
Proof.
  intros Hmem b. rewrite Hmem. split.
  - intros (p & spec & lo & up & Hp & He & Hb). exists p, lo, up.
    split; [|done]. exists spec. by rewrite Z.add_0_l in He.
  - intros (p & lo & up & (spec & Hp & He) & Hb). exists p, spec, lo, up.
    by rewrite Z.add_0_l.
Qed.

Lemma sorted_raw_bounds_range_form qsort_arg key specs raw :
  qsort_arg_spec qsort_arg -> column_orders key -> (0 < partnatts key)%nat ->
  strategy key = PARTITION_STRATEGY_RANGE ->
  valid_range_partitions key specs -> specs <> [] ->
  sorted_raw_bounds qsort_arg key specs = OK raw ->
  exists rbounds,
    raw = RawRange rbounds /\ distinct_bounds_of key specs rbounds.
Proof.
  intros Hq Hcol Hn Hstrat Hvalid Hne Hraw.
  unfold sorted_raw_bounds in Hraw.
  destruct (Z.ltb_spec 0 (Z.of_nat (length specs)));
    [|destruct specs; [done|cbn in *; lia]].
  rewrite Hstrat in Hraw.
  destruct (collect_range_bounds_spec key specs 0 [])
    as (AB & HAB & Hmem & HndAB).
  { intros p spec Hp.
    destruct (proj1 Hvalid p spec Hp) as (lo & up & He & _).
    exists lo, up. by rewrite Z.add_0_l. }
  rewrite HAB in Hraw. cbn [app mbind res_bind] in Hraw.
  injection Hraw as <-.
  destruct (Hq _ (qsort_partition_rbound_cmp key) AB
              (qsort_partition_rbound_cmp_preorder key AB Hcol))
    as [HpS HsS].
  pose proof (valid_range_ties key specs AB Hcol Hvalid Hmem) as Hties.
  pose proof (partition_edges_iff key specs AB Hmem) as Hedges.
  set (S := qsort_arg _ (qsort_partition_rbound_cmp key) AB) in *.
  assert (StronglySorted (fun a b => qsort_partition_rbound_cmp key a b < 0)
            S) as Hstrict.
  { apply StronglySorted_strict; [done|by rewrite HpS|].
    intros x y Hx Hy. rewrite HpS in Hx, Hy. by apply Hties. }
  eexists. split; [reflexivity|]. split; [|split].
  - by apply (save_distinct_bounds_ascending key None).
  - intros b Hb. apply Hedges. rewrite <- HpS.
    by eapply save_distinct_bounds_subseteq.
  - intros p lo up Hp.
    destruct Hp as (spec & Hp & He).
    destruct (range_edges_fields _ _ _ _ _ He) as (_ & Hll & _ & Hul).
    assert (lo ∈ S /\ up ∈ S) as [Hlo Hup].
    { rewrite HpS. split; apply Hedges; exists p, lo, up;
        (split; [by exists spec|]); [by left|by right]. }
    split.
    + apply (upper_bounds_kept key None); try done.
      * by rewrite HpS.
      * intros x y Hx Hy. cbn in Hx, Hy. rewrite HpS in Hx, Hy.
        by apply Hties.
    + destruct (decide (lo ∈ save_distinct_bounds
                               (distinct_indexes_loop key None S) S))
        as [|Hdropped]; [by left|right].
      destruct (dropped_bound_merged key None S lo Hn Hstrict Hlo Hdropped)
        as (d & Hd & Hlt & Heq).
      cbn in Hd. exists d.
      pose proof (same_finite_value_cmp key d lo
                    (same_finite_value_sym key _ _ Hcol Heq)) as Hcmp.
      rewrite Hll in Hcmp.
      assert (rb_lower d = false) as Hdl.
      { destruct (rb_lower d); [cbn in Hcmp; lia|done]. }
      split; [|done].
      apply (upper_bounds_kept key None); try done.
      * by rewrite HpS.
      * intros x y Hx Hy. cbn in Hx, Hy. rewrite HpS in Hx, Hy.
        by apply Hties.
Qed.
(** [RelationBuildPartitionDesc] after its two halves: the descriptor has
    the collection, and the OID of every scanned partition at its
    ordinal. *)
Lemma RelationBuildPartitionDesc_desc qsort_arg junk key inhoids
    raw bi mapping :
  sorted_raw_bounds qsort_arg key (scanned_boundspecs inhoids) = OK raw ->
  build_boundinfo junk key (length (scanned_partitions inhoids)) raw
  = OK (bi, mapping) ->
  ordinal_bijection (length (scanned_partitions inhoids)) mapping ->
  scanned_partitions inhoids <> [] ->
  exists desc,
    RelationBuildPartitionDesc qsort_arg junk (Some key) inhoids
    = OK (Some desc) /\
    boundinfo desc = Some bi /\
    nparts desc = Z.of_nat (length (scanned_partitions inhoids)) /\
    length (oids desc) = length (scanned_partitions inhoids) /\
    forall i part, scanned_partitions inhoids !! i = Some part ->
      oids desc !! Z.to_nat (mapping !!! i) = Some (inhrelid part).
Proof.
  unfold scanned_boundspecs, scanned_partitions.
  set (parts := filter (fun t => relispartition t = true) inhoids).
  intros Hraw Hbuild Hbij Hne.
  destruct (assign_oids_spec (length parts) mapping (inhrelid <$> parts) 0
              (replicate (length parts) 0) Hbij)
    as (result & Hassign & Hlen & Hnew & _).
  { apply length_replicate. }
  { by rewrite length_fmap. }
  exists {| nparts := Z.of_nat (length parts); oids := result;
            boundinfo := Some bi |}.
  split; [|split; [done|split; [done|split; [done|]]]].
  - unfold RelationBuildPartitionDesc. fold parts. rewrite Hraw.
    cbn [mbind res_bind]. rewrite !length_fmap.
    destruct (Z.ltb_spec 0 (Z.of_nat (length parts)));
      [|destruct parts; [done|cbn in *; lia]].
    rewrite Hbuild. cbn [mbind res_bind]. by rewrite Hassign.
  - intros i part Hi. apply (Hnew i). by rewrite list_lookup_fmap, Hi.
Qed.

Lemma distinct_bounds_index key specs rbounds :
  distinct_bounds_of key specs rbounds ->
  Forall (fun b => 0 <= rb_index b < Z.of_nat (length specs)) rbounds.
Proof.
  intros (_ & Hmem & _). apply Forall_forall. intros b Hb.
  destruct (Hmem b Hb) as (p & lo & up & (spec & Hp & He) & Hbb).
  destruct (range_edges_fields _ _ _ _ _ He) as (Hli & _ & Hui & _).
  apply lookup_lt_Some in Hp. destruct Hbb as [->| ->]; lia.
Qed.

(** The descriptor of a valid set of range partitions. *)
Lemma RelationBuildPartitionDesc_range_form qsort_arg junk key inhoids :
  qsort_arg_spec qsort_arg -> column_orders key -> (0 < partnatts key)%nat ->
  strategy key = PARTITION_STRATEGY_RANGE ->
  scanned_partitions inhoids <> [] ->
  valid_range_partitions key (scanned_boundspecs inhoids) ->
  exists rbounds mapping desc bi,
    RelationBuildPartitionDesc qsort_arg junk (Some key) inhoids
    = OK (Some desc) /\
    boundinfo desc = Some bi /\
    nparts desc = Z.of_nat (length (scanned_partitions inhoids)) /\
    length (oids desc) = length (scanned_partitions inhoids) /\
    ordinal_bijection (length (scanned_partitions inhoids)) mapping /\
    (forall i part, scanned_partitions inhoids !! i = Some part ->
       oids desc !! Z.to_nat (mapping !!! i) = Some (inhrelid part)) /\
    distinct_bounds_of key (scanned_boundspecs inhoids) rbounds /\
    range_collection key rbounds mapping bi.
Proof.
  intros Hq Hcol Hn Hstrat Hne Hvalid.
  assert (scanned_boundspecs inhoids <> []) as Hne'.
  { unfold scanned_boundspecs. by destruct (scanned_partitions inhoids). }
  assert (length (scanned_boundspecs inhoids)
          = length (scanned_partitions inhoids)) as Hlen
    by apply length_fmap.
  destruct (range_mapping_bijection qsort_arg junk key _ Hq Hcol Hn Hstrat
              Hvalid Hne') as (raw & bi & mapping & Hraw & Hbuild & Hbij).
  destruct (sorted_raw_bounds_range_form qsort_arg key _ raw Hq Hcol Hn
              Hstrat Hvalid Hne' Hraw) as (rbounds & -> & Hform).
  rewrite Hlen in Hbuild, Hbij.
  destruct (RelationBuildPartitionDesc_desc qsort_arg junk key inhoids
              _ bi mapping Hraw Hbuild Hbij Hne)
    as (desc & Hdesc & Hbi & Hnparts & Hoids & Hown).
  exists rbounds, mapping, desc, bi. repeat (split; [done|]).
  eapply build_boundinfo_range_form; [done| |exact Hbuild].
  rewrite <- Hlen. by apply (distinct_bounds_index key).
Qed.

(** The descriptor of a valid set of list partitions. *)
Lemma RelationBuildPartitionDesc_list_form qsort_arg junk key inhoids :
  qsort_arg_spec qsort_arg -> column_orders key -> (0 < partnatts key)%nat ->
  strategy key = PARTITION_STRATEGY_LIST ->
  scanned_partitions inhoids <> [] ->
  valid_list_partitions (scanned_boundspecs inhoids) ->
  exists ni all_values mapping desc bi,
    RelationBuildPartitionDesc qsort_arg junk (Some key) inhoids
    = OK (Some desc) /\
    boundinfo desc = Some bi /\
    nparts desc = Z.of_nat (length (scanned_partitions inhoids)) /\
    length (oids desc) = length (scanned_partitions inhoids) /\
    ordinal_bijection (length (scanned_partitions inhoids)) mapping /\
    (forall i part, scanned_partitions inhoids !! i = Some part ->
       oids desc !! Z.to_nat (mapping !!! i) = Some (inhrelid part)) /\
    all_values ≡ₚ all_list_values 0 (scanned_boundspecs inhoids) /\
    StronglySorted
      (fun a b => qsort_partition_list_value_cmp key a b <= 0) all_values /\
    (ni = -1 /\ total_null_count (scanned_boundspecs inhoids) = 0%nat \/
     exists p spec, scanned_boundspecs inhoids !! p = Some spec /\
       null_count (listdatums spec) <> 0%nat /\ ni = Z.of_nat p) /\
    list_collection all_values ni mapping bi.
Proof.
  intros Hq Hcol Hn Hstrat Hne Hvalid.
  set (specs := scanned_boundspecs inhoids) in *.
  assert (specs <> []) as Hne'.
  { unfold specs, scanned_boundspecs.
    by destruct (scanned_partitions inhoids). }
  assert (length specs = length (scanned_partitions inhoids)) as Hlen
    by apply length_fmap.
  destruct (list_mapping_bijection qsort_arg junk key _ Hq Hcol Hn Hstrat
              Hvalid Hne') as (raw & bi & mapping & Hraw & Hbuild & Hbij).
  rewrite Hlen in Hbuild, Hbij.
  destruct (RelationBuildPartitionDesc_desc qsort_arg junk key inhoids
              _ bi mapping Hraw Hbuild Hbij Hne)
    as (desc & Hdesc & Hbi & Hnparts & Hoids & Hown).
  unfold sorted_raw_bounds in Hraw.
  destruct (Z.ltb_spec 0 (Z.of_nat (length specs)));
    [|destruct specs; [done|cbn in *; lia]].
  rewrite Hstrat in Hraw. destruct Hvalid as [Hspecs Hnulls].
  destruct (collect_list_values_spec specs 0 (-1) [])
    as (ni & Hcoll & Hni & Hnull); [lia| |left; split; [done|lia]|].
  { eapply Forall_impl; [exact Hspecs|]. by intros ? [? _]. }
  rewrite Hcoll in Hraw. cbn [app mbind res_bind] in Hraw.
  injection Hraw as <-.
  set (V := all_list_values 0 specs) in *.
  destruct (Hq _ (qsort_partition_list_value_cmp key) V
              (qsort_partition_list_value_cmp_preorder key V Hcol Hn))
    as [HpS HsS].
  exists ni, (qsort_arg _ (qsort_partition_list_value_cmp key) V),
    mapping, desc, bi.
  repeat (split; [done|]). split.
  - destruct Hni as [->|(p & spec & Hp & Hnz & ->)].
    + left. split; [done|].
      destruct (decide (total_null_count specs = 0%nat)) as [|Hnz]; [done|].
      exfalso. unfold total_null_count in Hnz.
      assert (exists p spec, specs !! p = Some spec /\
                null_count (listdatums spec) <> 0%nat)
        as (p & spec & Hp & Hnzp).
      { clear -Hnz. induction specs as [|s specs IH]; [done|].
        cbn in Hnz.
        destruct (decide (null_count (listdatums s) = 0%nat)) as [Hz|Hz].
        - destruct IH as (p & spec & Hp & Hnzp); [lia|].
          by exists (S p), spec.
        - by exists 0%nat, s. }
      pose proof (Hnull p spec Hp Hnzp). lia.
    + right. exists p, spec. by rewrite Z.add_0_l.
  - eapply build_boundinfo_list_form; [done| | |exact Hbuild].
    + apply Forall_forall. intros v Hv. rewrite HpS in Hv.
      apply elem_of_all_list_values in Hv as (p & s & c & Hp & _ & _ & ->).
      cbn. apply lookup_lt_Some in Hp. lia.
    + destruct Hni as [->|(p & spec & Hp & Hnz & ->)]; [by left|right].
      apply lookup_lt_Some in Hp. lia.
Qed.
(** ** Every stored value leads to the partition that declared it *)

(** X2: for a valid set of list partitions, the collection holds exactly
    the declared non-null values, and [oids[indexes[k]]] is the OID of the
    partition that declared the value stored at offset [k]; [null_index] is
    -1 when no partition declares NULL, and otherwise [oids[null_index]] is
    the partition that does. *)
Theorem list_collection_owners qsort_arg junk key inhoids :
  qsort_arg_spec qsort_arg -> column_orders key -> (0 < partnatts key)%nat ->
  strategy key = PARTITION_STRATEGY_LIST ->
  scanned_partitions inhoids <> [] ->
  valid_list_partitions (scanned_boundspecs inhoids) ->
  exists desc bi,
    RelationBuildPartitionDesc qsort_arg junk (Some key) inhoids
    = OK (Some desc) /\
    boundinfo desc = Some bi /\
    (forall part c,
       part ∈ scanned_partitions inhoids ->
       c ∈ listdatums (relpartbound part) -> constisnull c = false ->
       exists k index,
         (k < Z.to_nat (ndatums bi))%nat /\
         bi_datums bi !! k = Some [constvalue c] /\
         indexes bi !! k = Some index /\ 0 <= index < nparts desc /\
         oids desc !! Z.to_nat index = Some (inhrelid part)) /\
    (forall k, (k < Z.to_nat (ndatums bi))%nat ->
       exists part c index,
         part ∈ scanned_partitions inhoids /\
         c ∈ listdatums (relpartbound part) /\ constisnull c = false /\
         bi_datums bi !! k = Some [constvalue c] /\
         indexes bi !! k = Some index /\ 0 <= index < nparts desc /\
         oids desc !! Z.to_nat index = Some (inhrelid part)) /\
    (forall part c,
       part ∈ scanned_partitions inhoids ->
       c ∈ listdatums (relpartbound part) -> constisnull c = true ->
       0 <= null_index bi < nparts desc /\
       oids desc !! Z.to_nat (null_index bi) = Some (inhrelid part)) /\
    (null_index bi <> -1 ->
     exists part c,
       part ∈ scanned_partitions inhoids /\
       c ∈ listdatums (relpartbound part) /\ constisnull c = true).
Proof.
  intros Hq Hcol Hn Hstrat Hne Hvalid.
  destruct (RelationBuildPartitionDesc_list_form qsort_arg junk key inhoids
              Hq Hcol Hn Hstrat Hne Hvalid)
    as (ni & S & mapping & desc & bi & Hdesc & Hbi & Hnparts & Hlen & Hbij
        & Hown & HpS & _ & Hni & Hform).
  destruct Hform as (_ & Hnd & Hdatums & _ & Hindexes & Hnull).
  destruct Hbij as (Hmlen & Hmrange & _).
  exists desc, bi. split; [done|]. split; [done|].
  assert (forall p part, scanned_partitions inhoids !! p = Some part ->
            0 <= mapping !!! p < nparts desc /\
            oids desc !! Z.to_nat (mapping !!! p) = Some (inhrelid part))
    as Hpart.
  { intros p part Hp. split; [|by apply Hown].
    rewrite Hnparts. apply Hmrange. by eapply lookup_lt_Some. }
  assert (forall k v, S !! k = Some v ->
            bi_datums bi !! k = Some [lv_value v] /\
            indexes bi !! k = Some (mapping !!! Z.to_nat (lv_index v)))
    as Hslot.
  { intros k v Hk. by rewrite Hdatums, Hindexes, !list_lookup_fmap, Hk. }
  rewrite Hnd, Nat2Z.id.
  split; [|split; [|split]].
  - intros part c Hpart_in Hc Hnn.
    apply list_elem_of_lookup in Hpart_in as [p Hp].
    assert ({| lv_index := Z.of_nat p; lv_value := constvalue c |} ∈ S)
      as Hv.
    { rewrite HpS. apply elem_of_all_list_values.
      exists p, (relpartbound part), c. rewrite Z.add_0_l.
      split; [|done]. unfold scanned_boundspecs.
      by rewrite list_lookup_fmap, Hp. }
    apply list_elem_of_lookup in Hv as [k Hk].
    destruct (Hslot k _ Hk) as [Hd Hi]. cbn in Hd, Hi.
    rewrite Nat2Z.id in Hi. destruct (Hpart p part Hp) as [Hr Ho].
    exists k, (mapping !!! p). split; [by eapply lookup_lt_Some|]. done.
  - intros k Hk. destruct (lookup_lt_is_Some_2 S k Hk) as [v Hv].
    assert (v ∈ all_list_values 0 (scanned_boundspecs inhoids)) as Hin
      by (rewrite <- HpS; by eapply list_elem_of_lookup_2).
    apply elem_of_all_list_values in Hin as (p & s & c & Hp & Hc & Hnn & ->).
    unfold scanned_boundspecs in Hp. rewrite list_lookup_fmap in Hp.
    destruct (scanned_partitions inhoids !! p) as [part|] eqn:Hpp; [|done].
    injection Hp as <-. destruct (Hslot k _ Hv) as [Hd Hi]. cbn in Hd, Hi.
    rewrite Z.add_0_l, Nat2Z.id in Hi. destruct (Hpart p part Hpp) as [Hr Ho].
    exists part, c, (mapping !!! p).
    split; [by eapply list_elem_of_lookup_2|]. done.
  - intros part c Hpart_in Hc Hnull_c.
    apply list_elem_of_lookup in Hpart_in as [p Hp].
    pose proof (null_count_nonzero _ c Hc Hnull_c) as Hnz.
    destruct Hni as [[_ Hzero]|(q & spec & Hq' & Hnzq & ->)].
    + exfalso.
      pose proof (total_null_count_lookup (scanned_boundspecs inhoids) p
                    (relpartbound part)) as Hle.
      unfold scanned_boundspecs in Hle at 1.
      rewrite list_lookup_fmap, Hp in Hle. specialize (Hle eq_refl). lia.
    + assert (q = p) as ->.
      { destruct (decide (q = p)) as [|Hqp]; [done|exfalso].
        destruct Hvalid as [_ Hone].
        assert (scanned_boundspecs inhoids !! p = Some (relpartbound part))
          as Hp' by (unfold scanned_boundspecs;
                     by rewrite list_lookup_fmap, Hp).
        clear -Hone Hq' Hp' Hnzq Hnz Hqp.
        revert p q Hq' Hp' Hqp Hone.
        induction (scanned_boundspecs inhoids) as [|s l IH];
          intros p q Hq' Hp' Hqp Hone; [done|].
        unfold total_null_count in Hone. cbn in Hone.
        destruct p as [|p], q as [|q]; cbn in Hq', Hp'; try done.
        - injection Hp' as ->.
          pose proof (total_null_count_lookup l q spec Hq').
          unfold total_null_count in *. lia.
        - injection Hq' as ->.
          pose proof (total_null_count_lookup l p _ Hp').
          unfold total_null_count in *. lia.
        - apply (IH p q); [done|done|lia|].
          unfold total_null_count. lia. }
      rewrite Hnull. destruct (Z.eqb_spec (Z.of_nat p) (-1)); [lia|].
      rewrite Nat2Z.id. by apply Hpart.
  - intros Hnn. rewrite Hnull in Hnn.
    destruct Hni as [[-> _]|(q & spec & Hq' & Hnzq & ->)]; [done|].
    unfold scanned_boundspecs in Hq'. rewrite list_lookup_fmap in Hq'.
    destruct (scanned_partitions inhoids !! q) as [part|] eqn:Hpp; [|done].
    injection Hq' as <-.
    unfold null_count in Hnzq.
    destruct (filter (fun c => constisnull c = true)
                (listdatums (relpartbound part))) as [|c cs] eqn:Hf; [done|].
    assert (c ∈ filter (fun c => constisnull c = true)
                  (listdatums (relpartbound part))) as Hc
      by (rewrite Hf; left).
    apply list_elem_of_filter in Hc as [Hcn Hc].
    exists part, c. split; [by eapply list_elem_of_lookup_2|]. done.
Qed.

Lemma list_collection_owners_witness :
  exists desc bi,
    RelationBuildPartitionDesc insertion_sort no_junk (Some int4_list_key)
      two_list_rows = OK (Some desc) /\
    boundinfo desc = Some bi /\
    (null_index bi <> -1 ->
     exists part c,
       part ∈ scanned_partitions two_list_rows /\
       c ∈ listdatums (relpartbound part) /\ constisnull c = true).
Proof.
  destruct (list_collection_owners insertion_sort no_junk int4_list_key
              two_list_rows insertion_sort_spec int4_list_key_orders)
    as (desc & bi & Hdesc & Hbi & _ & _ & _ & Hnull).
  - vm_compute. lia.
  - reflexivity.
  - discriminate.
  - apply two_list_rows_valid.
  - by exists desc, bi.
Defined.
Lemma range_collection_stores key rbounds mapping bi k b :
  range_collection key rbounds mapping bi -> rbounds !! k = Some b ->
  stores_bound key bi k b /\
  indexes bi !! k
  = Some (if rb_lower b then -1 else mapping !!! Z.to_nat (rb_index b)).
Proof.
  intros (_ & Hnd & _ & Hcontent & Hindexes & Hdatums) Hk.
  pose proof (lookup_lt_Some _ _ _ Hk) as Hlt.
  split; [split; [lia|split]|].
  - by rewrite Hcontent; cbn; rewrite list_lookup_fmap, Hk.
  - destruct (Forall2_lookup_l _ _ _ _ _ Hdatums Hk) as (row & Hrow & Hr).
    by exists row.
  - rewrite Hindexes, lookup_app_l by (by rewrite length_fmap).
    by rewrite list_lookup_fmap, Hk.
Qed.

(** X3: for a valid set of range partitions, the collection has one more
    index than bounds, the last being -1; the upper bound of every
    partition is stored at some offset [k], and [oids[indexes[k]]] is that
    partition; every stored bound is the lower bound of a partition, with
    index -1, or the upper bound of the partition [oids[indexes[k]]]. *)
Theorem range_collection_owners qsort_arg junk key inhoids :
  qsort_arg_spec qsort_arg -> column_orders key -> (0 < partnatts key)%nat ->
  strategy key = PARTITION_STRATEGY_RANGE ->
  scanned_partitions inhoids <> [] ->
  valid_range_partitions key (scanned_boundspecs inhoids) ->
  exists desc bi,
    RelationBuildPartitionDesc qsort_arg junk (Some key) inhoids
    = OK (Some desc) /\
    boundinfo desc = Some bi /\
    length (indexes bi) = S (Z.to_nat (ndatums bi)) /\
    indexes bi !! Z.to_nat (ndatums bi) = Some (-1) /\
    (forall p part lower upper,
       scanned_partitions inhoids !! p = Some part ->
       range_edges key (Z.of_nat p) (relpartbound part) lower upper ->
       exists k index,
         stores_bound key bi k upper /\
         indexes bi !! k = Some index /\ 0 <= index < nparts desc /\
         oids desc !! Z.to_nat index = Some (inhrelid part)) /\
    (forall k, (k < Z.to_nat (ndatums bi))%nat ->
       exists p part lower upper,
         scanned_partitions inhoids !! p = Some part /\
         range_edges key (Z.of_nat p) (relpartbound part) lower upper /\
         (stores_bound key bi k lower /\ indexes bi !! k = Some (-1) \/
          exists index,
            stores_bound key bi k upper /\
            indexes bi !! k = Some index /\ 0 <= index < nparts desc /\
            oids desc !! Z.to_nat index = Some (inhrelid part))).
Proof.
  intros Hq Hcol Hn Hstrat Hne Hvalid.
  destruct (RelationBuildPartitionDesc_range_form qsort_arg junk key inhoids
              Hq Hcol Hn Hstrat Hne Hvalid)
    as (R & mapping & desc & bi & Hdesc & Hbi & Hnparts & Hlen & Hbij
        & Hown & (Hsorted & Hmem & Hkept) & Hform).
  pose proof Hform as (_ & Hnd & _ & _ & Hindexes & _).
  destruct Hbij as (Hmlen & Hmrange & _).
  exists desc, bi. split; [done|]. split; [done|].
  assert (forall p part, scanned_partitions inhoids !! p = Some part ->
            0 <= mapping !!! p < nparts desc /\
            oids desc !! Z.to_nat (mapping !!! p) = Some (inhrelid part))
    as Hpart.
  { intros p part Hp. split; [|by apply Hown].
    rewrite Hnparts. apply Hmrange. by eapply lookup_lt_Some. }
  assert (forall p part lo up,
            scanned_partitions inhoids !! p = Some part ->
            range_edges key (Z.of_nat p) (relpartbound part) lo up ->
            partition_edges key (scanned_boundspecs inhoids) p lo up)
    as Hedge.
  { intros p part lo up Hp He. exists (relpartbound part).
    split; [|done]. unfold scanned_boundspecs.
    by rewrite list_lookup_fmap, Hp. }
  rewrite Hnd, Nat2Z.id.
  split; [|split; [|split]].
  - by rewrite Hindexes, length_app, length_fmap, Nat.add_1_r.
  - rewrite Hindexes, lookup_app_r by (by rewrite length_fmap).
    by rewrite length_fmap, Nat.sub_diag.
  - intros p part lo up Hp He.
    destruct (Hkept p lo up (Hedge p part lo up Hp He)) as [Hup _].
    apply list_elem_of_lookup in Hup as [k Hk].
    destruct (range_collection_stores key R mapping bi k up Hform Hk)
      as [Hstores Hindex].
    destruct (range_edges_fields _ _ _ _ _ He) as (_ & _ & Hui & Hul).
    rewrite Hul, Hui, Nat2Z.id in Hindex.
    destruct (Hpart p part Hp) as [Hr Ho].
    by exists k, (mapping !!! p).
  - intros k Hk. destruct (lookup_lt_is_Some_2 R k Hk) as [b Hb].
    destruct (Hmem b (list_elem_of_lookup_2 _ _ _ Hb))
      as (p & lo & up & (spec & Hp & He) & Hbb).
    unfold scanned_boundspecs in Hp. rewrite list_lookup_fmap in Hp.
    destruct (scanned_partitions inhoids !! p) as [part|] eqn:Hpp; [|done].
    injection Hp as <-.
    destruct (range_collection_stores key R mapping bi k b Hform Hb)
      as [Hstores Hindex].
    destruct (range_edges_fields _ _ _ _ _ He) as (Hli & Hll & Hui & Hul).
    exists p, part, lo, up. split; [done|]. split; [done|].
    destruct Hbb as [->| ->].
    + left. by rewrite Hll in Hindex.
    + right. rewrite Hul, Hui, Nat2Z.id in Hindex.
      destruct (Hpart p part Hpp) as [Hr Ho]. by exists (mapping !!! p).
Qed.

Lemma range_collection_owners_witness :
  exists desc bi,
    RelationBuildPartitionDesc insertion_sort no_junk (Some int4_range_key)
      two_range_rows = OK (Some desc) /\
    boundinfo desc = Some bi /\
    length (indexes bi) = S (Z.to_nat (ndatums bi)) /\
    indexes bi !! Z.to_nat (ndatums bi) = Some (-1).
Proof.
  destruct (range_collection_owners insertion_sort no_junk int4_range_key
              two_range_rows insertion_sort_spec int4_range_key_orders)
    as (desc & bi & Hdesc & Hbi & Hlen & Hlast & _).
  - vm_compute. lia.
  - reflexivity.
  - discriminate.
  - apply two_range_rows_valid.
  - by exists desc, bi.
Defined.
(** ** The number of stored bounds *)

Lemma collect_range_bounds_length key specs i acc all_bounds :
  collect_range_bounds key specs i acc = OK all_bounds ->
  length all_bounds = (length acc + 2 * length specs)%nat.
Proof.
  revert i acc. induction specs as [|spec rest IH]; intros i acc Hrun.
  - injection Hrun as <-. cbn. lia.
  - cbn [collect_range_bounds] in Hrun.
    destruct (bool_decide _); cbn in Hrun; [|done].
    destruct (make_one_range_bound key i (lowerdatums spec) true)
      as [lo| | |]; cbn in Hrun; try done.
    destruct (make_one_range_bound key i (upperdatums spec) false)
      as [up| | |]; cbn in Hrun; try done.
    rewrite (IH _ _ Hrun), length_app. cbn. lia.
Qed.

Lemma save_distinct_bounds_length flags l :
  (length (save_distinct_bounds flags l) <= length l)%nat.
Proof.
  revert flags. induction l as [|b l IH]; intros [|[] flags]; cbn; try lia.
  - specialize (IH flags). lia.
  - specialize (IH flags). lia.
Qed.

Lemma valid_partition_edges key specs p lower upper :
  valid_range_partitions key specs ->
  partition_edges key specs p lower upper ->
  qsort_partition_rbound_cmp key lower upper < 0.
Proof.
  intros [Hvalid _] (spec & Hp & He).
  destruct (Hvalid p spec Hp) as (lo & up & He' & Hlt).
  by destruct (range_edges_functional _ _ _ _ _ _ _ He He') as [-> ->].
Qed.

Lemma below_for_probes_head key b rest x :
  StronglySorted (below_for_probes key) (b :: rest) -> x ∈ b :: rest ->
  x = b \/ qsort_partition_rbound_cmp key b x < 0.
Proof.
  intros Hsorted Hx. apply StronglySorted_cons in Hsorted as [Hb _].
  apply elem_of_cons in Hx as [->|Hx]; [by left|right].
  by destruct (proj1 (Forall_forall _ _) Hb x Hx).
Qed.

(** The first distinct bound is a lower bound. *)
Lemma distinct_bounds_first_lower key specs rbounds :
  column_orders key -> valid_range_partitions key specs -> specs <> [] ->
  distinct_bounds_of key specs rbounds ->
  exists b rest, rbounds = b :: rest /\ rb_lower b = true.
Proof.
  intros Hcol Hvalid Hne (Hsorted & Hmem & Hkept).
  destruct rbounds as [|b rest].
  { destruct specs as [|spec specs]; [done|].
    destruct (proj1 Hvalid 0%nat spec eq_refl) as (lo & up & He & _).
    destruct (Hkept 0%nat lo up) as [Hup _]; [by exists spec|].
    by apply elem_of_nil in Hup. }
  exists b, rest. split; [done|].
  destruct (Hmem b) as (q & lo & up & Hq & Hb); [by left|].
  pose proof (valid_partition_edges key specs q lo up Hvalid Hq) as Hlt.
  destruct Hq as (spec & Hq & He).
  destruct (range_edges_fields _ _ _ _ _ He) as (_ & Hll & _ & Hul).
  destruct Hb as [->| ->]; [done|exfalso].
  pose proof (qsort_partition_rbound_cmp_antisym key lo up Hcol) as Hanti.
  destruct (Hkept q lo up) as [_ [Hlo|(u & Hu & _ & Hult & _)]];
    [by exists spec| |].
  - destruct (below_for_probes_head key up rest lo Hsorted Hlo) as [E|Hgt].
    + rewrite E in Hll. congruence.
    + lia.
  - destruct (below_for_probes_head key up rest u Hsorted Hu) as [->|Hgt].
    + lia.
    + pose proof (rbound_lt_le_trans key up u lo Hcol Hgt ltac:(lia)). lia.
Qed.

(** X4: for a valid set of [nparts > 0] range partitions, the number of
    stored bounds is between [nparts + 1] and [2 * nparts]: the upper bound
    of every partition and at least the first lower bound are stored, and a
    lower bound is left out only when an upper bound stands for it. *)
Theorem range_collection_size qsort_arg junk key inhoids :
  qsort_arg_spec qsort_arg -> column_orders key -> (0 < partnatts key)%nat ->
  strategy key = PARTITION_STRATEGY_RANGE ->
  scanned_partitions inhoids <> [] ->
  valid_range_partitions key (scanned_boundspecs inhoids) ->
  exists desc bi,
    RelationBuildPartitionDesc qsort_arg junk (Some key) inhoids
    = OK (Some desc) /\
    boundinfo desc = Some bi /\
    nparts desc + 1 <= ndatums bi <= 2 * nparts desc.
Proof.
  intros Hq Hcol Hn Hstrat Hne Hvalid.
  assert (scanned_boundspecs inhoids <> []) as Hne'.
  { unfold scanned_boundspecs. by destruct (scanned_partitions inhoids). }
  assert (length (scanned_boundspecs inhoids)
          = length (scanned_partitions inhoids)) as Hlen
    by apply length_fmap.
  destruct (range_mapping_bijection qsort_arg junk key _ Hq Hcol Hn Hstrat
              Hvalid Hne') as (raw & bi & mapping & Hraw & Hbuild & Hbij).
  destruct (sorted_raw_bounds_range_form qsort_arg key _ raw Hq Hcol Hn
              Hstrat Hvalid Hne' Hraw) as (R & -> & Hform).
  rewrite Hlen in Hbuild, Hbij.
  destruct (RelationBuildPartitionDesc_desc qsort_arg junk key inhoids
              _ bi mapping Hraw Hbuild Hbij Hne)
    as (desc & Hdesc & Hbi & Hnparts & _).
  assert (range_collection key R mapping bi) as Hcoll.
  { eapply build_boundinfo_range_form; [done| |exact Hbuild].
    rewrite <- Hlen. by apply (distinct_bounds_index key). }
  exists desc, bi. split; [done|]. split; [done|].
  destruct Hcoll as (_ & Hnd & _ & _ & _ & _). rewrite Hnd, Hnparts.
  set (n := length (scanned_partitions inhoids)) in *.
  split.
  - set (index_of := fun b : PartitionRangeBound =>
                       if rb_lower b then -1
                       else mapping !!! Z.to_nat (rb_index b)).
    assert ((-1) :: seqZ 0 (Z.of_nat n) ⊆+ index_of <$> R) as Hsub.
    { apply NoDup_submseteq.
      - apply NoDup_cons. split; [|apply NoDup_seqZ].
        rewrite elem_of_seqZ. lia.
      - intros x Hx. apply list_elem_of_fmap.
        apply elem_of_cons in Hx as [->|Hx].
        + destruct (distinct_bounds_first_lower key _ R Hcol Hvalid Hne'
                      Hform) as (b & rest & -> & Hl).
          exists b. split; [|by left]. unfold index_of. by rewrite Hl.
        + apply elem_of_seqZ in Hx.
          destruct Hbij as (_ & _ & _ & Hsurj).
          destruct (Hsurj x ltac:(lia)) as (p & Hp & Hmp).
          destruct (lookup_lt_is_Some_2 (scanned_boundspecs inhoids) p)
            as [spec Hspec]; [lia|].
          destruct (proj1 Hvalid p spec Hspec) as (lo & up & He & _).
          destruct Hform as (_ & _ & Hkept).
          destruct (Hkept p lo up) as [Hup _]; [by exists spec|].
          destruct (range_edges_fields _ _ _ _ _ He) as (_ & _ & Hui & Hul).
          exists up. split; [|done]. unfold index_of.
          by rewrite Hul, Hui, Nat2Z.id. }
    apply submseteq_length in Hsub.
    rewrite length_fmap in Hsub. cbn [length] in Hsub.
    rewrite length_seqZ in Hsub. lia.
  - unfold sorted_raw_bounds in Hraw.
    destruct (0 <? Z.of_nat (length (scanned_boundspecs inhoids)));
      [|done].
    rewrite Hstrat in Hraw.
    destruct (collect_range_bounds key (scanned_boundspecs inhoids) 0 [])
      as [AB| | |] eqn:HAB; cbn in Hraw; try done.
    injection Hraw as HR.
    destruct (Hq _ (qsort_partition_rbound_cmp key) AB
                (qsort_partition_rbound_cmp_preorder key AB Hcol))
      as [HpS _].
    apply collect_range_bounds_length in HAB. cbn [length] in HAB.
    pose proof (save_distinct_bounds_length
                  (distinct_indexes_loop key None
                     (qsort_arg _ (qsort_partition_rbound_cmp key) AB))
                  (qsort_arg _ (qsort_partition_rbound_cmp key) AB)) as Hle.
    rewrite HR, HpS, HAB, Hlen in Hle. fold n in Hle. lia.
Qed.

Lemma range_collection_size_witness :
  exists desc bi,
    RelationBuildPartitionDesc insertion_sort no_junk (Some int4_range_key)
      two_range_rows = OK (Some desc) /\
    boundinfo desc = Some bi /\
    nparts desc + 1 <= ndatums bi <= 2 * nparts desc.
Proof.
  apply (range_collection_size insertion_sort no_junk int4_range_key
           two_range_rows insertion_sort_spec int4_range_key_orders).
  - vm_compute. lia.
  - reflexivity.
  - discriminate.
  - apply two_range_rows_valid.
Defined.
(** ** Lower and upper bounds *)

Lemma make_one_range_bound_loop_content (lower : bool) datums i bd
    (bc : list RangeDatumContent) bd' (bc' : list RangeDatumContent) :
  (forall j : nat, bc !!! j = RANGE_DATUM_FINITE \/
             bc !!! j = (if lower then RANGE_DATUM_NEG_INF
                         else RANGE_DATUM_POS_INF)) ->
  make_one_range_bound_loop lower datums i bd bc = OK (bd', bc') ->
  forall j : nat, bc' !!! j = RANGE_DATUM_FINITE \/
            bc' !!! j = (if lower then RANGE_DATUM_NEG_INF
                         else RANGE_DATUM_POS_INF).
Proof.
  revert i bd bc.
  induction datums as [|datum rest IH]; intros i bd bc Hbc Hrun.
  { by injection Hrun as <- <-. }
  cbn [make_one_range_bound_loop] in Hrun.
  set (c := if negb (infinite datum) then RANGE_DATUM_FINITE
            else if lower then RANGE_DATUM_NEG_INF
                 else RANGE_DATUM_POS_INF) in *.
  assert (forall j : nat, <[i:=c]> bc !!! j = RANGE_DATUM_FINITE \/
                    <[i:=c]> bc !!! j
                    = (if lower then RANGE_DATUM_NEG_INF
                       else RANGE_DATUM_POS_INF)) as Hbc'.
  { intros j. destruct (decide (i = j)) as [->|Hne].
    - destruct (decide (j < length bc)%nat).
      + rewrite list_lookup_total_insert_eq by done. unfold c.
        destruct (infinite datum); cbn; auto.
      + rewrite list_insert_ge by lia. apply Hbc.
    - rewrite list_lookup_total_insert_ne by done. apply Hbc. }
  destruct (is_finite c); [destruct (constisnull (value datum)); [done|]|];
    by eapply IH.
Qed.

Lemma make_one_range_bound_content key i datums lower b :
  make_one_range_bound key i datums lower = OK b -> edge_content b.
Proof.
  unfold make_one_range_bound.
  destruct (make_one_range_bound_loop _ _ _ _ _) as [[bd bc]| | |] eqn:Hrun;
    [|done..].
  cbn. intros [= <-]. intros j. cbn.
  eapply make_one_range_bound_loop_content; [|exact Hrun].
  intros j'. left. destruct (decide (j' < partnatts key)%nat).
  - by rewrite lookup_total_replicate_2.
  - rewrite list_lookup_total_alt.
    by rewrite (proj1 (lookup_replicate_None _ _ _)) by lia.
Qed.

Lemma range_edges_content key i spec lower upper :
  range_edges key i spec lower upper ->
  edge_content lower /\ edge_content upper.
Proof.
  intros (_ & Hl & Hu).
  split; by eapply make_one_range_bound_content.
Qed.

(** A lower bound and an upper bound never compare equal. *)
Lemma rbound_cmp_loop_edges key d1 (c1 : list RangeDatumContent) d2
    (c2 : list RangeDatumContent) (l1 : bool) n i :
  (forall j : nat, c1 !!! j = RANGE_DATUM_FINITE \/
             c1 !!! j = (if l1 then RANGE_DATUM_NEG_INF
                         else RANGE_DATUM_POS_INF)) ->
  (forall j : nat, c2 !!! j = RANGE_DATUM_FINITE \/
             c2 !!! j = (if negb l1 then RANGE_DATUM_NEG_INF
                         else RANGE_DATUM_POS_INF)) ->
  rbound_cmp_result (partition_rbound_cmp_loop key d1 c1 d2 c2 n i 0)
    l1 (negb l1) <> 0.
Proof.
  intros H1 H2. revert i.
  assert (forall i cmpval, (n = 0%nat -> cmpval = 0) ->
            rbound_cmp_result
              (partition_rbound_cmp_loop key d1 c1 d2 c2 n i cmpval)
              l1 (negb l1) <> 0) as Hgen.
  { induction n as [|n IH]; intros i cmpval Hz.
    - rewrite (Hz eq_refl). cbn. by destruct l1.
    - cbn [partition_rbound_cmp_loop].
      destruct (H1 i) as [E1|E1], (H2 i) as [E2|E2]; rewrite E1, E2;
        destruct l1; cbn; try done.
      all: destruct (Z.eqb_spec (partsupfunc key i (d1 !!! i) (d2 !!! i)) 0)
        as [Hz'|Hnz]; cbn.
      all: try (rewrite (proj2 (Z.eqb_neq _ _) Hnz); cbn; done).
      all: rewrite Hz'; destruct n as [|n']; [by cbn|by apply IH]. }
  intros i. by apply Hgen.
Qed.

Lemma lower_upper_cmp_nonzero key lower upper :
  edge_content lower -> edge_content upper ->
  rb_lower lower = true -> rb_lower upper = false ->
  qsort_partition_rbound_cmp key lower upper <> 0 /\
  qsort_partition_rbound_cmp key upper lower <> 0.
Proof.
  intros Hl Hu Hll Hul. unfold edge_content in Hl, Hu.
  rewrite Hll in Hl. rewrite Hul in Hu.
  unfold qsort_partition_rbound_cmp. rewrite !partition_rbound_cmp_result.
  rewrite Hll, Hul. split.
  - by apply (rbound_cmp_loop_edges key _ _ _ _ true).
  - by apply (rbound_cmp_loop_edges key _ _ _ _ false).
Qed.
(** ** Order facts of a canonical range collection *)

Lemma partition_edges_functional key specs p l1 u1 l2 u2 :
  partition_edges key specs p l1 u1 -> partition_edges key specs p l2 u2 ->
  l1 = l2 /\ u1 = u2.
Proof.
  intros (s1 & Hp1 & He1) (s2 & Hp2 & He2).
  assert (s1 = s2) as -> by congruence.
  by eapply range_edges_functional.
Qed.

Lemma partition_edges_fields key specs p lower upper :
  partition_edges key specs p lower upper ->
  (p < length specs)%nat /\
  rb_index lower = Z.of_nat p /\ rb_lower lower = true /\
  rb_index upper = Z.of_nat p /\ rb_lower upper = false /\
  edge_content lower /\ edge_content upper.
Proof.
  intros (spec & Hp & He).
  destruct (range_edges_fields _ _ _ _ _ He) as (? & ? & ? & ?).
  destruct (range_edges_content _ _ _ _ _ He) as [? ?].
  split; [by eapply lookup_lt_Some|]. done.
Qed.

Lemma partition_edges_apart key specs p q lp up lq uq :
  valid_range_partitions key specs -> p <> q ->
  partition_edges key specs p lp up -> partition_edges key specs q lq uq ->
  qsort_partition_rbound_cmp key up lq < 0 \/
  qsort_partition_rbound_cmp key uq lp < 0.
Proof.
  intros [_ Hapart] Hne (sp & Hp & Hep) (sq & Hq & Heq).
  by eapply Hapart.
Qed.

(** No bound of a partition lies strictly between the two bounds of a
    partition. *)
Lemma nothing_inside_partition key specs p lp up q lq uq b :
  column_orders key -> valid_range_partitions key specs ->
  partition_edges key specs p lp up -> partition_edges key specs q lq uq ->
  b = lq \/ b = uq ->
  ~ (qsort_partition_rbound_cmp key lp b < 0 /\
     qsort_partition_rbound_cmp key b up < 0).
Proof.
  intros Hcol Hvalid Hp Hq Hb [Hlo Hhi].
  pose proof (valid_partition_edges key specs p lp up Hvalid Hp) as Hpp.
  pose proof (valid_partition_edges key specs q lq uq Hvalid Hq) as Hqq.
  pose proof (rbound_cmp_refl key lp Hcol).
  pose proof (rbound_cmp_refl key up Hcol).
  destruct (decide (p = q)) as [->|Hne].
  - destruct (partition_edges_functional _ _ _ _ _ _ _ Hp Hq) as [-> ->].
    destruct Hb as [->| ->]; lia.
  - pose proof (qsort_partition_rbound_cmp_antisym key lp b Hcol).
    pose proof (qsort_partition_rbound_cmp_antisym key b up Hcol).
    destruct (partition_edges_apart key specs p q lp up lq uq Hvalid Hne
                Hp Hq) as [Hlt|Hlt].
    + (* the partition [q] lies above [up] *)
      assert (qsort_partition_rbound_cmp key up b < 0); [|lia].
      destruct Hb as [->| ->]; [done|].
      eapply rbound_lt_le_trans; [done|exact Hlt|lia].
    + (* the partition [q] lies below [lp] *)
      assert (qsort_partition_rbound_cmp key b lp < 0); [|lia].
      destruct Hb as [->| ->]; [|done].
      eapply rbound_lt_le_trans; [done|exact Hqq|lia].
Qed.

Lemma tuple_bound_same_value key b lower :
  column_orders key ->
  (forall j, (j < partnatts key)%nat ->
     rb_content b !!! j = RANGE_DATUM_FINITE) ->
  same_finite_value key (tuple_bound key (rb_datums b) lower) b.
Proof.
  intros Hcol Hfin j Hj. cbn.
  rewrite lookup_total_replicate_2 by lia.
  split; [done|]. split; [apply Hfin; lia|].
  destruct (Hcol j ltac:(lia)) as [Hanti _].
  pose proof (Hanti (rb_datums b !!! j) (rb_datums b !!! j)). lia.
Qed.

Lemma same_finite_value_trans key a b c :
  column_orders key ->
  same_finite_value key a b -> same_finite_value key b c ->
  same_finite_value key a c.
Proof.
  intros Hcol Hab Hbc.
  apply (columns_equal_via key _ _ _ _ (rb_datums b) (rb_content b));
    [done|lia|done|].
  by apply same_finite_value_sym.
Qed.

(** No bound lies strictly between an upper bound and a lower bound of
    the same finite value. *)
Lemma nothing_between_merged key lower upper x :
  column_orders key ->
  same_finite_value key lower upper ->
  rb_lower upper = false -> rb_lower lower = true ->
  ~ (qsort_partition_rbound_cmp key upper x < 0 /\
     qsort_partition_rbound_cmp key x lower < 0).
Proof.
  intros Hcol Hsame Hul Hll [Hux Hxl].
  assert (forall j, (j < partnatts key)%nat ->
            rb_content upper !!! j = RANGE_DATUM_FINITE) as Hfin.
  { intros j Hj. by destruct (Hsame j ltac:(lia)) as (_ & ? & _). }
  set (T0 := tuple_bound key (rb_datums upper) false).
  set (T1 := tuple_bound key (rb_datums upper) true).
  pose proof (tuple_bound_same_value key upper false Hcol Hfin) as H0.
  pose proof (tuple_bound_same_value key upper true Hcol Hfin) as H1.
  fold T0 in H0. fold T1 in H1.
  pose proof (same_finite_value_cmp key T0 upper H0) as Hc0.
  rewrite Hul in Hc0. subst T0. cbn [rb_lower tuple_bound eqb] in Hc0.
  set (T0 := tuple_bound key (rb_datums upper) false) in *.
  assert (same_finite_value key lower T1) as Hl1.
  { eapply same_finite_value_trans; [done|exact Hsame|].
    by apply same_finite_value_sym. }
  pose proof (same_finite_value_cmp key lower T1 Hl1) as Hc1.
  rewrite Hll in Hc1. subst T1. cbn [rb_lower tuple_bound eqb] in Hc1.
  set (T1 := tuple_bound key (rb_datums upper) true) in *.
  assert (qsort_partition_rbound_cmp key T0 x <= 0) as Hlo.
  { apply (qsort_partition_rbound_cmp_trans key T0 upper x Hcol); lia. }
  assert (qsort_partition_rbound_cmp key x T1 <= 0) as Hhi.
  { apply (qsort_partition_rbound_cmp_trans key x lower T1 Hcol); lia. }
  pose proof (rbound_between_tuple_bounds key x (rb_datums upper) Hcol
                Hlo Hhi) as Hx.
  assert (same_finite_value key x upper) as Hxu.
  { intros j Hj. destruct (Hx j Hj) as (? & _ & ?).
    split; [done|]. split; [apply Hfin; lia|done]. }
  assert (same_finite_value key x lower) as Hxlow.
  { eapply same_finite_value_trans; [done|exact Hxu|].
    by apply same_finite_value_sym. }
  rewrite (same_finite_value_cmp key upper x
             (same_finite_value_sym key _ _ Hcol Hxu)), Hul in Hux.
  rewrite (same_finite_value_cmp key x lower Hxlow), Hll in Hxl.
  destruct (rb_lower x); cbn in Hux, Hxl; lia.
Qed.
Lemma sorted_raw_bounds_range_length qsort_arg key specs rbounds :
  qsort_arg_spec qsort_arg -> column_orders key ->
  sorted_raw_bounds qsort_arg key specs = OK (RawRange rbounds) ->
  (length rbounds <= 2 * length specs)%nat.
Proof.
  intros Hq Hcol Hraw. unfold sorted_raw_bounds in Hraw.
  destruct (0 <? Z.of_nat (length specs)); [|done].
  destruct (strategy key); [| |done].
  { destruct (collect_list_values specs 0 (-1) []) as [[ni V]| | |];
      by cbn in Hraw. }
  destruct (collect_range_bounds key specs 0 []) as [AB| | |] eqn:HAB;
    cbn in Hraw; try done.
  injection Hraw as <-.
  destruct (Hq _ (qsort_partition_rbound_cmp key) AB
              (qsort_partition_rbound_cmp_preorder key AB Hcol))
    as [HpS _].
  apply collect_range_bounds_length in HAB. cbn [length] in HAB.
  pose proof (save_distinct_bounds_length
                (distinct_indexes_loop key None
                   (qsort_arg _ (qsort_partition_rbound_cmp key) AB))
                (qsort_arg _ (qsort_partition_rbound_cmp key) AB)) as Hle.
  apply Permutation_length in HpS. lia.
Qed.

(** The descriptor of a valid set of range partitions is a canonical range
    collection. *)
Lemma RelationBuildPartitionDesc_canonical_range
    qsort_arg junk key inhoids :
  qsort_arg_spec qsort_arg -> column_orders key -> (0 < partnatts key)%nat ->
  strategy key = PARTITION_STRATEGY_RANGE ->
  scanned_partitions inhoids <> [] ->
  valid_range_partitions key (scanned_boundspecs inhoids) ->
  exists rbounds mapping desc bi,
    RelationBuildPartitionDesc qsort_arg junk (Some key) inhoids
    = OK (Some desc) /\
    boundinfo desc = Some bi /\
    nparts desc = Z.of_nat (length (scanned_partitions inhoids)) /\
    length (oids desc) = length (scanned_partitions inhoids) /\
    (forall i part, scanned_partitions inhoids !! i = Some part ->
       oids desc !! Z.to_nat (mapping !!! i) = Some (inhrelid part)) /\
    canonical_range key (scanned_boundspecs inhoids) rbounds mapping bi.
Proof.
  intros Hq Hcol Hn Hstrat Hne Hvalid.
  assert (scanned_boundspecs inhoids <> []) as Hne'.
  { unfold scanned_boundspecs. by destruct (scanned_partitions inhoids). }
  assert (length (scanned_boundspecs inhoids)
          = length (scanned_partitions inhoids)) as Hlen
    by apply length_fmap.
  destruct (range_mapping_bijection qsort_arg junk key _ Hq Hcol Hn Hstrat
              Hvalid Hne') as (raw & bi & mapping & Hraw & Hbuild & Hbij).
  destruct (sorted_raw_bounds_range_form qsort_arg key _ raw Hq Hcol Hn
              Hstrat Hvalid Hne' Hraw) as (R & -> & Hform).
  pose proof (sorted_raw_bounds_range_length qsort_arg key _ R Hq Hcol Hraw)
    as Hsize.
  pose proof Hbij as Hbij'. rewrite Hlen in Hbuild, Hbij'.
  destruct (RelationBuildPartitionDesc_desc qsort_arg junk key inhoids
              _ bi mapping Hraw Hbuild Hbij' Hne)
    as (desc & Hdesc & Hbi & Hnparts & Hoids & Hown).
  exists R, mapping, desc, bi. repeat (split; [done|]).
  eapply build_boundinfo_range_form; [done| |exact Hbuild].
  rewrite <- Hlen. by apply (distinct_bounds_index key).
Qed.

Lemma canonical_range_ordinal key specs rbounds mapping bi b :
  canonical_range key specs rbounds mapping bi -> b ∈ rbounds ->
  0 <= mapping !!! Z.to_nat (rb_index b) < Z.of_nat (length specs).
Proof.
  intros (_ & _ & _ & _ & _ & Hform & _ & (_ & Hrange & _) & _) Hb.
  pose proof (proj1 (Forall_forall _ _) (distinct_bounds_index key _ _ Hform)
                b Hb) as Hidx. cbn beta in Hidx.
  apply Hrange. lia.
Qed.

(** What the comparisons read at offset [k] of a canonical collection is
    the bound [rbounds[k]]. *)
Lemma canonical_range_rbound_cmp key specs rbounds mapping bi k b x :
  canonical_range key specs rbounds mapping bi -> rbounds !! k = Some b ->
  partition_rbound_cmp key (bi_datums bi !!! k)
    (default [] (bi_content bi) !!! k) (indexes bi !!! k <? 0) x
  = qsort_partition_rbound_cmp key b x.
Proof.
  intros Hcanon Hk.
  pose proof (canonical_range_ordinal key specs rbounds mapping bi b Hcanon
                (list_elem_of_lookup_2 _ _ _ Hk)) as Hord.
  destruct Hcanon as (_ & _ & _ & _ & _ & _ & _ & _ & Hcoll).
  destruct (range_collection_stores key rbounds mapping bi k b Hcoll Hk)
    as [(_ & Hcontent & row & Hrow & Hr) Hindex].
  rewrite (list_lookup_total_correct _ _ _ Hrow),
    (list_lookup_total_correct _ _ _ Hcontent),
    (list_lookup_total_correct _ _ _ Hindex).
  assert (((if rb_lower b then -1 else mapping !!! Z.to_nat (rb_index b))
           <? 0) = rb_lower b) as ->.
  { destruct (rb_lower b); [done|]. apply Z.ltb_ge. lia. }
  unfold qsort_partition_rbound_cmp. rewrite !partition_rbound_cmp_result.
  f_equal. apply partition_rbound_cmp_loop_ext. intros j Hj.
  assert (copy_range_content key b !!! j = rb_content b !!! j) as Hc.
  { unfold copy_range_content. apply list_lookup_total_correct.
    by rewrite list_lookup_fmap, lookup_seq_lt by lia. }
  rewrite Hc. split; [done|]. intros Hfin. apply Hr; [lia|done].
Qed.

Lemma canonical_range_bound_cmp key specs rbounds mapping bi k b x :
  canonical_range key specs rbounds mapping bi -> rbounds !! k = Some b ->
  partition_bound_cmp key bi (Z.of_nat k) (ProbeBound x) true
  = OK (qsort_partition_rbound_cmp key b x).
Proof.
  intros Hcanon Hk. unfold partition_bound_cmp.
  destruct Hcanon as (? & ? & Hstrat & ?). rewrite Hstrat, Nat2Z.id.
  cbn [probe_bound]. f_equal.
  by eapply canonical_range_rbound_cmp.
Qed.

Lemma canonical_range_tuple_cmp key specs rbounds mapping bi k b values :
  canonical_range key specs rbounds mapping bi -> rbounds !! k = Some b ->
  exists c,
    partition_bound_cmp key bi (Z.of_nat k) (ProbeDatums values) false
    = OK c /\
    (c <= 0 <->
     qsort_partition_rbound_cmp key b (tuple_bound key values true) <= 0) /\
    (c < 0 <->
     qsort_partition_rbound_cmp key b (tuple_bound key values false) < 0).
Proof.
  intros Hcanon Hk. unfold partition_bound_cmp.
  pose proof Hcanon as (? & Hn & Hstrat & ?). rewrite Hstrat, Nat2Z.id.
  cbn [probe_datums]. eexists. split; [reflexivity|].
  rewrite <- !(canonical_range_rbound_cmp key specs rbounds mapping bi k b)
    by done.
  split.
  - by apply partition_rbound_datum_cmp_le.
  - by apply partition_rbound_datum_cmp_lt.
Qed.

Lemma canonical_range_ascending key specs rbounds mapping bi probe
    probe_is_bound :
  canonical_range key specs rbounds mapping bi ->
  ascending_for_probe key bi probe probe_is_bound.
Proof.
  intros Hcanon i j Hij Hj (c & Hc & Hle).
  pose proof Hcanon
    as (Hcol & Hn & Hstrat & _ & _ & (Hsorted & _) & _ & _ & Hcoll).
  destruct Hcoll as (_ & Hnd & _). rewrite Hnd in Hj.
  destruct (lookup_lt_is_Some_2 rbounds (Z.to_nat i) ltac:(lia)) as [a Ha].
  destruct (lookup_lt_is_Some_2 rbounds (Z.to_nat j) ltac:(lia)) as [b Hb].
  destruct (StronglySorted_lookup_lt _ _ (Z.to_nat i) (Z.to_nat j) a b
              Hsorted ltac:(lia) Ha Hb) as [Hab Htuple].
  unfold bound_vs_probe, partition_bound_cmp in *. rewrite Hstrat in *.
  destruct probe_is_bound.
  - injection Hc as <-. eexists. split; [reflexivity|].
    rewrite (canonical_range_rbound_cmp key specs rbounds mapping bi _ a)
      by done.
    rewrite (canonical_range_rbound_cmp key specs rbounds mapping bi _ b)
      in Hle by done.
    by eapply rbound_lt_le_trans.
  - injection Hc as <-. eexists. split; [reflexivity|].
    apply (partition_rbound_datum_cmp_lt key _ _
             (indexes bi !!! Z.to_nat i <? 0) _ Hn).
    apply (partition_rbound_datum_cmp_le key _ _
             (indexes bi !!! Z.to_nat j <? 0) _ Hn) in Hle.
    rewrite (canonical_range_rbound_cmp key specs rbounds mapping bi _ a)
      by done.
    rewrite (canonical_range_rbound_cmp key specs rbounds mapping bi _ b)
      in Hle by done.
    by apply Htuple.
Qed.
Lemma canonical_range_ndatums key specs rbounds mapping bi :
  canonical_range key specs rbounds mapping bi ->
  Z.of_nat (length specs) <= 2 ^ 29 ->
  ndatums bi = Z.of_nat (length rbounds) /\ 0 <= ndatums bi <= 2 ^ 30.
Proof.
  intros (_ & _ & _ & _ & _ & _ & Hsize & _ & (_ & Hnd & _)) Hn.
  split; [done|]. rewrite Hnd.
  assert (2 ^ 30 = 2 * 2 ^ 29) as -> by reflexivity. lia.
Qed.

(** The search for a bound [x] in a canonical collection. *)
Lemma canonical_range_bsearch_bound key specs rbounds mapping bi x :
  canonical_range key specs rbounds mapping bi ->
  Z.of_nat (length specs) <= 2 ^ 29 ->
  exists off eq',
    partition_bound_bsearch key bi (ProbeBound x) true false
    = OK (off, eq') /\
    -1 <= off < Z.of_nat (length rbounds) /\
    (forall k b, rbounds !! k = Some b -> Z.of_nat k < off ->
       qsort_partition_rbound_cmp key b x < 0) /\
    (forall k b, rbounds !! k = Some b -> Z.of_nat k = off ->
       qsort_partition_rbound_cmp key b x <= 0 /\
       (eq' = true <-> qsort_partition_rbound_cmp key b x = 0)) /\
    (forall k b, rbounds !! k = Some b -> off < Z.of_nat k ->
       0 < qsort_partition_rbound_cmp key b x) /\
    (off = -1 -> eq' = false).
Proof.
  intros Hcanon Hsize.
  destruct (canonical_range_ndatums key specs rbounds mapping bi Hcanon Hsize)
    as [Hnd Hrange].
  pose proof (canonical_range_ascending key specs rbounds mapping bi
                (ProbeBound x) true Hcanon) as Hasc.
  assert (strategy key <> PARTITION_STRATEGY_UNKNOWN) as Hstrat.
  { destruct Hcanon as (_ & _ & -> & _). done. }
  destruct (partition_bound_bsearch_spec key bi (ProbeBound x) true false
              Hstrat Hrange Hasc)
    as (off & eq' & Hrun & Hoff & Hle & Hgt & Heq & Hkeep).
  assert (forall (R' : Z -> Z -> Prop) k b, rbounds !! k = Some b ->
            bound_vs_probe key bi (ProbeBound x) true R' (Z.of_nat k) ->
            R' (qsort_partition_rbound_cmp key b x) 0) as Hread.
  { intros R' k b Hk (c & Hc & HR).
    rewrite (canonical_range_bound_cmp key specs rbounds mapping bi k b x
               Hcanon Hk) in Hc. by injection Hc as <-. }
  exists off, eq'. split; [done|]. split; [lia|].
  split; [|split; [|split]]; [| | |done].
  - intros k b Hk Hlt. apply (Hread Z.lt k b Hk).
    apply (Hasc (Z.of_nat k) off); [lia|lia|]. apply Hle. lia.
  - intros k b Hk <-. split.
    + apply (Hread Z.le k b Hk). apply Hle. lia.
    + rewrite (Heq ltac:(lia)). split.
      * intros Hvs. by apply (Hread eq k b Hk).
      * intros Hz. exists (qsort_partition_rbound_cmp key b x).
        split; [|done]. by eapply canonical_range_bound_cmp.
  - intros k b Hk Hlt. apply Z.gt_lt. apply (Hread Z.gt k b Hk).
    apply Hgt. apply lookup_lt_Some in Hk. lia.
Qed.

(** Positions in an array in strictly ascending order follow the order of
    the bounds. *)
Lemma strictly_sorted_position key rbounds i j a b :
  column_orders key ->
  StronglySorted (below_for_probes key) rbounds ->
  rbounds !! i = Some a -> rbounds !! j = Some b ->
  qsort_partition_rbound_cmp key a b < 0 -> (i < j)%nat.
Proof.
  intros Hcol Hsorted Hi Hj Hlt.
  destruct (decide (i < j)%nat) as [|Hge]; [done|exfalso].
  destruct (decide (i = j)) as [->|Hne].
  - assert (a = b) as -> by congruence.
    pose proof (rbound_cmp_refl key b Hcol). lia.
  - destruct (StronglySorted_lookup_lt _ _ j i b a Hsorted ltac:(lia) Hj Hi)
      as [Hba _].
    pose proof (qsort_partition_rbound_cmp_antisym key a b Hcol). lia.
Qed.

Lemma strictly_sorted_lt key rbounds i j a b :
  StronglySorted (below_for_probes key) rbounds ->
  rbounds !! i = Some a -> rbounds !! j = Some b -> (i < j)%nat ->
  qsort_partition_rbound_cmp key a b < 0.
Proof.
  intros Hsorted Hi Hj Hlt.
  by destruct (StronglySorted_lookup_lt _ _ i j a b Hsorted Hlt Hi Hj).
Qed.

(** In a canonical collection the upper bound of a partition comes right
    after its lower bound. *)
Lemma canonical_range_adjacent key specs rbounds mapping bi p lower upper k :
  canonical_range key specs rbounds mapping bi ->
  partition_edges key specs p lower upper ->
  rbounds !! k = Some lower -> rbounds !! S k = Some upper.
Proof.
  intros (Hcol & _ & _ & Hvalid & _ & (Hsorted & Hmem & Hkept) & _) Hp Hk.
  destruct (Hkept p lower upper Hp) as [Hup _].
  apply list_elem_of_lookup in Hup as [j Hj].
  pose proof (valid_partition_edges key specs p lower upper Hvalid Hp) as Hlt.
  pose proof (strictly_sorted_position key rbounds k j lower upper Hcol
                Hsorted Hk Hj Hlt) as Hkj.
  destruct (decide (j = S k)) as [->|Hne]; [done|exfalso].
  destruct (lookup_lt_is_Some_2 rbounds (S k)) as [b Hb].
  { apply lookup_lt_Some in Hj. lia. }
  destruct (Hmem b (list_elem_of_lookup_2 _ _ _ Hb))
    as (q & lq & uq & Hq & Hbq).
  apply (nothing_inside_partition key specs p lower upper q lq uq b
           Hcol Hvalid Hp Hq Hbq).
  split.
  - by apply (strictly_sorted_lt key rbounds k (S k)); [| | |lia].
  - by apply (strictly_sorted_lt key rbounds (S k) j); [| | |lia].
Qed.

Lemma canonical_range_index key specs rbounds mapping bi k b :
  canonical_range key specs rbounds mapping bi -> rbounds !! k = Some b ->
  indexes bi !!! k
  = (if rb_lower b then -1 else mapping !!! Z.to_nat (rb_index b)).
Proof.
  intros (_ & _ & _ & _ & _ & _ & _ & _ & Hcoll) Hk.
  destruct (range_collection_stores key rbounds mapping bi k b Hcoll Hk)
    as [_ Hindex].
  by apply list_lookup_total_correct.
Qed.

Lemma canonical_range_last_index key specs rbounds mapping bi :
  canonical_range key specs rbounds mapping bi ->
  indexes bi !!! length rbounds = -1.
Proof.
  intros (_ & _ & _ & _ & _ & _ & _ & _ & (_ & _ & _ & _ & Hindexes & _)).
  apply list_lookup_total_correct.
  rewrite Hindexes, lookup_app_r by (by rewrite length_fmap).
  by rewrite length_fmap, Nat.sub_diag.
Qed.
(** The lower bound of a partition is not above a bound [x] that every
    bound stored before its upper bound is below. *)
Lemma canonical_range_lower_below key specs rbounds mapping bi
    p lower upper k x :
  canonical_range key specs rbounds mapping bi ->
  partition_edges key specs p lower upper ->
  rbounds !! k = Some upper ->
  (forall j b, rbounds !! j = Some b -> (j < k)%nat ->
     qsort_partition_rbound_cmp key b x < 0) ->
  qsort_partition_rbound_cmp key lower x <= 0.
Proof.
  intros (Hcol & _ & _ & Hvalid & _ & (Hsorted & Hmem & Hkept) & _) Hp Hk
    Hbelow.
  pose proof (valid_partition_edges key specs p lower upper Hvalid Hp) as Hlt.
  destruct (partition_edges_fields _ _ _ _ _ Hp) as (_ & _ & Hll & _).
  destruct (Hkept p lower upper Hp) as [_ [Hlo|(u & Hu & Hul & Hult & Hsame)]].
  - apply list_elem_of_lookup in Hlo as [j Hj].
    pose proof (strictly_sorted_position key rbounds j k lower upper Hcol
                  Hsorted Hj Hk Hlt).
    pose proof (Hbelow j lower Hj ltac:(lia)). lia.
  - apply list_elem_of_lookup in Hu as [j Hj].
    assert (qsort_partition_rbound_cmp key u upper < 0) as Huu.
    { eapply rbound_lt_le_trans; [done|exact Hult|lia]. }
    pose proof (strictly_sorted_position key rbounds j k u upper Hcol
                  Hsorted Hj Hk Huu).
    pose proof (Hbelow j u Hj ltac:(lia)) as Hux.
    apply rbound_cmp_ge; [done|]. intros Hxl.
    by apply (nothing_between_merged key lower u x Hcol Hsame Hul Hll).
Qed.

(** The lower bound of a partition is above a bound [x] when its upper
    bound is stored after an offset [off] that all later bounds are above
    [x] and the bound after [off] is a lower bound. *)
Lemma canonical_range_lower_above key specs rbounds mapping bi
    p lower upper k off x :
  canonical_range key specs rbounds mapping bi ->
  partition_edges key specs p lower upper ->
  rbounds !! k = Some upper -> off < Z.of_nat k ->
  -1 <= off ->
  (forall j b, rbounds !! j = Some b -> off < Z.of_nat j ->
     0 < qsort_partition_rbound_cmp key b x) ->
  (forall b, rbounds !! Z.to_nat (off + 1) = Some b -> rb_lower b = true) ->
  qsort_partition_rbound_cmp key x lower < 0.
Proof.
  intros Hcanon Hp Hk Hoff Hoff' Habove Hgap.
  pose proof Hcanon
    as (Hcol & _ & _ & Hvalid & _ & (Hsorted & Hmem & Hkept) & _).
  pose proof (valid_partition_edges key specs p lower upper Hvalid Hp) as Hlt.
  destruct (partition_edges_fields _ _ _ _ _ Hp)
    as (_ & _ & Hll & _ & Hul & _).
  assert (forall b, 0 < qsort_partition_rbound_cmp key b x ->
            qsort_partition_rbound_cmp key x b < 0) as Hflip.
  { intros b Hb. by apply qsort_partition_rbound_cmp_antisym. }
  assert (forall j, rbounds !! j = Some lower -> Z.of_nat j <= off -> False)
    as Hnot_before.
  { intros j Hj Hle.
    pose proof (canonical_range_adjacent key specs rbounds mapping bi p
                  lower upper j Hcanon Hp Hj) as Hadj.
    pose proof (strictly_sorted_position key rbounds j k lower upper Hcol
                  Hsorted Hj Hk Hlt).
    assert (k = S j) as ->.
    { destruct (decide (k = S j)) as [|Hne]; [done|exfalso].
      pose proof (strictly_sorted_lt key rbounds (S j) k upper upper
                    Hsorted Hadj Hk ltac:(lia)).
      pose proof (rbound_cmp_refl key upper Hcol). lia. }
    assert (Z.to_nat (off + 1) = S j) as E by lia.
    specialize (Hgap upper). rewrite E in Hgap.
    specialize (Hgap Hadj). congruence. }
  destruct (Hkept p lower upper Hp) as [_ [Hlo|(u & Hu & Hulow & Hult & Hsame)]].
  - apply list_elem_of_lookup in Hlo as [j Hj].
    destruct (decide (off < Z.of_nat j)) as [Hgt|Hle].
    + apply Hflip. by apply (Habove j).
    + destruct (Hnot_before j Hj ltac:(lia)).
  - apply list_elem_of_lookup in Hu as [j Hj].
    destruct (decide (off < Z.of_nat j)) as [Hgt|Hle].
    + pose proof (Hflip u (Habove j u Hj Hgt)) as Hxu.
      eapply rbound_lt_le_trans; [done|exact Hxu|lia].
    + destruct (lookup_lt_is_Some_2 rbounds (Z.to_nat (off + 1)))
        as [b Hb].
      { apply lookup_lt_Some in Hk. lia. }
      pose proof (Hgap b Hb) as Hbl.
      destruct (Hmem b (list_elem_of_lookup_2 _ _ _ Hb))
        as (r & lr & ur & Hr & Hbr).
      destruct (partition_edges_fields _ _ _ _ _ Hr)
        as (_ & _ & _ & _ & Hurl & _).
      destruct Hbr as [->| ->]; [|congruence].
      destruct (decide (r = p)) as [->|Hne].
      * destruct (partition_edges_functional _ _ _ _ _ _ _ Hp Hr)
          as [<- <-].
        apply Hflip, (Habove (Z.to_nat (off + 1))); [done|lia].
      * exfalso.
        pose proof (strictly_sorted_lt key rbounds j (Z.to_nat (off + 1)) u lr
                      Hsorted Hj Hb ltac:(lia)) as Hulr.
        assert (Z.to_nat (off + 1) <> k) as Hnk.
        { intros E. rewrite E in Hb. congruence. }
        pose proof (strictly_sorted_lt key rbounds (Z.to_nat (off + 1)) k
                      lr upper Hsorted Hb Hk ltac:(lia)) as Hlru.
        pose proof (valid_partition_edges key specs r lr ur Hvalid Hr)
          as Hrr.
        pose proof (qsort_partition_rbound_cmp_antisym key lr upper Hcol).
        destruct (partition_edges_apart key specs r p lr ur lower upper
                    Hvalid Hne Hr Hp) as [Hlt'|Hlt']; [|lia].
        apply (nothing_between_merged key lower u lr Hcol Hsame Hulow Hll).
        split; [done|].
        eapply rbound_lt_le_trans; [done|exact Hrr|lia].
Qed.
(** ** The overlap check of a range candidate *)

(** [check_range_overlap] on a canonical collection and a non-empty
    candidate [[lower, upper)]: it reports no overlap exactly when the
    candidate overlaps no partition, and otherwise the ordinal of a
    partition that the candidate overlaps. *)
Lemma check_range_overlap_spec key specs rbounds mapping bi lower upper :
  canonical_range key specs rbounds mapping bi ->
  Z.of_nat (length specs) <= 2 ^ 29 ->
  edge_content lower -> edge_content upper ->
  rb_lower lower = true -> rb_lower upper = false ->
  qsort_partition_rbound_cmp key lower upper < 0 ->
  (check_range_overlap key bi lower upper = OK (false, -1) /\
   forall p lp up, partition_edges key specs p lp up ->
     ~ ranges_overlap key lp up lower upper) \/
  (exists p lp up,
     partition_edges key specs p lp up /\
     ranges_overlap key lp up lower upper /\
     check_range_overlap key bi lower upper = OK (true, mapping !!! p)).
Proof.
  intros Hcanon Hsize HcL HcU HlL HlU HLU.
  pose proof Hcanon
    as (Hcol & _ & _ & Hvalid & _ & (Hsorted & Hmem & Hkept) & _).
  destruct (canonical_range_bsearch_bound key specs rbounds mapping bi lower
              Hcanon Hsize)
    as (off1 & eq1 & Hrun1 & Hoff1 & Hlt1 & Hat1 & Hgt1 & Hkeep1).
  assert (forall a b, qsort_partition_rbound_cmp key a b < 0 <->
                      0 < qsort_partition_rbound_cmp key b a) as Hanti
    by (intros; by apply qsort_partition_rbound_cmp_antisym).
  assert (forall b k, rbounds !! k = Some b ->
            indexes bi !!! k
            = (if rb_lower b then -1
               else mapping !!! Z.to_nat (rb_index b)) /\
            0 <= mapping !!! Z.to_nat (rb_index b)) as Hindex.
  { intros b k Hk. split; [by eapply canonical_range_index|].
    eapply canonical_range_ordinal; [exact Hcanon|].
    by eapply list_elem_of_lookup_2. }
  unfold check_range_overlap. rewrite Hrun1. cbn [mbind res_bind].
  destruct eq1.
  - (* the candidate starts at a stored bound *)
    right. cbn [negb andb].
    assert (0 <= off1) as H0.
    { destruct (decide (off1 = -1)) as [E|]; [|lia].
      by specialize (Hkeep1 E). }
    destruct (lookup_lt_is_Some_2 rbounds (Z.to_nat off1)) as [b Hb]; [lia|].
    destruct (Hat1 _ b Hb ltac:(lia)) as [_ Hz].
    pose proof (proj1 Hz eq_refl) as Hb0.
    destruct (Hmem b (list_elem_of_lookup_2 _ _ _ Hb))
      as (p & lp & up & Hp & Hbp).
    destruct (partition_edges_fields _ _ _ _ _ Hp)
      as (_ & _ & Hll & Hui & Hul & Hcl & Hcu).
    pose proof (valid_partition_edges key specs p lp up Hvalid Hp) as Hpp.
    destruct Hbp as [->| ->].
    2:{ by destruct (lower_upper_cmp_nonzero key lower up HcL Hcu HlL Hul). }
    pose proof (canonical_range_adjacent key specs rbounds mapping bi p
                  lp up _ Hcanon Hp Hb) as Hadj.
    exists p, lp, up. split; [done|]. split.
    + split; intros Hbad.
      * pose proof (rbound_lt_le_trans key up lower lp Hcol Hbad).
        pose proof (Hanti lp lower). pose proof (Hanti lower lp).
        pose proof (Hanti lp up). lia.
      * pose proof (rbound_le_lt_trans key lp lower upper Hcol ltac:(lia)
                      HLU).
        pose proof (Hanti lp upper). lia.
    + replace (Z.to_nat (off1 + 1)) with (S (Z.to_nat off1)) by lia.
      destruct (Hindex up _ Hadj) as [-> _].
      by rewrite Hul, Hui, Nat2Z.id.
  - cbn [negb andb].
    assert (forall j b, rbounds !! j = Some b -> Z.of_nat j <= off1 ->
              qsort_partition_rbound_cmp key b lower < 0) as Hbelow1.
    { intros j b Hj Hle.
      destruct (decide (Z.of_nat j = off1)) as [E|Hne].
      - destruct (Hat1 j b Hj E) as [Hle' Hz].
        destruct (decide (qsort_partition_rbound_cmp key b lower = 0))
          as [Hz'|]; [|lia].
        by apply Hz in Hz'.
      - apply (Hlt1 j b Hj). lia. }
    destruct (Z.ltb_spec (indexes bi !!! Z.to_nat (off1 + 1)) 0)
      as [Hgap|Hnogap].
    + (* a gap follows the bound at [off1] *)
      destruct (canonical_range_bsearch_bound key specs rbounds mapping bi
                  upper Hcanon Hsize)
        as (off2 & eq2 & Hrun2 & Hoff2 & Hlt2 & Hat2 & Hgt2 & Hkeep2).
      rewrite Hrun2. cbn [mbind res_bind].
      assert (off1 <= off2) as Hmono.
      { destruct (decide (off1 <= off2)) as [|Hlt]; [done|exfalso].
        destruct (lookup_lt_is_Some_2 rbounds (Z.to_nat off1)) as [a Ha];
          [lia|].
        pose proof (Hbelow1 _ a Ha ltac:(lia)) as HaL.
        pose proof (rbound_lt_le_trans key a lower upper Hcol HaL
                      ltac:(lia)).
        pose proof (Hgt2 _ a Ha ltac:(lia)). lia. }
      assert (forall b, rbounds !! Z.to_nat (off1 + 1) = Some b ->
                rb_lower b = true) as Hgap_lower.
      { intros b Hb. destruct (Hindex b _ Hb) as [E Hpos].
        rewrite E in Hgap. destruct (rb_lower b); [done|lia]. }
      destruct (eq2 || negb (off1 =? off2)) eqn:Hcond.
      * (* a stored bound lies within the candidate *)
        right.
        assert (0 <= off2) as H0.
        { destruct (decide (off2 = -1)) as [E|]; [|lia].
          rewrite (Hkeep2 E) in Hcond. cbn in Hcond.
          destruct (Z.eqb_spec off1 off2); [done|lia]. }
        destruct (lookup_lt_is_Some_2 rbounds (Z.to_nat off2)) as [b Hb];
          [lia|].
        destruct (Hat2 _ b Hb ltac:(lia)) as [HbU Hz2].
        assert (off1 < off2 \/ qsort_partition_rbound_cmp key b upper = 0)
          as Hwhy.
        { destruct eq2; [right; by apply Hz2|left].
          cbn in Hcond. destruct (Z.eqb_spec off1 off2); [done|lia]. }
        destruct (Hmem b (list_elem_of_lookup_2 _ _ _ Hb))
          as (p & lp & up & Hp & Hbp).
        destruct (partition_edges_fields _ _ _ _ _ Hp)
          as (_ & _ & Hll & Hui & Hul & Hcl & Hcu).
        pose proof (valid_partition_edges key specs p lp up Hvalid Hp)
          as Hpp.
        exists p, lp, up. split; [done|].
        destruct (Hindex b _ Hb) as [Eb _].
        destruct Hbp as [->| ->].
        -- (* the bound at [off2] is the lower bound of [p] *)
           pose proof (canonical_range_adjacent key specs rbounds mapping bi
                         p lp up _ Hcanon Hp Hb) as Hadj.
           assert (off1 < off2) as Hlt.
           { destruct Hwhy as [|Hz]; [done|].
             by destruct (lower_upper_cmp_nonzero key lp upper Hcl HcU Hll
                            HlU). }
           pose proof (Hgt1 _ lp Hb ltac:(lia)) as HlpL.
           split.
           ++ split; intros Hbad.
              ** pose proof (rbound_lt_le_trans key up lower lp Hcol Hbad
                               ltac:(pose proof (Hanti lower lp); lia)).
                 pose proof (Hanti lp up). lia.
              ** pose proof (Hanti upper lp). lia.
           ++ rewrite Eb, Hll. cbn.
              replace (Z.to_nat (off2 + 1)) with (S (Z.to_nat off2)) by lia.
              destruct (Hindex up _ Hadj) as [-> _].
              by rewrite Hul, Hui, Nat2Z.id.
        -- (* the bound at [off2] is the upper bound of [p] *)
           split.
           ++ split; intros Hbad.
              ** destruct Hwhy as [Hlt|Hz].
                 --- pose proof (Hgt1 _ up Hb ltac:(lia)). lia.
                 --- pose proof (rbound_lt_le_trans key up lower upper Hcol
                                   Hbad ltac:(lia)). lia.
              ** pose proof (rbound_lt_le_trans key lp up upper Hcol Hpp HbU).
                 pose proof (Hanti lp upper). lia.
           ++ rewrite Eb, Hul, Hui, Nat2Z.id.
              destruct (Hindex up _ Hb) as [_ Hpos].
              rewrite Hui, Nat2Z.id in Hpos.
              by destruct (Z.ltb_spec (mapping !!! p) 0); [lia|].
      * (* the candidate fits in the gap *)
        left. split; [done|].
        assert (eq2 = false /\ off1 = off2) as [-> <-].
        { destruct eq2; [done|]. cbn in Hcond.
          destruct (Z.eqb_spec off1 off2); [done|done]. }
        intros p lp up Hp [Hno1 Hno2].
        destruct (Hkept p lp up Hp) as [Hup _].
        apply list_elem_of_lookup in Hup as [k Hk].
        destruct (decide (Z.of_nat k <= off1)) as [Hle|Hgt].
        -- apply Hno1. by apply (Hbelow1 k).
        -- apply Hno2.
           apply (canonical_range_lower_above key specs rbounds mapping bi
                    p lp up k off1 upper); try done; lia.
    + (* the candidate starts inside a partition *)
      right.
      assert (Z.to_nat (off1 + 1) < length rbounds)%nat as Hin.
      { destruct (decide (Z.to_nat (off1 + 1) < length rbounds)%nat)
          as [|Hout]; [done|exfalso].
        assert (Z.to_nat (off1 + 1) = length rbounds) as E by lia.
        rewrite E, (canonical_range_last_index key specs rbounds mapping bi
                      Hcanon) in Hnogap. lia. }
      destruct (lookup_lt_is_Some_2 rbounds _ Hin) as [b Hb].
      destruct (Hindex b _ Hb) as [Eb Hpos].
      destruct (Hmem b (list_elem_of_lookup_2 _ _ _ Hb))
        as (p & lp & up & Hp & Hbp).
      destruct (partition_edges_fields _ _ _ _ _ Hp)
        as (_ & _ & Hll & Hui & Hul & Hcl & Hcu).
      destruct Hbp as [->| ->].
      { rewrite Eb, Hll in Hnogap. lia. }
      exists p, lp, up. split; [done|]. split.
      * split; intros Hbad.
        -- pose proof (Hgt1 _ up Hb ltac:(lia)). lia.
        -- assert (qsort_partition_rbound_cmp key lp lower <= 0) as HlpL.
           { apply (canonical_range_lower_below key specs rbounds mapping bi
                      p lp up (Z.to_nat (off1 + 1))); try done.
             intros j a Hj Hjk. apply (Hbelow1 j a Hj). lia. }
           pose proof (rbound_le_lt_trans key lp lower upper Hcol HlpL HLU).
           pose proof (Hanti lp upper). lia.
      * by rewrite Eb, Hul, Hui, Nat2Z.id.
Qed.
Lemma RelationBuildPartitionDesc_no_partition qsort_arg junk key inhoids :
  scanned_partitions inhoids = [] ->
  RelationBuildPartitionDesc qsort_arg junk (Some key) inhoids
  = OK (Some {| nparts := 0; oids := []; boundinfo := None |}).
Proof.
  unfold scanned_partitions. intros Hnone.
  unfold RelationBuildPartitionDesc, sorted_raw_bounds. by rewrite Hnone.
Qed.

Lemma scanned_partition_edges key inhoids p lower upper :
  partition_edges key (scanned_boundspecs inhoids) p lower upper <->
  exists part, scanned_partitions inhoids !! p = Some part /\
    range_edges key (Z.of_nat p) (relpartbound part) lower upper.
Proof.
  unfold partition_edges, scanned_boundspecs. split.
  - intros (spec & Hp & He). rewrite list_lookup_fmap in Hp.
    destruct (scanned_partitions inhoids !! p) as [part|]; [|done].
    injection Hp as <-. by exists part.
  - intros (part & Hp & He). exists (relpartbound part).
    by rewrite list_lookup_fmap, Hp.
Qed.

(** [check_new_partition_bound] for a range candidate with a non-empty
    range, against the descriptor of a valid set of range partitions. *)
Lemma check_new_partition_bound_range_spec
    qsort_arg junk key inhoids spec lower upper :
  qsort_arg_spec qsort_arg -> column_orders key -> (0 < partnatts key)%nat ->
  strategy key = PARTITION_STRATEGY_RANGE ->
  valid_range_partitions key (scanned_boundspecs inhoids) ->
  Z.of_nat (length (scanned_partitions inhoids)) <= 2 ^ 29 ->
  range_edges key (-1) spec lower upper ->
  qsort_partition_rbound_cmp key lower upper < 0 ->
  exists desc,
    RelationBuildPartitionDesc qsort_arg junk (Some key) inhoids
    = OK (Some desc) /\
    ((check_new_partition_bound key desc spec = OK tt /\
      forall p part lp up,
        scanned_partitions inhoids !! p = Some part ->
        range_edges key (Z.of_nat p) (relpartbound part) lp up ->
        ~ ranges_overlap key lp up lower upper) \/
     (exists p part lp up,
        scanned_partitions inhoids !! p = Some part /\
        range_edges key (Z.of_nat p) (relpartbound part) lp up /\
        ranges_overlap key lp up lower upper /\
        check_new_partition_bound key desc spec
        = ERROR (ERR_would_overlap (inhrelid part)))).
Proof.
  intros Hq Hcol Hn Hstrat Hvalid Hsize He HLU.
  destruct (range_edges_fields _ _ _ _ _ He) as (_ & HlL & _ & HlU).
  destruct (range_edges_content _ _ _ _ _ He) as [HcL HcU].
  pose proof He as (_ & HmL & HmU).
  assert (forall desc,
            check_new_partition_bound key desc spec
            = '(overlap, with_) ←
                (if 0 <? nparts desc then
                   boundinfo ← deref (boundinfo desc);
                   check_range_overlap key boundinfo lower upper
                 else OK (false, -1));
              if (overlap : bool) then
                if 0 <=? with_
                then ERROR (ERR_would_overlap (oids desc !!! Z.to_nat with_))
                else UNDEFINED
              else OK tt) as Hcheck.
  { intros desc. unfold check_new_partition_bound.
    rewrite Hstrat, HmL, HmU. cbn [mbind res_bind].
    assert (partition_rbound_cmp key (rb_datums lower) (rb_content lower)
              true upper = qsort_partition_rbound_cmp key lower upper) as ->
      by (unfold qsort_partition_rbound_cmp; by rewrite HlL).
    by destruct (Z.geb_spec (qsort_partition_rbound_cmp key lower upper) 0);
      [lia|]. }
  destruct (scanned_partitions inhoids) as [|part0 parts0] eqn:Hparts.
  { eexists. split.
    - by apply RelationBuildPartitionDesc_no_partition.
    - left. rewrite Hcheck. cbn. split; [done|]. intros p part lp up Hp.
      by rewrite lookup_nil in Hp. }
  rewrite <- Hparts in *.
  assert (scanned_partitions inhoids <> []) as Hne by (by rewrite Hparts).
  destruct (RelationBuildPartitionDesc_canonical_range qsort_arg junk key
              inhoids Hq Hcol Hn Hstrat Hne Hvalid)
    as (R & mapping & desc & bi & Hdesc & Hbi & Hnparts & Hlen & Hown
        & Hcanon).
  assert (length (scanned_boundspecs inhoids)
          = length (scanned_partitions inhoids)) as Hlen'
    by apply length_fmap.
  exists desc. split; [done|]. rewrite Hcheck, Hnparts, Hbi.
  destruct (Z.ltb_spec 0 (Z.of_nat (length (scanned_partitions inhoids))));
    [|rewrite Hparts in *; cbn in *; lia].
  cbn [deref mbind res_bind].
  destruct (check_range_overlap_spec key _ R mapping bi lower upper Hcanon)
    as [[-> Hnone]|(p & lp & up & Hp & Hover & ->)]; try done.
  { by rewrite Hlen'. }
  - left. split; [done|]. intros p part lp up Hp Hep.
    apply (Hnone p). apply scanned_partition_edges. by exists part.
  - right. apply scanned_partition_edges in Hp as (part & Hpart & Hep).
    exists p, part, lp, up. split; [done|]. split; [done|]. split; [done|].
    cbn [mbind res_bind].
    destruct Hcanon as (_ & _ & _ & _ & _ & _ & _ & (_ & Hrange & _) & _).
    destruct (Hrange p) as [Hpos _].
    { rewrite Hlen'. by eapply lookup_lt_Some. }
    destruct (Z.leb_spec 0 (mapping !!! p)); [|lia].
    by rewrite (list_lookup_total_correct _ _ _ (Hown p part Hpart)).
Qed.

(** X5: [check_new_partition_bound] for a range candidate whose lower
    bound is below its upper bound, against the descriptor of a valid set
    of range partitions (possibly none): it returns without error exactly
    when the candidate overlaps no existing partition, and otherwise the
    partition named in the overlap error is one that the candidate
    overlaps. *)
Theorem check_new_partition_bound_range_overlap
    qsort_arg junk key inhoids spec lower upper :
  qsort_arg_spec qsort_arg -> column_orders key -> (0 < partnatts key)%nat ->
  strategy key = PARTITION_STRATEGY_RANGE ->
  valid_range_partitions key (scanned_boundspecs inhoids) ->
  Z.of_nat (length (scanned_partitions inhoids)) <= 2 ^ 29 ->
  range_edges key (-1) spec lower upper ->
  qsort_partition_rbound_cmp key lower upper < 0 ->
  exists desc,
    RelationBuildPartitionDesc qsort_arg junk (Some key) inhoids
    = OK (Some desc) /\
    ((check_new_partition_bound key desc spec = OK tt /\
      forall p part lp up,
        scanned_partitions inhoids !! p = Some part ->
        range_edges key (Z.of_nat p) (relpartbound part) lp up ->
        ~ ranges_overlap key lp up lower upper) \/
     (exists p part lp up,
        scanned_partitions inhoids !! p = Some part /\
        range_edges key (Z.of_nat p) (relpartbound part) lp up /\
        ranges_overlap key lp up lower upper /\
        check_new_partition_bound key desc spec
        = ERROR (ERR_would_overlap (inhrelid part)))).
Proof. apply check_new_partition_bound_range_spec. Qed.

Lemma check_new_partition_bound_range_overlap_witness :
  exists desc,
    RelationBuildPartitionDesc insertion_sort no_junk (Some int4_range_key)
      two_range_rows = OK (Some desc) /\
    ((check_new_partition_bound int4_range_key desc (range_spec 30 40)
      = OK tt /\
      forall p part lp up,
        scanned_partitions two_range_rows !! p = Some part ->
        range_edges int4_range_key (Z.of_nat p) (relpartbound part) lp up ->
        ~ ranges_overlap int4_range_key lp up
            (candidate_bound 30 true) (candidate_bound 40 false)) \/
     (exists p part lp up,
        scanned_partitions two_range_rows !! p = Some part /\
        range_edges int4_range_key (Z.of_nat p) (relpartbound part) lp up /\
        ranges_overlap int4_range_key lp up
          (candidate_bound 30 true) (candidate_bound 40 false) /\
        check_new_partition_bound int4_range_key desc (range_spec 30 40)
        = ERROR (ERR_would_overlap (inhrelid part)))).
Proof.
  apply (check_new_partition_bound_range_overlap insertion_sort no_junk
           int4_range_key two_range_rows (range_spec 30 40)
           (candidate_bound 30 true) (candidate_bound 40 false)
           insertion_sort_spec int4_range_key_orders).
  - vm_compute. lia.
  - reflexivity.
  - apply two_range_rows_valid.
  - vm_compute. discriminate.
  - by repeat split.
  - by vm_compute.
Defined.
(** ** Accepted candidates keep the set of partitions valid *)

Lemma valid_range_partitions_snoc key specs spec lower upper :
  valid_range_partitions key specs ->
  range_edges key (-1) spec lower upper ->
  valid_range_partitions key (specs ++ [spec]) <->
  qsort_partition_rbound_cmp key lower upper < 0 /\
  forall p lp up, partition_edges key specs p lp up ->
    qsort_partition_rbound_cmp key up lower < 0 \/
    qsort_partition_rbound_cmp key upper lp < 0.
Proof.
  intros Hvalid He.
  destruct (range_edges_reindex key (-1) (Z.of_nat (length specs)) spec
              lower upper He) as (ln & un & Hen).
  destruct (range_edges_erase _ _ _ _ _ _ _ _ He Hen) as [HeL HeU].
  assert ((specs ++ [spec]) !! length specs = Some spec) as Hlast.
  { rewrite lookup_app_r by lia. by rewrite Nat.sub_diag. }
  assert (forall a b,
            qsort_partition_rbound_cmp key a lower
            = qsort_partition_rbound_cmp key a ln /\
            qsort_partition_rbound_cmp key upper b
            = qsort_partition_rbound_cmp key un b /\
            qsort_partition_rbound_cmp key lower upper
            = qsort_partition_rbound_cmp key ln un) as Hcmp.
  { intros a b. split; [|split]; by apply rbound_cmp_erase. }
  split.
  - intros [Hedges Hapart]. split.
    + destruct (Hedges _ spec Hlast) as (lo & up & He' & Hlt).
      destruct (range_edges_functional _ _ _ _ _ _ _ Hen He') as [<- <-].
      by rewrite (proj2 (proj2 (Hcmp lower upper))).
    + intros p lp up (sp & Hp & Hep).
      rewrite (proj1 (Hcmp up lp)), (proj1 (proj2 (Hcmp up lp))).
      apply (Hapart p (length specs) sp spec); try done.
      * apply lookup_lt_Some in Hp. lia.
      * by rewrite lookup_app_l by (by eapply lookup_lt_Some).
  - intros [Hlt Hfree]. split.
    + intros i s Hi.
      destruct (decide (i < length specs)%nat) as [Hin|Hout].
      * rewrite lookup_app_l in Hi by done. by apply (proj1 Hvalid).
      * assert (i = length specs) as ->.
        { apply lookup_lt_Some in Hi. rewrite length_app in Hi.
          cbn in Hi. lia. }
        assert (s = spec) as -> by congruence.
        exists ln, un. split; [done|].
        by rewrite <- (proj2 (proj2 (Hcmp lower upper))).
    + intros i j si sj li ui lj uj Hne Hi Hj Hei Hej.
      assert (forall k s, (specs ++ [spec]) !! k = Some s ->
                (k < length specs)%nat /\ specs !! k = Some s \/
                k = length specs /\ s = spec) as Hcase.
      { intros k s Hk.
        destruct (decide (k < length specs)%nat) as [Hin|Hout].
        - left. by rewrite lookup_app_l in Hk.
        - right. apply lookup_lt_Some in Hk as Hk'.
          rewrite length_app in Hk'. cbn in Hk'.
          assert (k = length specs) as -> by lia. split; congruence. }
      destruct (Hcase i si Hi) as [[Hii Hi']|[-> ->]],
               (Hcase j sj Hj) as [[Hjj Hj']|[-> ->]].
      * by apply (proj2 Hvalid i j si sj).
      * destruct (range_edges_functional _ _ _ _ _ _ _ Hen Hej) as [<- <-].
        rewrite <- (proj1 (Hcmp ui li)), <- (proj1 (proj2 (Hcmp ui li))).
        apply (Hfree i). by exists si.
      * destruct (range_edges_functional _ _ _ _ _ _ _ Hen Hei) as [<- <-].
        rewrite <- (proj1 (Hcmp uj lj)), <- (proj1 (proj2 (Hcmp uj lj))).
        destruct (Hfree j lj uj) as [|]; [by exists sj|by right|by left].
      * done.
Qed.

Lemma RelationBuildPartitionDesc_range_returns qsort_arg junk key inhoids :
  qsort_arg_spec qsort_arg -> column_orders key -> (0 < partnatts key)%nat ->
  strategy key = PARTITION_STRATEGY_RANGE ->
  valid_range_partitions key (scanned_boundspecs inhoids) ->
  exists desc,
    RelationBuildPartitionDesc qsort_arg junk (Some key) inhoids
    = OK (Some desc).
Proof.
  intros Hq Hcol Hn Hstrat Hvalid.
  destruct (scanned_partitions inhoids) as [|part0 parts0] eqn:Hparts.
  { eexists. by apply RelationBuildPartitionDesc_no_partition. }
  destruct (RelationBuildPartitionDesc_canonical_range qsort_arg junk key
              inhoids Hq Hcol Hn Hstrat) as (R & m & desc & bi & Hdesc & _);
    [by rewrite Hparts|done|].
  by exists desc.
Qed.

(** X6: against the descriptor of a valid set of range partitions,
    [check_new_partition_bound] returns without error exactly for the
    candidates that leave the set valid: the set with the candidate added
    has every lower bound below its upper bound and no two partitions
    overlapping. *)
Theorem check_new_partition_bound_keeps_valid
    qsort_arg junk key inhoids spec lower upper :
  qsort_arg_spec qsort_arg -> column_orders key -> (0 < partnatts key)%nat ->
  strategy key = PARTITION_STRATEGY_RANGE ->
  valid_range_partitions key (scanned_boundspecs inhoids) ->
  Z.of_nat (length (scanned_partitions inhoids)) <= 2 ^ 29 ->
  range_edges key (-1) spec lower upper ->
  exists desc,
    RelationBuildPartitionDesc qsort_arg junk (Some key) inhoids
    = OK (Some desc) /\
    (check_new_partition_bound key desc spec = OK tt <->
     valid_range_partitions key (scanned_boundspecs inhoids ++ [spec])).
Proof.
  intros Hq Hcol Hn Hstrat Hvalid Hsize He.
  pose proof (valid_range_partitions_snoc key _ spec lower upper Hvalid He)
    as Hsnoc.
  destruct (decide (qsort_partition_rbound_cmp key lower upper < 0))
    as [HLU|Hempty].
  - destruct (check_new_partition_bound_range_spec qsort_arg junk key inhoids
                spec lower upper Hq Hcol Hn Hstrat Hvalid Hsize He HLU)
      as (desc & Hdesc & Hcases).
    exists desc. split; [done|]. rewrite Hsnoc.
    destruct Hcases as [[Hok Hnone]|(p & part & lp & up & Hp & Hep & Hover
                                     & Herr)].
    + split; [|done]. intros _. split; [done|].
      intros p lp up Hedges.
      apply scanned_partition_edges in Hedges as (part & Hp & Hep).
      specialize (Hnone p part lp up Hp Hep). unfold ranges_overlap in Hnone.
      destruct (decide (qsort_partition_rbound_cmp key up lower < 0));
        [by left|].
      destruct (decide (qsort_partition_rbound_cmp key upper lp < 0));
        [by right|].
      by destruct Hnone.
    + rewrite Herr. split; [done|]. intros [_ Hfree]. exfalso.
      destruct Hover as [H1 H2].
      destruct (Hfree p lp up) as [|]; [|done..].
      apply scanned_partition_edges. by exists part.
  - destruct (RelationBuildPartitionDesc_range_returns qsort_arg junk key
                inhoids Hq Hcol Hn Hstrat Hvalid) as [desc Hdesc].
    exists desc. split; [done|]. rewrite Hsnoc.
    split; [|by intros [? _]].
    unfold check_new_partition_bound.
    destruct (range_edges_fields _ _ _ _ _ He) as (_ & HlL & _).
    destruct He as (_ & -> & ->). rewrite Hstrat. cbn [mbind res_bind].
    assert (partition_rbound_cmp key (rb_datums lower) (rb_content lower)
              true upper = qsort_partition_rbound_cmp key lower upper) as ->
      by (unfold qsort_partition_rbound_cmp; by rewrite HlL).
    by destruct (Z.geb_spec (qsort_partition_rbound_cmp key lower upper) 0);
      [|lia].
Qed.

Lemma check_new_partition_bound_keeps_valid_witness :
  exists desc,
    RelationBuildPartitionDesc insertion_sort no_junk (Some int4_range_key)
      two_range_rows = OK (Some desc) /\
    (check_new_partition_bound int4_range_key desc (range_spec 30 40)
     = OK tt <->
     valid_range_partitions int4_range_key
       (scanned_boundspecs two_range_rows ++ [range_spec 30 40])).
Proof.
  apply (check_new_partition_bound_keeps_valid insertion_sort no_junk
           int4_range_key two_range_rows (range_spec 30 40)
           (candidate_bound 30 true) (candidate_bound 40 false)
           insertion_sort_spec int4_range_key_orders).
  - vm_compute. lia.
  - reflexivity.
  - apply two_range_rows_valid.
  - vm_compute. discriminate.
  - by repeat split.
Defined.
(** ** The partition of a tuple, range partitioning *)

Lemma tuple_in_range_bounds key lower upper values :
  (0 < partnatts key)%nat ->
  tuple_in_range key lower upper values <->
  qsort_partition_rbound_cmp key lower (tuple_bound key values true) <= 0 /\
  0 < qsort_partition_rbound_cmp key upper (tuple_bound key values true).
Proof.
  intros Hn. unfold tuple_in_range, qsort_partition_rbound_cmp.
  rewrite <- (partition_rbound_datum_cmp_le key _ _ (rb_lower lower) values Hn).
  pose proof (partition_rbound_datum_cmp_le key (rb_datums upper)
                (rb_content upper) (rb_lower upper) values Hn).
  intuition lia.
Qed.

(** The search for the key of a tuple in a canonical collection. *)
Lemma canonical_range_bsearch_tuple key specs rbounds mapping bi values
    is_equal :
  canonical_range key specs rbounds mapping bi ->
  Z.of_nat (length specs) <= 2 ^ 29 ->
  exists off eq',
    partition_bound_bsearch key bi (ProbeDatums values) false is_equal
    = OK (off, eq') /\
    -1 <= off < Z.of_nat (length rbounds) /\
    (forall k b, rbounds !! k = Some b -> Z.of_nat k <= off ->
       qsort_partition_rbound_cmp key b (tuple_bound key values true) <= 0) /\
    (forall k b, rbounds !! k = Some b -> off < Z.of_nat k ->
       0 < qsort_partition_rbound_cmp key b (tuple_bound key values true)).
Proof.
  intros Hcanon Hsize.
  destruct (canonical_range_ndatums key specs rbounds mapping bi Hcanon Hsize)
    as [Hnd Hrange].
  pose proof (canonical_range_ascending key specs rbounds mapping bi
                (ProbeDatums values) false Hcanon) as Hasc.
  assert (strategy key <> PARTITION_STRATEGY_UNKNOWN) as Hstrat.
  { destruct Hcanon as (_ & _ & -> & _). done. }
  destruct (partition_bound_bsearch_spec key bi (ProbeDatums values) false
              is_equal Hstrat Hrange Hasc)
    as (off & eq' & Hrun & Hoff & Hle & Hgt & _ & _).
  exists off, eq'. split; [done|]. split; [lia|]. split.
  - intros k b Hk Hko.
    destruct (canonical_range_tuple_cmp key specs rbounds mapping bi k b
                values Hcanon Hk) as (c & Hc & Hcle & Hclt).
    apply Hcle.
    destruct (decide (Z.of_nat k = off)) as [Heq|Hne].
    + destruct (Hle ltac:(lia)) as (c' & Hc' & ?).
      rewrite <- Heq, Hc in Hc'. injection Hc' as <-. done.
    + destruct (Hasc (Z.of_nat k) off ltac:(lia) ltac:(lia)
                  (Hle ltac:(lia))) as (c' & Hc' & ?).
      rewrite Hc in Hc'. injection Hc' as <-. lia.
  - intros k b Hk Hko.
    destruct (canonical_range_tuple_cmp key specs rbounds mapping bi k b
                values Hcanon Hk) as (c & Hc & Hcle & Hclt).
    destruct (Hgt (Z.of_nat k)) as (c' & Hc' & ?).
    { apply lookup_lt_Some in Hk. lia. }
    rewrite Hc in Hc'. injection Hc' as <-. lia.
Qed.

Lemma tuple_bound_edge_content key values lower :
  edge_content (tuple_bound key values lower).
Proof.
  intros j. left. cbn [tuple_bound rb_content].
  destruct (decide (j < partnatts key)%nat).
  - apply list_lookup_total_correct. by apply lookup_replicate_2.
  - by rewrite list_lookup_total_alt,
      (proj1 (lookup_replicate_None _ _ _)) by lia.
Qed.

(** The index that the range branch of [get_partition_for_tuple] reads
    after the search: the ordinal of the partition that holds the tuple, or
    -1 when no partition does. *)
Lemma canonical_range_tuple_index key specs rbounds mapping bi values
    is_equal :
  canonical_range key specs rbounds mapping bi ->
  Z.of_nat (length specs) <= 2 ^ 29 ->
  exists off eq',
    partition_bound_bsearch key bi (ProbeDatums values) false is_equal
    = OK (off, eq') /\
    ((exists p lower upper,
        partition_edges key specs p lower upper /\
        tuple_in_range key lower upper values /\
        indexes bi !!! Z.to_nat (off + 1) = mapping !!! p) \/
     (indexes bi !!! Z.to_nat (off + 1) = -1 /\
      forall p lower upper, partition_edges key specs p lower upper ->
        ~ tuple_in_range key lower upper values)).
Proof.
  intros Hcanon Hsize.
  destruct (canonical_range_bsearch_tuple key specs rbounds mapping bi values
              is_equal Hcanon Hsize)
    as (off & eq' & Hrun & Hoff & Hle & Hgt).
  exists off, eq'. split; [done|].
  pose proof Hcanon
    as (Hcol & Hn & _ & Hvalid & _ & (Hsorted & Hmem & Hkept) & _).
  set (T := tuple_bound key values true) in *.
  assert (forall p lower upper k,
            partition_edges key specs p lower upper ->
            rbounds !! k = Some upper -> Z.of_nat k <= off ->
            ~ tuple_in_range key lower upper values) as Hbefore.
  { intros p lower upper k Hp Hk Hko Hin.
    apply tuple_in_range_bounds in Hin as [_ Hin]; [|done].
    pose proof (Hle k upper Hk Hko). fold T in Hin. lia. }
  destruct (rbounds !! Z.to_nat (off + 1)) as [b'|] eqn:Hnext.
  - destruct (rb_lower b') eqn:Hkind.
    + right. split.
      { by rewrite (canonical_range_index key specs rbounds mapping bi _ b'
                      Hcanon Hnext), Hkind. }
      intros p lower upper Hp Hin.
      destruct (Hkept p lower upper Hp) as [Hup _].
      apply list_elem_of_lookup in Hup as [k Hk].
      destruct (decide (Z.of_nat k <= off)) as [Hko|Hko];
        [by apply (Hbefore p lower upper k)|].
      apply tuple_in_range_bounds in Hin as [Hin _]; [|done]. fold T in Hin.
      assert (qsort_partition_rbound_cmp key T lower < 0) as Habove.
      { apply (canonical_range_lower_above key specs rbounds mapping bi
                 p lower upper k off T); try done; try lia.
        intros b Hb. congruence. }
      apply qsort_partition_rbound_cmp_antisym in Habove; [|done]. lia.
    + left.
      assert (indexes bi !!! Z.to_nat (off + 1)
              = mapping !!! Z.to_nat (rb_index b')) as Hidx.
      { by rewrite (canonical_range_index key specs rbounds mapping bi _ b'
                      Hcanon Hnext), Hkind. }
      destruct (Hmem b' (list_elem_of_lookup_2 _ _ _ Hnext))
        as (q & lq & uq & Hq & [-> | ->]).
      { destruct (partition_edges_fields _ _ _ _ _ Hq) as (_ & _ & ? & _).
        congruence. }
      destruct (partition_edges_fields _ _ _ _ _ Hq)
        as (_ & _ & Hlql & Hqi & _ & _ & _).
      exists q, lq, uq. split; [done|]. split.
      * apply tuple_in_range_bounds; [done|]. fold T. split.
        -- destruct (decide (off = -1)) as [->|Hnz].
           { apply (canonical_range_lower_below key specs rbounds mapping bi
                      q lq uq _ T Hcanon Hq Hnext).
             intros j b _ Hj. cbn in Hj. lia. }
           destruct (lookup_lt_is_Some_2 rbounds (Z.to_nat off)
                       ltac:(lia)) as [b0 Hb0].
           pose proof (Hle _ b0 Hb0 ltac:(lia)) as Hb0T.
           destruct (rb_lower b0) eqn:Hkind0.
           ++ destruct (Hmem b0 (list_elem_of_lookup_2 _ _ _ Hb0))
                as (q0 & l0 & u0 & Hq0 & [-> | ->]).
              ** pose proof (canonical_range_adjacent key specs rbounds
                               mapping bi q0 l0 u0 _ Hcanon Hq0 Hb0) as Hadj.
                 replace (S (Z.to_nat off)) with (Z.to_nat (off + 1)) in Hadj
                   by lia.
                 assert (u0 = uq) as -> by congruence.
                 destruct (partition_edges_fields _ _ _ _ _ Hq0)
                   as (_ & _ & _ & Hq0i & _).
                 assert (q0 = q) as -> by lia.
                 destruct (partition_edges_functional _ _ _ _ _ _ _ Hq Hq0)
                   as [-> _]. done.
              ** destruct (partition_edges_fields _ _ _ _ _ Hq0)
                   as (_ & _ & _ & _ & ? & _). congruence.
           ++ apply (canonical_range_lower_below key specs rbounds mapping bi
                       q lq uq _ T Hcanon Hq Hnext).
              intros j b Hj Hlt.
              destruct (decide (j = Z.to_nat off)) as [->|Hne].
              ** assert (b = b0) as -> by congruence.
                 destruct (Hmem b0 (list_elem_of_lookup_2 _ _ _ Hb0))
                   as (q0 & l0 & u0 & Hq0 & Hor).
                 destruct (partition_edges_fields _ _ _ _ _ Hq0)
                   as (_ & _ & Hl0 & _ & _ & Hcl & Hcu).
                 assert (edge_content b0) as Hcb
                   by (by destruct Hor as [-> | ->]).
                 destruct (lower_upper_cmp_nonzero key T b0
                             (tuple_bound_edge_content key values true) Hcb
                             eq_refl Hkind0) as [_ Hnz0].
                 lia.
              ** eapply rbound_lt_le_trans; [done| |exact Hb0T].
                 apply (strictly_sorted_lt key rbounds j (Z.to_nat off));
                   try done. lia.
        -- apply (Hgt _ uq Hnext). lia.
      * rewrite Hidx, Hqi. by rewrite Nat2Z.id.
  - right.
    apply lookup_ge_None in Hnext.
    assert (Z.to_nat (off + 1) = length rbounds) as Hlast by lia.
    split.
    { rewrite Hlast.
      by apply (canonical_range_last_index key specs rbounds mapping bi). }
    intros p lower upper Hp.
    destruct (Hkept p lower upper Hp) as [Hup _].
    apply list_elem_of_lookup in Hup as [k Hk].
    apply (Hbefore p lower upper k Hp Hk).
    apply lookup_lt_Some in Hk. lia.
Qed.
Lemma any_key_isnull_first isnull n :
  (0 < n)%nat -> any_key_isnull isnull n 0 = false ->
  isnull !!! 0%nat = false.
Proof.
  intros Hn. destruct n as [|n]; [lia|]. cbn [any_key_isnull].
  by destruct (isnull !!! 0%nat).
Qed.

(** One turn of the walk at a node with a canonical range collection, for
    a tuple without a null key column. *)
Lemma get_partition_for_tuple_range_step
    k specs rbounds mapping bi desc fuel pd parent slot values isnull :
  canonical_range k specs rbounds mapping bi ->
  Z.of_nat (length specs) <= 2 ^ 29 ->
  key parent = Some k -> partdesc parent = Some desc ->
  boundinfo desc = Some bi -> nparts desc <> 0 ->
  FormPartitionKeyDatum parent k (convert_slot parent slot)
  = OK (values, isnull) ->
  any_key_isnull isnull (partnatts k) 0 = false ->
  (exists p lower upper,
     partition_edges k specs p lower upper /\
     tuple_in_range k lower upper values /\
     0 <= mapping !!! p /\
     get_partition_for_tuple_loop (S fuel) pd parent slot
     = let next := pd_indexes parent !!! Z.to_nat (mapping !!! p) in
       if 0 <=? next then OK (Routed next)
       else
         parent' ← deref (pd !! Z.to_nat (- next));
         get_partition_for_tuple_loop fuel pd parent'
           (convert_slot parent slot)) \/
  ((forall p lower upper, partition_edges k specs p lower upper ->
      ~ tuple_in_range k lower upper values) /\
   get_partition_for_tuple_loop (S fuel) pd parent slot
   = OK (NotRouted parent (convert_slot parent slot))).
Proof.
  intros Hcanon Hsize Hkey Hdesc Hbi Hnparts Hform Hnull.
  pose proof Hcanon as (_ & Hn & Hstrat & _ & _ & _ & _ & Hbij & _).
  pose proof (any_key_isnull_first isnull (partnatts k) Hn Hnull) as Hfirst.
  destruct (canonical_range_tuple_index k specs rbounds mapping bi values
              false Hcanon Hsize) as (off & eq' & Hrun & Hcases).
  assert (forall cur_index,
            indexes bi !!! Z.to_nat (off + 1) = cur_index ->
            get_partition_for_tuple_loop (S fuel) pd parent slot
            = if cur_index <? 0
              then OK (NotRouted parent (convert_slot parent slot))
              else
                let next := pd_indexes parent !!! Z.to_nat cur_index in
                if 0 <=? next then OK (Routed next)
                else
                  parent' ← deref (pd !! Z.to_nat (- next));
                  get_partition_for_tuple_loop fuel pd parent'
                    (convert_slot parent slot)) as Hturn.
  { intros cur_index <-.
    cbn [get_partition_for_tuple_loop]. rewrite Hdesc. cbn.
    destruct (Z.eqb_spec (nparts desc) 0) as [|_]; [done|].
    rewrite Hkey. cbn. rewrite Hform. cbn. rewrite Hstrat.
    rewrite bool_decide_eq_true_2 by done. rewrite Hnull. cbn.
    rewrite Hbi. cbn. rewrite Hfirst. cbn. rewrite Hrun. by cbn. }
  destruct Hcases as [(p & lower & upper & Hp & Hin & Hidx)|[Hidx Hnone]].
  - left. exists p, lower, upper. split; [done|]. split; [done|].
    destruct (partition_edges_fields _ _ _ _ _ Hp) as (Hlt & _).
    destruct Hbij as (_ & Hord & _).
    pose proof (Hord p Hlt) as Hrange. split; [lia|].
    rewrite (Hturn _ Hidx).
    by destruct (Z.ltb_spec (mapping !!! p) 0); [lia|].
  - right. split; [done|]. by rewrite (Hturn _ Hidx).
Qed.

(** X7: one turn of the walk of [get_partition_for_tuple] at a node whose
    descriptor was built for a valid set of range partitions, for a tuple
    that has no null key column.  If the key of the tuple lies in the range
    of a partition, the walk goes on from the entry of that partition in
    the node's array (a leaf is the result, a negative entry leads to the
    node it names); if it lies in no partition, the walk ends at the node
    with the converted tuple. *)
Theorem get_partition_for_tuple_range_partition
    qsort_arg junk k inhoids desc fuel pd parent slot values isnull :
  qsort_arg_spec qsort_arg -> column_orders k -> (0 < partnatts k)%nat ->
  strategy k = PARTITION_STRATEGY_RANGE ->
  valid_range_partitions k (scanned_boundspecs inhoids) ->
  Z.of_nat (length (scanned_partitions inhoids)) <= 2 ^ 29 ->
  RelationBuildPartitionDesc qsort_arg junk (Some k) inhoids
  = OK (Some desc) ->
  key parent = Some k -> partdesc parent = Some desc ->
  FormPartitionKeyDatum parent k (convert_slot parent slot)
  = OK (values, isnull) ->
  any_key_isnull isnull (partnatts k) 0 = false ->
  (exists p part lower upper i,
     scanned_partitions inhoids !! p = Some part /\
     range_edges k (Z.of_nat p) (relpartbound part) lower upper /\
     tuple_in_range k lower upper values /\
     oids desc !! i = Some (inhrelid part) /\
     get_partition_for_tuple_loop (S fuel) pd parent slot
     = let next := pd_indexes parent !!! i in
       if 0 <=? next then OK (Routed next)
       else
         parent' ← deref (pd !! Z.to_nat (- next));
         get_partition_for_tuple_loop fuel pd parent'
           (convert_slot parent slot)) \/
  ((forall p part lower upper,
      scanned_partitions inhoids !! p = Some part ->
      range_edges k (Z.of_nat p) (relpartbound part) lower upper ->
      ~ tuple_in_range k lower upper values) /\
   get_partition_for_tuple_loop (S fuel) pd parent slot
   = OK (NotRouted parent (convert_slot parent slot))).
Proof.
  intros Hq Hcol Hn Hstrat Hvalid Hsize Hbuild Hkey Hdesc Hform Hnull.
  destruct (scanned_partitions inhoids) as [|part0 parts0] eqn:Hparts.
  { right. split; [by intros p part lower upper Hp|].
    rewrite RelationBuildPartitionDesc_no_partition in Hbuild by done.
    injection Hbuild as <-.
    cbn [get_partition_for_tuple_loop]. rewrite Hdesc. by cbn. }
  destruct (RelationBuildPartitionDesc_canonical_range qsort_arg junk k
              inhoids Hq Hcol Hn Hstrat)
    as (rbounds & mapping & desc' & bi & Hbuild' & Hbi & Hnparts & Hlen
        & Hown & Hcanon); [by rewrite Hparts|done|].
  assert (desc' = desc) as -> by congruence.
  assert (Z.of_nat (length (scanned_boundspecs inhoids)) <= 2 ^ 29)
    as Hsize'.
  { unfold scanned_boundspecs. rewrite length_fmap, Hparts. done. }
  assert (nparts desc <> 0) as Hnz.
  { rewrite Hnparts, Hparts. cbn [length]. lia. }
  rewrite <- Hparts in *. clear Hparts.
  destruct (get_partition_for_tuple_range_step k _ rbounds mapping bi desc
              fuel pd parent slot values isnull Hcanon Hsize' Hkey Hdesc
              Hbi Hnz Hform Hnull)
    as [(p & lower & upper & Hp & Hin & Hord & Hrun)|[Hnone Hrun]].
  - left. apply scanned_partition_edges in Hp as (part & Hp & He).
    exists p, part, lower, upper, (Z.to_nat (mapping !!! p)).
    repeat (split; [done|]). split; [|done]. by apply Hown.
  - right. split; [|done]. intros p part lower upper Hp He.
    apply (Hnone p). apply scanned_partition_edges. by exists part.
Qed.

Lemma get_partition_for_tuple_range_partition_witness :
  (exists p part lower upper i,
     scanned_partitions two_range_rows !! p = Some part /\
     range_edges int4_range_key (Z.of_nat p) (relpartbound part) lower upper /\
     tuple_in_range int4_range_key lower upper [15] /\
     [101; 102] !! i = Some (inhrelid part) /\
     get_partition_for_tuple_loop 1 [two_ranges_root] two_ranges_root
       (row_slot [Some 15])
     = let next := pd_indexes two_ranges_root !!! i in
       if 0 <=? next then OK (Routed next)
       else
         parent' ← deref ([two_ranges_root] !! Z.to_nat (- next));
         get_partition_for_tuple_loop 0 [two_ranges_root] parent'
           (convert_slot two_ranges_root (row_slot [Some 15]))) \/
  ((forall p part lower upper,
      scanned_partitions two_range_rows !! p = Some part ->
      range_edges int4_range_key (Z.of_nat p) (relpartbound part) lower
        upper ->
      ~ tuple_in_range int4_range_key lower upper [15]) /\
   get_partition_for_tuple_loop 1 [two_ranges_root] two_ranges_root
     (row_slot [Some 15])
   = OK (NotRouted two_ranges_root
           (convert_slot two_ranges_root (row_slot [Some 15])))).
Proof.
  apply (get_partition_for_tuple_range_partition insertion_sort no_junk
           int4_range_key two_range_rows
           {| nparts := 2; oids := [101; 102];
              boundinfo := Some two_ranges_boundinfo |}
           0 [two_ranges_root] two_ranges_root (row_slot [Some 15]) [15]
           [false]
           insertion_sort_spec int4_range_key_orders).
  - vm_compute. lia.
  - reflexivity.
  - apply two_range_rows_valid.
  - vm_compute. discriminate.
  - reflexivity.
  - reflexivity.
  - reflexivity.
  - reflexivity.
  - reflexivity.
Defined.
(** ** The partition of a tuple, list partitioning *)

(** The descriptor of a valid set of list partitions without a value
    declared twice. *)
Lemma RelationBuildPartitionDesc_canonical_list qsort_arg junk key inhoids :
  qsort_arg_spec qsort_arg -> column_orders key -> (0 < partnatts key)%nat ->
  strategy key = PARTITION_STRATEGY_LIST ->
  scanned_partitions inhoids <> [] ->
  valid_list_partitions (scanned_boundspecs inhoids) ->
  list_values_disjoint key (scanned_boundspecs inhoids) ->
  exists all_values ni mapping desc bi,
    RelationBuildPartitionDesc qsort_arg junk (Some key) inhoids
    = OK (Some desc) /\
    boundinfo desc = Some bi /\
    nparts desc = Z.of_nat (length (scanned_partitions inhoids)) /\
    length (oids desc) = length (scanned_partitions inhoids) /\
    (forall i part, scanned_partitions inhoids !! i = Some part ->
       oids desc !! Z.to_nat (mapping !!! i) = Some (inhrelid part)) /\
    canonical_list key (scanned_boundspecs inhoids) all_values ni mapping bi.
Proof.
  intros Hq Hcol Hn Hstrat Hne Hvalid [Hties Hnd].
  destruct (RelationBuildPartitionDesc_list_form qsort_arg junk key inhoids
              Hq Hcol Hn Hstrat Hne Hvalid)
    as (ni & all_values & mapping & desc & bi & Hdesc & Hbi & Hnparts & Hlen
        & Hbij & Hown & Hperm & Hsorted & Hni & Hcoll).
  exists all_values, ni, mapping, desc, bi. do 5 (split; [done|]).
  unfold canonical_list. do 3 (split; [done|]).
  split. { unfold scanned_boundspecs. by destruct (scanned_partitions inhoids). }
  split; [done|]. split.
  { apply StronglySorted_strict; [done|by rewrite Hperm|].
    intros x y Hx Hy. rewrite Hperm in Hx, Hy. by apply Hties. }
  split. { unfold scanned_boundspecs. by rewrite length_fmap. }
  done.
Qed.

Lemma canonical_list_cmp key specs all_values ni mapping bi k v probe
    probe_is_bound :
  canonical_list key specs all_values ni mapping bi ->
  all_values !! k = Some v ->
  partition_bound_cmp key bi (Z.of_nat k) probe probe_is_bound
  = OK (partsupfunc key 0 (lv_value v) (probe_datums probe !!! 0%nat)).
Proof.
  intros (_ & _ & Hstrat & _ & _ & _ & _ & _ & Hcoll) Hk.
  destruct Hcoll as (_ & _ & Hdatums & _).
  unfold partition_bound_cmp. rewrite Hstrat, Nat2Z.id, Hdatums.
  erewrite (list_lookup_total_correct _ k);
    [|by rewrite list_lookup_fmap, Hk].
  done.
Qed.

Lemma canonical_list_ndatums key specs all_values ni mapping bi :
  canonical_list key specs all_values ni mapping bi ->
  ndatums bi = Z.of_nat (length all_values) /\
  length all_values = length (all_list_values 0 specs).
Proof.
  intros (_ & _ & _ & _ & Hperm & _ & _ & _ & (_ & Hnd & _)).
  split; [done|]. by apply Permutation_length.
Qed.

Lemma canonical_list_ascending key specs all_values ni mapping bi probe
    probe_is_bound :
  canonical_list key specs all_values ni mapping bi ->
  ascending_for_probe key bi probe probe_is_bound.
Proof.
  intros Hcanon i j Hij Hj (c & Hc & Hle).
  destruct (canonical_list_ndatums _ _ _ _ _ _ Hcanon) as [Hnd _].
  pose proof Hcanon as (Hcol & Hn & _ & _ & _ & Hsorted & _).
  rewrite Hnd in Hj.
  destruct (lookup_lt_is_Some_2 all_values (Z.to_nat i) ltac:(lia))
    as [a Ha].
  destruct (lookup_lt_is_Some_2 all_values (Z.to_nat j) ltac:(lia))
    as [b Hb].
  pose proof (StronglySorted_lookup_lt _ _ (Z.to_nat i) (Z.to_nat j) a b
                Hsorted ltac:(lia) Ha Hb) as Hab.
  cbn beta in Hab. unfold qsort_partition_list_value_cmp in Hab.
  pose proof (canonical_list_cmp key specs all_values ni mapping bi _ a
                probe probe_is_bound Hcanon Ha) as Hca.
  pose proof (canonical_list_cmp key specs all_values ni mapping bi _ b
                probe probe_is_bound Hcanon Hb) as Hcb.
  rewrite Z2Nat.id in Hca, Hcb by lia.
  rewrite Hcb in Hc. injection Hc as <-.
  eexists. split; [exact Hca|].
  destruct (Hcol 0%nat Hn) as [Hanti Htrans].
  set (p := probe_datums probe !!! 0%nat) in *.
  destruct (decide (partsupfunc key 0 (lv_value a) p < 0)) as [|Hge];
    [done|exfalso].
  pose proof (Hanti (lv_value a) p). pose proof (Hanti p (lv_value a)).
  pose proof (Htrans (lv_value b) p (lv_value a) Hle ltac:(lia)).
  pose proof (Hanti (lv_value a) (lv_value b)). lia.
Qed.

(** The search for a value in a canonical list collection: it ends on an
    equal stored value exactly when there is one. *)
Lemma canonical_list_bsearch key specs all_values ni mapping bi probe
    probe_is_bound :
  canonical_list key specs all_values ni mapping bi ->
  Z.of_nat (length all_values) <= 2 ^ 30 ->
  exists off eq',
    partition_bound_bsearch key bi probe probe_is_bound false
    = OK (off, eq') /\
    ((0 <=? off) && eq' = true ->
     exists v, all_values !! Z.to_nat off = Some v /\
       partsupfunc key 0 (lv_value v) (probe_datums probe !!! 0%nat) = 0) /\
    ((0 <=? off) && eq' = false ->
     forall v, v ∈ all_values ->
       partsupfunc key 0 (lv_value v) (probe_datums probe !!! 0%nat) <> 0).
Proof.
  intros Hcanon Hsize.
  destruct (canonical_list_ndatums _ _ _ _ _ _ Hcanon) as [Hnd _].
  pose proof (canonical_list_ascending key specs all_values ni mapping bi
                probe probe_is_bound Hcanon) as Hasc.
  assert (strategy key <> PARTITION_STRATEGY_UNKNOWN) as Hstrat.
  { destruct Hcanon as (_ & _ & -> & _). done. }
  destruct (partition_bound_bsearch_spec key bi probe probe_is_bound false
              Hstrat ltac:(lia) Hasc)
    as (off & eq' & Hrun & Hoff & Hle & Hgt & Heq & Hkeep).
  assert (forall (R' : Z -> Z -> Prop) k v, all_values !! k = Some v ->
            bound_vs_probe key bi probe probe_is_bound R' (Z.of_nat k) ->
            R' (partsupfunc key 0 (lv_value v)
                  (probe_datums probe !!! 0%nat)) 0) as Hread.
  { intros R' k v Hk (c & Hc & HR).
    rewrite (canonical_list_cmp key specs all_values ni mapping bi k v
               probe probe_is_bound Hcanon Hk) in Hc.
    by injection Hc as <-. }
  exists off, eq'. split; [done|]. split.
  - intros [Hpos ->]%andb_true_iff. apply Z.leb_le in Hpos.
    destruct (lookup_lt_is_Some_2 all_values (Z.to_nat off) ltac:(lia))
      as [v Hv].
    exists v. split; [done|].
    apply (Hread eq _ v Hv). rewrite Z2Nat.id by lia. by apply Heq.
  - intros Hno v Hv. apply list_elem_of_lookup in Hv as [k Hk].
    apply lookup_lt_Some in Hk as Hklt.
    destruct (Z.lt_trichotomy (Z.of_nat k) off) as [Hlt|[Heqk|Hlt]].
    + pose proof (Hread Z.lt k v Hk
                    (Hasc (Z.of_nat k) off ltac:(lia) ltac:(lia)
                       (Hle ltac:(lia)))). lia.
    + intros Hz.
      assert (eq' = true) as ->.
      { apply Heq; [lia|]. rewrite <- Heqk. eexists. split; [|exact Hz].
        by eapply canonical_list_cmp. }
      destruct (Z.leb_spec 0 off); [done|lia].
    + pose proof (Hread Z.gt k v Hk (Hgt (Z.of_nat k) ltac:(lia))). lia.
Qed.

Lemma declares_value_scanned inhoids p v :
  declares_value (scanned_boundspecs inhoids) p v <->
  exists part c, scanned_partitions inhoids !! p = Some part /\
    c ∈ listdatums (relpartbound part) /\ constisnull c = false /\
    constvalue c = v.
Proof.
  unfold declares_value, scanned_boundspecs. split.
  - intros (spec & c & Hp & Hc & Hnull & Hv).
    apply list_lookup_fmap_Some in Hp as (part & -> & Hpart).
    by exists part, c.
  - intros (part & c & Hp & Hc & Hnull & Hv).
    exists (relpartbound part), c. by rewrite list_lookup_fmap, Hp.
Qed.

Lemma canonical_list_member key specs all_values ni mapping bi v :
  canonical_list key specs all_values ni mapping bi ->
  v ∈ all_values <->
  exists p, lv_index v = Z.of_nat p /\ declares_value specs p (lv_value v).
Proof.
  intros (_ & _ & _ & _ & Hperm & _). rewrite Hperm.
  rewrite elem_of_all_list_values. unfold declares_value. split.
  - intros (p & spec & c & Hp & Hc & Hnull & ->). exists p. cbn.
    split; [lia|]. by exists spec, c.
  - intros (p & Hidx & spec & c & Hp & Hc & Hnull & Hv).
    exists p, spec, c. do 3 (split; [done|]).
    destruct v as [i x]. cbn in *. subst. f_equal; lia.
Qed.

(** The index that the list branch of [get_partition_for_tuple] reads
    after the search for a non-null value. *)
Lemma canonical_list_tuple_index key specs all_values ni mapping bi probe
    probe_is_bound :
  canonical_list key specs all_values ni mapping bi ->
  Z.of_nat (length all_values) <= 2 ^ 30 ->
  exists off eq',
    partition_bound_bsearch key bi probe probe_is_bound false
    = OK (off, eq') /\
    ((exists p v, declares_value specs p v /\
        partsupfunc key 0 v (probe_datums probe !!! 0%nat) = 0 /\
        (0 <=? off) && eq' = true /\
        indexes bi !!! Z.to_nat off = mapping !!! p) \/
     ((0 <=? off) && eq' = false /\
      forall p v, declares_value specs p v ->
        partsupfunc key 0 v (probe_datums probe !!! 0%nat) <> 0)).
Proof.
  intros Hcanon Hsize.
  destruct (canonical_list_bsearch key specs all_values ni mapping bi probe
              probe_is_bound Hcanon Hsize)
    as (off & eq' & Hrun & Hfound & Hnone).
  exists off, eq'. split; [done|].
  destruct ((0 <=? off) && eq') eqn:Hres.
  - left. destruct (Hfound eq_refl) as (v & Hv & Hz).
    pose proof (proj1 (canonical_list_member key specs all_values ni mapping
                         bi v Hcanon) (list_elem_of_lookup_2 _ _ _ Hv))
      as (p & Hidx & Hdecl).
    exists p, (lv_value v). repeat (split; [done|]).
    destruct Hcanon as (_ & _ & _ & _ & _ & _ & _ & _ & Hcoll).
    destruct Hcoll as (_ & _ & _ & _ & Hindexes & _).
    rewrite Hindexes.
    erewrite list_lookup_total_correct; [|by rewrite list_lookup_fmap, Hv].
    cbn. by rewrite Hidx, Nat2Z.id.
  - right. split; [done|]. intros p v Hdecl.
    apply (Hnone eq_refl {| lv_index := Z.of_nat p; lv_value := v |}).
    apply (canonical_list_member key specs all_values ni mapping bi _ Hcanon).
    by exists p.
Qed.
(** One turn of the walk at a node with a canonical list collection, for a
    tuple whose key column is not null. *)
Lemma get_partition_for_tuple_list_step
    k specs all_values ni mapping bi desc fuel pd parent slot values isnull :
  canonical_list k specs all_values ni mapping bi ->
  Z.of_nat (length all_values) <= 2 ^ 30 ->
  key parent = Some k -> partdesc parent = Some desc ->
  boundinfo desc = Some bi -> nparts desc <> 0 ->
  FormPartitionKeyDatum parent k (convert_slot parent slot)
  = OK (values, isnull) ->
  isnull !!! 0%nat = false ->
  (exists p v,
     declares_value specs p v /\
     partsupfunc k 0 v (values !!! 0%nat) = 0 /\
     0 <= mapping !!! p /\
     get_partition_for_tuple_loop (S fuel) pd parent slot
     = let next := pd_indexes parent !!! Z.to_nat (mapping !!! p) in
       if 0 <=? next then OK (Routed next)
       else
         parent' ← deref (pd !! Z.to_nat (- next));
         get_partition_for_tuple_loop fuel pd parent'
           (convert_slot parent slot)) \/
  ((forall p v, declares_value specs p v ->
      partsupfunc k 0 v (values !!! 0%nat) <> 0) /\
   get_partition_for_tuple_loop (S fuel) pd parent slot
   = OK (NotRouted parent (convert_slot parent slot))).
Proof.
  intros Hcanon Hsize Hkey Hdesc Hbi Hnparts Hform Hfirst.
  pose proof Hcanon as (_ & Hn & Hstrat & _ & _ & _ & Hbij & _).
  destruct (canonical_list_tuple_index k specs all_values ni mapping bi
              (ProbeDatums values) false Hcanon Hsize)
    as (off & eq' & Hrun & Hcases).
  cbn [probe_datums] in Hcases.
  assert (get_partition_for_tuple_loop (S fuel) pd parent slot
          = let cur_index :=
              if (0 <=? off) && eq' then indexes bi !!! Z.to_nat off
              else -1 in
            if cur_index <? 0
            then OK (NotRouted parent (convert_slot parent slot))
            else
              let next := pd_indexes parent !!! Z.to_nat cur_index in
              if 0 <=? next then OK (Routed next)
              else
                parent' ← deref (pd !! Z.to_nat (- next));
                get_partition_for_tuple_loop fuel pd parent'
                  (convert_slot parent slot)) as Hturn.
  { cbn [get_partition_for_tuple_loop]. rewrite Hdesc. cbn.
    destruct (Z.eqb_spec (nparts desc) 0) as [|_]; [done|].
    rewrite Hkey. cbn. rewrite Hform. cbn. rewrite Hstrat.
    rewrite bool_decide_eq_false_2 by done. cbn.
    rewrite Hbi. cbn. rewrite Hfirst. cbn. rewrite Hrun. cbn.
    by destruct ((0 <=? off) && eq'). }
  destruct Hcases as [(p & v & Hdecl & Hz & Hres & Hidx)|[Hres Hnone]].
  - left. exists p, v. split; [done|]. split; [done|].
    destruct Hdecl as (spec & c & Hp & _).
    destruct Hbij as (_ & Hord & _).
    pose proof (Hord p (lookup_lt_Some _ _ _ Hp)) as Hrange.
    split; [lia|]. rewrite Hturn, Hres, Hidx. cbn zeta.
    by destruct (Z.ltb_spec (mapping !!! p) 0); [lia|].
  - right. split; [done|]. by rewrite Hturn, Hres.
Qed.

(** X8: one turn of the walk of [get_partition_for_tuple] at a node whose
    descriptor was built for a valid set of list partitions that declare no
    value twice, for a tuple whose key column is not null.  If a partition
    declares a value that compares equal to the key of the tuple, the walk
    goes on from the entry of that partition in the node's array; if no
    partition does, the walk ends at the node with the converted tuple. *)
Theorem get_partition_for_tuple_list_partition
    qsort_arg junk k inhoids desc fuel pd parent slot values isnull :
  qsort_arg_spec qsort_arg -> column_orders k -> (0 < partnatts k)%nat ->
  strategy k = PARTITION_STRATEGY_LIST ->
  valid_list_partitions (scanned_boundspecs inhoids) ->
  list_values_disjoint k (scanned_boundspecs inhoids) ->
  Z.of_nat (length (all_list_values 0 (scanned_boundspecs inhoids)))
  <= 2 ^ 30 ->
  RelationBuildPartitionDesc qsort_arg junk (Some k) inhoids
  = OK (Some desc) ->
  key parent = Some k -> partdesc parent = Some desc ->
  FormPartitionKeyDatum parent k (convert_slot parent slot)
  = OK (values, isnull) ->
  isnull !!! 0%nat = false ->
  (exists p part c i,
     scanned_partitions inhoids !! p = Some part /\
     c ∈ listdatums (relpartbound part) /\ constisnull c = false /\
     partsupfunc k 0 (constvalue c) (values !!! 0%nat) = 0 /\
     oids desc !! i = Some (inhrelid part) /\
     get_partition_for_tuple_loop (S fuel) pd parent slot
     = let next := pd_indexes parent !!! i in
       if 0 <=? next then OK (Routed next)
       else
         parent' ← deref (pd !! Z.to_nat (- next));
         get_partition_for_tuple_loop fuel pd parent'
           (convert_slot parent slot)) \/
  ((forall p part c,
      scanned_partitions inhoids !! p = Some part ->
      c ∈ listdatums (relpartbound part) -> constisnull c = false ->
      partsupfunc k 0 (constvalue c) (values !!! 0%nat) <> 0) /\
   get_partition_for_tuple_loop (S fuel) pd parent slot
   = OK (NotRouted parent (convert_slot parent slot))).
Proof.
  intros Hq Hcol Hn Hstrat Hvalid Hdisjoint Hsize Hbuild Hkey Hdesc Hform
    Hfirst.
  destruct (scanned_partitions inhoids) as [|part0 parts0] eqn:Hparts.
  { right. split; [by intros p part c Hp|].
    rewrite RelationBuildPartitionDesc_no_partition in Hbuild by done.
    injection Hbuild as <-.
    cbn [get_partition_for_tuple_loop]. rewrite Hdesc. by cbn. }
  destruct (RelationBuildPartitionDesc_canonical_list qsort_arg junk k
              inhoids Hq Hcol Hn Hstrat)
    as (all_values & ni & mapping & desc' & bi & Hbuild' & Hbi & Hnparts
        & Hlen & Hown & Hcanon); [by rewrite Hparts|done|done|].
  assert (desc' = desc) as -> by congruence.
  assert (nparts desc <> 0) as Hnz.
  { rewrite Hnparts, Hparts. cbn [length]. lia. }
  rewrite <- Hparts in *. clear Hparts.
  destruct (canonical_list_ndatums _ _ _ _ _ _ Hcanon) as [_ Hlenv].
  destruct (get_partition_for_tuple_list_step k _ all_values ni mapping bi
              desc fuel pd parent slot values isnull Hcanon ltac:(lia) Hkey
              Hdesc Hbi Hnz Hform Hfirst)
    as [(p & v & Hdecl & Hz & Hord & Hrun)|[Hnone Hrun]].
  - left.
    apply declares_value_scanned in Hdecl as (part & c & Hp & Hc & Hnull & <-).
    exists p, part, c, (Z.to_nat (mapping !!! p)).
    do 4 (split; [done|]). split; [|done]. by apply Hown.
  - right. split; [|done]. intros p part c Hp Hc Hnull.
    apply (Hnone p). apply declares_value_scanned. by exists part, c.
Qed.

Lemma two_list_rows_disjoint :
  list_values_disjoint int4_list_key (scanned_boundspecs two_list_rows).
Proof.
  split; [apply two_list_rows_distinct|].
  change (NoDup [ {| lv_index := 0; lv_value := 1 |};
                  {| lv_index := 0; lv_value := 2 |};
                  {| lv_index := 1; lv_value := 3 |} ]).
  repeat constructor; rewrite ?elem_of_cons, ?elem_of_nil;
    intuition congruence.
Qed.

Lemma get_partition_for_tuple_list_partition_witness :
  (exists p part c i,
     scanned_partitions two_list_rows !! p = Some part /\
     c ∈ listdatums (relpartbound part) /\ constisnull c = false /\
     partsupfunc int4_list_key 0 (constvalue c) ([3] !!! 0%nat) = 0 /\
     [101; 102] !! i = Some (inhrelid part) /\
     get_partition_for_tuple_loop 1 [two_lists_root] two_lists_root
       (row_slot [Some 3])
     = let next := pd_indexes two_lists_root !!! i in
       if 0 <=? next then OK (Routed next)
       else
         parent' ← deref ([two_lists_root] !! Z.to_nat (- next));
         get_partition_for_tuple_loop 0 [two_lists_root] parent'
           (convert_slot two_lists_root (row_slot [Some 3]))) \/
  ((forall p part c,
      scanned_partitions two_list_rows !! p = Some part ->
      c ∈ listdatums (relpartbound part) -> constisnull c = false ->
      partsupfunc int4_list_key 0 (constvalue c) ([3] !!! 0%nat) <> 0) /\
   get_partition_for_tuple_loop 1 [two_lists_root] two_lists_root
     (row_slot [Some 3])
   = OK (NotRouted two_lists_root
           (convert_slot two_lists_root (row_slot [Some 3])))).
Proof.
  apply (get_partition_for_tuple_list_partition insertion_sort no_junk
           int4_list_key two_list_rows
           {| nparts := 2; oids := [101; 102];
              boundinfo := Some two_lists_boundinfo |}
           0 [two_lists_root] two_lists_root (row_slot [Some 3]) [3]
           [false]
           insertion_sort_spec int4_list_key_orders).
  - vm_compute. lia.
  - reflexivity.
  - apply two_list_rows_valid.
  - apply two_list_rows_disjoint.
  - vm_compute. discriminate.
  - reflexivity.
  - reflexivity.
  - reflexivity.
  - reflexivity.
  - reflexivity.
Defined.
(** ** The overlap check of a list candidate *)

Lemma null_count_zero listdatums c :
  null_count listdatums = 0%nat -> c ∈ listdatums -> constisnull c = false.
Proof.
  intros Hz Hc. destruct (constisnull c) eqn:Hnull; [|done].
  by destruct (null_count_nonzero listdatums c Hc Hnull).
Qed.

Lemma null_count_some listdatums :
  null_count listdatums <> 0%nat ->
  exists c, c ∈ listdatums /\ constisnull c = true.
Proof.
  unfold null_count. intros Hnz.
  destruct (filter (fun c => constisnull c = true) listdatums) as [|c rest]
    eqn:Hf; [done|].
  assert (c ∈ filter (fun c => constisnull c = true) listdatums) as Hc
    by (rewrite Hf; by left).
  apply list_elem_of_filter in Hc as [Hnull Hc]. by exists c.
Qed.

(** The null index of a canonical list collection. *)
Lemma canonical_list_null_index key specs all_values ni mapping bi :
  canonical_list key specs all_values ni mapping bi ->
  (partition_bound_accepts_nulls bi = false /\
   forall p, ~ declares_null specs p) \/
  (exists p, declares_null specs p /\
     partition_bound_accepts_nulls bi = true /\
     null_index bi = mapping !!! p).
Proof.
  intros (_ & _ & _ & _ & _ & _ & Hbij & Hni & Hcoll).
  destruct Hcoll as (_ & _ & _ & _ & _ & Hnull).
  unfold partition_bound_accepts_nulls. rewrite Hnull.
  destruct Hni as [[-> Hzero]|(p & spec & Hp & Hnz & ->)].
  - left. split; [done|]. intros p (spec & c & Hp & Hc & Hcnull).
    pose proof (total_null_count_lookup specs p spec Hp).
    by apply (null_count_nonzero _ c Hc Hcnull); lia.
  - right. exists p. split.
    { destruct (null_count_some _ Hnz) as (c & Hc & Hcnull).
      by exists spec, c. }
    destruct Hbij as (_ & Hord & _).
    pose proof (Hord p (lookup_lt_Some _ _ _ Hp)) as Hrange.
    destruct (Z.eqb_spec (Z.of_nat p) (-1)); [lia|].
    rewrite Nat2Z.id.
    by destruct (Z.eqb_spec (mapping !!! p) (-1)); [lia|].
Qed.

(** The loop over the values of a list candidate: it stops at the first
    value that a partition has taken, with the ordinal of that
    partition. *)
Lemma check_list_datums_spec key specs all_values ni mapping bi listdatums :
  canonical_list key specs all_values ni mapping bi ->
  Z.of_nat (length all_values) <= 2 ^ 30 ->
  (check_list_datums key bi listdatums = OK (false, -1) /\
   forall p c, c ∈ listdatums -> ~ value_taken key specs p c) \/
  (exists p c, c ∈ listdatums /\ value_taken key specs p c /\
     (p < length specs)%nat /\
     check_list_datums key bi listdatums = OK (true, mapping !!! p)).
Proof.
  intros Hcanon Hsize.
  induction listdatums as [|val rest IH].
  { left. split; [done|]. by intros p c ?%elem_of_nil. }
  assert ((forall p, ~ value_taken key specs p val) ->
            (check_list_datums key bi rest = OK (false, -1) /\
             forall p c, c ∈ val :: rest -> ~ value_taken key specs p c) \/
            (exists p c, c ∈ val :: rest /\ value_taken key specs p c /\
               (p < length specs)%nat /\
               check_list_datums key bi rest = OK (true, mapping !!! p)))
    as Hrest.
  { intros Hfree.
    destruct IH as [[Hrun Hnone]|(p & c & Hc & Htaken & Hlt & Hrun)].
    - left. split; [done|].
      intros p c [->|Hc]%elem_of_cons; [by apply Hfree|by apply Hnone].
    - right. exists p, c. split; [by right|done]. }
  cbn [check_list_datums].
  destruct (constisnull val) eqn:Hnull; cbn [negb].
  - destruct (canonical_list_null_index key specs all_values ni mapping bi
                Hcanon) as [[-> Hnone]|(p & Hdecl & -> & ->)].
    + apply Hrest. intros p. unfold value_taken. rewrite Hnull. apply Hnone.
    + right. exists p, val. split; [by left|].
      split; [unfold value_taken; by rewrite Hnull|]. split; [|done].
      destruct Hdecl as (spec & c & Hp & _). by eapply lookup_lt_Some.
  - destruct (canonical_list_tuple_index key specs all_values ni mapping bi
                (ProbeDatums [constvalue val]) true Hcanon Hsize)
      as (off & eq' & -> & Hcases).
    cbn [mbind res_bind probe_datums] in *.
    change ([constvalue val] !!! 0%nat) with (constvalue val) in Hcases.
    destruct Hcases as [(p & v & Hdecl & Hz & -> & ->)|[-> Hnone]].
    + right. exists p, val. split; [by left|].
      split; [unfold value_taken; rewrite Hnull; by exists v|].
      split; [|done].
      destruct Hdecl as (spec & c & Hp & _). by eapply lookup_lt_Some.
    + apply Hrest. intros p. unfold value_taken. rewrite Hnull.
      intros (v & Hdecl & Hz). by apply (Hnone p v).
Qed.

(** [check_new_partition_bound] for a list candidate, against the
    descriptor of a valid set of list partitions. *)
Lemma check_new_partition_bound_list_spec
    qsort_arg junk key inhoids spec :
  qsort_arg_spec qsort_arg -> column_orders key -> (0 < partnatts key)%nat ->
  strategy key = PARTITION_STRATEGY_LIST ->
  valid_list_partitions (scanned_boundspecs inhoids) ->
  list_values_disjoint key (scanned_boundspecs inhoids) ->
  Z.of_nat (length (all_list_values 0 (scanned_boundspecs inhoids)))
  <= 2 ^ 30 ->
  exists desc,
    RelationBuildPartitionDesc qsort_arg junk (Some key) inhoids
    = OK (Some desc) /\
    ((check_new_partition_bound key desc spec = OK tt /\
      forall p c, c ∈ listdatums spec ->
        ~ value_taken key (scanned_boundspecs inhoids) p c) \/
     (exists p part c,
        scanned_partitions inhoids !! p = Some part /\
        c ∈ listdatums spec /\
        value_taken key (scanned_boundspecs inhoids) p c /\
        check_new_partition_bound key desc spec
        = ERROR (ERR_would_overlap (inhrelid part)))).
Proof.
  intros Hq Hcol Hn Hstrat Hvalid Hdisjoint Hsize.
  destruct (scanned_partitions inhoids) as [|part0 parts0] eqn:Hparts.
  { eexists. split; [by apply RelationBuildPartitionDesc_no_partition|].
    left. unfold check_new_partition_bound. rewrite Hstrat. cbn.
    split; [reflexivity|]. intros p c _.
    assert (scanned_boundspecs inhoids = []) as ->
      by (unfold scanned_boundspecs; by rewrite Hparts).
    unfold value_taken, declares_null, declares_value.
    destruct (constisnull c).
    - by intros (? & ? & ? & _).
    - by intros (? & (? & ? & ? & _) & _). }
  destruct (RelationBuildPartitionDesc_canonical_list qsort_arg junk key
              inhoids Hq Hcol Hn Hstrat)
    as (all_values & ni & mapping & desc & bi & Hbuild & Hbi & Hnparts
        & Hlen & Hown & Hcanon); [by rewrite Hparts|done|done|].
  assert (scanned_partitions inhoids <> []) as Hne by (by rewrite Hparts).
  rewrite <- Hparts in *. clear Hparts.
  exists desc. split; [done|].
  destruct (canonical_list_ndatums _ _ _ _ _ _ Hcanon) as [_ Hlenv].
  assert ((0 <? nparts desc) = true) as Hpos.
  { apply Z.ltb_lt. rewrite Hnparts.
    destruct (scanned_partitions inhoids); [done|]. cbn [length]. lia. }
  unfold check_new_partition_bound. rewrite Hstrat, Hpos, Hbi.
  cbn [deref mbind res_bind].
  destruct (check_list_datums_spec key _ all_values ni mapping bi
              (listdatums spec) Hcanon ltac:(lia))
    as [[-> Hnone]|(p & c & Hc & Htaken & Hlt & ->)].
  - left. by split.
  - right. cbn [mbind res_bind].
    unfold scanned_boundspecs in Hlt. rewrite length_fmap in Hlt.
    destruct (lookup_lt_is_Some_2 _ _ Hlt) as [part Hp].
    exists p, part, c. do 3 (split; [done|]).
    pose proof Hcanon as (_ & _ & _ & _ & _ & _ & (_ & Hord & _) & _).
    unfold scanned_boundspecs in Hord. rewrite length_fmap in Hord.
    pose proof (Hord p Hlt).
    destruct (Z.leb_spec 0 (mapping !!! p)); [|lia].
    by rewrite (list_lookup_total_correct _ _ _ (Hown p part Hp)).
Qed.

(** X9: [check_new_partition_bound] for a list candidate, against the
    descriptor built for a valid set of list partitions that declare no
    value twice (possibly no partition): it returns without error exactly
    when no value of the candidate is taken by a partition; otherwise it
    raises the overlap error, and the partition it names has taken a value
    of the candidate: it declares NULL and so does the candidate, or it
    declares a value that compares equal to one of the candidate. *)
Theorem check_new_partition_bound_list_overlap
    qsort_arg junk key inhoids spec :
  qsort_arg_spec qsort_arg -> column_orders key -> (0 < partnatts key)%nat ->
  strategy key = PARTITION_STRATEGY_LIST ->
  valid_list_partitions (scanned_boundspecs inhoids) ->
  list_values_disjoint key (scanned_boundspecs inhoids) ->
  Z.of_nat (length (all_list_values 0 (scanned_boundspecs inhoids)))
  <= 2 ^ 30 ->
  exists desc,
    RelationBuildPartitionDesc qsort_arg junk (Some key) inhoids
    = OK (Some desc) /\
    ((check_new_partition_bound key desc spec = OK tt /\
      forall p c, c ∈ listdatums spec ->
        ~ value_taken key (scanned_boundspecs inhoids) p c) \/
     (exists p part c,
        scanned_partitions inhoids !! p = Some part /\
        c ∈ listdatums spec /\
        value_taken key (scanned_boundspecs inhoids) p c /\
        check_new_partition_bound key desc spec
        = ERROR (ERR_would_overlap (inhrelid part)))).
Proof. apply check_new_partition_bound_list_spec. Qed.

Lemma check_new_partition_bound_list_overlap_witness :
  exists desc,
    RelationBuildPartitionDesc insertion_sort no_junk (Some int4_list_key)
      two_list_rows = OK (Some desc) /\
    ((check_new_partition_bound int4_list_key desc
        (list_spec [Some 4; None]) = OK tt /\
      forall p c, c ∈ listdatums (list_spec [Some 4; None]) ->
        ~ value_taken int4_list_key (scanned_boundspecs two_list_rows) p c) \/
     (exists p part c,
        scanned_partitions two_list_rows !! p = Some part /\
        c ∈ listdatums (list_spec [Some 4; None]) /\
        value_taken int4_list_key (scanned_boundspecs two_list_rows) p c /\
        check_new_partition_bound int4_list_key desc
          (list_spec [Some 4; None])
        = ERROR (ERR_would_overlap (inhrelid part)))).
Proof.
  apply (check_new_partition_bound_list_overlap insertion_sort no_junk
           int4_list_key two_list_rows (list_spec [Some 4; None])
           insertion_sort_spec int4_list_key_orders).
  - vm_compute. lia.
  - reflexivity.
  - apply two_list_rows_valid.
  - apply two_list_rows_disjoint.
  - vm_compute. discriminate.
Defined.
(** ** What [partition_bounds_equal] compares *)

Lemma content_eqb_eq c1 c2 : content_eqb c1 c2 = true <-> c1 = c2.
Proof. destruct c1, c2; cbn; split; (done || discriminate). Qed.

Lemma bounds_equal_columns_iff b1 b2 i n j :
  (is_Some (bi_content b1) -> is_Some (bi_content b2)) ->
  bounds_equal_columns b1 b2 i n j = true <->
  forall j', (j <= j' < j + n)%nat -> bound_cells_agree b1 b2 i j'.
Proof.
  intros Hcontent. unfold bound_cells_agree.
  revert j. induction n as [|n IH]; intros j.
  { split; [intros _ j' ?; lia|done]. }
  cbn [bounds_equal_columns]. specialize (IH (S j)).
  assert ((forall j', (j <= j' < j + S n)%nat ->
             match bi_content b1, bi_content b2 with
             | Some content1, Some content2 =>
                 (content1 !!! i) !!! j' = (content2 !!! i) !!! j' /\
                 ((content1 !!! i) !!! j' = RANGE_DATUM_FINITE ->
                  (bi_datums b1 !!! i) !!! j' = (bi_datums b2 !!! i) !!! j')
             | Some _, None => False
             | None, _ =>
                 (bi_datums b1 !!! i) !!! j' = (bi_datums b2 !!! i) !!! j'
             end) <->
          match bi_content b1, bi_content b2 with
          | Some content1, Some content2 =>
              (content1 !!! i) !!! j = (content2 !!! i) !!! j /\
              ((content1 !!! i) !!! j = RANGE_DATUM_FINITE ->
               (bi_datums b1 !!! i) !!! j = (bi_datums b2 !!! i) !!! j)
          | Some _, None => False
          | None, _ =>
              (bi_datums b1 !!! i) !!! j = (bi_datums b2 !!! i) !!! j
          end /\
          bounds_equal_columns b1 b2 i n (S j) = true) as ->.
  { rewrite IH. split.
    - intros H. split; [apply H; lia|]. intros j' Hj'. apply H. lia.
    - intros [H0 H] j' Hj'.
      destruct (decide (j' = j)) as [->|]; [done|]. apply H. lia. }
  destruct (bi_content b1) as [content1|].
  - destruct (Hcontent ltac:(done)) as [content2 ->].
    unfold default. cbn [from_option id].
    destruct (content_eqb ((content1 !!! i) !!! j) ((content2 !!! i) !!! j))
      eqn:Hc; cbn [negb].
    + apply content_eqb_eq in Hc.
      destruct ((content1 !!! i) !!! j) eqn:Hc1; cbn [is_finite negb].
      * destruct (Z.eqb_spec ((bi_datums b1 !!! i) !!! j)
                    ((bi_datums b2 !!! i) !!! j)) as [Hd|Hd]; cbn [negb].
        -- split; [intros Hrec; by split|by intros [_ ?]].
        -- split; [done|]. intros [[_ Hf] _]. by destruct Hd; apply Hf.
      * split; [intros Hrec; by split|by intros [_ ?]].
      * split; [intros Hrec; by split|by intros [_ ?]].
    + split; [done|]. intros [[Heq _] _].
      apply content_eqb_eq in Heq. congruence.
  - destruct (Z.eqb_spec ((bi_datums b1 !!! i) !!! j)
                ((bi_datums b2 !!! i) !!! j)) as [Hd|Hd]; cbn [negb].
    + split; [intros Hrec; by split|by intros [_ ?]].
    + split; [done|by intros [? _]].
Qed.

Lemma bounds_equal_bounds_iff key b1 b2 n i r :
  (is_Some (bi_content b1) -> is_Some (bi_content b2)) ->
  bounds_equal_bounds key b1 b2 n i = Some r <->
  r = (i + n)%nat /\
  forall i', (i <= i' < i + n)%nat ->
    indexes b1 !!! i' = indexes b2 !!! i' /\
    forall j, (j < partnatts key)%nat -> bound_cells_agree b1 b2 i' j.
Proof.
  intros Hcontent. revert i. induction n as [|n IH]; intros i.
  { cbn. split.
    - intros [= <-]. split; [lia|]. intros i' ?. lia.
    - intros [-> _]. f_equal. lia. }
  cbn [bounds_equal_bounds].
  destruct (bounds_equal_columns b1 b2 i (partnatts key) 0) eqn:Hcols;
    cbn [negb].
  - pose proof (proj1 (bounds_equal_columns_iff b1 b2 i _ 0 Hcontent) Hcols)
      as Hcells. clear Hcols. rename Hcells into Hcols.
    destruct (Z.eqb_spec (indexes b1 !!! i) (indexes b2 !!! i)) as [Hidx|Hidx];
      cbn [negb].
    + rewrite IH. split.
      * intros [-> H]. split; [lia|]. intros i' Hi'.
        destruct (decide (i' = i)) as [->|].
        -- split; [done|]. intros j Hj. apply Hcols. lia.
        -- apply H. lia.
      * intros [-> H]. split; [lia|]. intros i' Hi'. apply H. lia.
    + split; [done|]. intros [_ H].
      destruct (H i ltac:(lia)) as [? _]. done.
  - split; [done|]. intros [_ H]. destruct (H i ltac:(lia)) as [_ Hc].
    assert (bounds_equal_columns b1 b2 i (partnatts key) 0 = true) as Ht.
    { apply (bounds_equal_columns_iff b1 b2 i _ 0 Hcontent).
      intros j Hj. apply Hc. lia. }
    congruence.
Qed.

(** [partition_bounds_equal] returns true exactly for the collections that
    agree field by field. *)
Lemma partition_bounds_equal_spec key b1 b2 :
  (is_Some (bi_content b1) -> is_Some (bi_content b2)) ->
  partition_bounds_equal key b1 b2 = true <->
  bi_strategy b1 = bi_strategy b2 /\ ndatums b1 = ndatums b2 /\
  null_index b1 = null_index b2 /\
  (forall i, (i < Z.to_nat (ndatums b1))%nat ->
     indexes b1 !!! i = indexes b2 !!! i /\
     forall j, (j < partnatts key)%nat -> bound_cells_agree b1 b2 i j) /\
  (strategy key = PARTITION_STRATEGY_RANGE ->
   indexes b1 !!! Z.to_nat (ndatums b1)
   = indexes b2 !!! Z.to_nat (ndatums b1)).
Proof.
  intros Hcontent. unfold partition_bounds_equal.
  destruct (decide (bi_strategy b1 = bi_strategy b2)) as [Hs|Hs].
  2:{ rewrite bool_decide_eq_false_2 by done. cbn.
      split; [done|by intros [? _]]. }
  rewrite bool_decide_eq_true_2 by done. cbn [negb].
  destruct (Z.eqb_spec (ndatums b1) (ndatums b2)) as [Hn|Hn]; cbn [negb].
  2:{ split; [done|by intros (_ & ? & _)]. }
  destruct (Z.eqb_spec (null_index b1) (null_index b2)) as [Hni|Hni];
    cbn [negb].
  2:{ split; [done|by intros (_ & _ & ? & _)]. }
  destruct (bounds_equal_bounds key b1 b2 (Z.to_nat (ndatums b1)) 0)
    as [r|] eqn:Hloop.
  - destruct (proj1 (bounds_equal_bounds_iff key b1 b2 _ 0 r Hcontent)
                Hloop) as [-> Hrows].
    rewrite Nat.add_0_l.
    assert (forall i, (i < Z.to_nat (ndatums b1))%nat ->
              indexes b1 !!! i = indexes b2 !!! i /\
              forall j, (j < partnatts key)%nat ->
                bound_cells_agree b1 b2 i j) as Hrows'.
    { intros i Hi. apply Hrows. lia. }
    destruct (decide (strategy key = PARTITION_STRATEGY_RANGE)) as [Hr|Hr].
    + rewrite bool_decide_eq_true_2 by done. cbn [andb].
      destruct (Z.eqb_spec (indexes b1 !!! Z.to_nat (ndatums b1))
                  (indexes b2 !!! Z.to_nat (ndatums b1)));
        cbn [negb]; [done|].
      split; [done|]. intros (_ & _ & _ & _ & Hlast). by specialize (Hlast Hr).
    + rewrite bool_decide_eq_false_2 by done. cbn [andb]. done.
  - split; [done|]. intros (_ & _ & _ & Hrows & _).
    assert (bounds_equal_bounds key b1 b2 (Z.to_nat (ndatums b1)) 0
            = Some (0 + Z.to_nat (ndatums b1))%nat) as Hsome.
    { apply (bounds_equal_bounds_iff key b1 b2 _ 0 _ Hcontent).
      split; [done|]. intros i Hi. apply Hrows. lia. }
    congruence.
Qed.

(** X10: for two collections of which the second has content arrays when
    the first has, [partition_bounds_equal] returns true exactly when they
    have the same strategy, [ndatums] and [null_index], the same index at
    every offset (and, with a range key, the same extra last index), the
    same content tag in every cell, and the same datum in every cell that
    is finite (in every cell when there are no content arrays).  The datum
    in the cell of an infinite column is not compared. *)
Theorem partition_bounds_equal_fields key b1 b2 :
  (is_Some (bi_content b1) -> is_Some (bi_content b2)) ->
  partition_bounds_equal key b1 b2 = true <->
  bi_strategy b1 = bi_strategy b2 /\ ndatums b1 = ndatums b2 /\
  null_index b1 = null_index b2 /\
  (forall i, (i < Z.to_nat (ndatums b1))%nat ->
     indexes b1 !!! i = indexes b2 !!! i /\
     forall j, (j < partnatts key)%nat -> bound_cells_agree b1 b2 i j) /\
  (strategy key = PARTITION_STRATEGY_RANGE ->
   indexes b1 !!! Z.to_nat (ndatums b1)
   = indexes b2 !!! Z.to_nat (ndatums b1)).
Proof. apply partition_bounds_equal_spec. Qed.

Lemma partition_bounds_equal_fields_witness :
  partition_bounds_equal int4_range_key (open_range_boundinfo 0)
    (open_range_boundinfo 7) = true <->
  bi_strategy (open_range_boundinfo 0) = bi_strategy (open_range_boundinfo 7)
  /\ ndatums (open_range_boundinfo 0) = ndatums (open_range_boundinfo 7) /\
  null_index (open_range_boundinfo 0) = null_index (open_range_boundinfo 7)
  /\
  (forall i, (i < Z.to_nat (ndatums (open_range_boundinfo 0)))%nat ->
     indexes (open_range_boundinfo 0) !!! i
     = indexes (open_range_boundinfo 7) !!! i /\
     forall j, (j < partnatts int4_range_key)%nat ->
       bound_cells_agree (open_range_boundinfo 0) (open_range_boundinfo 7)
         i j) /\
  (strategy int4_range_key = PARTITION_STRATEGY_RANGE ->
   indexes (open_range_boundinfo 0)
     !!! Z.to_nat (ndatums (open_range_boundinfo 0))
   = indexes (open_range_boundinfo 7)
       !!! Z.to_nat (ndatums (open_range_boundinfo 0))).
Proof.
  apply (partition_bounds_equal_fields int4_range_key
           (open_range_boundinfo 0) (open_range_boundinfo 7)).
  intros _. by eexists.
Defined.
Lemma bound_cells_agree_refl b i j : bound_cells_agree b b i j.
Proof. unfold bound_cells_agree. by destruct (bi_content b). Qed.

Lemma bound_cells_agree_sym b1 b2 i j :
  (is_Some (bi_content b2) -> is_Some (bi_content b1)) ->
  bound_cells_agree b1 b2 i j -> bound_cells_agree b2 b1 i j.
Proof.
  unfold bound_cells_agree. intros Hcontent.
  destruct (bi_content b1) as [c1|], (bi_content b2) as [c2|]; try done.
  - intros [Hc Hd]. split; [done|]. intros Hf. symmetry. apply Hd. congruence.
  - by destruct (Hcontent ltac:(done)).
Qed.

Lemma bound_cells_agree_trans b1 b2 b3 i j :
  (is_Some (bi_content b2) -> is_Some (bi_content b1)) ->
  bound_cells_agree b1 b2 i j -> bound_cells_agree b2 b3 i j ->
  bound_cells_agree b1 b3 i j.
Proof.
  unfold bound_cells_agree. intros Hcontent.
  destruct (bi_content b1) as [c1|], (bi_content b2) as [c2|],
    (bi_content b3) as [c3|]; try done.
  - intros [Hc Hd] [Hc' Hd']. split; [congruence|]. intros Hf.
    rewrite Hd by done. apply Hd'. congruence.
  - by destruct (Hcontent ltac:(done)).
  - congruence.
  - congruence.
Qed.

Lemma partition_bounds_equal_sym key b1 b2 :
  (is_Some (bi_content b1) <-> is_Some (bi_content b2)) ->
  partition_bounds_equal key b1 b2 = true ->
  partition_bounds_equal key b2 b1 = true.
Proof.
  intros [H12 H21].
  rewrite (partition_bounds_equal_spec key b1 b2 H12),
    (partition_bounds_equal_spec key b2 b1 H21).
  intros (Hs & Hn & Hni & Hrows & Hlast). rewrite <- Hn.
  do 3 (split; [done|]). split.
  - intros i Hi. destruct (Hrows i Hi) as [Hidx Hcells].
    split; [done|]. intros j Hj. apply bound_cells_agree_sym; [done|].
    by apply Hcells.
  - intros Hr. symmetry. by apply Hlast.
Qed.

(** X11: on collections that all have content arrays or all have none,
    [partition_bounds_equal] is an equivalence: every collection equals
    itself, the result does not depend on the order of the two arguments,
    and two collections equal to a third are equal. *)
Theorem partition_bounds_equal_equivalence key b1 b2 b3 :
  (is_Some (bi_content b1) <-> is_Some (bi_content b2)) ->
  (is_Some (bi_content b2) <-> is_Some (bi_content b3)) ->
  partition_bounds_equal key b1 b1 = true /\
  partition_bounds_equal key b1 b2 = partition_bounds_equal key b2 b1 /\
  (partition_bounds_equal key b1 b2 = true ->
   partition_bounds_equal key b2 b3 = true ->
   partition_bounds_equal key b1 b3 = true).
Proof.
  intros H12 H23. split; [|split].
  - apply partition_bounds_equal_spec; [done|].
    do 3 (split; [done|]). split; [|done]. intros i _. split; [done|].
    intros j _. apply bound_cells_agree_refl.
  - destruct (partition_bounds_equal key b1 b2) eqn:E12,
      (partition_bounds_equal key b2 b1) eqn:E21; try done.
    + apply (partition_bounds_equal_sym key b1 b2 H12) in E12. congruence.
    + apply (partition_bounds_equal_sym key b2 b1) in E21; [congruence|].
      by split; apply H12.
  - rewrite (partition_bounds_equal_spec key b1 b2 (proj1 H12)),
      (partition_bounds_equal_spec key b2 b3 (proj1 H23)),
      (partition_bounds_equal_spec key b1 b3).
    2:{ intros H1. by apply H23, H12. }
    intros (Hs & Hn & Hni & Hrows & Hlast)
      (Hs' & Hn' & Hni' & Hrows' & Hlast').
    rewrite <- Hn in Hrows', Hlast'.
    split; [congruence|]. split; [congruence|]. split; [congruence|]. split.
    + intros i Hi. destruct (Hrows i Hi) as [Hidx Hcells].
      destruct (Hrows' i Hi) as [Hidx' Hcells'].
      split; [congruence|]. intros j Hj.
      apply (bound_cells_agree_trans b1 b2 b3); [apply H12|by apply Hcells|].
      by apply Hcells'.
    + intros Hr. rewrite Hlast by done. by apply Hlast'.
Qed.

Lemma partition_bounds_equal_equivalence_witness :
  partition_bounds_equal int4_range_key (open_range_boundinfo 0)
    (open_range_boundinfo 0) = true /\
  partition_bounds_equal int4_range_key (open_range_boundinfo 0)
    (open_range_boundinfo 7)
  = partition_bounds_equal int4_range_key (open_range_boundinfo 7)
      (open_range_boundinfo 0) /\
  (partition_bounds_equal int4_range_key (open_range_boundinfo 0)
     (open_range_boundinfo 7) = true ->
   partition_bounds_equal int4_range_key (open_range_boundinfo 7)
     two_ranges_boundinfo = true ->
   partition_bounds_equal int4_range_key (open_range_boundinfo 0)
     two_ranges_boundinfo = true).
Proof.
  apply (partition_bounds_equal_equivalence int4_range_key
           (open_range_boundinfo 0) (open_range_boundinfo 7)
           two_ranges_boundinfo).
  - split; intros _; by eexists.
  - split; intros _; by eexists.
Defined.
(** ** The key of a tuple *)

Lemma FormPartitionKeyDatum_loop_spec partattrs slot items n i :
  (i + n = length partattrs)%nat ->
  if decide (length items = expression_columns (drop i partattrs))
  then
    exists values isnull,
      FormPartitionKeyDatum_loop partattrs slot items n i
      = OK (values, isnull) /\
      length values = n /\ length isnull = n /\
      forall j keycol, partattrs !! (i + j)%nat = Some keycol ->
        exists cell,
          values !! j = Some (default 0 cell) /\
          isnull !! j = Some (bool_decide (cell = None)) /\
          if decide (keycol = 0)
          then exists e,
                 items !! expression_columns (take j (drop i partattrs))
                 = Some e /\
                 cell = e (tts_tuple slot)
          else cell = slot_getattr slot keycol
  else
    FormPartitionKeyDatum_loop partattrs slot items n i
    = ERROR ERR_wrong_number_of_key_expressions.
Proof.
  revert i items. induction n as [|n IH]; intros i items Hlen.
  { rewrite drop_ge by lia. cbn.
    destruct items as [|e items]; cbn.
    - eexists _, _. repeat (split; [done|]).
      intros j keycol Hj. apply lookup_lt_Some in Hj. lia.
    - done. }
  destruct (lookup_lt_is_Some_2 partattrs i ltac:(lia)) as [keycol Hi].
  cbn [FormPartitionKeyDatum_loop].
  rewrite (list_lookup_total_correct _ _ _ Hi).
  rewrite (drop_S _ _ _ Hi). unfold expression_columns.
  specialize (IH (S i)).
  destruct (Z.eqb_spec keycol 0) as [->|Hplain]; cbn [negb].
  - rewrite filter_cons_True by done. cbn [length].
    destruct items as [|e items]; [by cbn|].
    cbn [mbind res_bind length]. specialize (IH items ltac:(lia)).
    unfold expression_columns in IH.
    destruct (decide (length items
                      = length (filter (fun keycol => keycol = 0)
                                  (drop (S i) partattrs)))) as [Hcount|Hcount].
    + rewrite decide_True by lia.
      destruct IH as (values & isnull & -> & Hv & Hn & Hcells).
      cbn [mbind res_bind]. eexists _, _. split; [done|].
      split; [cbn; lia|]. split; [cbn; lia|].
      intros j keycol Hj. destruct j as [|j].
      * rewrite Nat.add_0_r, Hi in Hj. injection Hj as <-.
        exists (e (tts_tuple slot)). do 2 (split; [done|]).
        rewrite decide_True by done. by exists e.
      * destruct (Hcells j keycol) as (cell & ? & ? & Hcell).
        { by replace (S i + j)%nat with (i + S j)%nat by lia. }
        exists cell. do 2 (split; [done|]).
        destruct (decide (keycol = 0)); [|done].
        destruct Hcell as (e' & He' & ->). exists e'. split; [|done].
        cbn [take]. by rewrite filter_cons_True by done.
    + rewrite decide_False by lia. by rewrite IH.
  - rewrite filter_cons_False by done.
    cbn [mbind res_bind]. specialize (IH items ltac:(lia)).
    unfold expression_columns in IH.
    destruct (decide (length items
                      = length (filter (fun keycol => keycol = 0)
                                  (drop (S i) partattrs)))) as [Hcount|Hcount].
    + destruct IH as (values & isnull & -> & Hv & Hn & Hcells).
      cbn [mbind res_bind]. eexists _, _. split; [done|].
      split; [cbn; lia|]. split; [cbn; lia|].
      intros j keycol' Hj. destruct j as [|j].
      * rewrite Nat.add_0_r, Hi in Hj. injection Hj as <-.
        exists (slot_getattr slot keycol). do 2 (split; [done|]).
        by rewrite decide_False by done.
      * destruct (Hcells j keycol') as (cell & ? & ? & Hcell).
        { by replace (S i + j)%nat with (i + S j)%nat by lia. }
        exists cell. do 2 (split; [done|]).
        destruct (decide (keycol' = 0)); [|done].
        destruct Hcell as (e' & He' & ->). exists e'. split; [|done].
        cbn [take]. by rewrite filter_cons_False by done.
    + by rewrite IH.
Qed.

(** X12: [FormPartitionKeyDatum] for a key whose [partattrs] has
    [partnatts] entries; the expression states are [pd->keystate], or
    [key->partexprs] when [pd->keystate] is empty.  If there are as many
    states as the key has expression columns, it fills [partnatts] cells of
    [values] and [isnull]: a plain column gets the attribute of the tuple,
    the n-th expression column gets the value of the n-th state, and a NULL
    is flagged and given the datum 0.  Otherwise it raises the error "wrong
    number of partition key expressions". *)
Theorem FormPartitionKeyDatum_cells pd k slot :
  length (partattrs k) = partnatts k ->
  let states := if decide (keystate pd = []) then partexprs k
                else keystate pd in
  if decide (length states = expression_columns (partattrs k))
  then
    exists values isnull,
      FormPartitionKeyDatum pd k slot = OK (values, isnull) /\
      length values = partnatts k /\ length isnull = partnatts k /\
      forall i keycol, partattrs k !! i = Some keycol ->
        exists cell,
          values !! i = Some (default 0 cell) /\
          isnull !! i = Some (bool_decide (cell = None)) /\
          if decide (keycol = 0)
          then exists e,
                 states !! expression_columns (take i (partattrs k))
                 = Some e /\
                 cell = e (tts_tuple slot)
          else cell = slot_getattr slot keycol
  else
    FormPartitionKeyDatum pd k slot
    = ERROR ERR_wrong_number_of_key_expressions.
Proof.
  intros Hlen states. unfold FormPartitionKeyDatum.
  assert (match partexprs k, keystate pd with
          | _ :: _, [] => partexprs k
          | _, _ => keystate pd
          end = states) as ->.
  { unfold states. destruct (keystate pd) as [|e ks].
    - rewrite decide_True by done. by destruct (partexprs k).
    - rewrite decide_False by done. by destruct (partexprs k). }
  pose proof (FormPartitionKeyDatum_loop_spec (partattrs k) slot states
                (partnatts k) 0 ltac:(lia)) as Hloop.
  by rewrite drop_0 in Hloop.
Qed.

Lemma FormPartitionKeyDatum_cells_witness :
  exists values isnull,
    FormPartitionKeyDatum (root_node expression_key two_ranges_boundinfo [0; 1])
      expression_key (row_slot [Some 4; None]) = OK (values, isnull) /\
    length values = 2%nat /\ length isnull = 2%nat /\
    forall i keycol, [0; 2] !! i = Some keycol ->
      exists cell,
        values !! i = Some (default 0 cell) /\
        isnull !! i = Some (bool_decide (cell = None)) /\
        if decide (keycol = 0)
        then exists e,
               partexprs expression_key
                 !! expression_columns (take i [0; 2]) = Some e /\
               cell = e [Some 4; None]
        else cell = slot_getattr (row_slot [Some 4; None]) keycol.
Proof.
  apply (FormPartitionKeyDatum_cells
           (root_node expression_key two_ranges_boundinfo [0; 1])
           expression_key (row_slot [Some 4; None])).
  reflexivity.
Defined.
(** ** The order of the partitions in the descriptor *)

(** Positions that are assigned for the first time get consecutive
    ordinals. *)
Lemma assign_all_position n os st k o :
  partial_ordinals n st ->
  Forall (fun o => 0 <= o < Z.of_nat n) os -> NoDup os ->
  (forall o, o ∈ os -> st.1 !!! Z.to_nat o = -1) ->
  os !! k = Some o ->
  (assign_all os st).1 !!! Z.to_nat o = st.2 + Z.of_nat k.
Proof.
  intros Hinv Hos. revert st k Hinv.
  induction Hos as [|o' os Ho' Hos IH]; intros [mapping next_index] k Hinv
    Hnd Hfree Hk; [done|].
  apply NoDup_cons in Hnd as [Hnotin Hnd].
  rewrite assign_all_cons. cbn [fst snd] in *.
  pose proof (Hfree o' ltac:(by left)) as Hfree'.
  destruct (partial_ordinals_assign n o' mapping next_index Hinv Ho')
    as (Hinv' & Hset & Hkeep).
  unfold assign_mapping in *. rewrite Hfree', Z.eqb_refl in *.
  cbn [fst snd] in *.
  destruct Hinv as (Hlen & _).  cbn [fst] in Hlen.
  destruct k as [|k].
  - injection Hk as <-.
    destruct (partial_ordinals_assign_all n os _ Hinv' Hos)
      as (_ & Hkeep' & _). cbn [fst snd] in Hkeep'.
    rewrite Hkeep'; [|lia|].
    + rewrite list_lookup_total_insert_eq by lia. lia.
    + exact Hset.
  - cbn in Hk. rewrite (IH _ k Hinv' Hnd); [cbn [snd]; lia| |done].
    intros o1 Ho1. cbn [fst].
    rewrite list_lookup_total_insert_ne; [apply Hfree; by right|].
    intros Heq.
    assert (o1 = o') as ->.
    { pose proof (proj1 (Forall_forall _ _) Hos o1 Ho1). cbn beta in *. lia. }
    done.
Qed.

Lemma build_boundinfo_range_order junk key n rbounds bi mapping :
  strategy key = PARTITION_STRATEGY_RANGE ->
  Forall (fun b => 0 <= rb_index b < Z.of_nat n) rbounds ->
  NoDup (rb_index <$> filter (fun b => rb_lower b = false) rbounds) ->
  build_boundinfo junk key n (RawRange rbounds) = OK (bi, mapping) ->
  forall k b,
    filter (fun b => rb_lower b = false) rbounds !! k = Some b ->
    mapping !!! Z.to_nat (rb_index b) = Z.of_nat k.
Proof.
  intros Hstrat Hall Hnd Hbuild k b Hk. unfold build_boundinfo in Hbuild.
  rewrite Hstrat in Hbuild.
  pose proof (range_boundinfo_loop_state key junk rbounds 0
                (replicate n (-1)) 0) as Hstate.
  destruct (range_boundinfo_loop key junk rbounds 0 (replicate n (-1)) 0)
    as [[[datums content] idx] [m next_index]].
  cbn [fst snd] in *. injection Hbuild as _ <-.
  replace m with (m, next_index).1 by done. rewrite Hstate.
  rewrite (assign_all_position n _ _ k (rb_index b)); [done| | |done| |].
  - apply partial_ordinals_init.
  - apply Forall_fmap, Forall_forall. intros b' Hb'.
    apply list_elem_of_filter in Hb' as [_ Hb'].
    exact (proj1 (Forall_forall _ _) Hall b' Hb').
  - intros o Ho. cbn [fst].
    apply list_elem_of_fmap in Ho as (b' & -> & Hb').
    apply list_elem_of_filter in Hb' as [_ Hb'].
    pose proof (proj1 (Forall_forall _ _) Hall b' Hb'). cbn beta in *.
    apply lookup_total_replicate_2. lia.
  - by rewrite list_lookup_fmap, Hk.
Qed.

Lemma StronglySorted_filter {A} (R : A -> A -> Prop) (P : A -> Prop)
    `{!forall x, Decision (P x)} l :
  StronglySorted R l -> StronglySorted R (filter P l).
Proof.
  induction 1 as [|a l Hsorted IH Ha]; [constructor|].
  destruct (decide (P a)).
  - rewrite filter_cons_True by done. constructor; [done|].
    apply Forall_forall. intros b Hb. apply list_elem_of_filter in Hb as [_ Hb].
    exact (proj1 (Forall_forall _ _) Ha b Hb).
  - by rewrite filter_cons_False by done.
Qed.

Lemma distinct_bounds_upper_nodup key specs rbounds :
  column_orders key ->
  distinct_bounds_of key specs rbounds ->
  NoDup (rb_index <$> filter (fun b => rb_lower b = false) rbounds).
Proof.
  intros Hcol (Hsorted & Hmem & _).
  set (U := filter (fun b => rb_lower b = false) rbounds).
  assert (StronglySorted (below_for_probes key) U) as HU
    by (by apply StronglySorted_filter).
  apply NoDup_alt. intros i j o Hi Hj.
  apply list_lookup_fmap_Some in Hi as (a & -> & Ha).
  apply list_lookup_fmap_Some in Hj as (b & Hidx & Hb).
  assert (a = b) as ->.
  { pose proof (list_elem_of_lookup_2 _ _ _ Ha) as Hain.
    pose proof (list_elem_of_lookup_2 _ _ _ Hb) as Hbin.
    apply list_elem_of_filter in Hain as [Hal Hain].
    apply list_elem_of_filter in Hbin as [Hbl Hbin].
    destruct (Hmem a Hain) as (p & lp & up & Hp & Hor).
    destruct (Hmem b Hbin) as (q & lq & uq & Hq & Hor').
    destruct (partition_edges_fields _ _ _ _ _ Hp)
      as (_ & _ & Hlpl & Hupi & _).
    destruct (partition_edges_fields _ _ _ _ _ Hq)
      as (_ & _ & Hlql & Huqi & _).
    destruct Hor as [-> | ->]; [congruence|].
    destruct Hor' as [-> | ->]; [congruence|].
    assert (p = q) as -> by lia.
    by destruct (partition_edges_functional _ _ _ _ _ _ _ Hp Hq). }
  destruct (Nat.lt_trichotomy i j) as [Hlt|[->|Hlt]]; [|done|].
  - pose proof (strictly_sorted_lt key U i j b b HU Ha Hb Hlt) as Hc.
    rewrite rbound_cmp_refl in Hc by done. lia.
  - pose proof (strictly_sorted_lt key U j i b b HU Hb Ha Hlt) as Hc.
    rewrite rbound_cmp_refl in Hc by done. lia.
Qed.

(** The descriptor of a valid set of range partitions, with the order in
    which the ordinals were given: the partition of the [k]'th upper bound
    has the ordinal [k]. *)
Lemma RelationBuildPartitionDesc_range_order qsort_arg junk key inhoids :
  qsort_arg_spec qsort_arg -> column_orders key -> (0 < partnatts key)%nat ->
  strategy key = PARTITION_STRATEGY_RANGE ->
  scanned_partitions inhoids <> [] ->
  valid_range_partitions key (scanned_boundspecs inhoids) ->
  exists rbounds mapping desc bi,
    RelationBuildPartitionDesc qsort_arg junk (Some key) inhoids
    = OK (Some desc) /\
    boundinfo desc = Some bi /\
    (forall i part, scanned_partitions inhoids !! i = Some part ->
       oids desc !! Z.to_nat (mapping !!! i) = Some (inhrelid part)) /\
    canonical_range key (scanned_boundspecs inhoids) rbounds mapping bi /\
    forall k b,
      filter (fun b => rb_lower b = false) rbounds !! k = Some b ->
      mapping !!! Z.to_nat (rb_index b) = Z.of_nat k.
Proof.
  intros Hq Hcol Hn Hstrat Hne Hvalid.
  assert (scanned_boundspecs inhoids <> []) as Hne'.
  { unfold scanned_boundspecs. by destruct (scanned_partitions inhoids). }
  assert (length (scanned_boundspecs inhoids)
          = length (scanned_partitions inhoids)) as Hlen
    by apply length_fmap.
  destruct (range_mapping_bijection qsort_arg junk key _ Hq Hcol Hn Hstrat
              Hvalid Hne') as (raw & bi & mapping & Hraw & Hbuild & Hbij).
  destruct (sorted_raw_bounds_range_form qsort_arg key _ raw Hq Hcol Hn
              Hstrat Hvalid Hne' Hraw) as (R & -> & Hform).
  pose proof (sorted_raw_bounds_range_length qsort_arg key _ R Hq Hcol Hraw)
    as Hsize.
  pose proof Hbij as Hbij'. pose proof Hbuild as Hbuild'.
  rewrite Hlen in Hbuild', Hbij'.
  destruct (RelationBuildPartitionDesc_desc qsort_arg junk key inhoids
              _ bi mapping Hraw Hbuild' Hbij' Hne)
    as (desc & Hdesc & Hbi & Hnparts & Hoids & Hown).
  pose proof (distinct_bounds_index key _ _ Hform) as Hidx.
  exists R, mapping, desc, bi. do 3 (split; [done|]). split.
  - do 7 (split; [done|]). split; [done|].
    by eapply build_boundinfo_range_form.
  - eapply build_boundinfo_range_order; [done|exact Hidx| |exact Hbuild].
    by apply (distinct_bounds_upper_nodup key (scanned_boundspecs inhoids)).
Qed.

(** X13: the descriptor built for a valid set of range partitions lists
    them in the order of their ranges: there is a numbering [ord] of the
    scanned partitions with [oids[ord p]] the OID of partition [p], and
    [ord p < ord q] exactly when the upper bound of [p] is below the lower
    bound of [q]. *)
Theorem RelationBuildPartitionDesc_range_oids_order
    qsort_arg junk key inhoids :
  qsort_arg_spec qsort_arg -> column_orders key -> (0 < partnatts key)%nat ->
  strategy key = PARTITION_STRATEGY_RANGE ->
  valid_range_partitions key (scanned_boundspecs inhoids) ->
  exists desc (ord : nat -> nat),
    RelationBuildPartitionDesc qsort_arg junk (Some key) inhoids
    = OK (Some desc) /\
    (forall p part, scanned_partitions inhoids !! p = Some part ->
       oids desc !! ord p = Some (inhrelid part)) /\
    (forall p q lp up lq uq,
       partition_edges key (scanned_boundspecs inhoids) p lp up ->
       partition_edges key (scanned_boundspecs inhoids) q lq uq ->
       (ord p < ord q)%nat <-> qsort_partition_rbound_cmp key up lq < 0).
Proof.
  intros Hq Hcol Hn Hstrat Hvalid.
  destruct (scanned_partitions inhoids) as [|part0 parts0] eqn:Hparts.
  { eexists _, (fun p => p). split.
    { by apply RelationBuildPartitionDesc_no_partition. }
    split; [by intros p part Hp|].
    intros p q lp up lq uq (spec & Hp & _).
    unfold scanned_boundspecs in Hp. by rewrite Hparts in Hp. }
  destruct (RelationBuildPartitionDesc_range_order qsort_arg junk key
              inhoids Hq Hcol Hn Hstrat)
    as (rbounds & mapping & desc & bi & Hdesc & Hbi & Hown & Hcanon & Hord);
    [by rewrite Hparts|done|].
  rewrite <- Hparts in *. clear Hparts.
  exists desc, (fun p => Z.to_nat (mapping !!! p)).
  split; [done|]. split; [done|].
  pose proof Hcanon as (_ & _ & _ & _ & _ & (Hsorted & Hmem & Hkept) & _).
  set (U := filter (fun b => rb_lower b = false) rbounds) in *.
  assert (StronglySorted (below_for_probes key) U) as HU
    by (by apply StronglySorted_filter).
  assert (forall p lp up,
            partition_edges key (scanned_boundspecs inhoids) p lp up ->
            exists k, U !! k = Some up /\ mapping !!! p = Z.of_nat k)
    as Hpos.
  { intros p lp up Hp.
    destruct (Hkept p lp up Hp) as [Hup _].
    destruct (partition_edges_fields _ _ _ _ _ Hp)
      as (_ & _ & _ & Hupi & Hupl & _).
    assert (up ∈ U) as HupU by (by apply list_elem_of_filter).
    apply list_elem_of_lookup in HupU as [k Hk].
    exists k. split; [done|].
    rewrite <- (Hord k up Hk), Hupi. by rewrite Nat2Z.id. }
  intros p q lp up lq uq Hp Hq'.
  destruct (Hpos p lp up Hp) as (kp & Hkp & ->).
  destruct (Hpos q lq uq Hq') as (kq & Hkq & ->).
  rewrite !Nat2Z.id.
  pose proof (valid_partition_edges key _ p lp up Hvalid Hp) as Hlu.
  pose proof (valid_partition_edges key _ q lq uq Hvalid Hq') as Hlu'.
  split.
  - intros Hlt.
    assert (p <> q) as Hne.
    { intros ->.
      destruct (partition_edges_functional _ _ _ _ _ _ _ Hp Hq') as [_ ->].
      pose proof (strictly_sorted_lt key U kp kq uq uq HU Hkp Hkq Hlt) as Hc.
      rewrite rbound_cmp_refl in Hc by done. lia. }
    destruct (partition_edges_apart key _ p q lp up lq uq Hvalid Hne Hp Hq')
      as [|Hbelow]; [done|exfalso].
    assert (qsort_partition_rbound_cmp key uq up < 0) as Huu.
    { eapply rbound_lt_le_trans; [done|exact Hbelow|lia]. }
    pose proof (strictly_sorted_position key U kq kp uq up Hcol HU Hkq Hkp
                  Huu). lia.
  - intros Hbelow.
    apply (strictly_sorted_position key U kp kq up uq Hcol HU Hkp Hkq).
    eapply rbound_lt_le_trans; [done|exact Hbelow|lia].
Qed.

Lemma RelationBuildPartitionDesc_range_oids_order_witness :
  exists desc (ord : nat -> nat),
    RelationBuildPartitionDesc insertion_sort no_junk (Some int4_range_key)
      two_range_rows_swapped = OK (Some desc) /\
    (forall p part,
       scanned_partitions two_range_rows_swapped !! p = Some part ->
       oids desc !! ord p = Some (inhrelid part)) /\
    (forall p q lp up lq uq,
       partition_edges int4_range_key
         (scanned_boundspecs two_range_rows_swapped) p lp up ->
       partition_edges int4_range_key
         (scanned_boundspecs two_range_rows_swapped) q lq uq ->
       (ord p < ord q)%nat
       <-> qsort_partition_rbound_cmp int4_range_key up lq < 0).
Proof.
  apply (RelationBuildPartitionDesc_range_oids_order insertion_sort no_junk
           int4_range_key two_range_rows_swapped
           insertion_sort_spec int4_range_key_orders).
  - vm_compute. lia.
  - reflexivity.
  - apply two_range_rows_swapped_valid.
Defined.
(** ** A table whose partitions are all leaves *)

Lemma collect_parted_rels_leaves heap_open fuel all_parts parted_rels :
  Forall (fun op => rd_partdesc (heap_open op.1) = None) all_parts ->
  (length all_parts <= fuel)%nat ->
  collect_parted_rels heap_open fuel all_parts parted_rels = OK parted_rels.
Proof.
  intros Hall. revert fuel.
  induction Hall as [|[o parent] rest Ho Hrest IH]; intros fuel Hfuel.
  { by destruct fuel. }
  cbn [length] in Hfuel. destruct fuel as [|fuel]; [lia|].
  cbn [collect_parted_rels]. cbn [fst] in Ho. rewrite Ho.
  apply IH. lia.
Qed.

Lemma dispatch_indexes_loop_leaves grk partoids offset k m leafs :
  Forall (fun o => grk o <> RELKIND_PARTITIONED_TABLE) partoids ->
  dispatch_indexes_loop grk partoids offset k m leafs
  = ((fun x => k + Z.of_nat x) <$> seq 0 (length partoids),
     (k + Z.of_nat (length partoids), m, leafs ++ partoids)).
Proof.
  intros Hall. revert k leafs.
  induction Hall as [|o rest Ho Hrest IH]; intros k leafs.
  { cbn. by rewrite Z.add_0_r, app_nil_r. }
  cbn [dispatch_indexes_loop]. rewrite bool_decide_eq_false_2 by done.
  cbn [negb]. rewrite IH. cbn [length seq fmap list_fmap].
  apply pair_equal_spec. split.
  - f_equal; [lia|]. rewrite <- fmap_S_seq, <- list_fmap_compose.
    apply list_fmap_ext. intros _ x _. cbn. lia.
  - apply pair_equal_spec. split.
    + f_equal. lia.
    + by rewrite <- app_assoc.
Qed.

(** The dispatch array of a table whose partitions are all leaves: one
    node, whose entries are the positions of the partitions, and the leaf
    list is [oids]. *)
Lemma RelationGetPartitionDispatchInfo_leaves
    heap_open grk conv fuel rel desc :
  rd_partdesc rel = Some desc ->
  length (oids desc) = Z.to_nat (nparts desc) ->
  (forall o, o ∈ oids desc ->
     rd_partdesc (heap_open o) = None /\ grk o <> RELKIND_PARTITIONED_TABLE) ->
  (length (oids desc) <= fuel)%nat ->
  RelationGetPartitionDispatchInfo heap_open grk conv fuel rel
  = OK ([ {| reldesc := rel; key := rd_partkey rel; keystate := [];
             partdesc := Some desc; tupslot := None; tupmap := None;
             pd_indexes := Z.of_nat <$> seq 0 (length (oids desc)) |} ],
        oids desc).
Proof.
  intros Hdesc Hlen Hleaves Hfuel.
  assert ((fun j => oids desc !!! j) <$> seq 0 (Z.to_nat (nparts desc))
          = oids desc) as Hoids.
  { rewrite <- Hlen. apply list_eq. intros i.
    rewrite list_lookup_fmap.
    destruct (decide (i < length (oids desc))%nat) as [Hi|Hi].
    - rewrite lookup_seq_lt by done. cbn.
      destruct (lookup_lt_is_Some_2 _ _ Hi) as [o Ho].
      by rewrite Ho, (list_lookup_total_correct _ _ _ Ho).
    - rewrite lookup_seq_ge by lia. cbn. symmetry.
      apply lookup_ge_None. lia. }
  unfold RelationGetPartitionDispatchInfo. rewrite Hdesc.
  cbn [deref mbind res_bind].
  rewrite collect_parted_rels_leaves.
  - cbn [mbind res_bind build_dispatch_loop]. rewrite Hdesc.
    cbn [deref mbind res_bind]. rewrite Hoids.
    rewrite dispatch_indexes_loop_leaves.
    + reflexivity.
    + apply Forall_forall. intros o Ho. by apply Hleaves.
  - unfold APPEND_REL_PARTITION_OIDS. cbn [app].
    apply Forall_fmap, Forall_forall. intros j Hj. cbn.
    apply Hleaves. apply elem_of_seq in Hj.
    destruct (lookup_lt_is_Some_2 (oids desc) j ltac:(lia)) as [o Ho].
    rewrite (list_lookup_total_correct _ _ _ Ho).
    by eapply list_elem_of_lookup_2.
  - unfold APPEND_REL_PARTITION_OIDS. cbn [app].
    rewrite length_fmap, length_seq. lia.
Qed.
(** The walk over the dispatch array of a table whose partitions are all
    leaves: one turn at the root. *)
Lemma get_partition_for_tuple_leaves rel desc slot i :
  (i < length (oids desc))%nat ->
  (let root :=
     {| reldesc := rel; key := rd_partkey rel; keystate := [];
        partdesc := Some desc; tupslot := None; tupmap := None;
        pd_indexes := Z.of_nat <$> seq 0 (length (oids desc)) |} in
   let next := pd_indexes root !!! i in
   if 0 <=? next then OK (Routed next)
   else
     parent' ← deref ([root] !! Z.to_nat (- next));
     get_partition_for_tuple_loop 0 [root] parent' (convert_slot root slot))
  = OK (Routed (Z.of_nat i)).
Proof.
  intros Hi. cbn zeta. cbn [pd_indexes].
  rewrite (list_lookup_total_correct _ i (Z.of_nat i)).
  - by destruct (Z.leb_spec 0 (Z.of_nat i)); [|lia].
  - rewrite list_lookup_fmap, lookup_seq_lt by done. done.
Qed.

(** X14: routing in a range partitioned table whose partitions are all
    leaves.  [RelationGetPartitionDispatchInfo] returns one node and the
    leaf list; for a tuple without a null key column,
    [get_partition_for_tuple] returns the position in the leaf list of the
    partition whose range the key of the tuple lies in, and fails at the
    root with the tuple when the key lies in no partition. *)
Theorem get_partition_for_tuple_range_leaf
    qsort_arg junk heap_open get_rel_relkind convert_tuples_by_name fuel
    k inhoids desc rel slot :
  qsort_arg_spec qsort_arg -> column_orders k -> (0 < partnatts k)%nat ->
  strategy k = PARTITION_STRATEGY_RANGE ->
  valid_range_partitions k (scanned_boundspecs inhoids) ->
  Z.of_nat (length (scanned_partitions inhoids)) <= 2 ^ 29 ->
  RelationBuildPartitionDesc qsort_arg junk (Some k) inhoids
  = OK (Some desc) ->
  rd_partkey rel = Some k -> rd_partdesc rel = Some desc ->
  (forall o, o ∈ oids desc ->
     rd_partdesc (heap_open o) = None /\
     get_rel_relkind o <> RELKIND_PARTITIONED_TABLE) ->
  (length (scanned_partitions inhoids) <= fuel)%nat ->
  exists root leaf_part_oids,
    RelationGetPartitionDispatchInfo heap_open get_rel_relkind
      convert_tuples_by_name fuel rel = OK ([root], leaf_part_oids) /\
    forall values isnull,
      FormPartitionKeyDatum root k slot = OK (values, isnull) ->
      any_key_isnull isnull (partnatts k) 0 = false ->
      (exists p part lower upper r,
         scanned_partitions inhoids !! p = Some part /\
         range_edges k (Z.of_nat p) (relpartbound part) lower upper /\
         tuple_in_range k lower upper values /\
         get_partition_for_tuple [root] slot = OK (Routed (Z.of_nat r)) /\
         leaf_part_oids !! r = Some (inhrelid part)) \/
      ((forall p part lower upper,
          scanned_partitions inhoids !! p = Some part ->
          range_edges k (Z.of_nat p) (relpartbound part) lower upper ->
          ~ tuple_in_range k lower upper values) /\
       get_partition_for_tuple [root] slot = OK (NotRouted root slot)).
Proof.
  intros Hq Hcol Hn Hstrat Hvalid Hsize Hbuild Hkey Hdesc Hleaves Hfuel.
  set (root :=
         {| reldesc := rel; key := rd_partkey rel; keystate := [];
            partdesc := Some desc; tupslot := None; tupmap := None;
            pd_indexes := Z.of_nat <$> seq 0 (length (oids desc)) |}).
  assert (forall slot',
            get_partition_for_tuple [root] slot'
            = get_partition_for_tuple_loop 1 [root] root slot') as Hstart
    by done.
  destruct (scanned_partitions inhoids) as [|part0 parts0] eqn:Hparts.
  { rewrite RelationBuildPartitionDesc_no_partition in Hbuild by done.
    injection Hbuild as <-.
    exists root, []. split.
    { by apply (RelationGetPartitionDispatchInfo_leaves heap_open
                  get_rel_relkind convert_tuples_by_name fuel rel
                  {| nparts := 0; oids := []; boundinfo := None |}). }
    intros values isnull _ _. right. split; [by intros p part lower upper Hp|].
    done. }
  destruct (RelationBuildPartitionDesc_canonical_range qsort_arg junk k
              inhoids Hq Hcol Hn Hstrat)
    as (rbounds & mapping & desc' & bi & Hbuild' & Hbi & Hnparts & Hlen
        & Hown & Hcanon); [by rewrite Hparts|done|].
  assert (desc' = desc) as -> by congruence.
  assert (Z.of_nat (length (scanned_boundspecs inhoids)) <= 2 ^ 29)
    as Hsize'.
  { unfold scanned_boundspecs. rewrite length_fmap, Hparts. done. }
  assert (nparts desc <> 0) as Hnz.
  { rewrite Hnparts, Hparts. cbn [length]. lia. }
  rewrite <- Hparts in *. clear Hparts.
  exists root, (oids desc). split.
  { apply RelationGetPartitionDispatchInfo_leaves; [done| |done|lia].
    rewrite Hnparts. lia. }
  intros values isnull Hform Hnull.
  assert (convert_slot root slot = slot) as Hslot by done.
  destruct (get_partition_for_tuple_range_step k _ rbounds mapping bi desc
              0 [root] root slot values isnull Hcanon Hsize' Hkey eq_refl
              Hbi Hnz ltac:(by rewrite Hslot) Hnull)
    as [(p & lower & upper & Hp & Hin & Hord & Hrun)|[Hnone Hrun]].
  - left. apply scanned_partition_edges in Hp as (part & Hp & He).
    pose proof (Hown p part Hp) as Hoid.
    exists p, part, lower, upper, (Z.to_nat (mapping !!! p)).
    do 3 (split; [done|]). split; [|done].
    rewrite Hstart, Hrun.
    rewrite (get_partition_for_tuple_leaves rel desc slot)
      by (by eapply lookup_lt_Some).
    by rewrite Z2Nat.id by done.
  - right. split.
    + intros p part lower upper Hp He.
      apply (Hnone p). apply scanned_partition_edges. by exists part.
    + by rewrite Hstart, Hrun, Hslot.
Qed.

Lemma get_partition_for_tuple_range_leaf_witness :
  exists root leaf_part_oids,
    RelationGetPartitionDispatchInfo leaf_heap_open leaf_relkind
      no_conversion 2 (partitioned_table 1 int4_range_key two_ranges_desc)
    = OK ([root], leaf_part_oids) /\
    forall values isnull,
      FormPartitionKeyDatum root int4_range_key (row_slot [Some 25])
      = OK (values, isnull) ->
      any_key_isnull isnull (partnatts int4_range_key) 0 = false ->
      (exists p part lower upper r,
         scanned_partitions two_range_rows !! p = Some part /\
         range_edges int4_range_key (Z.of_nat p) (relpartbound part) lower
           upper /\
         tuple_in_range int4_range_key lower upper values /\
         get_partition_for_tuple [root] (row_slot [Some 25])
         = OK (Routed (Z.of_nat r)) /\
         leaf_part_oids !! r = Some (inhrelid part)) \/
      ((forall p part lower upper,
          scanned_partitions two_range_rows !! p = Some part ->
          range_edges int4_range_key (Z.of_nat p) (relpartbound part) lower
            upper ->
          ~ tuple_in_range int4_range_key lower upper values) /\
       get_partition_for_tuple [root] (row_slot [Some 25])
       = OK (NotRouted root (row_slot [Some 25]))).
Proof.
  apply (get_partition_for_tuple_range_leaf insertion_sort no_junk
           leaf_heap_open leaf_relkind no_conversion 2 int4_range_key
           two_range_rows two_ranges_desc
           (partitioned_table 1 int4_range_key two_ranges_desc)
           (row_slot [Some 25]) insertion_sort_spec int4_range_key_orders).
  - vm_compute. lia.
  - reflexivity.
  - apply two_range_rows_valid.
  - vm_compute. discriminate.
  - reflexivity.
  - reflexivity.
  - reflexivity.
  - intros o _. by split.
  - vm_compute. lia.
Defined.
(** X15: routing in a list partitioned table whose partitions are all
    leaves and declare no value twice.  [RelationGetPartitionDispatchInfo]
    returns one node and the leaf list; for a tuple whose key column is not
    null, [get_partition_for_tuple] returns the position in the leaf list
    of the partition that declares a value equal to the key, and fails at
    the root with the tuple when no partition declares one. *)
Theorem get_partition_for_tuple_list_leaf
    qsort_arg junk heap_open get_rel_relkind convert_tuples_by_name fuel
    k inhoids desc rel slot :
  qsort_arg_spec qsort_arg -> column_orders k -> (0 < partnatts k)%nat ->
  strategy k = PARTITION_STRATEGY_LIST ->
  valid_list_partitions (scanned_boundspecs inhoids) ->
  list_values_disjoint k (scanned_boundspecs inhoids) ->
  Z.of_nat (length (all_list_values 0 (scanned_boundspecs inhoids)))
  <= 2 ^ 30 ->
  RelationBuildPartitionDesc qsort_arg junk (Some k) inhoids
  = OK (Some desc) ->
  rd_partkey rel = Some k -> rd_partdesc rel = Some desc ->
  (forall o, o ∈ oids desc ->
     rd_partdesc (heap_open o) = None /\
     get_rel_relkind o <> RELKIND_PARTITIONED_TABLE) ->
  (length (scanned_partitions inhoids) <= fuel)%nat ->
  exists root leaf_part_oids,
    RelationGetPartitionDispatchInfo heap_open get_rel_relkind
      convert_tuples_by_name fuel rel = OK ([root], leaf_part_oids) /\
    forall values isnull,
      FormPartitionKeyDatum root k slot = OK (values, isnull) ->
      isnull !!! 0%nat = false ->
      (exists p part c r,
         scanned_partitions inhoids !! p = Some part /\
         c ∈ listdatums (relpartbound part) /\ constisnull c = false /\
         partsupfunc k 0 (constvalue c) (values !!! 0%nat) = 0 /\
         get_partition_for_tuple [root] slot = OK (Routed (Z.of_nat r)) /\
         leaf_part_oids !! r = Some (inhrelid part)) \/
      ((forall p part c,
          scanned_partitions inhoids !! p = Some part ->
          c ∈ listdatums (relpartbound part) -> constisnull c = false ->
          partsupfunc k 0 (constvalue c) (values !!! 0%nat) <> 0) /\
       get_partition_for_tuple [root] slot = OK (NotRouted root slot)).
Proof.
  intros Hq Hcol Hn Hstrat Hvalid Hdisjoint Hsize Hbuild Hkey Hdesc Hleaves
    Hfuel.
  set (root :=
         {| reldesc := rel; key := rd_partkey rel; keystate := [];
            partdesc := Some desc; tupslot := None; tupmap := None;
            pd_indexes := Z.of_nat <$> seq 0 (length (oids desc)) |}).
  assert (forall slot',
            get_partition_for_tuple [root] slot'
            = get_partition_for_tuple_loop 1 [root] root slot') as Hstart
    by done.
  destruct (scanned_partitions inhoids) as [|part0 parts0] eqn:Hparts.
  { rewrite RelationBuildPartitionDesc_no_partition in Hbuild by done.
    injection Hbuild as <-.
    exists root, []. split.
    { by apply (RelationGetPartitionDispatchInfo_leaves heap_open
                  get_rel_relkind convert_tuples_by_name fuel rel
                  {| nparts := 0; oids := []; boundinfo := None |}). }
    intros values isnull _ _. right. split; [by intros p part c Hp|].
    done. }
  destruct (RelationBuildPartitionDesc_canonical_list qsort_arg junk k
              inhoids Hq Hcol Hn Hstrat)
    as (all_values & ni & mapping & desc' & bi & Hbuild' & Hbi & Hnparts
        & Hlen & Hown & Hcanon); [by rewrite Hparts|done|done|].
  assert (desc' = desc) as -> by congruence.
  assert (nparts desc <> 0) as Hnz.
  { rewrite Hnparts, Hparts. cbn [length]. lia. }
  rewrite <- Hparts in *. clear Hparts.
  destruct (canonical_list_ndatums _ _ _ _ _ _ Hcanon) as [_ Hlenv].
  exists root, (oids desc). split.
  { apply RelationGetPartitionDispatchInfo_leaves; [done| |done|lia].
    rewrite Hnparts. lia. }
  intros values isnull Hform Hfirst.
  assert (convert_slot root slot = slot) as Hslot by done.
  destruct (get_partition_for_tuple_list_step k _ all_values ni mapping bi
              desc 0 [root] root slot values isnull Hcanon ltac:(lia) Hkey
              eq_refl Hbi Hnz ltac:(by rewrite Hslot) Hfirst)
    as [(p & v & Hdecl & Hz & Hord & Hrun)|[Hnone Hrun]].
  - left.
    apply declares_value_scanned in Hdecl as (part & c & Hp & Hc & Hnull & <-).
    pose proof (Hown p part Hp) as Hoid.
    exists p, part, c, (Z.to_nat (mapping !!! p)).
    do 4 (split; [done|]). split; [|done].
    rewrite Hstart, Hrun.
    rewrite (get_partition_for_tuple_leaves rel desc slot)
      by (by eapply lookup_lt_Some).
    by rewrite Z2Nat.id by done.
  - right. split.
    + intros p part c Hp Hc Hnull.
      apply (Hnone p). apply declares_value_scanned. by exists part, c.
    + by rewrite Hstart, Hrun, Hslot.
Qed.

Lemma get_partition_for_tuple_list_leaf_witness :
  exists root leaf_part_oids,
    RelationGetPartitionDispatchInfo leaf_heap_open leaf_relkind
      no_conversion 2 (partitioned_table 1 int4_list_key two_lists_desc)
    = OK ([root], leaf_part_oids) /\
    forall values isnull,
      FormPartitionKeyDatum root int4_list_key (row_slot [Some 2])
      = OK (values, isnull) ->
      isnull !!! 0%nat = false ->
      (exists p part c r,
         scanned_partitions two_list_rows !! p = Some part /\
         c ∈ listdatums (relpartbound part) /\ constisnull c = false /\
         partsupfunc int4_list_key 0 (constvalue c) (values !!! 0%nat) = 0 /\
         get_partition_for_tuple [root] (row_slot [Some 2])
         = OK (Routed (Z.of_nat r)) /\
         leaf_part_oids !! r = Some (inhrelid part)) \/
      ((forall p part c,
          scanned_partitions two_list_rows !! p = Some part ->
          c ∈ listdatums (relpartbound part) -> constisnull c = false ->
          partsupfunc int4_list_key 0 (constvalue c) (values !!! 0%nat)
          <> 0) /\
       get_partition_for_tuple [root] (row_slot [Some 2])
       = OK (NotRouted root (row_slot [Some 2]))).
Proof.
  apply (get_partition_for_tuple_list_leaf insertion_sort no_junk
           leaf_heap_open leaf_relkind no_conversion 2 int4_list_key
           two_list_rows two_lists_desc
           (partitioned_table 1 int4_list_key two_lists_desc)
           (row_slot [Some 2]) insertion_sort_spec int4_list_key_orders).
  - vm_compute. lia.
  - reflexivity.
  - apply two_list_rows_valid.
  - apply two_list_rows_disjoint.
  - vm_compute. discriminate.
  - reflexivity.
  - reflexivity.
  - reflexivity.
  - intros o _. by split.
  - vm_compute. lia.
Defined.
(** ** The comparator of range bounds *)

(** X16: when the support function of every key column is a three-way
    comparison of a total preorder, so is [qsort_partition_rbound_cmp] on
    range bounds, whatever their infinite columns and edge kinds: the sign
    of the result flips with the arguments, and "not above" is
    transitive. *)
Theorem qsort_partition_rbound_cmp_consistent key :
  column_orders key ->
  (forall a b, qsort_partition_rbound_cmp key a b < 0
               <-> 0 < qsort_partition_rbound_cmp key b a) /\
  (forall a b c, qsort_partition_rbound_cmp key a b <= 0 ->
                 qsort_partition_rbound_cmp key b c <= 0 ->
                 qsort_partition_rbound_cmp key a c <= 0).
Proof.
  intros Hcol. split.
  - intros a b. by apply qsort_partition_rbound_cmp_antisym.
  - intros a b c. by apply qsort_partition_rbound_cmp_trans.
Qed.

Lemma qsort_partition_rbound_cmp_consistent_witness :
  (forall a b, qsort_partition_rbound_cmp int4_range_key3 a b < 0
               <-> 0 < qsort_partition_rbound_cmp int4_range_key3 b a) /\
  (forall a b c, qsort_partition_rbound_cmp int4_range_key3 a b <= 0 ->
                 qsort_partition_rbound_cmp int4_range_key3 b c <= 0 ->
                 qsort_partition_rbound_cmp int4_range_key3 a c <= 0).
Proof.
  apply (qsort_partition_rbound_cmp_consistent int4_range_key3).
  intros j _. apply btint4cmp_orders.
Defined.

(** ** Making a range bound *)

Lemma make_one_range_bound_loop_spec (lower : bool) datums r
    (pre_d : list Datum) (pre_c : list RangeDatumContent) :
  length pre_d = length pre_c ->
  (Exists null_range_datum datums ->
   make_one_range_bound_loop lower datums (length pre_d)
     (pre_d ++ replicate (length datums + r) 0)
     (pre_c ++ replicate (length datums + r) RANGE_DATUM_FINITE)
   = ERROR ERR_invalid_range_bound_datum) /\
  (Forall (fun d => ~ null_range_datum d) datums ->
   make_one_range_bound_loop lower datums (length pre_d)
     (pre_d ++ replicate (length datums + r) 0)
     (pre_c ++ replicate (length datums + r) RANGE_DATUM_FINITE)
   = OK (pre_d ++ (datum_value <$> datums) ++ replicate r 0,
         pre_c ++ (datum_content lower <$> datums)
               ++ replicate r RANGE_DATUM_FINITE)).
Proof.
  revert pre_d pre_c.
  induction datums as [|d rest IH]; intros pre_d pre_c Hlen.
  { split; [by intros ?%Exists_nil|done]. }
  cbn [make_one_range_bound_loop length Nat.add replicate].
  assert (forall (A : Type) (pre : list A) (x y : A) l,
            <[length pre:=y]> (pre ++ x :: l) = pre ++ y :: l) as Hins.
  { intros A pre x y l. rewrite insert_app_r_alt by lia.
    by rewrite Nat.sub_diag. }
  assert (forall (x y : RangeDatumContent) l,
            <[length pre_d:=y]> (pre_c ++ x :: l) = pre_c ++ y :: l)
    as Hins'.
  { intros x y l. rewrite Hlen. apply Hins. }
  rewrite Hins'.
  specialize (IH (pre_d ++ [datum_value d])
                (pre_c ++ [datum_content lower d])).
  rewrite !length_app in IH. cbn [length] in IH.
  specialize (IH ltac:(lia)). rewrite Nat.add_1_r in IH.
  rewrite <- !app_assoc in IH. cbn [app] in IH.
  unfold datum_content, datum_value, null_range_datum in *.
  destruct (infinite d) eqn:Hinf; cbn [negb].
  - assert (is_finite (if lower then RANGE_DATUM_NEG_INF
                       else RANGE_DATUM_POS_INF) = false) as ->
      by (by destruct lower).
    destruct IH as [IHerr IHok]. split.
    + intros [[? _]|Hex]%Exists_cons; [congruence|]. by apply IHerr.
    + intros [_ Hall]%Forall_cons. rewrite IHok by done.
      by rewrite !fmap_cons, Hinf.
  - change (is_finite RANGE_DATUM_FINITE) with true. cbn match.
    destruct (constisnull (value d)) eqn:Hnull.
    + split; [done|]. intros [Hd _]%Forall_cons. by destruct Hd.
    + rewrite Hins. destruct IH as [IHerr IHok]. split.
      * intros [[_ ?]|Hex]%Exists_cons; [congruence|]. by apply IHerr.
      * intros [_ Hall]%Forall_cons. rewrite IHok by done.
        by rewrite !fmap_cons, Hinf.
Qed.

(** X17: [make_one_range_bound] for a declared bound of at most
    [partnatts] columns.  If a finite column of the declaration is NULL it
    raises "invalid range bound datum".  Otherwise the bound has the given
    index and edge kind; each declared column is tagged finite, or with the
    infinity of the edge kind (negative for a lower bound, positive for an
    upper bound), and holds the declared value when finite; the cells of
    infinite columns and of columns not declared stay zero, the latter
    tagged finite. *)
Theorem make_one_range_bound_result key index datums lower :
  (length datums <= partnatts key)%nat ->
  (Exists null_range_datum datums ->
   make_one_range_bound key index datums lower
   = ERROR ERR_invalid_range_bound_datum) /\
  (Forall (fun d => ~ null_range_datum d) datums ->
   make_one_range_bound key index datums lower
   = OK {| rb_index := index;
           rb_datums := (datum_value <$> datums)
                        ++ replicate (partnatts key - length datums) 0;
           rb_content := (datum_content lower <$> datums)
                         ++ replicate (partnatts key - length datums)
                              RANGE_DATUM_FINITE;
           rb_lower := lower |}).
Proof.
  intros Hlen. unfold make_one_range_bound.
  destruct (make_one_range_bound_loop_spec lower datums
              (partnatts key - length datums) [] [] eq_refl)
    as [Herr Hok].
  cbn [app length] in Herr, Hok.
  replace (length datums + (partnatts key - length datums))%nat
    with (partnatts key) in Herr, Hok by lia.
  split.
  - intros Hex. by rewrite Herr.
  - intros Hall. by rewrite Hok.
Qed.

Lemma make_one_range_bound_result_witness :
  (Exists null_range_datum [finite_datum 5; unbounded_datum] ->
   make_one_range_bound int4_range_key3 7 [finite_datum 5; unbounded_datum]
     false
   = ERROR ERR_invalid_range_bound_datum) /\
  (Forall (fun d => ~ null_range_datum d) [finite_datum 5; unbounded_datum] ->
   make_one_range_bound int4_range_key3 7 [finite_datum 5; unbounded_datum]
     false
   = OK {| rb_index := 7;
           rb_datums := (datum_value <$> [finite_datum 5; unbounded_datum])
                        ++ replicate (3 - 2) 0;
           rb_content :=
             (datum_content false <$> [finite_datum 5; unbounded_datum])
             ++ replicate (3 - 2) RANGE_DATUM_FINITE;
           rb_lower := false |}).
Proof.
  apply (make_one_range_bound_result int4_range_key3 7
           [finite_datum 5; unbounded_datum] false).
  vm_compute. lia.
Defined.
(** ** NULL declared twice *)

Lemma collect_list_datums_null_twice i listdatums null_index acc :
  i <> -1 ->
  (null_index <> -1 /\ (1 <= null_count listdatums)%nat) \/
  (2 <= null_count listdatums)%nat ->
  collect_list_datums i listdatums null_index acc
  = ERROR ERR_found_null_more_than_once.
Proof.
  intros Hi. revert null_index acc.
  induction listdatums as [|c rest IH]; intros null_index acc Hpre.
  { cbn in Hpre. lia. }
  cbn [collect_list_datums]. unfold null_count in *.
  destruct (constisnull c) eqn:Hc; cbn [negb].
  - rewrite filter_cons_True in Hpre by done. cbn [length] in Hpre.
    destruct (Z.eqb_spec null_index (-1)) as [->|Hset]; cbn [negb]; [|done].
    apply IH. left. split; [done|]. lia.
  - rewrite filter_cons_False in Hpre by (by rewrite Hc).
    by apply IH.
Qed.

Lemma collect_list_values_null_twice specs i null_index acc :
  0 <= i ->
  Forall (fun spec => spec_strategy spec = PARTITION_STRATEGY_LIST) specs ->
  (null_index <> -1 /\ (1 <= total_null_count specs)%nat) \/
  (2 <= total_null_count specs)%nat ->
  collect_list_values specs i null_index acc
  = ERROR ERR_found_null_more_than_once.
Proof.
  intros Hi Hspecs. revert i null_index acc Hi.
  induction Hspecs as [|spec rest Hspec Hrest IH];
    intros i null_index acc Hi Hpre.
  { cbn in Hpre. lia. }
  cbn [collect_list_values]. rewrite bool_decide_eq_true_2 by done.
  cbn [negb]. unfold total_null_count in *. cbn [sum_list_with] in Hpre.
  fold (total_null_count rest) in *.
  destruct (decide ((null_index <> -1 /\
                     (1 <= null_count (listdatums spec))%nat) \/
                    (2 <= null_count (listdatums spec))%nat))
    as [Hhere|Hlater].
  { by rewrite collect_list_datums_null_twice by (done || lia). }
  rewrite collect_list_datums_spec; [|lia|].
  2:{ destruct (decide (null_index = -1)) as [->|Hset].
      - left. split; [done|]. lia.
      - right. lia. }
  cbn [mbind res_bind]. apply IH; [lia|].
  destruct (decide (null_count (listdatums spec) = 0%nat)) as [Hz|Hnz].
  - destruct Hpre as [[? ?]|?]; [left; split; [done|lia]|right; lia].
  - left. split; [lia|]. lia.
Qed.

(** X18: with a list key, when every scanned partition has a list
    declaration and NULL is declared twice or more, in one partition or in
    several, [RelationBuildPartitionDesc] raises "found null more than
    once" and builds no descriptor. *)
Theorem RelationBuildPartitionDesc_null_twice qsort_arg junk key inhoids :
  strategy key = PARTITION_STRATEGY_LIST ->
  Forall (fun spec => spec_strategy spec = PARTITION_STRATEGY_LIST)
    (scanned_boundspecs inhoids) ->
  (2 <= total_null_count (scanned_boundspecs inhoids))%nat ->
  RelationBuildPartitionDesc qsort_arg junk (Some key) inhoids
  = ERROR ERR_found_null_more_than_once.
Proof.
  intros Hstrat Hspecs Hnulls.
  unfold RelationBuildPartitionDesc, sorted_raw_bounds.
  fold (scanned_partitions inhoids). fold (scanned_boundspecs inhoids).
  assert ((0 <? Z.of_nat (length (scanned_boundspecs inhoids))) = true)
    as ->.
  { apply Z.ltb_lt. destruct (scanned_boundspecs inhoids); [|cbn; lia].
    cbn in Hnulls. lia. }
  rewrite Hstrat.
  by rewrite collect_list_values_null_twice by (done || lia || by right).
Qed.

Lemma RelationBuildPartitionDesc_null_twice_witness :
  RelationBuildPartitionDesc insertion_sort no_junk (Some int4_list_key)
    two_null_rows
  = ERROR ERR_found_null_more_than_once.
Proof.
  apply (RelationBuildPartitionDesc_null_twice insertion_sort no_junk
           int4_list_key two_null_rows).
  - reflexivity.
  - by repeat constructor.
  - vm_compute. lia.
Defined.
(** ** The order of the nodes in the dispatch array *)

(** In the dispatch array, the node of a partitioned child comes after the
    node of its parent. *)
Lemma RelationGetPartitionDispatchInfo_forward
    heap_open grk conv weight fuel rel pd leaf_part_oids :
  relkind_consistent heap_open grk ->
  finite_hierarchy heap_open weight ->
  (hierarchy_weight weight (rel_partition_oids rel) <= fuel)%nat ->
  RelationGetPartitionDispatchInfo heap_open grk conv fuel rel
  = OK (pd, leaf_part_oids) ->
  forall i node j e,
    pd !! i = Some node -> pd_indexes node !! j = Some e -> e < 0 ->
    (i < Z.to_nat (- e) < length pd)%nat.
Proof.
  intros Hcons Hfin Hfuel Hrun i node j e Hnode Hj He.
  unfold RelationGetPartitionDispatchInfo in Hrun.
  destruct (rd_partdesc rel) as [d|] eqn:Hd; [|done].
  cbn [deref mbind res_bind] in Hrun.
  assert (rel_partition_oids rel = partition_oids d) as Hos
    by (unfold rel_partition_oids; by rewrite Hd).
  assert ([(rel, @None RelationData)].*1
            ++ (heap_open
                  <$> filter (has_partdesc heap_open)
                        (APPEND_REL_PARTITION_OIDS rel d []).*1)
          = rel :: concat (partitioned_children heap_open
                             <$> [(rel, @None RelationData)].*1)) as Hinit.
  { rewrite APPEND_REL_PARTITION_OIDS_fst. cbn. rewrite app_nil_r.
    unfold partitioned_children. by rewrite Hos. }
  assert (hierarchy_weight weight (APPEND_REL_PARTITION_OIDS rel d []).*1
          <= fuel)%nat as Hfuel'.
  { rewrite APPEND_REL_PARTITION_OIDS_fst. cbn. by rewrite <- Hos. }
  destruct (collect_parted_rels_spec heap_open weight rel fuel
              (APPEND_REL_PARTITION_OIDS rel d []) [(rel, None)] Hfin
              Hfuel' Hinit)
    as (P & HP & Hfix & Hall).
  { cbn. constructor; [by rewrite Hd|constructor]. }
  destruct (collect_parted_rels_order heap_open weight rel fuel
              (APPEND_REL_PARTITION_OIDS rel d []) [(rel, None)] Hfin
              Hfuel' Hinit)
    as (P' & HP' & Hord).
  { intros i' Hi'. cbn in Hi'. assert (i' = 0)%nat as -> by lia. cbn. lia. }
  assert (P' = P) as -> by congruence.
  rewrite HP in Hrun. cbn [mbind res_bind] in Hrun.
  destruct (build_dispatch_loop_spec grk conv P 0 0 [] Hall)
    as (pd' & leafs & Hbuild & Hleafs & Hrel & Hentries & Hnodes).
  rewrite Hbuild in Hrun. injection Hrun as -> ->.
  assert (length pd = length P) as Hlen.
  { apply (f_equal length) in Hrel. by rewrite !length_fmap in Hrel. }
  assert (P.*1 = rel :: (heap_open <$> concat (parted_oids grk <$> P.*1)))
    as Hfix'.
  { rewrite Hfix at 1. f_equal. by apply partitioned_children_concat. }
  destruct (Hnodes i node Hnode) as (_ & Hilen & Hidx).
  destruct (lookup_lt_is_Some_2 (rel_partition_oids (reldesc node)) j)
    as [child Hchild].
  { rewrite <- Hilen. by eapply lookup_lt_Some. }
  rewrite (Hidx j child Hchild) in Hj. injection Hj as Hj.
  destruct (decide (is_partitioned grk child)) as [Hp|Hl]; [|lia].
  pose proof (Hord i ltac:(rewrite <- Hlen; by eapply lookup_lt_Some))
    as Hi.
  rewrite (partitioned_children_concat heap_open grk) in Hi by done.
  rewrite length_fmap in Hi.
  assert (P.*1 !! i = Some (reldesc node)) as HPi
    by (by rewrite <- Hrel, list_lookup_fmap, Hnode).
  set (q := (length (concat (parted_oids grk <$> take i P.*1))
             + length (filter (is_partitioned grk)
                         (take j (rel_partition_oids (reldesc node)))))%nat).
  assert ((reldesc <$> pd) !! S q = Some (heap_open child)) as Hq.
  { rewrite Hrel, Hfix', lookup_cons.
    rewrite list_lookup_fmap. unfold q. rewrite fmap_take.
    erewrite lookup_concat_take; [done| |].
    - by rewrite list_lookup_fmap, HPi.
    - by apply lookup_filter_take. }
  apply lookup_lt_Some in Hq. rewrite length_fmap in Hq.
  assert (Z.to_nat (- e) = S q) as -> by (unfold q; lia).
  unfold q in *. lia.
Qed.
(** X19: in the array that [RelationGetPartitionDispatchInfo] builds, the
    references between nodes point forward: a negative entry [e] of the
    node at position [i] names a position [-e] that is greater than [i]
    and inside the array. *)
Theorem RelationGetPartitionDispatchInfo_forward_references
    heap_open grk conv weight fuel rel pd leaf_part_oids :
  relkind_consistent heap_open grk ->
  finite_hierarchy heap_open weight ->
  (hierarchy_weight weight (rel_partition_oids rel) <= fuel)%nat ->
  RelationGetPartitionDispatchInfo heap_open grk conv fuel rel
  = OK (pd, leaf_part_oids) ->
  forall i node j e,
    pd !! i = Some node -> pd_indexes node !! j = Some e -> e < 0 ->
    (i < Z.to_nat (- e) < length pd)%nat.
Proof. apply RelationGetPartitionDispatchInfo_forward. Qed.

Lemma two_level_relkind_consistent :
  relkind_consistent two_level_heap_open two_level_relkind.
Proof.
  intros oid. unfold two_level_relkind, two_level_heap_open.
  destruct (Z.eqb_spec oid 1); [by split; eauto|].
  destruct (Z.eqb_spec oid 102); [by split; eauto|].
  cbn. split; [done|]. by intros [? ?].
Qed.

Lemma two_level_finite_hierarchy :
  finite_hierarchy two_level_heap_open two_level_weight.
Proof.
  intros oid. unfold rel_partition_oids, two_level_heap_open,
    two_level_weight.
  destruct (Z.eqb_spec oid 1); [by vm_compute|].
  destruct (Z.eqb_spec oid 102); [by vm_compute|]. cbn. lia.
Qed.

Lemma RelationGetPartitionDispatchInfo_forward_references_witness :
  exists pd leaf_part_oids,
    RelationGetPartitionDispatchInfo two_level_heap_open two_level_relkind
      no_conversion 4 (two_level_heap_open 1) = OK (pd, leaf_part_oids) /\
    forall i node j e,
      pd !! i = Some node -> pd_indexes node !! j = Some e -> e < 0 ->
      (i < Z.to_nat (- e) < length pd)%nat.
Proof.
  eexists _, _. split; [reflexivity|].
  eapply (RelationGetPartitionDispatchInfo_forward_references
            two_level_heap_open two_level_relkind no_conversion
           two_level_weight 4 (two_level_heap_open 1) _ _
           two_level_relkind_consistent two_level_finite_hierarchy).
  - vm_compute. lia.
  - reflexivity.
Defined.

(** ** The walk ends *)

Lemma FormPartitionKeyDatum_loop_ends partattrs slot items n i :
  FormPartitionKeyDatum_loop partattrs slot items n i <> OUT_OF_FUEL.
Proof.
  revert items i. induction n as [|n IH]; intros items i.
  { cbn. by destruct items. }
  cbn [FormPartitionKeyDatum_loop].
  destruct (negb (partattrs !!! i =? 0)); cbn [mbind res_bind].
  - specialize (IH items (S i)).
    by destruct (FormPartitionKeyDatum_loop partattrs slot items n (S i))
      as [[values isnull]| | |].
  - destruct items as [|e items]; [done|]. cbn [mbind res_bind].
    specialize (IH items (S i)).
    by destruct (FormPartitionKeyDatum_loop partattrs slot items n (S i))
      as [[values isnull]| | |].
Qed.

Lemma partition_bound_bsearch_ends key boundinfo probe probe_is_bound
    is_equal :
  0 <= ndatums boundinfo <= 2 ^ 30 ->
  partition_bound_bsearch key boundinfo probe probe_is_bound is_equal
  <> OUT_OF_FUEL.
Proof.
  intros Hn. unfold partition_bound_bsearch.
  destruct (decide (strategy key = PARTITION_STRATEGY_UNKNOWN)) as [Hu|Hk].
  - destruct (Z.to_nat (ndatums boundinfo)) as [|fuel] eqn:Hfuel.
    + cbn. by destruct (Z.ltb_spec (-1) (ndatums boundinfo - 1)); [lia|].
    + cbn [partition_bound_bsearch_loop].
      destruct (-1 <? ndatums boundinfo - 1); [|done].
      unfold partition_bound_cmp. by rewrite Hu.
  - destruct (partition_bound_bsearch_loop_any key boundinfo probe
                probe_is_bound (Z.to_nat (ndatums boundinfo)) (-1)
                (ndatums boundinfo - 1) is_equal Hk)
      as (lo' & eq' & -> & _); [lia..|done].
Qed.

(** The walk from the node at position [i]: [length pd - i] turns are
    enough. *)
Lemma get_partition_for_tuple_loop_ends pd fuel i node slot :
  (forall i node j e,
     pd !! i = Some node -> pd_indexes node !! j = Some e -> e < 0 ->
     (i < Z.to_nat (- e) < length pd)%nat) ->
  (forall i node desc bi,
     pd !! i = Some node -> partdesc node = Some desc ->
     boundinfo desc = Some bi -> 0 <= ndatums bi <= 2 ^ 30) ->
  pd !! i = Some node -> (length pd <= i + fuel)%nat ->
  get_partition_for_tuple_loop fuel pd node slot <> OUT_OF_FUEL.
Proof.
  intros Hforward Hbounded. revert i node slot.
  induction fuel as [|fuel IH]; intros i node slot Hnode Hfuel.
  { apply lookup_lt_Some in Hnode. lia. }
  cbn [get_partition_for_tuple_loop].
  destruct (partdesc node) as [desc|] eqn:Hdesc; [|done].
  cbn [deref mbind res_bind].
  destruct (nparts desc =? 0); [done|].
  destruct (key node) as [k|] eqn:Hkey; [|done].
  cbn [deref mbind res_bind].
  destruct (FormPartitionKeyDatum node k (convert_slot node slot))
    as [[values isnull]| | |] eqn:Hform; cbn [mbind res_bind]; try done.
  2:{ by apply FormPartitionKeyDatum_loop_ends in Hform. }
  destruct (bool_decide (strategy k = PARTITION_STRATEGY_RANGE)
            && any_key_isnull isnull (partnatts k) 0); [done|].
  destruct (boundinfo desc) as [bi|] eqn:Hbi; [|done].
  cbn [deref mbind res_bind].
  assert (forall cur_index,
            (if cur_index <? 0
             then OK (NotRouted node (convert_slot node slot))
             else
               let next := pd_indexes node !!! Z.to_nat cur_index in
               if 0 <=? next then OK (Routed next)
               else
                 parent ← deref (pd !! Z.to_nat (- next));
                 get_partition_for_tuple_loop fuel pd parent
                   (convert_slot node slot)) <> OUT_OF_FUEL) as Hnext.
  { intros cur_index. destruct (cur_index <? 0); [done|]. cbn zeta.
    destruct (Z.leb_spec 0 (pd_indexes node !!! Z.to_nat cur_index))
      as [|Hneg]; [done|].
    rewrite list_lookup_total_alt in Hneg |- *.
    destruct (pd_indexes node !! Z.to_nat cur_index) as [e|] eqn:He;
      [|cbn in Hneg; lia].
    cbn [default from_option id] in *. unfold default in *.
    cbn [from_option id] in *.
    pose proof (Hforward i node _ e Hnode He Hneg) as Hlater.
    destruct (pd !! Z.to_nat (- e)) as [parent|] eqn:Hparent; [|done].
    cbn [deref mbind res_bind].
    apply (IH (Z.to_nat (- e))); [done|lia]. }
  destruct ((isnull !!! 0%nat) && partition_bound_accepts_nulls bi);
    cbn [mbind res_bind]; [apply Hnext|].
  destruct (negb (isnull !!! 0%nat)); cbn [mbind res_bind]; [|apply Hnext].
  pose proof (partition_bound_bsearch_ends k bi (ProbeDatums values) false
                false (Hbounded i node desc bi Hnode Hdesc Hbi)) as Hsearch.
  destruct (partition_bound_bsearch k bi (ProbeDatums values) false false)
    as [[cur_offset equal]| | |]; cbn [mbind res_bind]; try done.
  destruct (strategy k); cbn [mbind res_bind]; [| |done].
  - destruct ((0 <=? cur_offset) && equal); cbn [mbind res_bind];
      apply Hnext.
  - apply Hnext.
Qed.

(** X20: the walk of [get_partition_for_tuple] over the array that
    [RelationGetPartitionDispatchInfo] builds ends: every turn that goes on
    moves to a node at a greater position, so the body of the loop runs at
    most [num_parted] times, whatever the tuple, when no collection has
    more than [2 ^ 30] bounds. *)
Theorem get_partition_for_tuple_ends
    heap_open grk conv weight fuel rel pd leaf_part_oids slot :
  relkind_consistent heap_open grk ->
  finite_hierarchy heap_open weight ->
  (hierarchy_weight weight (rel_partition_oids rel) <= fuel)%nat ->
  RelationGetPartitionDispatchInfo heap_open grk conv fuel rel
  = OK (pd, leaf_part_oids) ->
  (forall i node desc bi,
     pd !! i = Some node -> partdesc node = Some desc ->
     boundinfo desc = Some bi -> 0 <= ndatums bi <= 2 ^ 30) ->
  get_partition_for_tuple pd slot <> OUT_OF_FUEL.
Proof.
  intros Hcons Hfin Hfuel Hrun Hbounded. unfold get_partition_for_tuple.
  destruct (pd !! 0%nat) as [root|] eqn:Hroot; [|done].
  cbn [deref mbind res_bind].
  apply (get_partition_for_tuple_loop_ends pd (length pd) 0 root slot);
    [|done|done|lia].
  by apply (RelationGetPartitionDispatchInfo_forward heap_open grk conv
              weight fuel rel pd leaf_part_oids).
Qed.

Lemma get_partition_for_tuple_ends_witness :
  exists pd leaf_part_oids,
    RelationGetPartitionDispatchInfo two_level_heap_open two_level_relkind
      no_conversion 4 (two_level_heap_open 1) = OK (pd, leaf_part_oids) /\
    get_partition_for_tuple pd (row_slot [Some 25]) <> OUT_OF_FUEL.
Proof.
  eexists _, _. split; [reflexivity|].
  eapply (get_partition_for_tuple_ends
            two_level_heap_open two_level_relkind no_conversion
           two_level_weight 4 (two_level_heap_open 1) _ _
           (row_slot [Some 25])
           two_level_relkind_consistent two_level_finite_hierarchy).
  - vm_compute. lia.
  - reflexivity.
  - intros i node desc bi Hnode Hdesc Hbi.
    destruct i as [|[|i]]; [| |done].
    + injection Hnode as <-. injection Hdesc as <-. injection Hbi as <-.
      by vm_compute.
    + injection Hnode as <-. injection Hdesc as <-. injection Hbi as <-.
      by vm_compute.
Defined.
(** ** Tuples compared as bounds *)

Lemma partition_rbound_datum_cmp_loop_return key d c t n i cmpval v :
  partition_rbound_datum_cmp_loop key d c t n i cmpval = LoopReturn v ->
  v = -1 \/ v = 1.
Proof.
  revert i cmpval. induction n as [|n IH]; intros i cmpval; [done|].
  cbn [partition_rbound_datum_cmp_loop].
  destruct (negb (is_finite (c !!! i))).
  { intros [= <-]. destruct (content_eqb _ _); auto. }
  destruct (negb (partsupfunc key i (d !!! i) (t !!! i) =? 0)); [done|].
  apply IH.
Qed.

(** X21: [partition_rbound_datum_cmp] and [partition_rbound_cmp] agree on
    tuples: comparing a bound with the key of a tuple gives the result of
    comparing it with the bound that has the values of the tuple in all
    its columns, except that, where the tuple comparison finds the two
    equal, the bound comparison goes on to order them by their edge
    kinds. *)
Theorem partition_rbound_datum_cmp_as_bound key d c lower values lower2 :
  (0 < partnatts key)%nat ->
  partition_rbound_cmp key d c lower (tuple_bound key values lower2)
  = (if partition_rbound_datum_cmp key d c values =? 0
     then (if eqb lower lower2 then 0 else if lower then 1 else -1)
     else partition_rbound_datum_cmp key d c values).
Proof.
  intros Hn. unfold partition_rbound_datum_cmp.
  rewrite partition_rbound_cmp_result.
  pose proof (partition_rbound_datum_cmp_loop_bound key d c values
                (rb_content (tuple_bound key values lower2))
                (partnatts key) 0 (-1)
                ltac:(auto using tuple_bound_finite) ltac:(lia)) as Hloop.
  destruct (partnatts key) as [|n] eqn:Hp; [lia|].
  rewrite partition_rbound_cmp_loop_cmpval in Hloop.
  cbn [rb_datums rb_lower tuple_bound] in *. rewrite <- Hloop.
  destruct (partition_rbound_datum_cmp_loop key d c values (S n) 0 (-1))
    as [v|v] eqn:Hrun; cbn [rbound_cmp_result].
  - by destruct (partition_rbound_datum_cmp_loop_return _ _ _ _ _ _ _ _ Hrun)
      as [-> | ->].
  - destruct (Z.eqb_spec v 0) as [->|Hv]; cbn [andb]; [|done].
    by destruct (eqb lower lower2).
Qed.

Lemma partition_rbound_datum_cmp_as_bound_witness :
  partition_rbound_cmp int4_range_key [20] [RANGE_DATUM_FINITE] false
    (tuple_bound int4_range_key [20] true)
  = (if partition_rbound_datum_cmp int4_range_key [20] [RANGE_DATUM_FINITE]
          [20] =? 0
     then (if eqb false true then 0 else if false then 1 else -1)
     else partition_rbound_datum_cmp int4_range_key [20]
            [RANGE_DATUM_FINITE] [20]).
Proof.
  apply (partition_rbound_datum_cmp_as_bound int4_range_key [20]
           [RANGE_DATUM_FINITE] false [20] true).
  vm_compute. lia.
Defined.
(** ** Slots and conversion maps of the dispatch nodes *)

Lemma has_parent_in_weaken heap_open rels rels' rp :
  rels ⊆ rels' -> has_parent_in heap_open rels rp ->
  has_parent_in heap_open rels' rp.
Proof.
  intros Hsub (parent & ? & ? & Hin). exists parent.
  split; [done|]. split; [done|]. by apply Hsub.
Qed.

Lemma collect_parted_rels_parents heap_open fuel all_parts root tail result :
  Forall (fun op => op.1 ∈ rel_partition_oids op.2 /\
                    op.2 ∈ root :: tail.*1) all_parts ->
  Forall (has_parent_in heap_open (root :: tail.*1)) tail ->
  collect_parted_rels heap_open fuel all_parts ((root, None) :: tail)
  = OK result ->
  exists tail',
    result = (root, None) :: tail' /\
    Forall (has_parent_in heap_open (root :: tail'.*1)) tail'.
Proof.
  revert all_parts tail.
  induction fuel as [|fuel IH]; intros all_parts tail Hparts Htail Hrun.
  { destruct all_parts as [|[o p] rest]; [|done].
    injection Hrun as <-. by exists tail. }
  destruct all_parts as [|[o p] rest].
  { injection Hrun as <-. by exists tail. }
  cbn [collect_parted_rels] in Hrun.
  apply Forall_cons in Hparts as [[Ho Hp] Hrest]. cbn [fst snd] in Ho, Hp.
  destruct (rd_partdesc (heap_open o)) as [d|] eqn:Hd.
  - set (tail1 := tail ++ [(heap_open o, Some p)]) in *.
    assert (root :: tail.*1 ⊆ root :: tail1.*1) as Hsub.
    { intros x Hx. unfold tail1. rewrite fmap_app.
      apply elem_of_cons in Hx as [->|Hx]; [by left|right].
      apply elem_of_app. by left. }
    apply (IH (APPEND_REL_PARTITION_OIDS (heap_open o) d rest) tail1);
      [| |exact Hrun].
    + unfold APPEND_REL_PARTITION_OIDS. apply Forall_app. split.
      * eapply Forall_impl; [exact Hrest|]. intros op [? Hin].
        split; [done|]. by apply Hsub.
      * apply Forall_fmap, Forall_forall. intros j Hj. cbn.
        apply elem_of_seq in Hj. split.
        -- unfold rel_partition_oids, partition_oids. rewrite Hd.
           apply list_elem_of_fmap. exists j. split; [done|].
           apply elem_of_seq. lia.
        -- unfold tail1. rewrite fmap_app. cbn. right.
           apply elem_of_app. right. by left.
    + apply Forall_app. split.
      * eapply Forall_impl; [exact Htail|]. intros rp.
        by apply has_parent_in_weaken.
      * constructor; [|constructor]. exists p. split; [done|]. split.
        -- by exists o.
        -- by apply Hsub.
  - by apply (IH rest tail).
Qed.

Lemma build_dispatch_loop_slots grk conv parted_rels k offset leafs pd
    leafs' :
  build_dispatch_loop grk conv parted_rels k offset leafs = OK (pd, leafs') ->
  Forall2 (fun rp node =>
             reldesc node = rp.1 /\ key node = rd_partkey rp.1 /\
             keystate node = [] /\
             match rp.2 with
             | Some parent =>
                 tupslot node = Some (rd_att rp.1) /\
                 tupmap node = conv (rd_att parent) (rd_att rp.1)
             | None => tupslot node = None /\ tupmap node = None
             end) parted_rels pd.
Proof.
  revert k offset leafs pd leafs'.
  induction parted_rels as [|[partrel parent] rest IH];
    intros k offset leafs pd leafs' Hrun.
  { injection Hrun as <- _. constructor. }
  cbn [build_dispatch_loop] in Hrun.
  destruct (rd_partdesc partrel) as [d|]; [|done].
  cbn [deref mbind res_bind] in Hrun.
  destruct (dispatch_indexes_loop grk _ offset k 0 leafs)
    as [indexes [[k' m] leafs1]].
  destruct parent as [parent|];
    (destruct (build_dispatch_loop grk conv rest k' (offset + m) leafs1)
       as [[pd1 leafs2]| | |] eqn:Hrest; [|done..];
     cbn [mbind res_bind] in Hrun; injection Hrun as <- <-;
     constructor; [by cbn|by eapply IH]).
Qed.

(** The slots and conversion maps of the dispatch array. *)
Lemma RelationGetPartitionDispatchInfo_slots_spec
    heap_open grk conv fuel rel pd leaf_part_oids :
  RelationGetPartitionDispatchInfo heap_open grk conv fuel rel
  = OK (pd, leaf_part_oids) ->
  (exists root, pd !! 0%nat = Some root /\ reldesc root = rel /\
     tupslot root = None /\ tupmap root = None) /\
  (forall i node, pd !! S i = Some node ->
     exists parent_node child,
       parent_node ∈ pd /\
       child ∈ rel_partition_oids (reldesc parent_node) /\
       reldesc node = heap_open child /\
       tupslot node = Some (rd_att (reldesc node)) /\
       tupmap node
       = conv (rd_att (reldesc parent_node)) (rd_att (reldesc node))) /\
  (forall node, node ∈ pd ->
     key node = rd_partkey (reldesc node) /\ keystate node = []).
Proof.
  intros Hrun. unfold RelationGetPartitionDispatchInfo in Hrun.
  destruct (rd_partdesc rel) as [d|] eqn:Hd; [|done].
  cbn [deref mbind res_bind] in Hrun.
  destruct (collect_parted_rels heap_open fuel
              (APPEND_REL_PARTITION_OIDS rel d []) [(rel, None)])
    as [P| | |] eqn:HP; [|done..].
  cbn [mbind res_bind] in Hrun.
  apply (collect_parted_rels_parents heap_open fuel _ rel []) in HP
    as (tail & -> & Htail).
  2:{ unfold APPEND_REL_PARTITION_OIDS. cbn [app].
      apply Forall_fmap, Forall_forall. intros j Hj. cbn.
      apply elem_of_seq in Hj. split; [|by left].
      unfold rel_partition_oids, partition_oids. rewrite Hd.
      apply list_elem_of_fmap. exists j. split; [done|].
      apply elem_of_seq. lia. }
  2:{ constructor. }
  apply build_dispatch_loop_slots in Hrun.
  apply Forall2_cons_inv_l in Hrun
    as (root & pd' & (Hroot & Hrkey & Hrstate & Hrslot & Hrmap) & Hrest & ->).
  cbn [fst snd] in *.
  assert (reldesc <$> pd' = tail.*1) as Hrels.
  { clear -Hrest.
    induction Hrest as [|rp node tail pd' (Hn & _) _ IH]; [done|].
    cbn. by rewrite Hn, IH. }
  split; [by exists root|]. split.
  - intros i node Hnode. cbn in Hnode.
    destruct (Forall2_lookup_r _ _ _ _ _ Hrest Hnode)
      as (rp & Hrp & Hrel & _ & _ & Hslots).
    pose proof (proj1 (Forall_forall _ _) Htail rp
                  (list_elem_of_lookup_2 _ _ _ Hrp))
      as (parent & Hpar & (child & Hchild & Hopen) & Hin).
    rewrite Hpar in Hslots. destruct Hslots as [Hslot Hmap].
    rewrite <- Hrels in Hin.
    assert (exists parent_node, parent_node ∈ root :: pd' /\
              reldesc parent_node = parent) as (pn & Hpn & <-).
    { apply elem_of_cons in Hin as [->|Hin].
      - exists root. split; [by left|done].
      - apply list_elem_of_fmap in Hin as (pn & -> & Hpn).
        exists pn. split; [by right|done]. }
    exists pn, child. rewrite Hrel. by repeat split.
  - intros node [->|Hnode]%elem_of_cons.
    + by rewrite Hroot.
    + apply list_elem_of_lookup in Hnode as [i Hi].
      destruct (Forall2_lookup_r _ _ _ _ _ Hrest Hi)
        as (rp & _ & Hrel & Hkey & Hstate & _).
      by rewrite Hrel.
Qed.


(** X22: the slots and conversion maps of the array that
    [RelationGetPartitionDispatchInfo] builds.  The root node has neither a
    slot nor a map.  Every other node is the node of a partition of the
    relation of some node of the array; its slot is made for its own
    descriptor, and its map is the one [convert_tuples_by_name] returns
    from the descriptor of that parent to its own.  Every node has the key
    of its relation and no expression state yet. *)
Theorem RelationGetPartitionDispatchInfo_slots
    heap_open grk conv fuel rel pd leaf_part_oids :
  RelationGetPartitionDispatchInfo heap_open grk conv fuel rel
  = OK (pd, leaf_part_oids) ->
  (exists root, pd !! 0%nat = Some root /\ reldesc root = rel /\
     tupslot root = None /\ tupmap root = None) /\
  (forall i node, pd !! S i = Some node ->
     exists parent_node child,
       parent_node ∈ pd /\
       child ∈ rel_partition_oids (reldesc parent_node) /\
       reldesc node = heap_open child /\
       tupslot node = Some (rd_att (reldesc node)) /\
       tupmap node
       = conv (rd_att (reldesc parent_node)) (rd_att (reldesc node))) /\
  (forall node, node ∈ pd ->
     key node = rd_partkey (reldesc node) /\ keystate node = []).
Proof. apply RelationGetPartitionDispatchInfo_slots_spec. Qed.

Lemma RelationGetPartitionDispatchInfo_slots_witness :
  exists pd leaf_part_oids,
    RelationGetPartitionDispatchInfo two_level_heap_open two_level_relkind
      no_conversion 4 (two_level_heap_open 1) = OK (pd, leaf_part_oids) /\
    (exists root, pd !! 0%nat = Some root /\
       reldesc root = two_level_heap_open 1 /\
       tupslot root = None /\ tupmap root = None) /\
    (forall i node, pd !! S i = Some node ->
       exists parent_node child,
         parent_node ∈ pd /\
         child ∈ rel_partition_oids (reldesc parent_node) /\
         reldesc node = two_level_heap_open child /\
         tupslot node = Some (rd_att (reldesc node)) /\
         tupmap node
         = no_conversion (rd_att (reldesc parent_node))
             (rd_att (reldesc node))) /\
    (forall node, node ∈ pd ->
       key node = rd_partkey (reldesc node) /\ keystate node = []).
Proof.
  eexists _, _. split; [reflexivity|].
  eapply (RelationGetPartitionDispatchInfo_slots two_level_heap_open
            two_level_relkind no_conversion 4 (two_level_heap_open 1)).
  reflexivity.
Defined.
(** ** The result of the walk is a leaf *)

(** The non-negative entries of the dispatch array lead to the leaves. *)
Lemma RelationGetPartitionDispatchInfo_leaf_entries
    heap_open grk conv weight fuel rel pd leaf_part_oids :
  relkind_consistent heap_open grk ->
  finite_hierarchy heap_open weight ->
  (hierarchy_weight weight (rel_partition_oids rel) <= fuel)%nat ->
  RelationGetPartitionDispatchInfo heap_open grk conv fuel rel
  = OK (pd, leaf_part_oids) ->
  forall i node,
    pd !! i = Some node ->
    partdesc node = rd_partdesc (reldesc node) /\
    length (pd_indexes node) = length (rel_partition_oids (reldesc node)) /\
    forall j e,
      pd_indexes node !! j = Some e -> 0 <= e ->
      exists child,
        rel_partition_oids (reldesc node) !! j = Some child /\
        is_leaf grk child /\ leaf_part_oids !! Z.to_nat e = Some child.
Proof.
  intros Hcons Hfin Hfuel Hrun i node Hnode.
  unfold RelationGetPartitionDispatchInfo in Hrun.
  destruct (rd_partdesc rel) as [d|] eqn:Hd; [|done].
  cbn [deref mbind res_bind] in Hrun.
  assert (rel_partition_oids rel = partition_oids d) as Hos
    by (unfold rel_partition_oids; by rewrite Hd).
  destruct (collect_parted_rels_spec heap_open weight rel fuel
              (APPEND_REL_PARTITION_OIDS rel d []) [(rel, None)] Hfin)
    as (P & HP & Hfix & Hall).
  { rewrite APPEND_REL_PARTITION_OIDS_fst. cbn. by rewrite <- Hos. }
  { rewrite APPEND_REL_PARTITION_OIDS_fst. cbn. rewrite app_nil_r.
    unfold partitioned_children. by rewrite Hos. }
  { cbn. constructor; [by rewrite Hd|constructor]. }
  rewrite HP in Hrun. cbn [mbind res_bind] in Hrun.
  destruct (build_dispatch_loop_spec grk conv P 0 0 [] Hall)
    as (pd' & leafs & Hbuild & Hleafs & Hrel & Hentries & Hnodes).
  rewrite Hbuild in Hrun. injection Hrun as -> ->.
  cbn [app] in Hleafs.
  destruct (Hnodes i node Hnode) as (Hpdesc & Hilen & Hidx).
  split; [done|]. split; [done|]. intros j e Hj He.
  destruct (lookup_lt_is_Some_2 (rel_partition_oids (reldesc node)) j)
    as [child Hchild].
  { rewrite <- Hilen. by eapply lookup_lt_Some. }
  rewrite (Hidx j child Hchild) in Hj. injection Hj as Hj.
  exists child. split; [done|].
  destruct (decide (is_partitioned grk child)) as [Hp|Hl]; [lia|].
  split; [done|].
  assert (P.*1 !! i = Some (reldesc node)) as HPi
    by (by rewrite <- Hrel, list_lookup_fmap, Hnode).
  rewrite Hleafs.
  replace (Z.to_nat e)
    with (length (concat (take i (leaf_oids grk <$> P.*1)))
          + length (filter (is_leaf grk)
                      (take j (rel_partition_oids (reldesc node)))))%nat
    by (rewrite <- fmap_take; lia).
  eapply lookup_concat_take.
  - by rewrite list_lookup_fmap, HPi.
  - by apply lookup_filter_take.
Qed.


(** The walk returns an entry of a node. *)
Lemma get_partition_for_tuple_loop_entry pd fuel i node slot r :
  (forall i node desc, pd !! i = Some node -> partdesc node = Some desc ->
     length (pd_indexes node) = Z.to_nat (nparts desc)) ->
  (forall i node k desc bi,
     pd !! i = Some node -> key node = Some k -> partdesc node = Some desc ->
     boundinfo desc = Some bi -> indexes_in_range k desc bi) ->
  pd !! i = Some node ->
  get_partition_for_tuple_loop fuel pd node slot = OK (Routed r) ->
  exists i' node' j,
    pd !! i' = Some node' /\ pd_indexes node' !! j = Some r /\ 0 <= r.
Proof.
  intros Hcount Hwf. revert i node slot.
  induction fuel as [|fuel IH]; intros i node slot Hnode Hrun; [done|].
  cbn [get_partition_for_tuple_loop] in Hrun.
  destruct (partdesc node) as [desc|] eqn:Hdesc; [|done].
  cbn [deref mbind res_bind] in Hrun.
  destruct (nparts desc =? 0); [done|].
  destruct (key node) as [k|] eqn:Hkey; [|done].
  cbn [deref mbind res_bind] in Hrun.
  destruct (FormPartitionKeyDatum node k (convert_slot node slot))
    as [[values isnull]| | |]; cbn [mbind res_bind] in Hrun; try done.
  destruct (bool_decide (strategy k = PARTITION_STRATEGY_RANGE)
            && any_key_isnull isnull (partnatts k) 0); [done|].
  destruct (boundinfo desc) as [bi|] eqn:Hbi; [|done].
  cbn [deref mbind res_bind] in Hrun.
  destruct (Hwf i node k desc bi Hnode Hkey Hdesc Hbi)
    as (Hnd & Hlen & Hindexes & Hni).
  pose proof (Hcount i node desc Hnode Hdesc) as Hslots.
  assert (forall cur_index,
            cur_index < nparts desc ->
            (if cur_index <? 0
             then OK (NotRouted node (convert_slot node slot))
             else
               let next := pd_indexes node !!! Z.to_nat cur_index in
               if 0 <=? next then OK (Routed next)
               else
                 parent ← deref (pd !! Z.to_nat (- next));
                 get_partition_for_tuple_loop fuel pd parent
                   (convert_slot node slot)) = OK (Routed r) ->
            exists i' node' j,
              pd !! i' = Some node' /\ pd_indexes node' !! j = Some r /\
              0 <= r) as Hnext.
  { intros cur_index Hlt. destruct (Z.ltb_spec cur_index 0); [done|].
    cbn zeta.
    destruct (lookup_lt_is_Some_2 (pd_indexes node) (Z.to_nat cur_index)
                ltac:(lia)) as [e He].
    rewrite (list_lookup_total_correct _ _ _ He).
    destruct (Z.leb_spec 0 e).
    - intros [= <-]. by exists i, node, (Z.to_nat cur_index).
    - destruct (pd !! Z.to_nat (- e)) as [parent|] eqn:Hparent; [|done].
      cbn [deref mbind res_bind]. by apply (IH (Z.to_nat (- e))). }
  assert (forall off, 0 <= off < Z.of_nat (length (indexes bi)) ->
            indexes bi !!! Z.to_nat off < nparts desc) as Hentry.
  { intros off Hoff.
    destruct (lookup_lt_is_Some_2 (indexes bi) (Z.to_nat off) ltac:(lia))
      as [x Hx].
    rewrite (list_lookup_total_correct _ _ _ Hx).
    exact (proj1 (Forall_forall _ _) Hindexes x
             (list_elem_of_lookup_2 _ _ _ Hx)). }
  destruct ((isnull !!! 0%nat) && partition_bound_accepts_nulls bi);
    cbn [mbind res_bind] in Hrun; [by apply (Hnext (null_index bi))|].
  destruct (negb (isnull !!! 0%nat)); cbn [mbind res_bind] in Hrun;
    [|done].
  destruct (decide (strategy k = PARTITION_STRATEGY_UNKNOWN)) as [Hu|Hk].
  { destruct (partition_bound_bsearch k bi (ProbeDatums values) false false)
      as [[cur_offset equal]| | |]; cbn [mbind res_bind] in Hrun; try done.
    by rewrite Hu in Hrun. }
  destruct (partition_bound_bsearch_loop_any k bi (ProbeDatums values) false
              (Z.to_nat (ndatums bi)) (-1) (ndatums bi - 1) false Hk)
    as (off & eq' & Hsearch & Hoff & _); [lia..|].
  unfold partition_bound_bsearch in Hrun. rewrite Hsearch in Hrun.
  cbn [mbind res_bind] in Hrun.
  destruct (strategy k) eqn:Hstrat; cbn [mbind res_bind] in Hrun; [| |done].
  - rewrite decide_False in Hlen by done.
    destruct (Z.leb_spec 0 off); cbn [andb] in Hrun.
    + destruct eq'; cbn [mbind res_bind] in Hrun.
      * apply (Hnext _ (Hentry off ltac:(lia)) Hrun).
      * done.
    + done.
  - rewrite decide_True in Hlen by done.
    apply (Hnext _ (Hentry (off + 1) ltac:(lia)) Hrun).
Qed.

(** X23: over the array that [RelationGetPartitionDispatchInfo] builds,
    with well-formed collections in its nodes, a non-negative result of
    [get_partition_for_tuple] is the entry of a slot of some node, and it
    is the position in [leaf_part_oids] of the partition in that slot,
    which is a leaf. *)
Theorem get_partition_for_tuple_leaf
    heap_open grk conv weight fuel rel pd leaf_part_oids slot r :
  relkind_consistent heap_open grk ->
  finite_hierarchy heap_open weight ->
  (hierarchy_weight weight (rel_partition_oids rel) <= fuel)%nat ->
  RelationGetPartitionDispatchInfo heap_open grk conv fuel rel
  = OK (pd, leaf_part_oids) ->
  (forall i node k desc bi,
     pd !! i = Some node -> key node = Some k -> partdesc node = Some desc ->
     boundinfo desc = Some bi -> indexes_in_range k desc bi) ->
  get_partition_for_tuple pd slot = OK (Routed r) ->
  0 <= r /\
  exists node j child,
    node ∈ pd /\ pd_indexes node !! j = Some r /\
    rel_partition_oids (reldesc node) !! j = Some child /\
    is_leaf grk child /\ leaf_part_oids !! Z.to_nat r = Some child.
Proof.
  intros Hcons Hfin Hfuel Hbuild Hwf Hrun.
  pose proof (RelationGetPartitionDispatchInfo_leaf_entries heap_open grk
                conv weight fuel rel pd leaf_part_oids Hcons Hfin Hfuel
                Hbuild) as Hnodes.
  unfold get_partition_for_tuple in Hrun.
  destruct (pd !! 0%nat) as [root|] eqn:Hroot; [|done].
  cbn [deref mbind res_bind] in Hrun.
  destruct (get_partition_for_tuple_loop_entry pd (length pd) 0 root slot r)
    as (i & node & j & Hnode & Hj & Hr); [|done|done|done|].
  { intros i node desc Hnode Hdesc.
    destruct (Hnodes i node Hnode) as (Hpdesc & Hlen & _).
    rewrite Hlen. unfold rel_partition_oids. rewrite <- Hpdesc, Hdesc.
    unfold partition_oids. by rewrite length_fmap, length_seq. }
  split; [done|].
  destruct (Hnodes i node Hnode) as (_ & _ & Hentries).
  destruct (Hentries j r Hj Hr) as (child & Hchild & Hleaf & Hpos).
  exists node, j, child. split; [by eapply list_elem_of_lookup_2|done].
Qed.

Lemma get_partition_for_tuple_leaf_witness :
  exists pd leaf_part_oids,
    RelationGetPartitionDispatchInfo two_level_heap_open two_level_relkind
      no_conversion 4 (two_level_heap_open 1) = OK (pd, leaf_part_oids) /\
    get_partition_for_tuple pd (row_slot [Some 15]) = OK (Routed 0) /\
    0 <= 0 /\
    exists node j child,
      node ∈ pd /\ pd_indexes node !! j = Some 0 /\
      rel_partition_oids (reldesc node) !! j = Some child /\
      is_leaf two_level_relkind child /\
      leaf_part_oids !! Z.to_nat 0 = Some child.
Proof.
  eexists _, _. split; [reflexivity|]. split; [reflexivity|].
  eapply (get_partition_for_tuple_leaf two_level_heap_open
            two_level_relkind no_conversion two_level_weight 4
            (two_level_heap_open 1) _ _ (row_slot [Some 15]) 0
            two_level_relkind_consistent two_level_finite_hierarchy).
  - vm_compute. lia.
  - reflexivity.
  - intros i node k desc bi Hnode Hkey Hdesc Hbi.
    destruct i as [|[|i]]; [| |done].
    + injection Hnode as <-. injection Hkey as <-. injection Hdesc as <-.
      injection Hbi as <-.
      split; [by vm_compute|]. split; [by vm_compute|].
      split; [by repeat constructor|done].
    + injection Hnode as <-. injection Hkey as <-. injection Hdesc as <-.
      injection Hbi as <-.
      split; [by vm_compute|]. split; [by vm_compute|].
      split; [by repeat constructor|done].
  - reflexivity.
Defined.
(** ** Built collections are well formed *)

(** X24: the collection that [RelationBuildPartitionDesc] builds for a
    valid, non-empty set of partitions is well formed for the walk: its
    [indexes] array has an entry for every bound (and one more for a range
    key), and every index it holds, like [null_index], is below [nparts].
    The size limits keep [ndatums] within [2 ^ 30]. *)
Theorem RelationBuildPartitionDesc_indexes_in_range
    qsort_arg junk key inhoids :
  qsort_arg_spec qsort_arg -> column_orders key -> (0 < partnatts key)%nat ->
  valid_partitions key (scanned_boundspecs inhoids) ->
  scanned_partitions inhoids <> [] ->
  Z.of_nat (length (scanned_partitions inhoids)) <= 2 ^ 29 ->
  Z.of_nat (length (all_list_values 0 (scanned_boundspecs inhoids)))
  <= 2 ^ 30 ->
  exists desc bi,
    RelationBuildPartitionDesc qsort_arg junk (Some key) inhoids
    = OK (Some desc) /\
    boundinfo desc = Some bi /\ indexes_in_range key desc bi.
Proof.
  intros Hq Hcol Hn Hvalid Hne Hparts Hvalues.
  assert (0 < length (scanned_partitions inhoids))%nat as Hpos.
  { destruct (scanned_partitions inhoids); [done|]. cbn. lia. }
  assert (length (scanned_boundspecs inhoids)
          = length (scanned_partitions inhoids)) as Hlen
    by apply length_fmap.
  unfold valid_partitions in Hvalid.
  destruct (strategy key) eqn:Hstrat; [| |done].
  - destruct (RelationBuildPartitionDesc_list_form qsort_arg junk key inhoids
                Hq Hcol Hn Hstrat Hne Hvalid)
      as (ni & all_values & mapping & desc & bi & Hdesc & Hbi & Hnparts & _
          & (_ & Hord & _) & _ & Hperm & _ & Hni & Hcoll).
    exists desc, bi. split; [done|]. split; [done|].
    destruct Hcoll as (_ & Hnd & _ & _ & Hindexes & Hnull).
    unfold indexes_in_range. rewrite Hstrat, Hnd, Hindexes, Hnull, Hnparts.
    rewrite decide_False by done. rewrite length_fmap.
    apply Permutation_length in Hperm as Hlenv.
    split; [lia|]. split; [lia|]. split.
    + apply Forall_fmap, Forall_forall. intros v Hv. cbn.
      rewrite Hperm in Hv.
      apply elem_of_all_list_values in Hv as (p & s & c & Hp & _ & _ & ->).
      cbn. rewrite Z.add_0_l, Nat2Z.id.
      apply lookup_lt_Some in Hp. pose proof (Hord p ltac:(lia)). lia.
    + destruct Hni as [[-> _]|(p & spec & Hp & _ & ->)]; [cbn; lia|].
      apply lookup_lt_Some in Hp.
      destruct (Z.eqb_spec (Z.of_nat p) (-1)); [lia|].
      rewrite Nat2Z.id. pose proof (Hord p ltac:(lia)). lia.
  - destruct (RelationBuildPartitionDesc_canonical_range qsort_arg junk key
                inhoids Hq Hcol Hn Hstrat Hne Hvalid)
      as (rbounds & mapping & desc & bi & Hdesc & Hbi & Hnparts & _ & _
          & Hcanon).
    exists desc, bi. split; [done|]. split; [done|].
    destruct (canonical_range_ndatums key _ rbounds mapping bi Hcanon
                ltac:(lia)) as [Hnd Hrange].
    pose proof Hcanon as (_ & _ & _ & _ & _ & _ & _ & _ & Hcoll).
    destruct Hcoll as (_ & _ & Hnull & _ & Hindexes & _).
    unfold indexes_in_range. rewrite Hstrat, Hindexes, Hnull, Hnparts.
    rewrite decide_True by done. rewrite length_app, length_fmap. cbn [length].
    split; [done|]. split; [lia|]. split; [|lia].
    apply Forall_app. split; [|constructor; [lia|constructor]].
    apply Forall_fmap, Forall_forall. intros b Hb. cbn.
    destruct (rb_lower b); [lia|].
    pose proof (canonical_range_ordinal key _ rbounds mapping bi b Hcanon Hb).
    lia.
Qed.

Lemma RelationBuildPartitionDesc_indexes_in_range_witness :
  exists desc bi,
    RelationBuildPartitionDesc insertion_sort no_junk (Some int4_list_key)
      two_list_rows = OK (Some desc) /\
    boundinfo desc = Some bi /\ indexes_in_range int4_list_key desc bi.
Proof.
  apply (RelationBuildPartitionDesc_indexes_in_range insertion_sort no_junk
           int4_list_key two_list_rows
           insertion_sort_spec int4_list_key_orders).
  - vm_compute. lia.
  - apply two_list_rows_valid.
  - discriminate.
  - vm_compute. discriminate.
  - vm_compute. discriminate.
Defined.

(** ** One slot for an upper and a lower bound of the same value *)

(** A lower bound that an upper bound of the same finite value stands for
    is not among the distinct bounds. *)
Lemma merged_lower_not_stored key specs rbounds mapping bi p lp up q lq uq :
  canonical_range key specs rbounds mapping bi ->
  partition_edges key specs p lp up -> partition_edges key specs q lq uq ->
  same_finite_value key lq up -> lq ∉ rbounds.
Proof.
  intros (Hcol & _ & _ & _ & _ & (Hsorted & _ & Hkept) & _) Hp Hq Hsame Hin.
  destruct (Hkept p lp up Hp) as [Hup _].
  destruct (partition_edges_fields key specs p lp up Hp)
    as (_ & _ & _ & _ & Hupper & _).
  destruct (partition_edges_fields key specs q lq uq Hq)
    as (_ & _ & Hlower & _).
  apply list_elem_of_lookup in Hup as [i Hi].
  apply list_elem_of_lookup in Hin as [j Hj].
  pose proof (same_finite_value_sym key lq up Hcol Hsame) as Hsame'.
  pose proof (same_finite_value_cmp key up lq Hsame') as Hcmp.
  rewrite Hupper, Hlower in Hcmp. cbn in Hcmp.
  assert (i < j)%nat as Hij.
  { apply (strictly_sorted_position key rbounds i j up lq); [done..|lia]. }
  destruct (StronglySorted_lookup_lt _ _ i j up lq Hsorted Hij Hi Hj)
    as [_ Hprobe].
  assert (forall j, (j < partnatts key)%nat ->
            rb_content lq !!! j = RANGE_DATUM_FINITE) as Hfin.
  { intros c Hc. by destruct (Hsame c ltac:(lia)) as (? & _). }
  pose proof (tuple_bound_same_value key lq true Hcol Hfin) as H1.
  pose proof (tuple_bound_same_value key lq false Hcol Hfin) as H0.
  specialize (Hprobe (rb_datums lq)).
  rewrite (same_finite_value_cmp key lq _
             (same_finite_value_sym key _ _ Hcol H1)), Hlower in Hprobe.
  assert (same_finite_value key up (tuple_bound key (rb_datums lq) false))
    as Hu0.
  { eapply same_finite_value_trans; [done|exact Hsame'|].
    by apply same_finite_value_sym. }
  rewrite (same_finite_value_cmp key up _ Hu0), Hupper in Hprobe.
  cbn in Hprobe. lia.
Qed.

(** In a valid set of range partitions, two lower bounds that compare
    equal are the lower bound of one partition. *)
Lemma lower_bounds_tie key specs r lr ur q lq uq :
  column_orders key -> valid_range_partitions key specs ->
  partition_edges key specs r lr ur -> partition_edges key specs q lq uq ->
  qsort_partition_rbound_cmp key lr lq = 0 -> lr = lq.
Proof.
  intros Hcol Hvalid Hr Hq Htie.
  destruct (decide (r = q)) as [->|Hne].
  { by destruct (partition_edges_functional key specs q lr ur lq uq Hr Hq). }
  exfalso.
  pose proof (valid_partition_edges key specs r lr ur Hvalid Hr) as Hlr.
  pose proof (valid_partition_edges key specs q lq uq Hvalid Hq) as Hlq.
  pose proof (qsort_partition_rbound_cmp_antisym key lr lq Hcol) as Hanti.
  pose proof (qsort_partition_rbound_cmp_antisym key lq lr Hcol) as Hanti'.
  destruct (partition_edges_apart key specs r q lr ur lq uq Hvalid Hne Hr Hq)
    as [Hapart|Hapart].
  - pose proof (rbound_lt_le_trans key lr ur lq Hcol Hlr ltac:(lia)). lia.
  - pose proof (rbound_lt_le_trans key lq uq lr Hcol Hlq ltac:(lia)). lia.
Qed.

(** Two bounds of the same edge kind with the same content tags and the
    same datums in the finite columns compare equal. *)
Lemma same_cells_cmp key a b :
  column_orders key -> rb_lower a = rb_lower b ->
  copy_range_content key a = copy_range_content key b ->
  (forall j, (j < partnatts key)%nat ->
     rb_content a !!! j = RANGE_DATUM_FINITE ->
     rb_datums a !!! j = rb_datums b !!! j) ->
  qsort_partition_rbound_cmp key a b = 0.
Proof.
  intros Hcol Hlower Htags Hdatums.
  rewrite <- (rbound_cmp_refl key b Hcol).
  unfold qsort_partition_rbound_cmp. rewrite !partition_rbound_cmp_result.
  rewrite Hlower. f_equal.
  apply partition_rbound_cmp_loop_ext. intros j Hj.
  assert (rb_content a !!! j = rb_content b !!! j) as Htag.
  { apply (f_equal (.!! j)) in Htags. unfold copy_range_content in Htags.
    rewrite !list_lookup_fmap, lookup_seq_lt in Htags by lia.
    cbn in Htags. by injection Htags. }
  split; [done|]. apply Hdatums. lia.
Qed.

(** A slot with the index -1 that stores the tags and the datums of the
    lower bound of a partition holds that bound. *)
Lemma stored_lower_bound key specs rbounds mapping bi q lq uq k :
  canonical_range key specs rbounds mapping bi ->
  partition_edges key specs q lq uq ->
  stores_bound key bi k lq -> indexes bi !! k = Some (-1) ->
  rbounds !! k = Some lq.
Proof.
  intros Hcanon Hq (Hk & Htags & row & Hrow & Hdatums) Hindex.
  pose proof Hcanon
    as (Hcol & _ & _ & Hvalid & _ & (_ & Hmem & _) & _ & Hbij & Hcoll).
  pose proof Hcoll as (_ & Hnd & _ & Hcontent & _ & Hrows).
  destruct (lookup_lt_is_Some_2 rbounds k) as [b Hb]; [lia|].
  destruct (range_collection_stores key rbounds mapping bi k b Hcoll Hb)
    as [(_ & Htags' & row' & Hrow' & Hdatums') Hindex'].
  rewrite Htags in Htags'. rewrite Hrow in Hrow'.
  injection Htags' as Htags'. injection Hrow' as <-.
  rewrite Hindex in Hindex'. injection Hindex' as Hindex'.
  destruct (Hmem b (list_elem_of_lookup_2 _ _ _ Hb))
    as (r & lr & ur & Hr & Hbr).
  destruct (partition_edges_fields key specs r lr ur Hr)
    as (Hrlen & Hlri & Hlrl & Huri & Hurl & _).
  destruct (partition_edges_fields key specs q lq uq Hq)
    as (_ & _ & Hlql & _).
  destruct Hbr as [->| ->].
  - rewrite <- (lower_bounds_tie key specs r lr ur q lq uq Hcol Hvalid Hr Hq);
      [done|].
    apply same_cells_cmp; [done|congruence|done|].
    intros j Hj Hfin. rewrite <- Hdatums' by done.
    apply Hdatums; [done|].
    apply (f_equal (.!! j)) in Htags'. unfold copy_range_content in Htags'.
    rewrite !list_lookup_fmap, lookup_seq_lt in Htags' by lia.
    cbn in Htags'. injection Htags' as Htags'. congruence.
  - rewrite Hurl, Huri, Nat2Z.id in Hindex'.
    destruct Hbij as (_ & Hrange & _). specialize (Hrange r Hrlen). lia.
Qed.

(** In a canonical collection the upper bound of a partition whose lower
    bound was merged comes right after the upper bound that stands for
    it. *)
Lemma canonical_range_adjacent_merged key specs rbounds mapping bi
    p lp up q lq uq k :
  canonical_range key specs rbounds mapping bi ->
  partition_edges key specs p lp up -> partition_edges key specs q lq uq ->
  same_finite_value key lq up ->
  rbounds !! k = Some up -> rbounds !! S k = Some uq.
Proof.
  intros Hcanon Hp Hq Hsame Hk.
  pose proof Hcanon
    as (Hcol & _ & _ & Hvalid & _ & (Hsorted & Hmem & Hkept) & _).
  pose proof (merged_lower_not_stored key specs rbounds mapping bi
                p lp up q lq uq Hcanon Hp Hq Hsame) as Hout.
  destruct (partition_edges_fields key specs p lp up Hp)
    as (_ & _ & _ & _ & Hupper & _).
  destruct (partition_edges_fields key specs q lq uq Hq)
    as (_ & _ & Hlower & _ & _ & Hlqc & _).
  destruct (Hkept q lq uq Hq) as [Huq _].
  apply list_elem_of_lookup in Huq as [j Hj].
  pose proof (valid_partition_edges key specs q lq uq Hvalid Hq) as Hlt.
  pose proof (same_finite_value_cmp key up lq
                (same_finite_value_sym key lq up Hcol Hsame)) as Hcmp.
  rewrite Hupper, Hlower in Hcmp. cbn in Hcmp.
  assert (qsort_partition_rbound_cmp key up uq < 0) as Hlt'.
  { apply (rbound_lt_le_trans key up lq uq Hcol); lia. }
  pose proof (strictly_sorted_position key rbounds k j up uq Hcol
                Hsorted Hk Hj Hlt') as Hkj.
  destruct (decide (j = S k)) as [->|Hne]; [done|exfalso].
  destruct (lookup_lt_is_Some_2 rbounds (S k)) as [b Hb].
  { apply lookup_lt_Some in Hj. lia. }
  pose proof (list_elem_of_lookup_2 _ _ _ Hb) as Hbin.
  destruct (Hmem b Hbin) as (r & lr & ur & Hr & Hbr).
  assert (qsort_partition_rbound_cmp key up b < 0) as Hub
    by (by apply (strictly_sorted_lt key rbounds k (S k)); [| | |lia]).
  assert (qsort_partition_rbound_cmp key b uq < 0) as Hbu
    by (by apply (strictly_sorted_lt key rbounds (S k) j); [| | |lia]).
  assert (qsort_partition_rbound_cmp key lq b <= 0) as Hle.
  { apply rbound_cmp_ge; [done|]. intros Hbl.
    by apply (nothing_between_merged key lq up b Hcol Hsame Hupper Hlower). }
  destruct (decide (qsort_partition_rbound_cmp key lq b = 0)) as [Htie|Hnt].
  - destruct (partition_edges_fields key specs r lr ur Hr)
      as (_ & _ & _ & _ & Hurl & Hlrc & Hurc).
    pose proof (qsort_partition_rbound_cmp_antisym key lq b Hcol) as Ha.
    pose proof (qsort_partition_rbound_cmp_antisym key b lq Hcol) as Ha'.
    destruct Hbr as [->| ->].
    + apply Hout.
      rewrite <- (lower_bounds_tie key specs r lr ur q lq uq Hcol Hvalid
                    Hr Hq); [done|lia].
    + by destruct (lower_upper_cmp_nonzero key lq ur Hlqc Hurc Hlower Hurl).
  - apply (nothing_inside_partition key specs q lq uq r lr ur b
             Hcol Hvalid Hq Hr Hbr).
    split; [lia|done].
Qed.

(** In a canonical collection the upper bound of every partition has a
    slot, with the ordinal of the partition. *)
Lemma canonical_range_upper_slot key specs rbounds mapping bi desc
    p lp up oid k :
  canonical_range key specs rbounds mapping bi ->
  partition_edges key specs p lp up ->
  oids desc !! Z.to_nat (mapping !!! p) = Some oid ->
  rbounds !! k = Some up ->
  upper_slot key desc bi k up oid.
Proof.
  intros (_ & _ & _ & _ & _ & _ & _ & Hbij & Hcoll) Hp Hoid Hk.
  destruct (partition_edges_fields key specs p lp up Hp)
    as (Hlen & _ & _ & Hindex & Hupper & _).
  destruct (range_collection_stores key rbounds mapping bi k up Hcoll Hk)
    as [Hstores Hidx].
  rewrite Hupper, Hindex, Nat2Z.id in Hidx.
  split; [done|]. exists (mapping !!! p). split; [done|]. split; [|done].
  destruct Hbij as (_ & Hrange & _). specialize (Hrange p Hlen). lia.
Qed.

(** C2, corrected: in the descriptor built for a valid set of range
    partitions, the upper bound of every partition has a slot, whose index
    is the ordinal of that partition.  The lower bound of a partition has a
    slot of its own (with the index -1) exactly when no partition has an
    upper bound of the same finite value in every column.  When the upper
    bound [up] of a partition [p] and the lower bound [lq] of a partition
    [q] have the same finite value, one slot stands for both: it stores
    [up] with the ordinal of [p], the partition that [up] closes, and the
    very next slot is that of the upper bound of [q]. *)
Theorem same_value_bounds_merged qsort_arg junk key inhoids :
  qsort_arg_spec qsort_arg -> column_orders key -> (0 < partnatts key)%nat ->
  strategy key = PARTITION_STRATEGY_RANGE ->
  valid_range_partitions key (scanned_boundspecs inhoids) ->
  exists desc,
    RelationBuildPartitionDesc qsort_arg junk (Some key) inhoids
    = OK (Some desc) /\
    forall q part_q lq uq,
      scanned_partitions inhoids !! q = Some part_q ->
      range_edges key (Z.of_nat q) (relpartbound part_q) lq uq ->
      exists bi, boundinfo desc = Some bi /\
        (exists k, upper_slot key desc bi k uq (inhrelid part_q)) /\
        ((exists k, lower_slot key bi k lq) <->
         ~ exists p part_p lp up,
             scanned_partitions inhoids !! p = Some part_p /\
             range_edges key (Z.of_nat p) (relpartbound part_p) lp up /\
             same_finite_value key lq up) /\
        (forall p part_p lp up,
           scanned_partitions inhoids !! p = Some part_p ->
           range_edges key (Z.of_nat p) (relpartbound part_p) lp up ->
           same_finite_value key lq up ->
           exists k, upper_slot key desc bi k up (inhrelid part_p) /\
                     upper_slot key desc bi (S k) uq (inhrelid part_q)).
Proof.
  intros Hqs Hcol Hn Hstrat Hvalid.
  destruct (decide (scanned_partitions inhoids = [])) as [Hnone|Hsome].
  { eexists. split; [by apply RelationBuildPartitionDesc_no_partition|].
    intros q part_q lq uq Hq. by rewrite Hnone in Hq. }
  destruct (RelationBuildPartitionDesc_canonical_range qsort_arg junk key
              inhoids Hqs Hcol Hn Hstrat Hsome Hvalid)
    as (rbounds & mapping & desc & bi & Hrun & Hbi & _ & _ & Hown & Hcanon).
  exists desc. split; [done|].
  intros q part_q lq uq Hpart Hedges. exists bi. split; [done|].
  set (specs := scanned_boundspecs inhoids) in *.
  assert (partition_edges key specs q lq uq) as Hq
    by (apply scanned_partition_edges; eauto).
  pose proof Hcanon
    as (_ & _ & _ & _ & _ & (_ & Hmem & Hkept) & _ & _ & Hcoll).
  destruct (Hkept q lq uq Hq) as [Huq Hlq].
  split; [|split].
  - apply list_elem_of_lookup in Huq as [k Hk]. exists k.
    by apply (canonical_range_upper_slot key specs rbounds mapping bi desc
                q lq uq); [| |apply Hown|].
  - split.
    + intros (k & Hstores & Hindex) (p & part_p & lp & up & Hp & Hpe & Hsame).
      assert (partition_edges key specs p lp up) as Hp'
        by (apply scanned_partition_edges; eauto).
      apply (merged_lower_not_stored key specs rbounds mapping bi
               p lp up q lq uq Hcanon Hp' Hq Hsame).
      eapply list_elem_of_lookup_2.
      by apply (stored_lower_bound key specs rbounds mapping bi q lq uq k).
    + intros Hnone.
      destruct (partition_edges_fields key specs q lq uq Hq)
        as (_ & _ & Hlower & _).
      destruct Hlq as [Hin|(u & Hu & Hul & _ & Hsame)].
      * apply list_elem_of_lookup in Hin as [k Hk]. exists k.
        destruct (range_collection_stores key rbounds mapping bi k lq
                    Hcoll Hk) as [Hstores Hindex].
        rewrite Hlower in Hindex. by split.
      * exfalso. apply Hnone.
        destruct (Hmem u Hu) as (p & lp & up & Hp & Hup).
        destruct (partition_edges_fields key specs p lp up Hp)
          as (_ & _ & Hlpl & _).
        destruct Hup as [->| ->]; [congruence|].
        apply scanned_partition_edges in Hp as (part_p & Hp & Hpe).
        by exists p, part_p, lp, up.
  - intros p part_p lp up Hp Hpe Hsame.
    assert (partition_edges key specs p lp up) as Hp'
      by (apply scanned_partition_edges; eauto).
    destruct (Hkept p lp up Hp') as [Hup _].
    apply list_elem_of_lookup in Hup as [k Hk]. exists k. split.
    + by apply (canonical_range_upper_slot key specs rbounds mapping bi desc
                  p lp up); [| |apply Hown|].
    + apply (canonical_range_upper_slot key specs rbounds mapping bi desc
               q lq uq); [done|done|by apply Hown|].
      by apply (canonical_range_adjacent_merged key specs rbounds mapping bi
                  p lp up q lq uq k).
Qed.

Lemma same_value_bounds_merged_witness :
  exists desc bi,
    RelationBuildPartitionDesc insertion_sort no_junk (Some int4_range_key)
      two_range_rows = OK (Some desc) /\
    boundinfo desc = Some bi /\
    ~ (exists k, lower_slot int4_range_key bi k lower_20) /\
    exists k, upper_slot int4_range_key desc bi k upper_20 101 /\
              upper_slot int4_range_key desc bi (S k) upper_30 102.
Proof.
  destruct (same_value_bounds_merged insertion_sort no_junk int4_range_key
              two_range_rows insertion_sort_spec int4_range_key_orders)
    as (desc & Hrun & Hslots).
  - cbn. lia.
  - done.
  - apply two_range_rows_valid.
  - destruct (Hslots 1%nat (partition_row 102 (range_spec 20 30))
                lower_20 upper_30) as (bi & Hbi & _ & Hlower & Hmerged).
    + done.
    + by repeat split.
    + exists desc, bi. split; [done|]. split; [done|]. split.
      * intros Hk. apply Hlower in Hk. apply Hk.
        exists 0%nat, (partition_row 101 (range_spec 10 20)), lower_10, upper_20.
        split; [done|]. split; [by repeat split|].
        intros j Hj. assert (j = 0%nat) as -> by (cbn in Hj; lia).
        by vm_compute.
      * apply (Hmerged 0%nat (partition_row 101 (range_spec 10 20))
                 lower_10 upper_20); [done|by repeat split|].
        intros j Hj. assert (j = 0%nat) as -> by (cbn in Hj; lia).
        by vm_compute.
Defined.
